(** * RLP codec of go-ethereum (package rlp): a shallow embedding.

    The development follows the Go sources:
    - rlp/encode.go, rlp/encbuffer.go   (encoder, deferred list headers)
    - rlp/raw.go                         (stateless helpers on encoded bytes)
    - rlp/decode.go                      (the pull parser [Stream] and the decoders)
    - rlp/typecache.go                   (struct field analysis)
    - rlp/internal/rlpstruct/rlpstruct.go (struct tags)

    Conventions.  A Go [byte] is a [Z] in [0,256) and [byte x] is the
    conversion [x mod 256]; a [uint64] is a [Z] in [0,2^64) and [uint64 x]
    is [x mod 2^64]; a Go [int] (lengths, offsets) is a [Z].  A byte slice
    or a string is a [list Z].  Functions that write into a scratch buffer
    and return the number of bytes written are modelled by the list of the
    bytes they write. *)

From Stdlib Require Import ZArith List Lia Bool String Ascii DecimalString.
Import ListNotations.
Open Scope Z_scope.

Set Implicit Arguments.
Set Warnings "-register-all".

(** ** Machine integers *)

Definition byte (x : Z) : Z := x mod 256.
Definition uint64 (x : Z) : Z := x mod 2 ^ 64.

Definition is_byte (b : Z) : Prop := 0 <= b < 256.
Definition is_bytes (l : list Z) : Prop := Forall is_byte l.

Definition len {A} (l : list A) : Z := Z.of_nat (List.length l).

(** ** Errors (decode.go, encode.go, rlpstruct.go)

    Every Go error value of the package is a constructor.  [decodeError]
    carries the message, the name of the target type and the context
    breadcrumbs; [TagError] is rlpstruct's struct.  [goPanic] stands
    for a run-time panic (package reflect on a value that does not have the
    kind its type promises, a slice index out of range), and [loopBudget]
    for a decoding loop that was given too small a bound (see
    [decodeSliceElems]). *)

Inductive error : Type :=
| EOL
| ErrExpectedString
| ErrExpectedList
| ErrCanonInt
| ErrCanonSize
| ErrElemTooLarge
| ErrValueTooLarge
| ErrMoreThanOneValue
| errNotInList
| errNotAtEOL
| errUintOverflow
| errNoPointer
| errDecodeIntoNil
| errUint256Large
| io_EOF
| io_ErrUnexpectedEOF
| errWrongSize (size want : Z)
| errInvalidBool (num : Z)
| decodeError (msg : string) (typ : string) (ctx : list string)
| TagError (StructType Field Tag Err : string)
| structFieldError (typ : string) (field : Z) (err : error)
| errNotSerializable (typ : string)
| goPanic
| loopBudget.

(** ** Integer helpers (encode.go) *)

(** [putint] writes [i] big endian with the least number of bytes. *)
Definition putint (i : Z) : list Z :=
  if i <? 2 ^ 8 then [byte i]
  else if i <? 2 ^ 16 then [byte (Z.shiftr i 8); byte i]
  else if i <? 2 ^ 24 then [byte (Z.shiftr i 16); byte (Z.shiftr i 8); byte i]
  else if i <? 2 ^ 32 then
    [byte (Z.shiftr i 24); byte (Z.shiftr i 16); byte (Z.shiftr i 8); byte i]
  else if i <? 2 ^ 40 then
    [byte (Z.shiftr i 32); byte (Z.shiftr i 24); byte (Z.shiftr i 16);
     byte (Z.shiftr i 8); byte i]
  else if i <? 2 ^ 48 then
    [byte (Z.shiftr i 40); byte (Z.shiftr i 32); byte (Z.shiftr i 24);
     byte (Z.shiftr i 16); byte (Z.shiftr i 8); byte i]
  else if i <? 2 ^ 56 then
    [byte (Z.shiftr i 48); byte (Z.shiftr i 40); byte (Z.shiftr i 32);
     byte (Z.shiftr i 24); byte (Z.shiftr i 16); byte (Z.shiftr i 8); byte i]
  else
    [byte (Z.shiftr i 56); byte (Z.shiftr i 48); byte (Z.shiftr i 40);
     byte (Z.shiftr i 32); byte (Z.shiftr i 24); byte (Z.shiftr i 16);
     byte (Z.shiftr i 8); byte i].

(** [intsize]: [for size = 1; ; size++ { if i >>= 8; i == 0 { return size } }].
    A [uint64] is zero after eight shifts, so eight rounds are all the loop
    can make. *)
Fixpoint intsize_loop (rounds : nat) (i size : Z) : Z :=
  match rounds with
  | O => size
  | S r =>
      let i' := Z.shiftr i 8 in
      if i' =? 0 then size else intsize_loop r i' (size + 1)
  end.

Definition intsize (i : Z) : Z := intsize_loop 8 i 1.

Definition headsize (size : Z) : Z :=
  if size <? 56 then 1 else 1 + intsize size.

(** [puthead] returns the header bytes (their number is Go's result). *)
Definition puthead (smalltag largetag size : Z) : list Z :=
  if size <? 56 then [byte (smalltag + byte size)]
  else
    let sz := putint size in
    byte (largetag + byte (len sz)) :: sz.

(** ** The encoding buffer (encbuffer.go) *)

Record listhead : Type := mkListhead {
  offset : Z;   (* index of this header in the string data *)
  size   : Z    (* payload size once the list is closed *)
}.

Definition listhead_encode (head : listhead) : list Z :=
  puthead 0xC0 0xF7 (uint64 (size head)).

Record encBuffer : Type := mkEncBuffer {
  str    : list Z;          (* string data, everything but list headers *)
  lheads : list listhead;   (* all list headers *)
  lhsize : Z                (* sum of the sizes of all encoded list headers *)
}.

Definition encBuffer_reset : encBuffer := mkEncBuffer [] [] 0.

Definition encBuffer_size (buf : encBuffer) : Z := len (str buf) + lhsize buf.

Definition append_str (buf : encBuffer) (b : list Z) : encBuffer :=
  mkEncBuffer (str buf ++ b) (lheads buf) (lhsize buf).

Definition encBuffer_writeBool (b : bool) (buf : encBuffer) : encBuffer :=
  if b then append_str buf [0x01] else append_str buf [0x80].

Definition encBuffer_writeUint64 (i : Z) (buf : encBuffer) : encBuffer :=
  if i =? 0 then append_str buf [0x80]
  else if i <? 128 then append_str buf [byte i]
  else
    let s := putint i in
    append_str buf (byte (0x80 + byte (len s)) :: s).

Definition encBuffer_encodeStringHeader (size : Z) (buf : encBuffer) : encBuffer :=
  if size <? 56 then append_str buf [byte (0x80 + byte size)]
  else
    let s := putint (uint64 size) in
    append_str buf (byte (0xB7 + byte (len s)) :: s).

Definition encBuffer_writeBytes (b : list Z) (buf : encBuffer) : encBuffer :=
  match b with
  | [b0] =>
      if b0 <=? 0x7F then append_str buf [b0]
      else append_str (encBuffer_encodeStringHeader (len b) buf) b
  | _ => append_str (encBuffer_encodeStringHeader (len b) buf) b
  end.

Definition encBuffer_writeString (s : list Z) (buf : encBuffer) : encBuffer :=
  encBuffer_writeBytes s buf.

(** [list] appends a header record and returns its index. *)
Definition encBuffer_list (buf : encBuffer) : Z * encBuffer :=
  (len (lheads buf),
   mkEncBuffer (str buf)
     (lheads buf ++ [mkListhead (len (str buf)) (lhsize buf)])
     (lhsize buf)).

(** In-place update of the record at [index] (the index comes from
    [encBuffer_list], out of range Go panics; the model leaves the slice
    as it is). *)
Fixpoint set_nth {A} (n : nat) (x : A) (l : list A) : list A :=
  match l, n with
  | [], _ => []
  | _ :: t, O => x :: t
  | h :: t, S n' => h :: set_nth n' x t
  end.

Definition encBuffer_listEnd (index : Z) (buf : encBuffer) : encBuffer :=
  match nth_error (lheads buf) (Z.to_nat index) with
  | None => buf
  | Some lh =>
      let sz := encBuffer_size buf - offset lh - size lh in
      let lh' := mkListhead (offset lh) sz in
      mkEncBuffer (str buf)
        (set_nth (Z.to_nat index) lh' (lheads buf))
        (if sz <? 56 then lhsize buf + 1
         else lhsize buf + (1 + intsize (uint64 sz)))
  end.

(** A [*big.Int] is modelled by its absolute value, the only part
    [writeBigInt] looks at.  [BitLen], [Uint64] (the low 64 bits) and
    [Bits] (the words of the absolute value, least significant first,
    without leading zero words) are those of package math/big; a
    [big.Word] has 64 bits, so that [wordBytes] is 8. *)
Definition wordBytes : Z := 8.

Definition big_BitLen (i : Z) : Z := if i =? 0 then 0 else Z.log2 i + 1.

Definition big_Uint64 (i : Z) : Z := i mod 2 ^ 64.

Fixpoint big_Bits_loop (words : nat) (i : Z) : list Z :=
  match words with
  | O => []
  | S n => (i mod 2 ^ 64) :: big_Bits_loop n (Z.shiftr i 64)
  end.

Definition big_Bits (i : Z) : list Z :=
  big_Bits_loop (Z.to_nat ((big_BitLen i + 63) / 64)) i.

(** [for j := 0; j < wordBytes && index > 0; j++]: the bytes of the word
    [d], written from the end of [bytesBuf] backwards. *)
Fixpoint writeBigInt_word (rounds : nat) (d index : Z) (bytesBuf : list Z)
  : Z * list Z :=
  match rounds with
  | O => (index, bytesBuf)
  | S n =>
      if index >? 0 then
        let index := index - 1 in
        writeBigInt_word n (Z.shiftr d 8) index
          (set_nth (Z.to_nat index) (byte d) bytesBuf)
      else (index, bytesBuf)
  end.

(** [for _, d := range i.Bits()] *)
Fixpoint writeBigInt_words (ws : list Z) (index : Z) (bytesBuf : list Z)
  : list Z :=
  match ws with
  | [] => bytesBuf
  | d :: rest =>
      let '(index, bytesBuf) :=
        writeBigInt_word (Z.to_nat wordBytes) d index bytesBuf in
      writeBigInt_words rest index bytesBuf
  end.

(** [writeBigInt] writes [i] as an integer. *)
Definition encBuffer_writeBigInt (i : Z) (buf : encBuffer) : encBuffer :=
  let bitlen := big_BitLen i in
  if bitlen <=? 64 then encBuffer_writeUint64 (big_Uint64 i) buf
  else
    (* integer is larger than 64 bits, encode from i.Bits().  The minimal
       byte length is bitlen rounded up to the next multiple of 8, divided
       by 8. *)
    let length := Z.shiftr (Z.land (bitlen + 7) (-8)) 3 in
    let buf := encBuffer_encodeStringHeader length buf in
    append_str buf
      (writeBigInt_words (big_Bits i) length (repeat 0 (Z.to_nat length))).

(** A [uint256.Int] is four 64-bit words, the least significant first. *)
Record uint256 : Type := mkUint256 { z0 : Z; z1 : Z; z2 : Z; z3 : Z }.

Definition uint256_value (z : uint256) : Z :=
  z0 z + 2 ^ 64 * z1 z + 2 ^ 128 * z2 z + 2 ^ 192 * z3 z.

Definition uint256_BitLen (z : uint256) : Z := big_BitLen (uint256_value z).

Definition uint256_Uint64 (z : uint256) : Z := z0 z.

(** The eight bytes [binary.BigEndian.PutUint64] writes. *)
Definition BigEndian_PutUint64 (v : Z) : list Z :=
  [byte (Z.shiftr v 56); byte (Z.shiftr v 48); byte (Z.shiftr v 40);
   byte (Z.shiftr v 32); byte (Z.shiftr v 24); byte (Z.shiftr v 16);
   byte (Z.shiftr v 8); byte v].

(** [writeUint256] writes [z] as an integer. *)
Definition encBuffer_writeUint256 (z : uint256) (buf : encBuffer) : encBuffer :=
  let bitlen := uint256_BitLen z in
  if bitlen <=? 64 then encBuffer_writeUint64 (uint256_Uint64 z) buf
  else
    let nBytes := byte ((bitlen + 7) / 8) in
    let b :=
      [0] ++ BigEndian_PutUint64 (z3 z) ++ BigEndian_PutUint64 (z2 z)
      ++ BigEndian_PutUint64 (z1 z) ++ BigEndian_PutUint64 (z0 z) in
    let b := set_nth (Z.to_nat (32 - nBytes)) (byte (0x80 + nBytes)) b in
    append_str buf (skipn (Z.to_nat (32 - nBytes)) b).

(** Go's [s[a:b]] on a byte slice.  The bounds are checked when the slice
    is taken, [slice_ok] is that check; the model keeps no capacity beyond
    the length, so that a bound after the end is out of range. *)
Definition slice {A} (l : list A) (a b : Z) : list A :=
  firstn (Z.to_nat (b - a)) (skipn (Z.to_nat a) l).

Definition slice_ok {A} (l : list A) (a b : Z) : bool :=
  (0 <=? a) && (a <=? b) && (b <=? len l).

(** Go's [copy(dst[pos:], src)]: the bytes that fit are copied.  The result
    is the destination after the copy and the number of bytes copied. *)
Definition copy_at (dst : list Z) (pos : Z) (src : list Z) : list Z * Z :=
  let n := Z.min (len dst - pos) (len src) in
  (firstn (Z.to_nat pos) dst ++ firstn (Z.to_nat n) src
     ++ skipn (Z.to_nat (pos + n)) dst, n).

(** [copyTo(dst)]: string data before each header, then the header; the
    trailing string data after the last header.  [head.encode(dst[pos:])]
    writes the header in place and panics when it does not fit. *)
Fixpoint encBuffer_copyTo_loop (s : list Z) (strpos pos : Z)
  (heads : list listhead) (dst : list Z) : list Z + error :=
  match heads with
  | [] => inl (fst (copy_at dst pos (skipn (Z.to_nat strpos) s)))
  | head :: rest =>
      if slice_ok s strpos (offset head) then
        let '(dst1, n) := copy_at dst pos (slice s strpos (offset head)) in
        let pos := pos + n in
        let strpos := strpos + n in
        let enc := listhead_encode head in
        if len enc <=? len dst1 - pos then
          encBuffer_copyTo_loop s strpos (pos + len enc) rest
            (fst (copy_at dst1 pos enc))
        else inr goPanic
      else inr goPanic
  end.

Definition encBuffer_copyTo (buf : encBuffer) (dst : list Z) : list Z + error :=
  encBuffer_copyTo_loop (str buf) 0 0 (lheads buf) dst.

(** [makeBytes]: [out := make([]byte, buf.size()); buf.copyTo(out)]. *)
Definition encBuffer_makeBytes (buf : encBuffer) : list Z + error :=
  encBuffer_copyTo buf (repeat 0 (Z.to_nat (encBuffer_size buf))).

(** [writeTo] appends the same pieces to a writer; the writer is the list
    of bytes written so far and never fails. *)
Fixpoint encBuffer_writeTo_loop (s : list Z) (strpos : Z) (heads : list listhead)
  (w : list Z) : list Z + error :=
  match heads with
  | [] => if strpos <? len s then inl (w ++ skipn (Z.to_nat strpos) s) else inl w
  | head :: rest =>
      if offset head - strpos >? 0 then
        if slice_ok s strpos (offset head) then
          let piece := slice s strpos (offset head) in
          encBuffer_writeTo_loop s (strpos + len piece) rest
            ((w ++ piece) ++ listhead_encode head)
        else inr goPanic
      else
        encBuffer_writeTo_loop s strpos rest (w ++ listhead_encode head)
  end.

Definition encBuffer_writeTo (buf : encBuffer) (w : list Z) : list Z + error :=
  encBuffer_writeTo_loop (str buf) 0 (lheads buf) w.

(** [Write] implements [io.Writer] and appends [b] directly to the output. *)
Definition encBuffer_Write (b : list Z) (buf : encBuffer) : encBuffer :=
  append_str buf b.

(** ** The reader over an encoding buffer (encbuffer.go) *)

Record encReader : Type := mkEncReader {
  er_buf    : option encBuffer;   (* the buffer we are reading from, nil at EOF *)
  er_lhpos  : Z;                  (* index of the list header being read *)
  er_strpos : Z;                  (* current position in the string data *)
  er_piece  : option (list Z)     (* next piece to be read, nil when there is none *)
}.

Definition set_er_piece (p : option (list Z)) (r : encReader) : encReader :=
  mkEncReader (er_buf r) (er_lhpos r) (er_strpos r) p.

(** [next] returns the next piece of data to be read, nil at EOF. *)
Definition encReader_next (r : encReader)
  : (option (list Z) * encReader) + error :=
  match er_buf r with
  | None => inl (None, r)
  | Some buf =>
      match er_piece r with
      | Some p => inl (Some p, r)   (* there is still data available for reading *)
      | None =>
          if er_lhpos r <? len (lheads buf) then
            (* we are before the last list header *)
            match nth_error (lheads buf) (Z.to_nat (er_lhpos r)) with
            | None => inr goPanic
            | Some head =>
                let sizebefore := offset head - er_strpos r in
                if sizebefore >? 0 then
                  (* string data before the header *)
                  if slice_ok (str buf) (er_strpos r) (offset head) then
                    inl (Some (slice (str buf) (er_strpos r) (offset head)),
                         mkEncReader (er_buf r) (er_lhpos r)
                           (er_strpos r + sizebefore) (er_piece r))
                  else inr goPanic
                else
                  inl (Some (listhead_encode head),
                       mkEncReader (er_buf r) (er_lhpos r + 1)
                         (er_strpos r) (er_piece r))
            end
          else if er_strpos r <? len (str buf) then
            (* string data at the end, after all list headers *)
            inl (Some (skipn (Z.to_nat (er_strpos r)) (str buf)),
                 mkEncReader (er_buf r) (er_lhpos r) (len (str buf)) (er_piece r))
          else inl (None, r)
      end
  end.

(** [Read(b)] for a [b] of [cap] bytes: the bytes put into [b], the error
    ([io.EOF] or none) and the reader afterwards.  Every round of the loop
    but the last takes a whole piece; [rounds] bounds their number. *)
Fixpoint encReader_Read_loop (rounds : nat) (cap : Z) (out : list Z)
  (r : encReader) : (list Z * option error) * encReader :=
  match rounds with
  | O => ((out, Some loopBudget), r)
  | S k =>
      match encReader_next r with
      | inr e => ((out, Some e), r)
      | inl (None, r1) =>
          (* the buffer goes back to the pool, once *)
          ((out, Some io_EOF),
           mkEncReader None (er_lhpos r1) (er_strpos r1) None)
      | inl (Some p, r1) =>
          let nn := Z.min (cap - len out) (len p) in
          let out' := out ++ firstn (Z.to_nat nn) p in
          if nn <? len p then
            (* piece did not fit, see you next time *)
            ((out', None), set_er_piece (Some (skipn (Z.to_nat nn) p)) r1)
          else
            encReader_Read_loop k cap out' (set_er_piece None r1)
      end
  end.

(** There are at most two pieces for each header, one after the last, and
    one left from the call before. *)
Definition encReader_pieces (r : encReader) : nat :=
  match er_buf r with
  | None => 1
  | Some buf => 2 * List.length (lheads buf) + 3
  end.

Definition encReader_Read (cap : Z) (r : encReader)
  : (list Z * option error) * encReader :=
  encReader_Read_loop (S (encReader_pieces r)) cap [] r.

(** ** raw.go *)

Definition AppendUint64 (b : list Z) (i : Z) : list Z :=
  if i =? 0 then b ++ [0x80]
  else if i <? 128 then b ++ [byte i]
  else if i <? 2 ^ 8 then b ++ [0x81; byte i]
  else if i <? 2 ^ 16 then b ++ [0x82; byte (Z.shiftr i 8); byte i]
  else if i <? 2 ^ 24 then
    b ++ [0x83; byte (Z.shiftr i 16); byte (Z.shiftr i 8); byte i]
  else if i <? 2 ^ 32 then
    b ++ [0x84; byte (Z.shiftr i 24); byte (Z.shiftr i 16);
          byte (Z.shiftr i 8); byte i]
  else if i <? 2 ^ 40 then
    b ++ [0x85; byte (Z.shiftr i 32); byte (Z.shiftr i 24);
          byte (Z.shiftr i 16); byte (Z.shiftr i 8); byte i]
  else if i <? 2 ^ 48 then
    b ++ [0x86; byte (Z.shiftr i 40); byte (Z.shiftr i 32);
          byte (Z.shiftr i 24); byte (Z.shiftr i 16); byte (Z.shiftr i 8);
          byte i]
  else if i <? 2 ^ 56 then
    b ++ [0x87; byte (Z.shiftr i 48); byte (Z.shiftr i 40);
          byte (Z.shiftr i 32); byte (Z.shiftr i 24); byte (Z.shiftr i 16);
          byte (Z.shiftr i 8); byte i]
  else
    b ++ [0x88; byte (Z.shiftr i 56); byte (Z.shiftr i 48);
          byte (Z.shiftr i 40); byte (Z.shiftr i 32); byte (Z.shiftr i 24);
          byte (Z.shiftr i 16); byte (Z.shiftr i 8); byte i].

(** ** Kinds (decode.go): [Kind] is an [int8]; [-1] marks "no cached kind". *)

Definition Kind := Z.
Definition Byte : Kind := 0.
Definition String : Kind := 1.
Definition List : Kind := 2.

(** ** raw.go: stateless helpers *)

Section ReadSize.
Variable b : list Z.
Let B (i : nat) : Z := nth i b 0.
Let sh (x : Z) (n : Z) : Z := Z.shiftl x n.
Infix "|||" := Z.lor (at level 50, left associativity).

Definition readSize (slen : Z) : Z * option error :=
  if len b <? slen then (0, Some io_ErrUnexpectedEOF)
  else
    let s :=
      if slen =? 1 then B 0
      else if slen =? 2 then sh (B 0) 8 ||| B 1
      else if slen =? 3 then sh (B 0) 16 ||| sh (B 1) 8 ||| B 2
      else if slen =? 4 then
        sh (B 0) 24 ||| sh (B 1) 16 ||| sh (B 2) 8 ||| B 3
      else if slen =? 5 then
        sh (B 0) 32 ||| sh (B 1) 24 ||| sh (B 2) 16 ||| sh (B 3) 8 ||| B 4
      else if slen =? 6 then
        sh (B 0) 40 ||| sh (B 1) 32 ||| sh (B 2) 24 ||| sh (B 3) 16
        ||| sh (B 4) 8 ||| B 5
      else if slen =? 7 then
        sh (B 0) 48 ||| sh (B 1) 40 ||| sh (B 2) 32 ||| sh (B 3) 24
        ||| sh (B 4) 16 ||| sh (B 5) 8 ||| B 6
      else if slen =? 8 then
        sh (B 0) 56 ||| sh (B 1) 48 ||| sh (B 2) 40 ||| sh (B 3) 32
        ||| sh (B 4) 24 ||| sh (B 5) 16 ||| sh (B 6) 8 ||| B 7
      else 0 in
    (* reject sizes < 56 (shouldn't have separate size) and sizes with
       leading zero bytes *)
    if (s <? 56) || (B 0 =? 0) then (0, Some ErrCanonSize)
    else (s, None).
End ReadSize.

(** [readKind buf] is [(k, tagsize, contentsize, err)]. *)
Definition readKind (buf : list Z) : Kind * Z * Z * option error :=
  match buf with
  | [] => (0, 0, 0, Some io_ErrUnexpectedEOF)
  | b :: tl =>
      let after (k : Kind) (tagsize contentsize : Z) (err : option error) :=
        match err with
        | Some e => (0, 0, 0, Some e)
        | None =>
            (* reject values larger than the input slice *)
            if contentsize >? uint64 (uint64 (len buf) - tagsize)
            then (0, 0, 0, Some ErrValueTooLarge)
            else (k, tagsize, contentsize, None)
        end in
      if b <? 0x80 then after Byte 0 1 None
      else if b <? 0xB8 then
        let contentsize := b - 0x80 in
        (* reject strings that should've been single bytes *)
        if (contentsize =? 1) && (len buf >? 1) && (nth 1 buf 0 <? 128)
        then (0, 0, 0, Some ErrCanonSize)
        else after String 1 contentsize None
      else if b <? 0xC0 then
        let '(contentsize, err) := readSize tl (byte (b - 0xB7)) in
        after String (byte (b - 0xB7) + 1) contentsize err
      else if b <? 0xF8 then after List 1 (b - 0xC0) None
      else
        let '(contentsize, err) := readSize tl (byte (b - 0xF7)) in
        after List (byte (b - 0xF7) + 1) contentsize err
  end.

(** [Split b] is [(k, content, rest, err)]. *)
Definition Split (b : list Z) : Kind * list Z * list Z * option error :=
  match readKind b with
  | (_, _, _, Some err) => (0, [], b, Some err)
  | (k, ts, cs, None) =>
      (k, slice b ts (ts + cs), skipn (Z.to_nat (ts + cs)) b, None)
  end.

Definition SplitString (b : list Z) : list Z * list Z * option error :=
  match Split b with
  | (_, _, _, Some err) => ([], b, Some err)
  | (k, content, rest, None) =>
      if k =? List then ([], b, Some ErrExpectedString)
      else (content, rest, None)
  end.

Definition SplitList (b : list Z) : list Z * list Z * option error :=
  match Split b with
  | (_, _, _, Some err) => ([], b, Some err)
  | (k, content, rest, None) =>
      if negb (k =? List) then ([], b, Some ErrExpectedList)
      else (content, rest, None)
  end.

Definition SplitUint64 (b : list Z) : Z * list Z * option error :=
  match SplitString b with
  | (_, _, Some err) => (0, b, Some err)
  | (content, rest, None) =>
      match content with
      | [] => (0, rest, None)
      | [c0] =>
          if c0 =? 0 then (0, b, Some ErrCanonInt) else (c0, rest, None)
      | _ =>
          if len content >? 8 then (0, b, Some errUintOverflow)
          else
            match readSize content (byte (len content)) with
            | (_, Some _) => (0, b, Some ErrCanonInt)
            | (x, None) => (x, rest, None)
            end
      end
  end.

(** [CountValues]: [for ; len(b) > 0; i++].  Every round that goes on
    drops at least one byte of [b], so the loop makes no more rounds than
    [b] has bytes; [rounds] is that bound. *)
Fixpoint CountValues_loop (rounds : nat) (b : list Z) (i : Z)
  : Z * option error :=
  match rounds with
  | O => (0, Some loopBudget)
  | S n =>
      if len b >? 0 then
        match readKind b with
        | (_, _, _, Some err) => (0, Some err)
        | (_, tagsize, size, None) =>
            CountValues_loop n (skipn (Z.to_nat (tagsize + size)) b) (i + 1)
        end
      else (i, None)
  end.

Definition CountValues (b : list Z) : Z * option error :=
  CountValues_loop (S (List.length b)) b 0.

(** Encoded sizes. *)
Definition StringSize (s : list Z) : Z :=
  match s with
  | [] => 1
  | [s0] => if s0 <=? 0x7F then 1 else 2
  | _ => uint64 (headsize (uint64 (len s)) + len s)
  end.

Definition BytesSize (b : list Z) : Z :=
  match b with
  | [] => 1
  | [b0] => if b0 <=? 0x7F then 1 else 2
  | _ => uint64 (headsize (uint64 (len b)) + len b)
  end.

Definition ListSize (contentSize : Z) : Z :=
  uint64 (uint64 (headsize contentSize) + contentSize).

Definition IntSize (x : Z) : Z :=
  if x <? 0x80 then 1 else 1 + intsize x.

(** ** iterator.go *)

Record listIterator : Type := mkListIterator {
  it_data : list Z;
  it_next : list Z;
  it_err  : option error
}.

Definition NewListIterator (data : list Z) : listIterator + error :=
  match readKind data with
  | (_, _, _, Some err) => inr err
  | (k, t, c, None) =>
      if negb (k =? List) then inr ErrExpectedList
      else inl (mkListIterator (slice data t (t + c)) [] None)
  end.

(** [Next] advances the iterator and tells whether a value is there.  The
    sizes that [readKind] returns with an error are zero. *)
Definition listIterator_Next (it : listIterator) : bool * listIterator :=
  if len (it_data it) =? 0 then (false, it)
  else
    let '(_, t, c, err) := readKind (it_data it) in
    (true,
     mkListIterator (skipn (Z.to_nat (t + c)) (it_data it))
       (slice (it_data it) 0 (t + c)) err).

Definition listIterator_Value (it : listIterator) : list Z := it_next it.

Definition listIterator_Err (it : listIterator) : option error := it_err it.

(** ** The decoding stream (decode.go)

    The byte source [r] is the list of bytes not yet read: the behaviour of
    [sliceReader], [bytes.Reader] and every reader that serves its bytes and
    then reports EOF.  [stack] holds one counter per open list, the
    innermost list first (Go appends, so its top is the last element).
    [uintbuf] is scratch storage and is not part of the state. *)

Record Stream : Type := mkStream {
  r         : list Z;        (* input not yet read *)
  remaining : Z;             (* number of bytes remaining to be read from r *)
  ssize     : Z;             (* size of value ahead (field [size]) *)
  kinderr   : option error;  (* error from last readKind *)
  stack     : list Z;        (* list sizes *)
  kind      : Kind;          (* kind of value ahead *)
  byteval   : Z;             (* value of single byte in type tag *)
  limited   : bool           (* true if input limit is in effect *)
}.

(** Stream methods run in a state monad; a method that fails still leaves
    its side effects on the stream, as in Go. *)
Definition M (A : Type) : Type := Stream -> (A + error) * Stream.

Definition ret {A} (a : A) : M A := fun s => (inl a, s).
Definition fail {A} (e : error) : M A := fun s => (inr e, s).
Definition bind {A B} (m : M A) (k : A -> M B) : M B :=
  fun s => match m s with
           | (inl a, s') => k a s'
           | (inr e, s') => (inr e, s')
           end.
Definition get : M Stream := fun s => (inl s, s).
Definition put (s : Stream) : M unit := fun _ => (inl tt, s).
Definition modify (f : Stream -> Stream) : M unit := fun s => (inl tt, f s).

Declare Scope stream_scope.
Delimit Scope stream_scope with stream.
Notation "x <- m ;; k" := (bind m (fun x => k))
  (at level 61, m at next level, right associativity) : stream_scope.
Notation "m ;;; k" := (bind m (fun _ => k))
  (at level 61, right associativity) : stream_scope.
Open Scope stream_scope.

Definition set_kind (k : Kind) (s : Stream) : Stream :=
  mkStream (r s) (remaining s) (ssize s) (kinderr s) (stack s) k
    (byteval s) (limited s).
Definition set_ssize (n : Z) (s : Stream) : Stream :=
  mkStream (r s) (remaining s) n (kinderr s) (stack s) (kind s)
    (byteval s) (limited s).
Definition set_kinderr (e : option error) (s : Stream) : Stream :=
  mkStream (r s) (remaining s) (ssize s) e (stack s) (kind s)
    (byteval s) (limited s).
Definition set_stack (st : list Z) (s : Stream) : Stream :=
  mkStream (r s) (remaining s) (ssize s) (kinderr s) st (kind s)
    (byteval s) (limited s).
Definition set_remaining (n : Z) (s : Stream) : Stream :=
  mkStream (r s) n (ssize s) (kinderr s) (stack s) (kind s)
    (byteval s) (limited s).
Definition set_byteval (b : Z) (s : Stream) : Stream :=
  mkStream (r s) (remaining s) (ssize s) (kinderr s) (stack s) (kind s)
    b (limited s).
Definition set_r (l : list Z) (s : Stream) : Stream :=
  mkStream l (remaining s) (ssize s) (kinderr s) (stack s) (kind s)
    (byteval s) (limited s).

(** [listLimit] returns the amount of data remaining in the innermost list. *)
Definition listLimit (s : Stream) : bool * Z :=
  match stack s with
  | [] => (false, 0)
  | top :: _ => (true, top)
  end.

(** [s.stack[len(s.stack)-1] = v] *)
Definition set_top (v : Z) (s : Stream) : Stream :=
  match stack s with
  | [] => s
  | _ :: rest => set_stack (v :: rest) s
  end.

(** [willRead] is called before any read from the underlying stream.  It
    checks [n] against the size limits and updates them.  Both
    subtractions are guarded by the comparison before them, so they do not
    wrap around. *)
Definition willRead (n : Z) : M unit :=
  modify (set_kind (-1)) ;;;
  s <- get ;;
  let '(inList, limit) := listLimit s in
  (if inList then
     if n >? limit then fail ErrElemTooLarge
     else modify (set_top (limit - n))
   else ret tt) ;;;
  s <- get ;;
  if limited s then
    if n >? remaining s then fail ErrValueTooLarge
    else modify (set_remaining (remaining s - n))
  else ret tt.

(** [readByte] reads a single byte from the underlying stream. *)
Definition readByte : M Z :=
  willRead 1 ;;;
  s <- get ;;
  match r s with
  | [] => fail io_ErrUnexpectedEOF
  | b :: tl => put (set_r tl s) ;;; ret b
  end.

(** [readFull n] fills a buffer of [n] bytes and returns its contents. *)
Definition readFull (n : Z) : M (list Z) :=
  willRead n ;;;
  s <- get ;;
  if n <=? len (r s) then
    put (set_r (skipn (Z.to_nat n) (r s)) s) ;;;
    ret (firstn (Z.to_nat n) (r s))
  else
    put (set_r [] s) ;;; fail io_ErrUnexpectedEOF.

(** [binary.BigEndian.Uint64] of a buffer. *)
Definition BigEndian_Uint64 (buffer : list Z) : Z :=
  fold_left (fun acc b => Z.lor (Z.shiftl acc 8) b) buffer 0.

Definition readUint (size : Z) : M Z :=
  if size =? 0 then
    modify (set_kind (-1)) ;;; ret 0
  else if size =? 1 then
    readByte
  else if size >? 8 then
    fail goPanic   (* 8 - size wraps around as a byte: buffer[start:] is
                      out of range *)
  else
    let start := 8 - size in
    bytes <- readFull size ;;
    let buffer := repeat 0 (Z.to_nat start) ++ bytes in
    if nth (Z.to_nat start) buffer 0 =? 0 then
      (* Note: readUint is also used to decode integer values.
         The error needs to be adjusted to become ErrCanonInt in this case. *)
      fail ErrCanonSize
    else ret (BigEndian_Uint64 buffer).

(** [Stream.readKind] returns [(kind, size, err)]; the three results are
    stored by [Stream_Kind] whatever [err] is. *)
Definition Stream_readKind : Stream -> (Kind * Z * option error) * Stream :=
  fun s =>
    match readByte s with
    | (inr err, s') =>
        let err' :=
          match stack s' with
          | [] =>
              match err with
              | io_ErrUnexpectedEOF => io_EOF
              | ErrValueTooLarge => io_EOF
              | _ => err
              end
          | _ => err
          end in
        ((0, 0, Some err'), s')
    | (inl b, s') =>
        let s1 := set_byteval 0 s' in
        let sized (k : Kind) (n : Z) :=
          match readUint n s1 with
          | (inl size, s2) =>
              if size <? 56 then ((k, size, Some ErrCanonSize), s2)
              else ((k, size, None), s2)
          | (inr err, s2) => ((k, 0, Some err), s2)
          end in
        if b <? 0x80 then ((Byte, 0, None), set_byteval b s1)
        else if b <? 0xB8 then ((String, b - 0x80, None), s1)
        else if b <? 0xC0 then sized String (byte (b - 0xB7))
        else if b <? 0xF8 then ((List, b - 0xC0, None), s1)
        else sized List (byte (b - 0xF7))
    end.

(** [Kind] returns the cached classification or reads the next header. *)
Definition Stream_Kind : Stream -> (Kind * Z * option error) * Stream :=
  fun s =>
    if kind s >=? 0 then ((kind s, ssize s, kinderr s), s)
    else
      let '(inList, limit) := listLimit s in
      if inList && (limit =? 0) then ((0, 0, Some EOL), s)
      else
        let '((k, sz, err), s1) := Stream_readKind s in
        let s2 := set_kinderr err (set_ssize sz (set_kind k s1)) in
        let s3 :=
          match err with
          | None =>
              if inList && (sz >? limit) then
                set_kinderr (Some ErrElemTooLarge) s2
              else if limited s2 && (sz >? remaining s2) then
                set_kinderr (Some ErrValueTooLarge) s2
              else s2
          | Some _ => s2
          end in
        ((kind s3, ssize s3, kinderr s3), s3).

(** [Kind] as a monadic action: the kind and size, or the error. *)
Definition KindM : M (Kind * Z) :=
  fun s =>
    match Stream_Kind s with
    | ((_, _, Some err), s') => (inr err, s')
    | ((k, sz, None), s') => (inl (k, sz), s')
    end.

(** [Bytes] reads an RLP string and returns its contents as a byte slice. *)
Definition Stream_Bytes : M (list Z) :=
  ks <- KindM ;;
  let '(k, size) := ks in
  if k =? Byte then
    s <- get ;;
    modify (set_kind (-1)) ;;;   (* rearm Kind *)
    ret [byteval s]
  else if k =? String then
    b <- readFull size ;;
    if (size =? 1) && (nth 0 b 0 <? 128) then fail ErrCanonSize
    else ret b
  else fail ErrExpectedString.

(** [ReadBytes] decodes the next value into a buffer of [blen] bytes. *)
Definition Stream_ReadBytes (blen : Z) : M (list Z) :=
  ks <- KindM ;;
  let '(k, size) := ks in
  if k =? Byte then
    if negb (blen =? 1) then fail (errWrongSize 1 blen)
    else
      s <- get ;;
      modify (set_kind (-1)) ;;;
      ret [byteval s]
  else if k =? String then
    if negb (blen =? size) then fail (errWrongSize size blen)
    else
      b <- readFull blen ;;
      if (size =? 1) && (nth 0 b 0 <? 128) then fail ErrCanonSize
      else ret b
  else fail ErrExpectedString.

(** [Raw] reads a raw encoded value including RLP type information. *)
Definition Stream_Raw : M (list Z) :=
  ks <- KindM ;;
  let '(k, size) := ks in
  if k =? Byte then
    s <- get ;;
    modify (set_kind (-1)) ;;;
    ret [byteval s]
  else
    (* The original header has already been read and is no longer
       available.  Read content and put a new header in front of it. *)
    content <- readFull size ;;
    if k =? String then ret (puthead 0x80 0xB7 size ++ content)
    else ret (puthead 0xC0 0xF7 size ++ content).

Definition Stream_uint (maxbits : Z) : M Z :=
  ks <- KindM ;;
  let '(k, size) := ks in
  if k =? Byte then
    s <- get ;;
    if byteval s =? 0 then fail ErrCanonInt
    else modify (set_kind (-1)) ;;; ret (byteval s)
  else if k =? String then
    if size >? maxbits / 8 then fail errUintOverflow
    else
      fun s =>
        match readUint (byte size) s with
        | (inr ErrCanonSize, s') =>
            (* Adjust error because we're not reading a size right now. *)
            (inr ErrCanonInt, s')
        | (inr err, s') => (inr err, s')
        | (inl v, s') =>
            if (size >? 0) && (v <? 128) then (inr ErrCanonSize, s')
            else (inl v, s')
        end
  else fail ErrExpectedString.

Definition Stream_Uint64 : M Z := Stream_uint 64.
Definition Stream_Uint32 : M Z := Stream_uint 32.
Definition Stream_Uint16 : M Z := Stream_uint 16.
Definition Stream_Uint8 : M Z := Stream_uint 8.

Definition Stream_Bool : M bool :=
  num <- Stream_uint 8 ;;
  if num =? 0 then ret false
  else if num =? 1 then ret true
  else fail (errInvalidBool num).

(** [List] starts decoding an RLP list. *)
Definition Stream_List : M Z :=
  ks <- KindM ;;
  let '(k, size) := ks in
  if negb (k =? List) then fail ErrExpectedList
  else
    (* Remove size of inner list from outer list before pushing the new
       size onto the stack.  This ensures that the remaining outer list
       size will be correct after the matching call to ListEnd. *)
    s <- get ;;
    let '(inList, limit) := listLimit s in
    (if inList then modify (set_top (uint64 (limit - size))) else ret tt) ;;;
    modify (fun s => set_stack (size :: stack s) s) ;;;
    modify (set_kind (-1)) ;;;
    modify (set_ssize 0) ;;;
    ret size.

(** [ListEnd] returns to the enclosing list. *)
Definition Stream_ListEnd : M unit :=
  s <- get ;;
  let '(inList, limit) := listLimit s in
  if negb inList then fail errNotInList
  else if limit >? 0 then fail errNotAtEOL
  else
    modify (fun s => set_stack (tl (stack s)) s) ;;;   (* pop *)
    modify (set_kind (-1)) ;;;
    modify (set_ssize 0).

Definition Stream_MoreDataInList (s : Stream) : bool :=
  snd (listLimit s) >? 0.

(** [big.Int.SetBytes] and [uint256.Int.SetBytes]: the big-endian value
    of the buffer. *)
Definition big_SetBytes (buffer : list Z) : Z :=
  fold_left (fun acc b => Z.lor (Z.shiftl acc 8) b) buffer 0.

Definition uint256_SetBytes (buffer : list Z) : uint256 :=
  let v := big_SetBytes buffer in
  mkUint256 (v mod 2 ^ 64) (Z.shiftr v 64 mod 2 ^ 64)
    (Z.shiftr v 128 mod 2 ^ 64) (Z.shiftr v 192 mod 2 ^ 64).

(** [decodeBigInt].  [s.uintbuf] has 32 bytes; the integer is the
    big-endian value of the bytes read. *)
Definition Stream_decodeBigInt : M Z :=
  ks <- KindM ;;
  let '(k, size) := ks in
  buffer <-
    (if k =? List then fail ErrExpectedString
     else if k =? Byte then
       s <- get ;;
       modify (set_kind (-1)) ;;;   (* re-arm Kind *)
       ret [byteval s]
     else if size =? 0 then
       (* Avoid zero-length read. *)
       modify (set_kind (-1)) ;;; ret []
     else if size <=? 32 then
       (* For integers smaller than s.uintbuf, allocating a buffer can be
          avoided. *)
       buffer <- readFull size ;;
       (* Reject inputs where single byte encoding should have been used. *)
       if (size =? 1) && (nth 0 buffer 0 <? 128) then fail ErrCanonSize
       else ret buffer
     else
       (* For large integers, a temporary buffer is needed. *)
       readFull size) ;;
  (* Reject leading zero bytes. *)
  if (len buffer >? 0) && (nth 0 buffer 0 =? 0) then fail ErrCanonInt
  else ret (big_SetBytes buffer).

(** [BigInt] decodes an arbitrary-size integer value. *)
Definition Stream_BigInt : M Z := Stream_decodeBigInt.

(** [ReadUint256] decodes the next value as a uint256. *)
Definition Stream_ReadUint256 : M uint256 :=
  ks <- KindM ;;
  let '(k, size) := ks in
  buffer <-
    (if k =? List then fail ErrExpectedString
     else if k =? Byte then
       s <- get ;;
       modify (set_kind (-1)) ;;;   (* re-arm Kind *)
       ret [byteval s]
     else if size =? 0 then
       (* Avoid zero-length read. *)
       modify (set_kind (-1)) ;;; ret []
     else if size <=? 32 then
       (* All possible uint256 values fit into s.uintbuf. *)
       buffer <- readFull size ;;
       (* Reject inputs where single byte encoding should have been used. *)
       if (size =? 1) && (nth 0 buffer 0 <? 128) then fail ErrCanonSize
       else ret buffer
     else fail errUint256Large) ;;
  (* Reject leading zero bytes. *)
  if (len buffer >? 0) && (nth 0 buffer 0 =? 0) then fail ErrCanonInt
  else ret (uint256_SetBytes buffer).

(** [Reset].  [knownLen] tells whether the reader is one whose length Go
    can ask for ([*bytes.Reader], [*bytes.Buffer], [*strings.Reader]). *)
Definition Stream_Reset (input : list Z) (knownLen : bool) (inputLimit : Z)
  : Stream :=
  let '(rem, lim) :=
    if inputLimit >? 0 then (inputLimit, true)
    else if knownLen then (len input, true)
    else (0, false) in
  mkStream input rem 0 None [] (-1) 0 lim.

Definition NewStream := Stream_Reset.

Definition NewListStream (input : list Z) (knownLen : bool) (n : Z) : Stream :=
  set_ssize n (set_kind List (Stream_Reset input knownLen n)).

(** ** Package rlpstruct (rlp/internal/rlpstruct/rlpstruct.go) *)

Module rlpstruct.

(** The kinds of package reflect that the codec looks at. *)
Inductive reflectKind : Type :=
| KBool | KInt | KUint | KUint8 | KUint16 | KUint32 | KUint64 | KUintptr
| KFloat64 | KArray | KInterface | KMap | KPtr | KSlice | KString | KStruct.

Definition reflectKind_eqb (a b : reflectKind) : bool :=
  match a, b with
  | KBool, KBool | KInt, KInt | KUint, KUint | KUint8, KUint8
  | KUint16, KUint16 | KUint32, KUint32 | KUint64, KUint64
  | KUintptr, KUintptr | KFloat64, KFloat64 | KArray, KArray
  | KInterface, KInterface | KMap, KMap | KPtr, KPtr | KSlice, KSlice
  | KString, KString | KStruct, KStruct => true
  | _, _ => false
  end.

(** [Type] represents the attributes of a Go type. *)
Inductive Type_ : Type :=
  mkType (Name : string) (Kind : reflectKind) (IsEncoder IsDecoder : bool)
         (Elem : option Type_).

Definition Type_Kind (t : Type_) : reflectKind :=
  let 'mkType _ k _ _ _ := t in k.
Definition Type_IsEncoder (t : Type_) : bool :=
  let 'mkType _ _ e _ _ := t in e.
Definition Type_Elem (t : Type_) : option Type_ :=
  let 'mkType _ _ _ _ e := t in e.

(** [Field] represents a struct field.  [Tag] is the value of the key
    [rlp] in the field's struct tag ([reflect.StructTag.Get]). *)
Record Field : Type := mkField {
  Name     : string;
  Index    : Z;
  Exported : bool;
  FType    : Type_;
  Tag      : string
}.

Definition NilKind := Z.
Definition NilKindString : NilKind := 0x80.
Definition NilKindList : NilKind := 0xC0.

Record Tags : Type := mkTags {
  TNilKind : NilKind;
  NilOK    : bool;
  Optional : bool;
  Tail     : bool;
  Ignored  : bool
}.

Definition noTags : Tags := mkTags 0 false false false false.

Definition Tags_eqb (a b : Tags) : bool :=
  (TNilKind a =? TNilKind b) && Bool.eqb (NilOK a) (NilOK b)
  && Bool.eqb (Optional a) (Optional b) && Bool.eqb (Tail a) (Tail b)
  && Bool.eqb (Ignored a) (Ignored b).

Definition isUint (k : reflectKind) : bool :=
  match k with
  | KUint | KUint8 | KUint16 | KUint32 | KUint64 | KUintptr => true
  | _ => false
  end.

Definition isByte (typ : Type_) : bool :=
  reflectKind_eqb (Type_Kind typ) KUint8 && negb (Type_IsEncoder typ).

Definition isByteArray (typ : Type_) : bool :=
  (reflectKind_eqb (Type_Kind typ) KSlice
   || reflectKind_eqb (Type_Kind typ) KArray)
  && match Type_Elem typ with Some e => isByte e | None => false end.

Definition DefaultNilValue (t : Type_) : NilKind :=
  let k := Type_Kind t in
  if isUint k || reflectKind_eqb k KString || reflectKind_eqb k KBool
     || isByteArray t
  then NilKindString else NilKindList.

(** [strings.Split(s, ",")] and [strings.TrimSpace] (on the white space
  of ASCII). *)
Fixpoint Split_comma (s cur : string) : list string :=
  match s with
  | EmptyString => [cur]
  | String.String c s' =>
      if Ascii.eqb c ","%char then cur :: Split_comma s' EmptyString
      else Split_comma s' (cur ++ String.String c EmptyString)
  end.

Definition isSpace (c : ascii) : bool :=
  let n := nat_of_ascii c in
  (Nat.eqb n 32 || (Nat.leb 9 n && Nat.leb n 13))%bool.

Fixpoint trimLeft (s : string) : string :=
  match s with
  | EmptyString => EmptyString
  | String.String c s' => if isSpace c then trimLeft s' else s
  end.

Fixpoint rev_string (s acc : string) : string :=
  match s with
  | EmptyString => acc
  | String.String c s' => rev_string s' (String.String c acc)
  end.

Definition TrimSpace (s : string) : string :=
  rev_string (trimLeft (rev_string (trimLeft s) EmptyString)) EmptyString.

Definition dq : string := String.String (ascii_of_nat 34) EmptyString.

Definition tagError (name t err : string) : error :=
  TagError EmptyString name t err.

(** The body of the [for] loop of [parseTag], one token at a time. *)
Fixpoint parseTag_loop (field : Field) (lastPublic : Z)
  (tokens : list string) (ts : Tags) : Tags * option error :=
  match tokens with
  | [] => (ts, None)
  | t0 :: rest =>
      let name := Name field in
      let t := TrimSpace t0 in
      if String.eqb t EmptyString then
        (* empty tag is allowed for some reason *)
        parseTag_loop field lastPublic rest ts
      else if String.eqb t "-" then
        parseTag_loop field lastPublic rest
          (mkTags (TNilKind ts) (NilOK ts) (Optional ts) (Tail ts) true)
      else if String.eqb t "nil" || String.eqb t "nilString"
              || String.eqb t "nilList" then
        let ts1 :=
          mkTags (TNilKind ts) true (Optional ts) (Tail ts) (Ignored ts) in
        if negb (reflectKind_eqb (Type_Kind (FType field)) KPtr) then
          (ts1, Some (tagError name t "field is not a pointer"))
        else
          let nk :=
            if String.eqb t "nil" then
              match Type_Elem (FType field) with
              | Some e => DefaultNilValue e
              | None => TNilKind ts1
              end
            else if String.eqb t "nilString" then NilKindString
            else NilKindList in
          parseTag_loop field lastPublic rest
            (mkTags nk true (Optional ts1) (Tail ts1) (Ignored ts1))
      else if String.eqb t "optional" then
        let ts1 :=
          mkTags (TNilKind ts) (NilOK ts) true (Tail ts) (Ignored ts) in
        if Tail ts1 then
          (ts1, Some (tagError name t
                        ("also has " ++ dq ++ "tail" ++ dq ++ " tag")))
        else parseTag_loop field lastPublic rest ts1
      else if String.eqb t "tail" then
        let ts1 :=
          mkTags (TNilKind ts) (NilOK ts) (Optional ts) true (Ignored ts) in
        if negb (Index field =? lastPublic) then
          (ts1, Some (tagError name t "must be on last field"))
        else if Optional ts1 then
          (ts1, Some (tagError name t
                        ("also has " ++ dq ++ "optional" ++ dq ++ " tag")))
        else if negb (reflectKind_eqb (Type_Kind (FType field)) KSlice) then
          (ts1, Some (tagError name t "field type is not slice"))
        else parseTag_loop field lastPublic rest ts1
      else
        (ts, Some (tagError name t "unknown tag"))
  end.

Definition parseTag (field : Field) (lastPublic : Z) : Tags * option error :=
  parseTag_loop field lastPublic (Split_comma (Tag field) EmptyString) noTags.

Definition lastPublicField (fields : list Field) : Z :=
  fold_left (fun last f => if Exported f then Index f else last) fields 0.

(** First loop of [ProcessFields]: gather all exported fields and their
    tags. *)
Fixpoint gather (lastPublic : Z) (allFields : list Field)
  : (list Field * list Tags) + error :=
  match allFields with
  | [] => inl ([], [])
  | field :: rest =>
      if negb (Exported field) then gather lastPublic rest
      else
        match parseTag field lastPublic with
        | (_, Some err) => inr err
        | (ts, None) =>
            if Ignored ts then gather lastPublic rest
            else
              match gather lastPublic rest with
              | inr err => inr err
              | inl (fields, tags) => inl (field :: fields, ts :: tags)
              end
        end
  end.

(** Second loop: verify optional field consistency.  If any optional
    field exists, all fields after it must also be optional. *)
Fixpoint verifyOptional (fields : list Field) (tags : list Tags)
  (anyOptional : bool) (firstOptionalName : string) : option error :=
  match fields, tags with
  | f :: fields', ts :: tags' =>
      let name := Name f in
      if Optional ts || Tail ts then
        verifyOptional fields' tags' true
          (if negb anyOptional then name else firstOptionalName)
      else if anyOptional then
        Some (tagError name EmptyString
                ("must be optional because preceding field " ++ dq
                 ++ firstOptionalName ++ dq ++ " is optional"))
      else verifyOptional fields' tags' anyOptional firstOptionalName
  | _, _ => None
  end.

(** [ProcessFields] filters the given struct fields, returning only
    fields that should be considered for encoding/decoding. *)
Definition ProcessFields (allFields : list Field)
  : (list Field * list Tags) + error :=
  let lastPublic := lastPublicField allFields in
  match gather lastPublic allFields with
  | inr err => inr err
  | inl (fields, tags) =>
      match verifyOptional fields tags false EmptyString with
      | Some err => inr err
      | None => inl (fields, tags)
      end
  end.

End rlpstruct.

(** ** Go types and values

    The types of the development: booleans, the unsigned integer kinds,
    strings, slices and structs; [TOther] stands for any type of a kind the
    codec does not serialise (signed integers, floats, maps, channels,
    functions).  A value is what package reflect lets the codec observe: a
    byte slice is read through [Bytes()] and is [VBytes]; other slices and
    structs hold one value per element or per declared field.  Slices are
    compared by their elements: a nil slice is the empty one. *)

Import rlpstruct.

Inductive uintKind : Type := U | U8 | U16 | U32 | U64 | Uptr.

(** [reflect.Type.Bits] on a 64-bit platform. *)
Definition Bits (k : uintKind) : Z :=
  match k with U8 => 8 | U16 => 16 | U32 => 32 | U | U64 | Uptr => 64 end.

Record StructField (T : Type) : Type := mkStructField {
  sfName     : string;
  sfExported : bool;      (* PkgPath is empty *)
  sfTag      : string;    (* Tag.Get("rlp") *)
  sfType     : T
}.

Inductive rtype : Type :=
| TBool
| TUint (k : uintKind)
| TString
| TSlice (elem : rtype)
| TStruct (name : string) (fields : list (StructField rtype))
| TOther (name : string) (k : reflectKind).

Inductive value : Type :=
| VBool (b : bool)
| VUint (n : Z)
| VString (s : list Z)
| VBytes (b : list Z)
| VSlice (l : list value)
| VStruct (l : list value).

Definition uintKind_reflect (k : uintKind) : reflectKind :=
  match k with
  | U => KUint | U8 => KUint8 | U16 => KUint16 | U32 => KUint32
  | U64 => KUint64 | Uptr => KUintptr
  end.

Definition rtype_Kind (typ : rtype) : reflectKind :=
  match typ with
  | TBool => KBool
  | TUint k => uintKind_reflect k
  | TString => KString
  | TSlice _ => KSlice
  | TStruct _ _ => KStruct
  | TOther _ k => k
  end.

(** [reflect.Type.String]. *)
Fixpoint rtype_String (typ : rtype) : string :=
  match typ with
  | TBool => "bool"
  | TUint U => "uint"
  | TUint U8 => "uint8"
  | TUint U16 => "uint16"
  | TUint U32 => "uint32"
  | TUint U64 => "uint64"
  | TUint Uptr => "uintptr"
  | TString => "string"
  | TSlice e => "[]" ++ rtype_String e
  | TStruct name _ => name
  | TOther name _ => name
  end.

(** typecache.go: [isByte]; no type of the model implements [Encoder]. *)
Definition isByte (typ : rtype) : bool :=
  match typ with TUint U8 => true | _ => false end.

Fixpoint rtypeToStructType (typ : rtype) : Type_ :=
  mkType (rtype_String typ) (rtype_Kind typ) false false
    match typ with
    | TSlice e => Some (rtypeToStructType e)
    | _ => None
    end.

(** [reflect.Zero]. *)
Fixpoint zeroValue (typ : rtype) : value :=
  match typ with
  | TBool => VBool false
  | TUint _ => VUint 0
  | TString => VString []
  | TSlice e => if isByte e then VBytes [] else VSlice []
  | TStruct _ fs => VStruct (map (fun f => zeroValue (sfType f)) fs)
  | TOther _ _ => VStruct []
  end.

(** [reflect.Value.IsZero]; for a slice it is the nil test. *)
Fixpoint IsZero (v : value) : bool :=
  match v with
  | VBool b => negb b
  | VUint n => n =? 0
  | VString s => match s with [] => true | _ => false end
  | VBytes b => match b with [] => true | _ => false end
  | VSlice l => match l with [] => true | _ => false end
  | VStruct l => forallb IsZero l
  end.

Inductive has_type : rtype -> value -> Prop :=
| ht_bool b : has_type TBool (VBool b)
| ht_uint k n : 0 <= n < 2 ^ Bits k -> has_type (TUint k) (VUint n)
| ht_string s : is_bytes s -> has_type TString (VString s)
| ht_bytes e b : isByte e = true -> is_bytes b -> has_type (TSlice e) (VBytes b)
| ht_slice e l :
    isByte e = false -> Forall (has_type e) l -> has_type (TSlice e) (VSlice l)
| ht_struct name fs l :
    Forall2 (fun f v => has_type (sfType f) v) fs l ->
    has_type (TStruct name fs) (VStruct l).

(** ** typecache.go *)

Definition writer : Type := value -> encBuffer -> encBuffer + error.
Definition decoder : Type := value -> M value.

(** [typeinfo]: a coder or the error of its construction
    ([decoder]/[decoderErr], [writer]/[writerErr]). *)
Record typeinfo : Type := mkTypeinfo {
  tdecoder : decoder + error;
  twriter  : writer + error
}.

Record field : Type := mkfield {
  index    : Z;
  info     : typeinfo;
  optional : bool;
  fname    : string;   (* typ.Field(index).Name *)
  ftype    : rtype     (* typ.Field(index).Type *)
}.

Fixpoint allStructFields (fs : list (StructField rtype)) (i : Z) : list Field :=
  match fs with
  | [] => []
  | rf :: rest =>
      mkField (sfName rf) i (sfExported rf) (rtypeToStructType (sfType rf))
        (sfTag rf)
      :: allStructFields rest (i + 1)
  end.

(** [structFields] resolves the typeinfo of all public fields in a struct
    type.  [gen] holds, per declared field, [theTC.infoWhileGenerating] at
    the field's type. *)
Fixpoint resolveFields (fs : list (StructField rtype))
  (gen : list (Tags -> typeinfo)) (structFields : list Field)
  (structTags : list Tags) : list field :=
  match structFields, structTags with
  | sf :: sfs, tags :: tgs =>
      let i := Z.to_nat (Index sf) in
      match nth_error fs i, nth_error gen i with
      | Some rf, Some g =>
          mkfield (Index sf) (g tags) (Optional tags) (sfName rf) (sfType rf)
          :: resolveFields fs gen sfs tgs
      | _, _ => resolveFields fs gen sfs tgs
      end
  | _, _ => []
  end.

Definition structFields (typ : string) (fs : list (StructField rtype))
  (gen : list (Tags -> typeinfo)) : list field + error :=
  match ProcessFields (allStructFields fs 0) with
  | inr (TagError _ f t e) => inr (TagError typ f t e)
  | inr err => inr err
  | inl (structFields, structTags) =>
      inl (resolveFields fs gen structFields structTags)
  end.

(** [firstOptionalField] returns the index of the first field with the
    "optional" tag. *)
Fixpoint firstOptionalField (fields : list field) : Z :=
  match fields with
  | [] => 0
  | f :: rest => if optional f then 0 else 1 + firstOptionalField rest
  end.

(** ** Writers (encode.go) *)

Definition writeUint : writer := fun val w =>
  match val with
  | VUint n => inl (encBuffer_writeUint64 n w)
  | _ => inr goPanic
  end.

Definition writeBool : writer := fun val w =>
  match val with
  | VBool b => inl (encBuffer_writeBool b w)
  | _ => inr goPanic
  end.

Definition writeBytes : writer := fun val w =>
  match val with
  | VBytes b => inl (encBuffer_writeBytes b w)
  | _ => inr goPanic
  end.

Definition writeString : writer := fun val w =>
  match val with
  | VString s =>
      match s with
      | [s0] =>
          if s0 <=? 0x7f then inl (append_str w [s0])
          else inl (append_str (encBuffer_encodeStringHeader (len s) w) s)
      | _ => inl (append_str (encBuffer_encodeStringHeader (len s) w) s)
      end
  | _ => inr goPanic
  end.

(** Byte arrays: [val] holds the [length] bytes of a value of type
    [[length]byte]; its writer is chosen by the length of the type. *)
Definition writeLengthZeroByteArray (val : list Z) (w : encBuffer)
  : encBuffer + error :=
  inl (append_str w [0x80]).

Definition writeLengthOneByteArray (val : list Z) (w : encBuffer)
  : encBuffer + error :=
  let b := byte (nth 0 val 0) in
  if b <=? 0x7f then inl (append_str w [b])
  else inl (append_str w [0x81; b]).

Definition makeByteArrayWriter (length : Z)
  : list Z -> encBuffer -> encBuffer + error :=
  if length =? 0 then writeLengthZeroByteArray
  else if length =? 1 then writeLengthOneByteArray
  else fun val w =>
    let slice := slice val 0 length in
    inl (append_str (encBuffer_encodeStringHeader (len slice) w) slice).

(** [for i := 0; i < vlen; i++ { etypeinfo.writer(val.Index(i), w) }] *)
Fixpoint writeElems (wr : writer) (elems : list value) (w : encBuffer)
  : encBuffer + error :=
  match elems with
  | [] => inl w
  | e :: rest =>
      match wr e w with
      | inr err => inr err
      | inl w' => writeElems wr rest w'
      end
  end.

Definition makeSliceWriter (etypeinfo : typeinfo) (ts : Tags) : writer + error :=
  match twriter etypeinfo with
  | inr err => inr err
  | inl ewriter =>
      if Tail ts then
        (* This is for struct tail slices.  w.list is not called for them. *)
        inl (fun val w =>
               match val with
               | VSlice l => writeElems ewriter l w
               | _ => inr goPanic
               end)
      else
        (* This is for regular slices and arrays. *)
        inl (fun val w =>
               match val with
               | VSlice [] => inl (append_str w [0xC0])
               | VSlice l =>
                   let '(listOffset, w1) := encBuffer_list w in
                   match writeElems ewriter l w1 with
                   | inr err => inr err
                   | inl w2 => inl (encBuffer_listEnd listOffset w2)
                   end
               | _ => inr goPanic
               end)
  end.

(** [val.Field(i)] *)
Definition Field_ (val : list value) (i : Z) : option value :=
  if i <? 0 then None else nth_error val (Z.to_nat i).

(** [for _, f := range fields { f.info.writer(val.Field(f.index), w) }] *)
Fixpoint writeFields (fields : list field) (val : list value) (w : encBuffer)
  : encBuffer + error :=
  match fields with
  | [] => inl w
  | f :: rest =>
      match twriter (info f), Field_ val (index f) with
      | inl wr, Some fv =>
          match wr fv w with
          | inr err => inr err
          | inl w' => writeFields rest val w'
          end
      | _, _ => inr goPanic
      end
  end.

(** [for ; lastField >= firstOptionalField; lastField-- { if
    !val.Field(fields[lastField].index).IsZero() { break } }] *)
Fixpoint lastField_loop (rounds : nat) (fields : list field)
  (val : list value) (firstOptional lastField : Z) : Z :=
  match rounds with
  | O => lastField
  | S n =>
      if lastField >=? firstOptional then
        match nth_error fields (Z.to_nat lastField) with
        | Some f =>
            match Field_ val (index f) with
            | Some fv =>
                if negb (IsZero fv) then lastField
                else lastField_loop n fields val firstOptional (lastField - 1)
            | None => lastField
            end
        | None => lastField
        end
      else lastField
  end.

Fixpoint first_writerErr (typ : string) (fields : list field) : option error :=
  match fields with
  | [] => None
  | f :: rest =>
      match twriter (info f) with
      | inr err => Some (structFieldError typ (index f) err)
      | inl _ => first_writerErr typ rest
      end
  end.

Definition makeStructWriter (typ : string) (sfields : list field + error)
  : writer + error :=
  match sfields with
  | inr err => inr err
  | inl fields =>
      match first_writerErr typ fields with
      | Some err => inr err
      | None =>
          let firstOptional := firstOptionalField fields in
          if firstOptional =? len fields then
            (* This is the writer function for structs without any
               optional fields. *)
            inl (fun val w =>
                   match val with
                   | VStruct l =>
                       let '(lh, w1) := encBuffer_list w in
                       match writeFields fields l w1 with
                       | inr err => inr err
                       | inl w2 => inl (encBuffer_listEnd lh w2)
                       end
                   | _ => inr goPanic
                   end)
          else
            (* If there are any "optional" fields, the writer needs to
               perform additional checks to determine the output list
               length. *)
            inl (fun val w =>
                   match val with
                   | VStruct l =>
                       let lastField :=
                         lastField_loop (List.length fields) fields l
                           firstOptional (len fields - 1) in
                       let '(lh, w1) := encBuffer_list w in
                       match writeFields
                               (firstn (Z.to_nat (lastField + 1)) fields) l w1
                       with
                       | inr err => inr err
                       | inl w2 => inl (encBuffer_listEnd lh w2)
                       end
                   | _ => inr goPanic
                   end)
      end
  end.

(** ** Decoders (decode.go) *)

Definition wrapStreamError (err : error) (typ : string) : error :=
  match err with
  | ErrCanonInt =>
      decodeError "non-canonical integer (leading zero bytes)" typ []
  | ErrCanonSize => decodeError "non-canonical size information" typ []
  | ErrExpectedList => decodeError "expected input list" typ []
  | ErrExpectedString => decodeError "expected input string or byte" typ []
  | errUintOverflow => decodeError "input string too long" typ []
  | errNotAtEOL => decodeError "input list has too many elements" typ []
  | _ => err
  end.

Definition addErrorContext (err : error) (ctx : string) : error :=
  match err with
  | decodeError msg typ c => decodeError msg typ (c ++ [ctx])
  | _ => err
  end.

(** Run [m]; a failure goes through [wrapStreamError]. *)
Definition wrapped {A} (typ : string) (m : M A) : M A :=
  fun s => match m s with
           | (inr err, s') => (inr (wrapStreamError err typ), s')
           | ok => ok
           end.

Definition decodeUint (k : uintKind) : decoder := fun _ =>
  num <- wrapped (rtype_String (TUint k)) (Stream_uint (Bits k)) ;;
  ret (VUint num).

Definition decodeBool : decoder := fun _ =>
  b <- wrapped (rtype_String TBool) Stream_Bool ;;
  ret (VBool b).

Definition decodeString : decoder := fun _ =>
  b <- wrapped (rtype_String TString) Stream_Bytes ;;
  ret (VString b).

Definition decodeByteSlice (typ : string) : decoder := fun _ =>
  b <- wrapped typ Stream_Bytes ;;
  ret (VBytes b).

(** [decodeByteArray] decodes into a value of type [[vlen]byte] and
    returns its bytes. *)
Definition decodeByteArray (typ : string) (vlen : Z) : M (list Z) :=
  ks <- KindM ;;
  let '(k, size) := ks in
  if k =? Byte then
    if vlen =? 0 then fail (decodeError "input string too long" typ [])
    else if vlen >? 1 then fail (decodeError "input string too short" typ [])
    else
      s <- get ;;
      modify (set_kind (-1)) ;;;
      ret [byteval s]
  else if k =? String then
    if vlen <? size then fail (decodeError "input string too long" typ [])
    else if vlen >? size then
      fail (decodeError "input string too short" typ [])
    else
      slice <- readFull vlen ;;
      (* Reject cases where single byte encoding should have been used. *)
      if (size =? 1) && (nth 0 slice 0 <? 128)
      then fail (wrapStreamError ErrCanonSize typ)
      else ret slice
  else fail (wrapStreamError ErrExpectedString typ).

(** [fmt.Sprint] of an index. *)
Definition Sprint_int (i : Z) : string := NilZero.string_of_int (Z.to_int i).

(** [decodeSliceElems]: [for ; ; i++].  [val] is the destination, whose
    element [i] (the zero value beyond its length) the element decoder
    decodes into.  Every round but the last reads at least the header byte
    of an element, so the loop makes no more rounds than there are input
    bytes, plus one; [rounds] is that bound. *)
Fixpoint decodeSliceElems (rounds : nat) (zero : value) (elemdec : decoder)
  (val : list value) (i : nat) (acc : list value) : M (list value) :=
  match rounds with
  | O => fail loopBudget
  | S n => fun s =>
      match elemdec (nth i val zero) s with
      | (inr EOL, s') => (inl acc, s')
      | (inr err, s') =>
          (inr (addErrorContext err
                  ("[" ++ Sprint_int (Z.of_nat i) ++ "]")), s')
      | (inl v, s') =>
          decodeSliceElems n zero elemdec val (S i) (acc ++ [v]) s'
      end
  end.

Definition slice_dest (val : value) : list value :=
  match val with VSlice l => l | _ => [] end.

Definition decodeListSlice (rounds : nat) (typ : string) (zero : value)
  (elemdec : decoder) : decoder := fun val =>
  size <- wrapped typ Stream_List ;;
  if size =? 0 then
    Stream_ListEnd ;;; ret (VSlice [])
  else
    l <- decodeSliceElems rounds zero elemdec (slice_dest val) 0 [] ;;
    Stream_ListEnd ;;; ret (VSlice l).

Definition makeListDecoder (rounds : nat) (typ etype : rtype)
  (etypeinfo : typeinfo) (tag : Tags) : decoder + error :=
  if isByte etype then inl (decodeByteSlice (rtype_String typ))
  else
    match tdecoder etypeinfo with
    | inr err => inr err
    | inl edec =>
        if Tail tag then
          (* A slice with "tail" tag can occur as the last field of a
             struct and is supposed to swallow all remaining list
             elements.  The struct decoder already called s.List, proceed
             directly to decoding the elements. *)
          inl (fun val =>
                 l <- decodeSliceElems rounds (zeroValue etype) edec
                        (slice_dest val) 0 [] ;;
                 ret (VSlice l))
        else
          inl (decodeListSlice rounds (rtype_String typ) (zeroValue etype)
                 edec)
    end.

(** [zeroFields]: the remaining fields get the zero value of their type. *)
Fixpoint zeroFields (structval : list value) (fields : list field) : list value :=
  match fields with
  | [] => structval
  | f :: rest =>
      zeroFields
        (set_nth (Z.to_nat (index f)) (zeroValue (ftype f)) structval) rest
  end.

(** The loop of the struct decoder over [fields[i:]]. *)
Fixpoint decodeFields (typ : string) (fields : list field) (val : list value)
  : M (list value) :=
  match fields with
  | [] => ret val
  | f :: rest => fun s =>
      match tdecoder (info f), Field_ val (index f) with
      | inl dec, Some fv =>
          match dec fv s with
          | (inr EOL, s') =>
              if optional f then
                (* The field is optional, so reaching the end of the list
                   before reaching the last field is acceptable.  All
                   remaining undecoded fields are zeroed. *)
                (inl (zeroFields val fields), s')
              else (inr (decodeError "too few elements" typ []), s')
          | (inr err, s') =>
              (inr (addErrorContext err ("." ++ fname f)), s')
          | (inl v, s') =>
              decodeFields typ rest (set_nth (Z.to_nat (index f)) v val) s'
          end
      | _, _ => (inr goPanic, s)
      end
  end.

Fixpoint first_decoderErr (typ : string) (fields : list field) : option error :=
  match fields with
  | [] => None
  | f :: rest =>
      match tdecoder (info f) with
      | inr err => Some (structFieldError typ (index f) err)
      | inl _ => first_decoderErr typ rest
      end
  end.

Definition struct_dest (val : value) : list value :=
  match val with VStruct l => l | _ => [] end.

Definition makeStructDecoder (typ : string) (sfields : list field + error)
  : decoder + error :=
  match sfields with
  | inr err => inr err
  | inl fields =>
      match first_decoderErr typ fields with
      | Some err => inr err
      | None =>
          inl (fun val =>
                 wrapped typ Stream_List ;;;
                 l <- decodeFields typ fields (struct_dest val) ;;
                 wrapped typ Stream_ListEnd ;;;
                 ret (VStruct l))
      end
  end.

(** ** Building the coders: [makeWriter], [makeDecoder],
    [typeCache.infoWhileGenerating]

    The type cache memoises what this function computes and lets cyclic
    types refer to themselves; the types of the model are finite trees, so
    the coders are built by recursion on the type. *)

Definition notSerializable (typ : rtype) : error :=
  errNotSerializable (rtype_String typ).

Fixpoint infoWhileGenerating (rounds : nat) (typ : rtype) {struct typ}
  : Tags -> typeinfo :=
  fun tags =>
  match typ with
  | TUint k => mkTypeinfo (inl (decodeUint k)) (inl writeUint)
  | TBool => mkTypeinfo (inl decodeBool) (inl writeBool)
  | TString => mkTypeinfo (inl decodeString) (inl writeString)
  | TSlice etype =>
      let etypeinfo := infoWhileGenerating rounds etype noTags in
      mkTypeinfo
        (makeListDecoder rounds typ etype etypeinfo tags)
        (if isByte etype then inl writeBytes
         else makeSliceWriter etypeinfo tags)
  | TStruct name fs =>
      let gen := map (fun rf => infoWhileGenerating rounds (sfType rf)) fs in
      let fields := structFields name fs gen in
      mkTypeinfo (makeStructDecoder name fields) (makeStructWriter name fields)
  | TOther _ _ =>
      mkTypeinfo (inr (notSerializable typ)) (inr (notSerializable typ))
  end.

Definition makeDecoder (rounds : nat) (typ : rtype) (tags : Tags)
  : decoder + error := tdecoder (infoWhileGenerating rounds typ tags).

Definition makeWriter (typ : rtype) (tags : Tags) : writer + error :=
  twriter (infoWhileGenerating 0 typ tags).

Definition cachedDecoder (rounds : nat) (typ : rtype) : decoder + error :=
  makeDecoder rounds typ noTags.

Definition cachedWriter (typ : rtype) : writer + error :=
  makeWriter typ noTags.

(** ** Front door (encode.go, decode.go) *)

Definition encBuffer_encode (typ : rtype) (val : value) (buf : encBuffer)
  : encBuffer + error :=
  match cachedWriter typ with
  | inr err => inr err
  | inl writer => writer val buf
  end.

(** [Encode(w, val)] for a writer [w] that is not an encoder buffer. *)
Definition Encode (w : list Z) (typ : rtype) (val : value) : list Z + error :=
  match encBuffer_encode typ val encBuffer_reset with
  | inr err => inr err
  | inl buf => encBuffer_writeTo buf w
  end.

Definition EncodeToBytes (typ : rtype) (val : value) : list Z + error :=
  match encBuffer_encode typ val encBuffer_reset with
  | inr err => inr err
  | inl buf => encBuffer_makeBytes buf
  end.

(** [EncodeToReader(val)]: the size of the encoding and a reader of it. *)
Definition EncodeToReader (typ : rtype) (val : value)
  : (Z * encReader) + error :=
  match encBuffer_encode typ val encBuffer_reset with
  | inr err => inr err
  | inl buf => inl (encBuffer_size buf, mkEncReader (Some buf) 0 0 None)
  end.

(** [Stream.Decode(val)] with [val] a non-nil pointer to a value of type
    [typ] holding [dest]. *)
Definition Stream_Decode (rounds : nat) (typ : rtype) (dest : value) : M value :=
  fun s =>
    match cachedDecoder rounds typ with
    | inr err => (inr err, s)
    | inl dec =>
        match dec dest s with
        | (inr (decodeError msg t (c :: ctx)), s') =>
            (* add decode target type to error so context has more meaning *)
            (inr (decodeError msg t
                    ((c :: ctx) ++ [String.append "(" (String.append (rtype_String typ) ")")])), s')
        | res => res
        end
    end.

(** [Decode(r, val)]: no input limit is set; the bound on the element
    loops is taken from the length of the input. *)
Definition Decode (input : list Z) (knownLen : bool) (typ : rtype)
  (dest : value) : (value + error) * Stream :=
  Stream_Decode (S (List.length input)) typ dest
    (Stream_Reset input knownLen 0).

(** [DecodeBytes(b, val)]: the input must contain exactly one value. *)
Definition DecodeBytes (b : list Z) (typ : rtype) (dest : value)
  : value + error :=
  match Stream_Decode (S (List.length b)) typ dest
          (Stream_Reset b false (len b)) with
  | (inr err, _) => inr err
  | (inl v, s) =>
      if len (r s) >? 0 then inr ErrMoreThanOneValue else inl v
  end.

(** * Definitions for the proofs *)

Unset Implicit Arguments.

(** The big-endian value of a byte string. *)
Definition be_value (l : list Z) : Z :=
  fold_left (fun acc b => acc * 256 + b) l 0.

Ltac shifts :=
  repeat rewrite Z.shiftr_div_pow2 by lia;
  unfold byte.

(** * The stream: reading within the limits *)

(** [fits n s]: reading [n] bytes is within the innermost list and within
    the input limit. *)
Definition fits (n : Z) (s : Stream) : Prop :=
  match stack s with [] => True | top :: _ => n <= top end
  /\ (limited s = true -> n <= remaining s).

Definition charge_stack (n : Z) (st : list Z) : list Z :=
  match st with [] => [] | top :: rest => (top - n) :: rest end.

(** The stream after [n] bytes were read. *)
Definition consume (n : Z) (s : Stream) : Stream :=
  mkStream (skipn (Z.to_nat n) (r s))
    (if limited s then remaining s - n else remaining s)
    (ssize s) (kinderr s) (charge_stack n (stack s)) (-1) (byteval s)
    (limited s).

(** [moved n s s']: [s'] is [s] after [n] bytes were read, whatever the
    cached kind. *)
Definition moved (n : Z) (s s' : Stream) : Prop :=
  r s' = skipn (Z.to_nat n) (r s)
  /\ remaining s' = (if limited s then remaining s - n else remaining s)
  /\ stack s' = charge_stack n (stack s)
  /\ limited s' = limited s.

Definition advanced (n : Z) (s s' : Stream) : Prop :=
  moved n s s' /\ kind s' = -1.

(** * The reference encoding of strings and integers *)

Definition enc_uint (n : Z) : list Z :=
  if n =? 0 then [0x80]
  else if n <? 128 then [n]
  else puthead 0x80 0xB7 (len (putint n)) ++ putint n.

Definition enc_string (b : list Z) : list Z :=
  match b with
  | [b0] => if b0 <=? 0x7F then [b0] else puthead 0x80 0xB7 1 ++ b
  | _ => puthead 0x80 0xB7 (len b) ++ b
  end.

(** * The reference encoding of a value

    [rlp v] is the encoding the wire grammar gives to [v]: a boolean is the
    integer 0 or 1, an integer is the string of its big-endian bytes, a
    slice or a struct is the list of its elements or fields. *)

Fixpoint rlp (v : value) : list Z :=
  match v with
  | VBool b => if b then [0x01] else [0x80]
  | VUint n => enc_uint n
  | VString s => enc_string s
  | VBytes b => enc_string b
  | VSlice l => puthead 0xC0 0xF7 (len (flat_map rlp l)) ++ flat_map rlp l
  | VStruct l => puthead 0xC0 0xF7 (len (flat_map rlp l)) ++ flat_map rlp l
  end.

(** What the encoder leaves in the buffer for [v]: the string data
    [flat v], the header records [heads v off] of the lists opened at
    offset [off] and after, and [hsz v] bytes of list headers.  An empty
    slice is written as the byte 0xC0 of the string data. *)

Fixpoint flat (v : value) : list Z :=
  match v with
  | VSlice [] => [0xC0]
  | VSlice l => flat_map flat l
  | VStruct l => flat_map flat l
  | _ => rlp v
  end.

Fixpoint heads_list (h : value -> Z -> list listhead) (l : list value)
  (off : Z) : list listhead :=
  match l with
  | [] => []
  | x :: xs => h x off ++ heads_list h xs (off + len (flat x))
  end.

Fixpoint heads (v : value) (off : Z) : list listhead :=
  match v with
  | VSlice [] => []
  | VSlice l => mkListhead off (len (flat_map rlp l)) :: heads_list heads l off
  | VStruct l => mkListhead off (len (flat_map rlp l)) :: heads_list heads l off
  | _ => []
  end.

Definition sumZ (l : list Z) : Z := fold_right Z.add 0 l.

Fixpoint hsz (v : value) : Z :=
  match v with
  | VSlice [] => 0
  | VSlice l => headsize (len (flat_map rlp l)) + sumZ (map hsz l)
  | VStruct l => headsize (len (flat_map rlp l)) + sumZ (map hsz l)
  | _ => 0
  end.

(** * The encoder fills the buffer as [flat], [heads] and [hsz] say *)

Definition filled (v : value) (buf : encBuffer) : encBuffer :=
  mkEncBuffer (str buf ++ flat v)
    (lheads buf ++ heads v (len (str buf)))
    (lhsize buf + hsz v).

Definition writes (wr : writer) (v : value) : Prop :=
  forall buf, wr v buf = inl (filled v buf).

(** The elements of a list, one after the other. *)
Definition filled_list (l : list value) (buf : encBuffer) : encBuffer :=
  mkEncBuffer (str buf ++ flat_map flat l)
    (lheads buf ++ heads_list heads l (len (str buf)))
    (lhsize buf + sumZ (map hsz l)).

(** * Flushing the buffer gives the reference encoding *)

(** The bytes a flush of the string data [s] from [strpos] on with the
    headers [hs] is made of: the string data before each header, the
    header, and the string data after the last header. *)
Fixpoint flush (s : list Z) (strpos : Z) (hs : list listhead) : list Z :=
  match hs with
  | [] => skipn (Z.to_nat strpos) s
  | head :: rest =>
      let piece := slice s strpos (offset head) in
      piece ++ listhead_encode head ++ flush s (strpos + len piece) rest
  end.

Definition first_ge (lo : Z) (hs : list listhead) : Prop :=
  match hs with [] => True | h :: _ => lo <= offset h end.

Definition flushes (v : value) : Prop :=
  forall pre post hs,
    len (rlp v) < 2 ^ 63 ->
    first_ge (len pre + len (flat v)) hs ->
    flush (pre ++ flat v ++ post) (len pre)
      (heads v (len pre) ++ hs)
    = rlp v
      ++ flush (pre ++ flat v ++ post)
           (len pre + len (flat v)) hs.

(** * The three ways out of the buffer *)

(** The offsets of the headers [hs] go up from [lo] and end before [hi]. *)
Fixpoint ordered (lo : Z) (hs : list listhead) (hi : Z) : Prop :=
  match hs with
  | [] => lo <= hi
  | h :: t => lo <= offset h /\ ordered (offset h) t hi
  end.

(** The number of bytes the headers [hs] take once encoded. *)
Definition hdrlen (hs : list listhead) : Z :=
  sumZ (map (fun h => len (listhead_encode h)) hs).

(** * Buffer states reached by balanced operations

    A sequence of operations on the buffer in which every [list()] is
    closed by the [listEnd] of its index is a list of [op]: a write, or a
    list with the operations between its opening and its end.  [opWrite]
    appends bytes as they are, as [Write] and the writers of raw values
    do. *)

Inductive op : Type :=
| opWrite (b : list Z)
| opWriteBool (b : bool)
| opWriteUint64 (i : Z)
| opWriteBytes (b : list Z)
| opWriteString (s : list Z)
| opList (body : list op).

Fixpoint run_op (o : op) (buf : encBuffer) : encBuffer :=
  match o with
  | opWrite b => encBuffer_Write b buf
  | opWriteBool b => encBuffer_writeBool b buf
  | opWriteUint64 i => encBuffer_writeUint64 i buf
  | opWriteBytes b => encBuffer_writeBytes b buf
  | opWriteString s => encBuffer_writeString s buf
  | opList body =>
      let '(index, buf1) := encBuffer_list buf in
      encBuffer_listEnd index (fold_left (fun b o' => run_op o' b) body buf1)
  end.

Definition run (ops : list op) (buf : encBuffer) : encBuffer :=
  fold_left (fun b o => run_op o b) ops buf.

(** What the operations add to a buffer: string data, and closed headers
    in the order of their offsets. *)
Definition extends (buf buf' : encBuffer) : Prop :=
  exists d hd,
    buf' = mkEncBuffer (str buf ++ d) (lheads buf ++ hd)
             (lhsize buf + hdrlen hd)
    /\ ordered (len (str buf)) hd (len (str buf) + len d).

(** Every write appends to the string data. *)
Definition is_write (o : op) : bool :=
  match o with opList _ => false | _ => true end.

(** * Reading the buffer piece by piece *)

(** What a reader has still to give: the piece it holds and the flush of
    the rest of the buffer. *)
Definition er_rest (r : encReader) : list Z :=
  match er_buf r with
  | None => []
  | Some buf =>
      match er_piece r with Some p => p | None => [] end
      ++ flush (str buf) (er_strpos r)
           (skipn (Z.to_nat (er_lhpos r)) (lheads buf))
  end.

Definition er_wf (r : encReader) : Prop :=
  match er_buf r with
  | None => True
  | Some buf =>
      0 <= er_lhpos r /\ 0 <= er_strpos r
      /\ ordered (er_strpos r) (skipn (Z.to_nat (er_lhpos r)) (lheads buf))
           (len (str buf))
      /\ er_piece r <> Some []
  end.

(** A call of [Read] that starts with [out] in a buffer of [cap] bytes
    and [rest] to give: it gives what fits, says [io.EOF] when this was
    all, and keeps the remainder. *)
Definition read_post (cap : Z) (out rest : list Z)
  (res : (list Z * option error) * encReader) : Prop :=
  fst res = (out ++ firstn (Z.to_nat (cap - len out)) rest,
             if len rest <=? cap - len out then Some io_EOF else None)
  /\ er_wf (snd res)
  /\ er_rest (snd res) = skipn (Z.to_nat (cap - len out)) rest.

(** [io.ReadAll] with a buffer of [cap] bytes for every call. *)
Fixpoint drain (fuel : nat) (cap : Z) (r : encReader) : list Z + error :=
  match fuel with
  | O => inr loopBudget
  | S k =>
      match encReader_Read cap r with
      | ((out, None), r') =>
          match drain k cap r' with
          | inl more => inl (out ++ more)
          | inr e => inr e
          end
      | ((out, Some io_EOF), _) => inl out
      | ((_, Some e), _) => inr e
      end
  end.

(** The operations of the example: an integer, then a list that holds a
    string, an empty list and a byte written as it is. *)
Definition ops_example : list op :=
  [opWriteUint64 5;
   opList [opWriteBytes [1; 2; 3]; opList []; opWrite [0x80]]].

(** * Supported types *)

(** The types of the round-trip property: unsigned integers, booleans,
    strings, byte slices, other slices, and structs whose fields are
    exported and carry no tag. *)
Fixpoint supported (t : rtype) : bool :=
  match t with
  | TBool | TUint _ | TString => true
  | TSlice e => supported e
  | TStruct _ fs =>
      forallb (fun rf => sfExported rf && String.eqb (sfTag rf) EmptyString
                         && supported (sfType rf)) fs
  | TOther _ _ => false
  end.

Definition plain (rf : StructField rtype) : Prop :=
  sfExported rf = true /\ sfTag rf = EmptyString.

(** The field records of a struct without tags. *)
Fixpoint plainFields (fs : list (StructField rtype))
  (gen : list (Tags -> typeinfo)) (k : Z) : list field :=
  match fs, gen with
  | rf :: fs', g :: gen' =>
      mkfield k (g noTags) false (sfName rf) (sfType rf)
      :: plainFields fs' gen' (k + 1)
  | _, _ => []
  end.

(** * Decoders read back the reference encoding *)

Definition top_ok (s : Stream) : Prop :=
  match stack s with [] => True | top :: _ => top < 2 ^ 64 end.

(** [reads rounds dec t]: on the encoding of a value of type [t] the
    decoder [dec] returns the value and leaves the stream behind it; at the
    end of a list it reports [EOL] and reads nothing. *)
Definition reads (rounds : nat) (dec : decoder) (t : rtype) : Prop :=
  (forall v dest s rest',
      has_type t v -> has_type t dest ->
      len (rlp v) < 2 ^ 63 -> len (rlp v) < Z.of_nat rounds ->
      kind s = -1 -> r s = rlp v ++ rest' ->
      fits (len (rlp v)) s -> top_ok s ->
      exists s', dec dest s = (inl v, s') /\ advanced (len (rlp v)) s s')
  /\ (forall dest s stk,
         kind s = -1 -> stack s = 0 :: stk -> dec dest s = (inr EOL, s)).

(** * Structs without tags *)

(** A field whose type has a decoder and a writer that agree with the
    reference encoding. *)
Definition field_coded (rounds : nat) (rf : StructField rtype) : Prop :=
  exists dec wr,
    tdecoder (infoWhileGenerating rounds (sfType rf) noTags) = inl dec
    /\ twriter (infoWhileGenerating rounds (sfType rf) noTags) = inl wr
    /\ (forall v, has_type (sfType rf) v -> len (rlp v) < 2 ^ 63 -> writes wr v)
    /\ reads rounds dec (sfType rf).

(** * Every supported type has a writer and a decoder that agree with the
    reference encoding *)

Definition coded (rounds : nat) (t : rtype) : Prop :=
  exists dec wr,
    tdecoder (infoWhileGenerating rounds t noTags) = inl dec
    /\ twriter (infoWhileGenerating rounds t noTags) = inl wr
    /\ (forall v, has_type t v -> len (rlp v) < 2 ^ 63 -> writes wr v)
    /\ reads rounds dec t.

Definition T_example : rtype :=
  TStruct "example"
    [mkStructField "A" true EmptyString (TUint U64);
     mkStructField "B" true EmptyString (TSlice (TUint U8));
     mkStructField "C" true EmptyString (TSlice (TUint U64));
     mkStructField "D" true EmptyString TBool;
     mkStructField "E" true EmptyString TString].

Definition v_example : value :=
  VStruct [VUint 1024; VBytes [0xCA; 0xFE]; VSlice [VUint 0; VUint 300];
           VBool true; VString [0x64; 0x6F; 0x67]].

(** The struct of the counterexample: one unexported field. *)
Definition T_private : rtype :=
  TStruct "private" [mkStructField "a" false EmptyString (TUint U64)].

(** A stream inside two lists: 5 bytes left in the inner one, 9 in the
    outer one, and a list of payload size 1 ahead. *)
Definition s_nested : Stream :=
  mkStream [0xC1; 0x07; 0x08] 20 0 None [5; 9] (-1) 0 true.

(** * Long-form headers *)

Ltac be_norm :=
  unfold BigEndian_Uint64; cbn [fold_left];
  rewrite Z.shiftl_0_l, Z.lor_0_l;
  repeat rewrite Z.shiftl_lor;
  repeat rewrite Z.shiftl_shiftl by lia;
  reflexivity.

(** * Optional fields *)

Definition T_optional : rtype :=
  TStruct "optional"
    [mkStructField "X" true EmptyString (TUint U64);
     mkStructField "Y" true "optional" (TUint U64);
     mkStructField "Z" true "optional" (TUint U64)].

Definition T_required : rtype :=
  TStruct "required"
    [mkStructField "X" true EmptyString (TUint U64);
     mkStructField "Y" true EmptyString (TUint U64);
     mkStructField "Z" true "optional" (TUint U64)].

(** The rule as C6 words it: the index of the last field whose value is
    not zero, [-1] when there is none. *)
Fixpoint lastNonZero_stated (vals : list value) (i : Z) : Z :=
  match vals with
  | [] => -1
  | v :: rest =>
      let j := lastNonZero_stated rest (i + 1) in
      if j >=? 0 then j else if IsZero v then -1 else i
  end.

Definition field_value (fields : list field) (l : list value) (i : Z)
  : option value :=
  match nth_error fields (Z.to_nat i) with
  | Some f => Field_ l (index f)
  | None => None
  end.

(** The field records of [T_optional], as [structFields] resolves them. *)
Definition fields_optional : list field :=
  match structFields "optional"
          [mkStructField "X" true EmptyString (TUint U64);
           mkStructField "Y" true "optional" (TUint U64);
           mkStructField "Z" true "optional" (TUint U64)]
          (repeat (infoWhileGenerating 0 (TUint U64)) 3) with
  | inl fields => fields
  | inr _ => []
  end.

(** * The optional rule of [ProcessFields] *)

(** The tags of a field, and the fields [ProcessFields] keeps. *)
Definition tagsOf (lastPublic : Z) (f : Field) : Tags :=
  fst (parseTag f lastPublic).

Definition kept (lastPublic : Z) (f : Field) : bool :=
  Exported f && negb (Ignored (tagsOf lastPublic f)).

Definition optionalMsg (firstOptionalName : string) : string :=
  ("must be optional because preceding field " ++ dq
   ++ firstOptionalName ++ dq ++ " is optional")%string.

(** An optional field followed by a required one. *)
Definition fs_bad : list (StructField rtype) :=
  [mkStructField "X" true EmptyString (TUint U64);
   mkStructField "Y" true "optional" (TUint U64);
   mkStructField "Z" true EmptyString (TUint U64)].

(** * What a decoder accepts is the encoding of what it returns *)

(** The counters of the open lists are [uint64]. *)
Definition stack_ok (s : Stream) : Prop :=
  Forall (fun c => 0 <= c < 2 ^ 64) (stack s).

(** The innermost counter charged with [n] bytes in [uint64] arithmetic. *)
Definition charge64 (n : Z) (st : list Z) : list Z :=
  match st with [] => [] | top :: rest => uint64 (top - n) :: rest end.

(** [took enc s s']: the bytes [enc] were read from [s], which left [s']. *)
Definition took (enc : list Z) (s s' : Stream) : Prop :=
  r s = enc ++ r s'
  /\ stack s' = charge64 (len enc) (stack s)
  /\ kind s' = -1.

(** ** Headers *)

(** [hdr] is the header of a value of kind [k] and size [sz]: the byte
    itself for a single byte, what [puthead] writes otherwise. *)
Definition is_header (k : Kind) (sz : Z) (hdr : list Z) (bv : Z) : Prop :=
  (k = Byte /\ sz = 0 /\ hdr = [bv] /\ 0 <= bv < 0x80)
  \/ (k = String /\ hdr = puthead 0x80 0xB7 sz /\ 0 <= sz < 2 ^ 64)
  \/ (k = List /\ hdr = puthead 0xC0 0xF7 sz /\ 0 <= sz < 2 ^ 64).

(** ** The end of a list

    [EOL] comes from [Kind] alone, before anything is read. *)

Definition eol_clean (dec : decoder) : Prop :=
  forall dest s s',
    dec dest s = (inr EOL, s') -> kind s = -1 ->
    s' = s /\ exists rest, stack s = 0 :: rest.

(** ** Decoders *)

(** [sound_dec dec t]: when [dec] returns a value, the value has the type
    [t] and the bytes it read are the encoding of the value. *)
Definition sound_dec (dec : decoder) (t : rtype) : Prop :=
  forall dest s v s',
    has_type t dest -> dec dest s = (inl v, s') ->
    kind s = -1 -> stack_ok s -> is_bytes (r s) -> len (r s) < 2 ^ 64 ->
    has_type t v /\ took (rlp v) s s'.

(** ** Structs without tags *)

Definition field_sound (rounds : nat) (rf : StructField rtype) : Prop :=
  exists dec,
    tdecoder (infoWhileGenerating rounds (sfType rf) noTags) = inl dec
    /\ sound_dec dec (sfType rf).

(** ** Every supported type *)

Definition sound (rounds : nat) (t : rtype) : Prop :=
  exists dec,
    tdecoder (infoWhileGenerating rounds t noTags) = inl dec
    /\ sound_dec dec t /\ eol_clean dec.

(** * The list iterator *)

(** The iterator after [k] calls of [Next]. *)
Definition listIterator_advance (k : nat) (it : listIterator) : listIterator :=
  Nat.iter k (fun it' => snd (listIterator_Next it')) it.

Definition s_raw : Stream := Stream_Reset [0xC2; 0x01; 0x02; 0x03] true 0.

Definition s_eol : Stream :=
  mkStream [0x01] 1 0 None [0; 1] (-1) 0 true.

(** * Input that does not fit the type *)

(** ** The number of elements of a struct *)

(** The decoder of a struct whose fields are exported and untagged. *)
Definition plainStructDecoder (rounds : nat) (name : string)
  (fs : list (StructField rtype)) : decoder :=
  fun val =>
    wrapped name Stream_List ;;;
    l <- decodeFields name
           (plainFields fs
              (map (fun rf => infoWhileGenerating rounds (sfType rf)) fs) 0)
           (struct_dest val) ;;
    wrapped name Stream_ListEnd ;;;
    ret (VStruct l).

Definition T_pair : rtype :=
  TStruct "pair"
    [mkStructField "A" true EmptyString (TUint U64);
     mkStructField "B" true EmptyString TString].

(** ** Strings where a list is expected, and lists where a string is *)

(** The types that are encoded as a list. *)
Definition is_list_type (t : rtype) : bool :=
  match t with
  | TSlice e => negb (isByte e)
  | TStruct _ _ => true
  | _ => false
  end.

(** * What a sequence of buffer operations writes *)

(** The value an operation writes: a list for [list() ... listEnd()].
    ([Write] appends bytes as they are and stands for no value.) *)
Fixpoint op_value (o : op) : value :=
  match o with
  | opWrite b => VBytes b
  | opWriteBool b => VBool b
  | opWriteUint64 i => VUint i
  | opWriteBytes b => VBytes b
  | opWriteString s => VString s
  | opList body => VStruct (map op_value body)
  end.

(** Operations that write values: no raw [Write], integers in range. *)
Fixpoint op_typed (o : op) : bool :=
  match o with
  | opWrite _ => false
  | opWriteBool _ => true
  | opWriteUint64 i => (0 <=? i) && (i <? 2 ^ 64)
  | opWriteBytes _ => true
  | opWriteString _ => true
  | opList body => forallb op_typed body
  end.

Definition ops_nested : list op :=
  [opWriteUint64 1024;
   opList [opWriteBytes [0xCA; 0xFE]; opList []; opWriteBool true];
   opWriteString [0x61]].

(** * What ProcessFields returns *)

(** A field with the "optional" or the "tail" tag. *)
Definition soft_tag (ts : Tags) : bool := Optional ts || Tail ts.

(** What the "tail" tag requires of its field. *)
Definition tail_ok (field : Field) (lastPublic : Z) (ts : Tags) : Prop :=
  Tail ts = true ->
  Index field = lastPublic
  /\ Type_Kind (FType field) = KSlice
  /\ Optional ts = false.

Definition fields_tagged : list Field :=
  [mkField "A" 0 true (rtypeToStructType (TUint U64)) EmptyString;
   mkField "b" 1 false (rtypeToStructType (TUint U64)) EmptyString;
   mkField "C" 2 true (rtypeToStructType (TUint U64)) "-";
   mkField "D" 3 true (rtypeToStructType (TUint U64)) "optional";
   mkField "E" 4 true (rtypeToStructType (TSlice (TUint U64))) "tail"].

(** * Big integers *)

(** The [n] low bytes of [x], the least significant first. *)
Fixpoint le_bytes (n : nat) (x : Z) : list Z :=
  match n with
  | O => []
  | S k => byte x :: le_bytes k (Z.shiftr x 8)
  end.

(** The [n] low bytes of [x], the most significant first. *)
Definition be_bytes (n : nat) (x : Z) : list Z := rev (le_bytes n x).

(** The bytes of [i] without leading zero bytes, the most significant
    first. *)
Definition min_bytes (i : Z) : list Z :=
  be_bytes (Z.to_nat ((big_BitLen i + 7) / 8)) i.

(** * 256-bit integers *)

(** The words of a [uint256.Int] are 64-bit words. *)
Definition uint256_ok (z : uint256) : Prop :=
  0 <= z0 z < 2 ^ 64 /\ 0 <= z1 z < 2 ^ 64
  /\ 0 <= z2 z < 2 ^ 64 /\ 0 <= z3 z < 2 ^ 64.

Definition z_example : uint256 := mkUint256 5 0 (2 ^ 63) 7.

(** * Proofs *)

(** * Arithmetic of bytes and sizes *)

Lemma len_nonneg {A} (l : list A) : 0 <= len l.
Proof. unfold len. lia. Qed.

Lemma len_app {A} (l1 l2 : list A) : len (l1 ++ l2) = len l1 + len l2.
Proof. unfold len. rewrite length_app. lia. Qed.

Lemma len_cons {A} (x : A) (l : list A) : len (x :: l) = 1 + len l.
Proof. unfold len. cbn [List.length]. lia. Qed.

Lemma len_nil {A} : len (@nil A) = 0.
Proof. reflexivity. Qed.

Lemma byte_small x : 0 <= x < 256 -> byte x = x.
Proof. intros. unfold byte. apply Z.mod_small. lia. Qed.

Lemma byte_range x : is_byte (byte x).
Proof. unfold is_byte, byte. apply Z.mod_pos_bound. lia. Qed.

Lemma uint64_small x : 0 <= x < 2 ^ 64 -> uint64 x = x.
Proof. intros. unfold uint64. apply Z.mod_small. lia. Qed.

Lemma lor_shiftl_add a b :
  0 <= a -> 0 <= b < 256 -> Z.lor (Z.shiftl a 8) b = a * 256 + b.
Proof.
  intros Ha Hb.
  rewrite Z.shiftl_mul_pow2 by lia. change (2 ^ 8) with 256.
  rewrite <- Z.lxor_lor, <- Z.add_nocarry_lxor; auto;
  apply Z.bits_inj'; intros n Hn; rewrite Z.land_spec, Z.bits_0;
  destruct (Z.lt_ge_cases n 8).
  1,3: replace (a * 256) with (a * 2 ^ 8) by lia;
       rewrite Z.mul_pow2_bits_low by lia; reflexivity.
  1,2: replace (Z.testbit b n) with false; [apply andb_false_r|];
       symmetry; destruct (Z.eq_dec b 0) as [->|]; [apply Z.bits_0|];
       apply Z.bits_above_log2; [lia|];
       apply Z.log2_lt_pow2; [lia|];
       apply Z.lt_le_trans with (2 ^ 8); [lia|];
       apply Z.pow_le_mono_r; lia.
Qed.

Lemma BigEndian_fold_eq l acc :
  0 <= acc -> is_bytes l ->
  fold_left (fun acc b => Z.lor (Z.shiftl acc 8) b) l acc
  = fold_left (fun acc b => acc * 256 + b) l acc.
Proof.
  revert acc. induction l as [|b l IH]; intros acc Hacc Hl; [reflexivity|].
  inversion Hl; subst. cbn [fold_left].
  rewrite lor_shiftl_add by (auto; apply H1).
  apply IH; auto. unfold is_byte in *. lia.
Qed.

Lemma BigEndian_be_value l : is_bytes l -> BigEndian_Uint64 l = be_value l.
Proof. intros. apply BigEndian_fold_eq; auto. lia. Qed.

Lemma be_value_zeros n l : be_value (repeat 0 n ++ l) = be_value l.
Proof.
  unfold be_value. rewrite fold_left_app.
  replace (fold_left (fun acc b => acc * 256 + b) (repeat 0 n) 0) with 0; auto.
  induction n; cbn; auto.
Qed.

Lemma putint_bytes i : is_bytes (putint i).
Proof.
  unfold putint.
  repeat match goal with |- context [if ?c then _ else _] => destruct c end;
    repeat constructor; apply byte_range.
Qed.

Lemma putint_len i : 1 <= len (putint i) <= 8.
Proof.
  unfold putint.
  repeat match goal with |- context [if ?c then _ else _] => destruct c end;
    cbv; split; congruence.
Qed.

Lemma putint_value i : 0 <= i < 2 ^ 64 -> be_value (putint i) = i.
Proof.
  intros Hi. unfold putint.
  repeat match goal with
         | |- context [if ?a <? ?b then _ else _] =>
             destruct (Z.ltb_spec a b)
         end;
    unfold be_value; cbn [fold_left]; shifts;
    repeat match goal with
      | |- context [2 ^ ?k] => let v := eval cbv in (2 ^ k) in change (2 ^ k) with v
      | H : context [2 ^ ?k] |- _ => let v := eval cbv in (2 ^ k) in change (2 ^ k) with v in H
      end;
    Z.div_mod_to_equations; lia.
Qed.

Lemma putint_head i : 0 <= i < 2 ^ 64 -> 256 <= i -> nth 0 (putint i) 0 <> 0.
Proof.
  intros Hi Hl. unfold putint.
  repeat match goal with
         | |- context [if ?a <? ?b then _ else _] =>
             destruct (Z.ltb_spec a b)
         end;
    cbn [nth]; shifts;
    repeat match goal with
      | |- context [2 ^ ?k] => let v := eval cbv in (2 ^ k) in change (2 ^ k) with v
      | H : context [2 ^ ?k] |- _ => let v := eval cbv in (2 ^ k) in change (2 ^ k) with v in H
      end;
    try (Z.div_mod_to_equations; lia).
Qed.

Lemma putint_len1 i : 0 <= i -> (len (putint i) = 1 <-> i < 256).
Proof.
  intros Hi. unfold putint.
  repeat match goal with
         | |- context [if ?a <? ?b then _ else _] =>
             destruct (Z.ltb_spec a b)
         end; cbv [len List.length]; split; intros; try lia; try discriminate.
  all: change (2^8) with 256 in *; try lia.
Qed.

Lemma intsize_putint i : 0 <= i < 2 ^ 64 -> intsize i = len (putint i).
Proof.
  intros Hi. unfold intsize, putint.
  repeat match goal with
         | |- context [if ?a <? ?b then _ else _] =>
             destruct (Z.ltb_spec a b)
         end;
  cbn [intsize_loop];
  repeat rewrite Z.shiftr_shiftr by lia;
  repeat rewrite Z.shiftr_div_pow2 by lia;
  cbn [Z.add Pos.add Pos.succ];
  repeat match goal with
      | |- context [2 ^ ?k] => let v := eval cbv in (2 ^ k) in change (2 ^ k) with v
      | H : context [2 ^ ?k] |- _ => let v := eval cbv in (2 ^ k) in change (2 ^ k) with v in H
      end;
  repeat match goal with
         | |- context [if ?a =? ?b then _ else _] =>
             destruct (Z.eqb_spec a b); [try (Z.div_mod_to_equations; lia)|]
         end;
  try reflexivity; try (Z.div_mod_to_equations; lia).
Qed.

(** * Lists *)

Lemma to_nat_len {A} (l : list A) : Z.to_nat (len l) = List.length l.
Proof. unfold len. apply Nat2Z.id. Qed.

Lemma firstn_len_app {A} (l1 l2 : list A) :
  firstn (Z.to_nat (len l1)) (l1 ++ l2) = l1.
Proof.
  rewrite to_nat_len, firstn_app, Nat.sub_diag, firstn_all. cbn.
  apply app_nil_r.
Qed.

Lemma skipn_len_app {A} (l1 l2 : list A) :
  skipn (Z.to_nat (len l1)) (l1 ++ l2) = l2.
Proof.
  rewrite to_nat_len, skipn_app, Nat.sub_diag, skipn_all. reflexivity.
Qed.

Lemma willRead_ok n s :
  fits n s -> willRead n s = (inl tt, set_r (r s) (consume n s)).
Proof.
  destruct s as [r0 rem sz ke st k bv lim]. unfold fits; cbn.
  intros [Hst Hlim]. unfold willRead, bind, modify, get; cbn.
  destruct st as [|top rest]; cbn.
  - destruct lim; cbn; [|reflexivity].
    destruct (Z.gtb_spec n rem); [specialize (Hlim eq_refl); lia|reflexivity].
  - destruct (Z.gtb_spec n top); [lia|]. cbn.
    destruct lim; cbn; [|reflexivity].
    destruct (Z.gtb_spec n rem); [specialize (Hlim eq_refl); lia|reflexivity].
Qed.

Lemma readByte_ok b tl s :
  fits 1 s -> r s = b :: tl -> readByte s = (inl b, consume 1 s).
Proof.
  intros Hf Hr. unfold readByte, bind. rewrite willRead_ok by assumption.
  unfold get, put, ret, consume; cbn. rewrite Hr. reflexivity.
Qed.

Lemma readFull_ok n s :
  fits n s -> 0 <= n <= len (r s) ->
  readFull n s = (inl (firstn (Z.to_nat n) (r s)), consume n s).
Proof.
  intros Hf Hn. unfold readFull, bind. rewrite willRead_ok by assumption.
  unfold get, put, ret, consume; cbn.
  destruct (Z.leb_spec n (len (r s))); [reflexivity|lia].
Qed.

Lemma willRead_ElemTooLarge n top rest s :
  stack s = top :: rest -> top < n ->
  willRead n s = (inr ErrElemTooLarge, set_kind (-1) s).
Proof.
  intros Hs Hn. unfold willRead, bind, modify, get, listLimit; cbn.
  rewrite Hs. destruct (Z.gtb_spec n top); [reflexivity|lia].
Qed.

Lemma moved_consume n s : moved n s (consume n s).
Proof. repeat split. Qed.

Lemma moved_trans n m s s1 s2 :
  0 <= n -> 0 <= m -> moved n s s1 -> moved m s1 s2 -> moved (n + m) s s2.
Proof.
  intros Hn Hm (A1 & A2 & A3 & A4) (B1 & B2 & B3 & B4).
  repeat split.
  - rewrite B1, A1, skipn_skipn. f_equal. lia.
  - rewrite B2, A4, A2. destruct (limited s); lia.
  - rewrite B3, A3. destruct (stack s); cbn; [reflexivity|]. f_equal. lia.
  - congruence.
Qed.

Lemma moved_0 s s' :
  r s' = r s -> remaining s' = remaining s -> stack s' = stack s ->
  limited s' = limited s -> moved 0 s s'.
Proof.
  intros Hr Hrem Hst Hlim. repeat split; auto.
  - rewrite Hrem. destruct (limited s); lia.
  - rewrite Hst. destruct (stack s); cbn; [reflexivity|]. f_equal. lia.
Qed.

Lemma fits_moved n m s s' :
  moved n s s' -> fits (n + m) s -> fits m s'.
Proof.
  intros (A1 & A2 & A3 & A4) [F1 F2]. split.
  - rewrite A3. destruct (stack s); cbn; [exact I|lia].
  - rewrite A4, A2. intros E. rewrite E in *. specialize (F2 eq_refl). lia.
Qed.

Lemma fits_le n m s : m <= n -> fits n s -> fits m s.
Proof.
  intros Hm [F1 F2]. split.
  - destruct (stack s); [exact I|lia].
  - intros E. specialize (F2 E). lia.
Qed.

(** * Reading a header *)

Lemma Stream_Kind_fresh s k sz s1 :
  kind s = -1 ->
  match stack s with [] => True | top :: _ => top <> 0 /\ sz <= top end ->
  Stream_readKind s = ((k, sz, None), s1) ->
  (limited s1 = true -> sz <= remaining s1) ->
  Stream_Kind s = ((k, sz, None), set_kinderr None (set_ssize sz (set_kind k s1))).
Proof.
  intros Hk Hst Hrk Hlim. unfold Stream_Kind. rewrite Hk. cbn.
  unfold listLimit. destruct (stack s) as [|top rest] eqn:Est; cbn.
  - rewrite Hrk. cbn.
    destruct (limited s1); cbn; [|reflexivity].
    destruct (Z.gtb_spec sz (remaining s1)); [specialize (Hlim eq_refl); lia|].
    reflexivity.
  - destruct Hst as [Hnz Hle].
    destruct (Z.eqb_spec top 0); [contradiction|]. rewrite Hrk. cbn.
    destruct (Z.gtb_spec sz top); [lia|].
    destruct (limited s1); cbn; [|reflexivity].
    destruct (Z.gtb_spec sz (remaining s1)); [specialize (Hlim eq_refl); lia|].
    reflexivity.
Qed.

(** At the end of the innermost list [Kind] reports [EOL] and reads
    nothing. *)
Lemma Stream_Kind_EOL s rest :
  kind s = -1 -> stack s = 0 :: rest ->
  Stream_Kind s = ((0, 0, Some EOL), s).
Proof.
  intros Hk Hst. unfold Stream_Kind, listLimit. rewrite Hk, Hst. reflexivity.
Qed.

Lemma KindM_EOL s rest :
  kind s = -1 -> stack s = 0 :: rest -> KindM s = (inr EOL, s).
Proof.
  intros. unfold KindM. erewrite Stream_Kind_EOL; eauto.
Qed.

(** A value that is its own encoding: a byte below 0x80. *)
Lemma Kind_byte b rest' s :
  0 <= b < 0x80 -> kind s = -1 -> r s = b :: rest' -> fits 1 s ->
  exists s1,
    Stream_Kind s = ((Byte, 0, None), s1)
    /\ moved 1 s s1 /\ kind s1 = Byte /\ byteval s1 = b.
Proof.
  intros Hb Hk Hr Hf.
  assert (Hrk : Stream_readKind s
                = ((Byte, 0, None), set_byteval b (set_byteval 0 (consume 1 s)))).
  { unfold Stream_readKind. rewrite (readByte_ok _ _ _ Hf Hr).
    destruct (Z.ltb_spec b 128); [reflexivity|lia]. }
  eexists. split.
  - apply Stream_Kind_fresh; [assumption| |exact Hrk|].
    + destruct Hf as [Hf _]. destruct (stack s); [exact I|lia].
    + cbn. destruct Hf as [_ Hf]. intros E. rewrite E in *.
      specialize (Hf eq_refl). lia.
  - cbn. repeat split.
Qed.

(** A string or list header written by [puthead]. *)
Lemma Kind_puthead small large k size rest' s :
  (small = 0x80 /\ large = 0xB7 /\ k = String)
  \/ (small = 0xC0 /\ large = 0xF7 /\ k = List) ->
  0 <= size < 2 ^ 64 ->
  kind s = -1 ->
  r s = puthead small large size ++ rest' ->
  fits (len (puthead small large size) + size) s ->
  exists s1,
    Stream_Kind s = ((k, size, None), s1)
    /\ moved (len (puthead small large size)) s s1
    /\ kind s1 = k /\ ssize s1 = size.
Proof.
  intros Htag Hsize Hk Hr Hf.
  assert (Hnz : match stack s with
                | [] => True | top :: _ => top <> 0 /\ size <= top end).
  { destruct Hf as [Hf _]. pose proof (len_nonneg (puthead small large size)).
    assert (1 <= len (puthead small large size)).
    { unfold puthead. destruct (size <? 56); rewrite len_cons;
        match goal with |- context [len ?l] => pose proof (len_nonneg l) end; lia. }
    destruct (stack s); [exact I|lia]. }
  unfold puthead in *. destruct (Z.ltb_spec size 56) as [Hs|Hs].
  - (* short form *)
    assert (Hb : byte (small + byte size) = small + size).
    { rewrite (byte_small size) by lia. apply byte_small.
      destruct Htag as [(-> & _)|(-> & _)]; lia. }
    rewrite Hb in *. change (len [small + size]) with 1 in *.
    cbn [app] in Hr.
    assert (Hf1 : fits 1 s) by (eapply fits_le; [|exact Hf]; lia).
    assert (Hrk : Stream_readKind s
                  = ((k, size, None), set_byteval 0 (consume 1 s))).
    { unfold Stream_readKind. rewrite (readByte_ok _ _ _ Hf1 Hr).
      destruct Htag as [(-> & -> & ->)|(-> & -> & ->)].
      - destruct (Z.ltb_spec (128 + size) 128); [lia|].
        destruct (Z.ltb_spec (128 + size) 184); [|lia].
        do 3 f_equal. lia.
      - destruct (Z.ltb_spec (192 + size) 128); [lia|].
        destruct (Z.ltb_spec (192 + size) 184); [lia|].
        destruct (Z.ltb_spec (192 + size) 192); [lia|].
        destruct (Z.ltb_spec (192 + size) 248); [|lia].
        do 3 f_equal. lia. }
    eexists. split.
    + apply Stream_Kind_fresh; [assumption|assumption|exact Hrk|].
      cbn. destruct Hf as [_ Hf]. intros E. rewrite E in *.
      specialize (Hf eq_refl). lia.
    + cbn. repeat split.
  - (* long form *)
    pose proof (putint_len size) as HL.
    pose proof (putint_bytes size) as HB.
    set (L := len (putint size)) in *.
    assert (Hb : byte (large + byte L) = large + L).
    { rewrite (byte_small L) by lia. apply byte_small.
      destruct Htag as [(_ & -> & _)|(_ & -> & _)]; lia. }
    rewrite Hb in *. rewrite len_cons in *. fold L in Hf.
    cbn [app] in Hr.
    assert (Hf1 : fits 1 s) by (eapply fits_le; [|exact Hf]; lia).
    set (s0 := set_byteval 0 (consume 1 s)).
    assert (Hm0 : moved 1 s s0) by (repeat split).
    assert (Hr0 : r s0 = putint size ++ rest').
    { cbn. rewrite Hr. reflexivity. }
    assert (HfL : fits L s0).
    { apply fits_le with (n := L + size); [lia|].
      apply (fits_moved 1 (L + size) s s0 Hm0).
      replace (1 + (L + size)) with (1 + L + size) by lia. exact Hf. }
    assert (Hru : readUint L s0 = (inl size, consume L s0)).
    { unfold readUint.
      destruct (Z.eqb_spec L 0); [lia|].
      destruct (Z.eqb_spec L 1) as [E1|E1].
      - assert (size < 256) by (apply putint_len1; [lia|exact E1]).
        assert (Hp : putint size = [size]).
        { unfold putint. destruct (Z.ltb_spec size (2 ^ 8)); [|lia].
          rewrite byte_small by lia. reflexivity. }
        rewrite Hp in Hr0. cbn [app] in Hr0. rewrite E1 in *.
        apply (readByte_ok _ _ _ HfL Hr0).
      - destruct (Z.gtb_spec L 8); [lia|].
        unfold bind. rewrite readFull_ok; [|assumption|].
        2:{ rewrite Hr0, len_app. fold L. pose proof (len_nonneg rest'). lia. }
        rewrite Hr0.
        replace (firstn (Z.to_nat L) (putint size ++ rest')) with (putint size)
          by (unfold L; now rewrite firstn_len_app).
        rewrite app_nth2 by (rewrite repeat_length; lia).
        rewrite repeat_length, Nat.sub_diag.
        assert (256 <= size).
        { destruct (Z.lt_ge_cases size 256) as [Hlt|]; [|assumption].
          apply putint_len1 in Hlt; [|lia]. fold L in Hlt. lia. }
        destruct (Z.eqb_spec (nth 0 (putint size) 0) 0) as [E0|E0].
        + exfalso. revert E0. apply putint_head; lia.
        + unfold ret. do 2 f_equal.
          rewrite BigEndian_be_value.
          * rewrite be_value_zeros. apply putint_value. lia.
          * apply Forall_app. split; [|assumption].
            apply Forall_forall. intros x Hx. apply repeat_spec in Hx.
            subst. unfold is_byte. lia. }
    assert (Hrk : Stream_readKind s = ((k, size, None), consume L s0)).
    { unfold Stream_readKind. rewrite (readByte_ok _ _ _ Hf1 Hr). fold s0.
      destruct Htag as [(-> & -> & ->)|(-> & -> & ->)].
      - destruct (Z.ltb_spec (183 + L) 128); [lia|].
        destruct (Z.ltb_spec (183 + L) 184); [lia|].
        destruct (Z.ltb_spec (183 + L) 192); [|lia].
        replace (byte (183 + L - 183)) with L
          by (rewrite byte_small; lia).
        rewrite Hru. destruct (Z.ltb_spec size 56); [lia|reflexivity].
      - destruct (Z.ltb_spec (247 + L) 128); [lia|].
        destruct (Z.ltb_spec (247 + L) 184); [lia|].
        destruct (Z.ltb_spec (247 + L) 192); [lia|].
        destruct (Z.ltb_spec (247 + L) 248); [lia|].
        replace (byte (247 + L - 247)) with L
          by (rewrite byte_small; lia).
        rewrite Hru. destruct (Z.ltb_spec size 56); [lia|reflexivity]. }
    assert (Hm : moved (1 + L) s (consume L s0)).
    { eapply moved_trans; [lia|lia|exact Hm0|apply moved_consume]. }
    eexists. split.
    + apply Stream_Kind_fresh; [assumption|assumption|exact Hrk|].
      destruct Hm as (_ & Hrem & _ & Hlim). rewrite Hlim, Hrem.
      destruct Hf as [_ Hf]. intros E. rewrite E in *.
      specialize (Hf eq_refl). lia.
    + split; [|split; reflexivity].
      destruct Hm as (A & B & C & D). repeat split; assumption.
Qed.

Lemma readUint_putint n rest' s :
  0 <= n < 2 ^ 64 ->
  r s = putint n ++ rest' ->
  fits (len (putint n)) s ->
  readUint (len (putint n)) s = (inl n, consume (len (putint n)) s).
Proof.
  intros Hn Hr Hf.
  pose proof (putint_len n) as HL. pose proof (putint_bytes n) as HB.
  set (L := len (putint n)) in *.
  unfold readUint.
  destruct (Z.eqb_spec L 0); [lia|].
  destruct (Z.eqb_spec L 1) as [E1|E1].
  - assert (n < 256) by (apply putint_len1; [lia|exact E1]).
    assert (Hp : putint n = [n]).
    { unfold putint. destruct (Z.ltb_spec n (2 ^ 8)); [|lia].
      rewrite byte_small by lia. reflexivity. }
    rewrite Hp in Hr. cbn [app] in Hr. rewrite E1 in *.
    apply (readByte_ok _ _ _ Hf Hr).
  - destruct (Z.gtb_spec L 8); [lia|].
    unfold bind. rewrite readFull_ok; [|assumption|].
    2:{ rewrite Hr, len_app. fold L. pose proof (len_nonneg rest'). lia. }
    rewrite Hr.
    replace (firstn (Z.to_nat L) (putint n ++ rest')) with (putint n)
      by (unfold L; now rewrite firstn_len_app).
    rewrite app_nth2 by (rewrite repeat_length; lia).
    rewrite repeat_length, Nat.sub_diag.
    assert (256 <= n).
    { destruct (Z.lt_ge_cases n 256) as [Hlt|]; [|assumption].
      apply putint_len1 in Hlt; [|lia]. fold L in Hlt. lia. }
    destruct (Z.eqb_spec (nth 0 (putint n) 0) 0) as [E0|E0].
    + exfalso. revert E0. apply putint_head; lia.
    + unfold ret. do 2 f_equal.
      rewrite BigEndian_be_value.
      * rewrite be_value_zeros. apply putint_value. lia.
      * apply Forall_app. split; [|assumption].
        apply Forall_forall. intros x Hx. apply repeat_spec in Hx.
        subst. unfold is_byte. lia.
Qed.

Lemma putint_len_bits n k :
  0 <= n < 2 ^ Bits k -> len (putint n) <= Bits k / 8.
Proof.
  intros Hn. unfold putint.
  repeat match goal with
         | |- context [if ?a <? ?b then _ else _] =>
             destruct (Z.ltb_spec a b)
         end;
    destruct k; cbn in Hn |- *; cbv [len List.length]; cbn; lia.
Qed.

Lemma len_puthead_short small large size :
  0 <= size < 56 -> puthead small large size = [byte (small + byte size)].
Proof.
  intros. unfold puthead. destruct (Z.ltb_spec size 56); [reflexivity|lia].
Qed.

Lemma Stream_uint_ok k n rest' s :
  0 <= n < 2 ^ Bits k ->
  kind s = -1 ->
  r s = enc_uint n ++ rest' ->
  fits (len (enc_uint n)) s ->
  exists s', Stream_uint (Bits k) s = (inl n, s')
             /\ advanced (len (enc_uint n)) s s'.
Proof.
  intros Hn Hk Hr Hf.
  assert (Hn64 : 0 <= n < 2 ^ 64).
  { split; [lia|]. apply Z.lt_le_trans with (2 ^ Bits k); [lia|].
    apply Z.pow_le_mono_r; [lia|]. destruct k; cbn; lia. }
  unfold enc_uint in *.
  destruct (Z.eqb_spec n 0) as [E0|E0].
  - (* zero is the empty string *)
    subst n.
    destruct (Kind_puthead 0x80 0xB7 String 0 rest' s) as (s1 & HK & Hm & Hk1 & Hsz);
      auto; try lia.
    unfold Stream_uint, bind, KindM. rewrite HK. cbn.
    replace (0 >? Bits k / 8) with false by (destruct k; reflexivity).
    eexists. split; [reflexivity|]. split; [|reflexivity].
    destruct Hm as (A & B & C & D). repeat split; assumption.
  - destruct (Z.ltb_spec n 128) as [Hlt|Hge].
    + (* a single byte *)
      destruct (Kind_byte n rest' s) as (s1 & HK & Hm & Hk1 & Hbv); auto; try lia.
      unfold Stream_uint, bind, KindM. rewrite HK. cbn.
      unfold get. rewrite Hbv.
      destruct (Z.eqb_spec n 0); [contradiction|]. cbn.
      eexists. split; [reflexivity|]. split; [|reflexivity].
      destruct Hm as (A & B & C & D). repeat split; assumption.
    + (* a short string *)
      pose proof (putint_len n) as HL.
      set (L := len (putint n)) in *.
      assert (Hh : len (puthead 0x80 0xB7 L) = 1).
      { rewrite len_puthead_short by lia. reflexivity. }
      rewrite len_app in Hf. fold L in Hf.
      rewrite <- app_assoc in Hr.
      destruct (Kind_puthead 0x80 0xB7 String L (putint n ++ rest') s)
        as (s1 & HK & Hm & Hk1 & Hsz); auto; try lia.
      unfold Stream_uint, bind, KindM. rewrite HK. cbn.
      pose proof (putint_len_bits n k Hn) as Hbits. fold L in Hbits.
      destruct (Z.gtb_spec L (Bits k / 8)); [lia|].
      rewrite (byte_small L) by lia.
      assert (Hr1 : r s1 = putint n ++ rest').
      { destruct Hm as (A & _). rewrite A, Hr. apply skipn_len_app. }
      assert (Hf1 : fits L s1).
      { apply (fits_moved _ _ _ _ Hm Hf). }
      unfold L. rewrite (readUint_putint n rest' s1 Hn64 Hr1 Hf1). fold L.
      destruct (Z.gtb_spec L 0); [|lia].
      destruct (Z.ltb_spec n 128); [lia|]. cbn.
      eexists. split; [reflexivity|]. split; [|reflexivity].
      rewrite Hh in Hm. rewrite len_app, Hh. fold L.
      apply (moved_trans 1 L s s1); [lia|lia|assumption|apply moved_consume].
Qed.

Lemma Stream_Bytes_ok b rest' s :
  is_bytes b ->
  len b < 2 ^ 64 ->
  kind s = -1 ->
  r s = enc_string b ++ rest' ->
  fits (len (enc_string b)) s ->
  exists s', Stream_Bytes s = (inl b, s')
             /\ advanced (len (enc_string b)) s s'.
Proof.
  intros Hb Hlen Hk Hr Hf.
  assert (Hgen :
    r s = (puthead 0x80 0xB7 (len b) ++ b) ++ rest' ->
    fits (len (puthead 0x80 0xB7 (len b) ++ b)) s ->
    (forall b0, b = [b0] -> 0x7F < b0) ->
    exists s', Stream_Bytes s = (inl b, s')
               /\ advanced (len (puthead 0x80 0xB7 (len b) ++ b)) s s').
  { clear Hr Hf. intros Hr Hf Hcanon.
    rewrite len_app in Hf. rewrite <- app_assoc in Hr.
    pose proof (len_nonneg b).
    destruct (Kind_puthead 0x80 0xB7 String (len b) (b ++ rest') s)
      as (s1 & HK & Hm & Hk1 & Hsz); auto; try lia.
    unfold Stream_Bytes, bind, KindM. rewrite HK. cbn.
    assert (Hr1 : r s1 = b ++ rest').
    { destruct Hm as (A & _). rewrite A, Hr. apply skipn_len_app. }
    rewrite readFull_ok.
    2:{ apply (fits_moved _ _ _ _ Hm Hf). }
    2:{ rewrite Hr1, len_app. pose proof (len_nonneg rest'). lia. }
    rewrite Hr1, firstn_len_app.
    assert (Hc : (len b =? 1) && (nth 0 b 0 <? 128) = false).
    { destruct (Z.eqb_spec (len b) 1) as [E|]; [|reflexivity].
      destruct b as [|b0 [|b1 b']]; try discriminate E.
      - specialize (Hcanon b0 eq_refl). cbn.
        destruct (Z.ltb_spec b0 128); [lia|reflexivity].
      - exfalso. unfold len in E. cbn in E. lia. }
    rewrite Hc. eexists. split; [reflexivity|]. split; [|reflexivity].
    rewrite len_app.
    apply (moved_trans _ _ s s1); auto; try apply moved_consume.
    apply len_nonneg. }
  unfold enc_string in *.
  destruct b as [|b0 [|b1 b']].
  - apply Hgen; auto. intros; discriminate.
  - destruct (Z.leb_spec b0 0x7F) as [Hle|Hgt].
    + inversion Hb as [|? ? Hb0 _]; subst. unfold is_byte in Hb0.
      destruct (Kind_byte b0 rest' s) as (s1 & HK & Hm & Hk1 & Hbv); auto; try lia.
      unfold Stream_Bytes, bind, KindM. rewrite HK. cbn.
      unfold get. rewrite Hbv.
      eexists. split; [reflexivity|]. split; [|reflexivity].
      destruct Hm as (A & B & C & D). repeat split; assumption.
    + apply Hgen; auto. intros b2 E. inversion E; subst. lia.
  - apply Hgen; auto. intros; discriminate.
Qed.

Lemma Stream_uint_EOL m s rest :
  kind s = -1 -> stack s = 0 :: rest -> Stream_uint m s = (inr EOL, s).
Proof.
  intros. unfold Stream_uint, bind. erewrite KindM_EOL; eauto.
Qed.

Lemma Stream_Bytes_EOL s rest :
  kind s = -1 -> stack s = 0 :: rest -> Stream_Bytes s = (inr EOL, s).
Proof.
  intros. unfold Stream_Bytes, bind. erewrite KindM_EOL; eauto.
Qed.

Lemma Stream_List_EOL s rest :
  kind s = -1 -> stack s = 0 :: rest -> Stream_List s = (inr EOL, s).
Proof.
  intros. unfold Stream_List, bind. erewrite KindM_EOL; eauto.
Qed.

(** Opening and closing a list. *)
Lemma Stream_List_ok P rest' s :
  0 <= P < 2 ^ 64 ->
  kind s = -1 ->
  r s = puthead 0xC0 0xF7 P ++ rest' ->
  fits (len (puthead 0xC0 0xF7 P) + P) s ->
  match stack s with [] => True | top :: _ => top < 2 ^ 64 end ->
  exists s',
    Stream_List s = (inl P, s')
    /\ r s' = rest'
    /\ remaining s' = (if limited s then remaining s - len (puthead 0xC0 0xF7 P)
                       else remaining s)
    /\ stack s' = P :: charge_stack (len (puthead 0xC0 0xF7 P) + P) (stack s)
    /\ limited s' = limited s
    /\ kind s' = -1.
Proof.
  intros HP Hk Hr Hf Htop.
  destruct (Kind_puthead 0xC0 0xF7 List P rest' s)
    as (s1 & HK & Hm & Hk1 & Hsz); auto.
  unfold Stream_List, bind, KindM. rewrite HK. cbn.
  destruct Hm as (A & B & C & D).
  pose proof (len_nonneg (puthead 192 247 P)) as Hh.
  unfold get, modify, listLimit. cbn.
  destruct (stack s1) as [|top1 rest1] eqn:E1; cbn.
  - eexists. split; [reflexivity|]. cbn.
    destruct (stack s) as [|top rest0]; [|discriminate].
    rewrite A, Hr, skipn_len_app, E1. repeat split; auto.
  - eexists. split; [reflexivity|]. cbn. unfold set_top; cbn. rewrite E1. cbn.
    destruct (stack s) as [|top rest0] eqn:E0; [discriminate|].
    cbn in C. inversion C; subst. destruct Hf as [Hf _]. rewrite E0 in Hf.
    rewrite A, Hr, skipn_len_app. repeat split; auto.
    cbn. rewrite uint64_small by lia. do 2 f_equal. lia.
Qed.

Lemma Stream_ListEnd_ok s rest :
  stack s = 0 :: rest ->
  exists s',
    Stream_ListEnd s = (inl tt, s')
    /\ r s' = r s /\ remaining s' = remaining s /\ stack s' = rest
    /\ limited s' = limited s /\ kind s' = -1.
Proof.
  intros Hst. unfold Stream_ListEnd, bind, get, modify, listLimit.
  rewrite Hst. cbn. rewrite Hst. eexists. split; [reflexivity|].
  cbn. repeat split.
Qed.

(** Induction on values, with the hypothesis on every element. *)
Lemma value_ind' (P : value -> Prop) :
  (forall b, P (VBool b)) -> (forall n, P (VUint n)) ->
  (forall s, P (VString s)) -> (forall b, P (VBytes b)) ->
  (forall l, Forall P l -> P (VSlice l)) ->
  (forall l, Forall P l -> P (VStruct l)) ->
  forall v, P v.
Proof.
  intros Hb Hu Hs Hy Hl Ht.
  fix IH 1. intros [b|n|s|b|l|l].
  - apply Hb.
  - apply Hu.
  - apply Hs.
  - apply Hy.
  - apply Hl. induction l as [|x xs IHl]; constructor; [apply IH|exact IHl].
  - apply Ht. induction l as [|x xs IHl]; constructor; [apply IH|exact IHl].
Qed.

Lemma len_puthead small large P :
  0 <= P < 2 ^ 64 -> len (puthead small large P) = headsize P.
Proof.
  intros HP. unfold puthead, headsize. destruct (P <? 56); [reflexivity|].
  rewrite len_cons, intsize_putint by assumption. reflexivity.
Qed.

Lemma headsize_pos P : 0 <= P < 2 ^ 64 -> 1 <= headsize P <= 9.
Proof.
  intros HP. unfold headsize. destruct (P <? 56); [lia|].
  rewrite intsize_putint by assumption. pose proof (putint_len P). lia.
Qed.

Lemma len_flat_map {A} (f : A -> list Z) l :
  len (flat_map f l) = sumZ (map (fun x => len (f x)) l).
Proof.
  induction l as [|x xs IH]; [reflexivity|].
  cbn. rewrite len_app, IH. reflexivity.
Qed.

Lemma puthead_nonempty small large P : 1 <= len (puthead small large P).
Proof.
  unfold puthead. destruct (P <? 56); rewrite len_cons;
    match goal with |- context [len ?l] => pose proof (len_nonneg l) end; lia.
Qed.

Lemma len_puthead_app small large P (l : list Z) :
  1 <= len (puthead small large P ++ l).
Proof.
  rewrite len_app. pose proof (puthead_nonempty small large P).
  pose proof (len_nonneg l). lia.
Qed.

Lemma enc_string_nonempty b : 1 <= len (enc_string b).
Proof.
  unfold enc_string.
  destruct b as [|b0 [|b1 b']].
  - apply len_puthead_app.
  - destruct (b0 <=? 127); [rewrite len_cons, len_nil; lia|].
    apply len_puthead_app.
  - apply len_puthead_app.
Qed.

Lemma rlp_nonempty v : 1 <= len (rlp v).
Proof.
  destruct v as [b|n|s|b|l|l]; cbn [rlp].
  - destruct b; rewrite len_cons, len_nil; lia.
  - unfold enc_uint. destruct (n =? 0); [rewrite len_cons, len_nil; lia|].
    destruct (n <? 128); [rewrite len_cons, len_nil; lia|].
    apply len_puthead_app.
  - apply enc_string_nonempty.
  - apply enc_string_nonempty.
  - apply len_puthead_app.
  - apply len_puthead_app.
Qed.

Lemma sumZ_nonneg l : Forall (fun x => 0 <= x) l -> 0 <= sumZ l.
Proof.
  induction 1 as [|x l Hx _ IH]; [cbv; congruence|].
  change (sumZ (x :: l)) with (x + sumZ l). lia.
Qed.

Lemma payload_elem l x :
  In x l -> len (rlp x) <= len (flat_map rlp l).
Proof.
  induction l as [|y ys IH]; [contradiction|].
  intros [->|Hin]; cbn; rewrite len_app.
  - pose proof (len_nonneg (flat_map rlp ys)). lia.
  - specialize (IH Hin). pose proof (len_nonneg (rlp y)). lia.
Qed.

Lemma payload_count l : len l <= len (flat_map rlp l).
Proof.
  induction l as [|y ys IH]; [reflexivity|].
  cbn [flat_map]. rewrite len_app, len_cons. pose proof (rlp_nonempty y). lia.
Qed.

Lemma len_rlp_list l :
  len (flat_map rlp l) < 2 ^ 64 ->
  len (puthead 0xC0 0xF7 (len (flat_map rlp l)) ++ flat_map rlp l)
  = headsize (len (flat_map rlp l)) + len (flat_map rlp l).
Proof.
  intros. rewrite len_app, len_puthead; [reflexivity|].
  pose proof (len_nonneg (flat_map rlp l)). lia.
Qed.

(** The bound on the encoded size passes to the elements. *)
Lemma bound_payload l B :
  len (puthead 0xC0 0xF7 (len (flat_map rlp l)) ++ flat_map rlp l) < B ->
  len (flat_map rlp l) < B.
Proof.
  rewrite len_app. intros.
  pose proof (len_nonneg (puthead 192 247 (len (flat_map rlp l)))). lia.
Qed.

Lemma sumZ_cons x l : sumZ (x :: l) = x + sumZ l.
Proof. reflexivity. Qed.

Lemma len_flat_list l :
  Forall (fun v => len (rlp v) < 2 ^ 63 -> len (rlp v) = len (flat v) + hsz v) l ->
  len (flat_map rlp l) < 2 ^ 63 ->
  len (flat_map rlp l) = len (flat_map flat l) + sumZ (map hsz l).
Proof.
  induction 1 as [|y ys Hy _ IHys]; intros Hp; [reflexivity|].
  cbn [flat_map map] in *. rewrite sumZ_cons. rewrite !len_app in *.
  pose proof (len_nonneg (rlp y)). pose proof (len_nonneg (flat_map rlp ys)).
  rewrite Hy, IHys by lia. lia.
Qed.

Lemma len_rlp_flat v :
  len (rlp v) < 2 ^ 63 -> len (rlp v) = len (flat v) + hsz v.
Proof.
  induction v as [b|n|s|b|l IH|l IH] using value_ind'; intros Hb;
    try (cbn [flat hsz]; lia).
  - destruct l as [|x xs]; [reflexivity|].
    cbn [rlp flat hsz] in *. set (l := x :: xs) in *.
    pose proof (bound_payload l _ Hb) as Hp.
    rewrite len_rlp_list by lia.
    rewrite (len_flat_list l IH Hp). lia.
  - cbn [rlp flat hsz] in *.
    pose proof (bound_payload l _ Hb) as Hp.
    rewrite len_rlp_list by lia.
    rewrite (len_flat_list l IH Hp). lia.
Qed.

Lemma filled_atom v buf :
  heads v (len (str buf)) = [] -> hsz v = 0 ->
  filled v buf = append_str buf (flat v).
Proof.
  intros Hh Hz. unfold filled, append_str. rewrite Hh, Hz, app_nil_r.
  f_equal. lia.
Qed.

Lemma writeUint_writes n : 0 <= n -> writes writeUint (VUint n).
Proof.
  intros Hn buf. rewrite filled_atom by reflexivity.
  cbn [writeUint flat rlp]. unfold encBuffer_writeUint64, enc_uint.
  destruct (n =? 0); [reflexivity|].
  destruct (Z.ltb_spec n 128).
  - rewrite byte_small by lia. reflexivity.
  - pose proof (putint_len n). rewrite len_puthead_short by lia. reflexivity.
Qed.

Lemma writeBool_writes b : writes writeBool (VBool b).
Proof.
  intros buf. rewrite filled_atom by reflexivity. destruct b; reflexivity.
Qed.

Lemma string_header n buf :
  0 <= n < 2 ^ 64 ->
  encBuffer_encodeStringHeader n buf = append_str buf (puthead 0x80 0xB7 n).
Proof.
  intros Hn. unfold encBuffer_encodeStringHeader, puthead.
  destruct (n <? 56); [reflexivity|]. rewrite uint64_small by assumption.
  reflexivity.
Qed.

Lemma append_str_app buf a b :
  append_str (append_str buf a) b = append_str buf (a ++ b).
Proof. unfold append_str. cbn. rewrite app_assoc. reflexivity. Qed.

Lemma writeBytes_writes b : len b < 2 ^ 64 -> writes writeBytes (VBytes b).
Proof.
  intros Hb buf. rewrite filled_atom by reflexivity.
  pose proof (len_nonneg b).
  cbn [writeBytes flat rlp]. unfold encBuffer_writeBytes, enc_string.
  destruct b as [|b0 [|b1 b']]; try destruct (b0 <=? 127);
    rewrite ?string_header, ?append_str_app by lia; reflexivity.
Qed.

Lemma writeString_writes b : len b < 2 ^ 64 -> writes writeString (VString b).
Proof.
  intros Hb buf. rewrite filled_atom by reflexivity.
  pose proof (len_nonneg b).
  cbn [writeString flat rlp]. unfold enc_string.
  destruct b as [|b0 [|b1 b']]; try destruct (b0 <=? 127);
    rewrite ?string_header, ?append_str_app by lia; reflexivity.
Qed.

Lemma filled_list_nil buf : filled_list [] buf = buf.
Proof.
  destruct buf. unfold filled_list.
  simpl. rewrite !app_nil_r, Z.add_0_r. reflexivity.
Qed.

Lemma filled_list_cons x xs buf :
  filled_list xs (filled x buf) = filled_list (x :: xs) buf.
Proof.
  unfold filled_list, filled.
  destruct buf as [s0 h0 z0]. simpl str. simpl lheads. simpl lhsize.
  cbn [flat_map map heads_list]. rewrite sumZ_cons.
  rewrite <- !app_assoc, len_app. f_equal. lia.
Qed.

Lemma writeElems_filled wr l :
  Forall (writes wr) l ->
  forall buf, writeElems wr l buf = inl (filled_list l buf).
Proof.
  induction 1 as [|x xs Hx _ IH]; intros buf; cbn [writeElems].
  - rewrite filled_list_nil. reflexivity.
  - rewrite Hx, IH, filled_list_cons. reflexivity.
Qed.

Lemma nth_error_middle {A} (l1 l2 : list A) x :
  nth_error (l1 ++ x :: l2) (List.length l1) = Some x.
Proof.
  rewrite nth_error_app2 by lia. rewrite Nat.sub_diag. reflexivity.
Qed.

Lemma set_nth_middle {A} (l1 l2 : list A) x y :
  set_nth (List.length l1) y (l1 ++ x :: l2) = l1 ++ y :: l2.
Proof.
  induction l1 as [|a l1 IH]; cbn; [reflexivity|]. rewrite IH. reflexivity.
Qed.

Lemma sum_len_flat l :
  len (flat_map rlp l) < 2 ^ 63 ->
  len (flat_map rlp l) = len (flat_map flat l) + sumZ (map hsz l).
Proof.
  apply len_flat_list. apply Forall_forall. intros v _. apply len_rlp_flat.
Qed.

(** [list()], the elements, [listEnd()]: the header record gets the size
    of the payload. *)
Lemma list_closed l buf :
  len (flat_map rlp l) < 2 ^ 63 ->
  encBuffer_listEnd (fst (encBuffer_list buf))
    (filled_list l (snd (encBuffer_list buf)))
  = mkEncBuffer (str buf ++ flat_map flat l)
      (lheads buf
       ++ mkListhead (len (str buf)) (len (flat_map rlp l))
          :: heads_list heads l (len (str buf)))
      (lhsize buf + (headsize (len (flat_map rlp l)) + sumZ (map hsz l))).
Proof.
  intros Hb. pose proof (len_nonneg (flat_map rlp l)) as Hp.
  destruct buf as [s0 h0 z0].
  unfold encBuffer_list, filled_list, encBuffer_listEnd.
  cbn [fst snd str lheads lhsize].
  rewrite to_nat_len, <- app_assoc. cbn [app].
  rewrite nth_error_middle, set_nth_middle.
  unfold encBuffer_size. cbn [str lheads lhsize offset size]. rewrite len_app.
  replace (len s0 + len (flat_map flat l)
           + (z0 + sumZ (map hsz l)) - len s0 - z0)
    with (len (flat_map rlp l)) by (rewrite sum_len_flat by assumption; lia).
  f_equal. unfold headsize. rewrite uint64_small by lia.
  destruct (len (flat_map rlp l) <? 56); lia.
Qed.

Lemma len_slice {A} (s : list A) a b :
  0 <= a <= b -> b <= len s -> len (slice s a b) = b - a.
Proof.
  intros Ha Hb. unfold slice, len in *.
  rewrite length_firstn, length_skipn. lia.
Qed.

Lemma slice_split {A} (s : list A) a m b :
  0 <= a <= m -> m <= b ->
  slice s a b = slice s a m ++ slice s m b.
Proof.
  intros Ha Hm. unfold slice.
  replace (Z.to_nat (b - a)) with (Z.to_nat (m - a) + Z.to_nat (b - m))%nat by lia.
  rewrite <- (firstn_skipn (Z.to_nat (m - a)) (skipn (Z.to_nat a) s)) at 1.
  rewrite firstn_app.
  destruct (Nat.le_gt_cases (Z.to_nat (m - a))
              (List.length (skipn (Z.to_nat a) s))) as [Hle|Hgt].
  - rewrite length_firstn, Nat.min_l by assumption.
    rewrite firstn_firstn, Nat.min_r by lia.
    rewrite skipn_skipn.
    replace (Z.to_nat (m - a) + Z.to_nat (b - m) - Z.to_nat (m - a))%nat
      with (Z.to_nat (b - m)) by lia.
    replace (Z.to_nat (m - a) + Z.to_nat a)%nat with (Z.to_nat m) by lia.
    reflexivity.
  - rewrite (firstn_all2 (n := Z.to_nat (m - a))) by lia.
    rewrite (skipn_all2 (n := Z.to_nat (m - a))) by lia.
    rewrite firstn_nil, app_nil_r.
    rewrite (firstn_all2 (n := (Z.to_nat (m - a) + Z.to_nat (b - m))%nat)) by lia.
    rewrite length_skipn in Hgt.
    rewrite (skipn_all2 (n := Z.to_nat m)) by lia.
    rewrite firstn_nil, app_nil_r. reflexivity.
Qed.

Lemma skipn_slice {A} (s : list A) a m :
  0 <= a <= m ->
  skipn (Z.to_nat a) s = slice s a m ++ skipn (Z.to_nat m) s.
Proof.
  intros Ha. unfold slice.
  rewrite <- (firstn_skipn (Z.to_nat (m - a)) (skipn (Z.to_nat a) s)) at 1.
  rewrite skipn_skipn.
  replace (Z.to_nat (m - a) + Z.to_nat a)%nat with (Z.to_nat m) by lia.
  reflexivity.
Qed.

Lemma len_slice_min {A} (s : list A) a b :
  0 <= a <= len s -> a <= b -> len (slice s a b) = Z.min b (len s) - a.
Proof.
  intros Ha Hb. unfold slice, len in *.
  rewrite length_firstn, length_skipn.
  destruct (Nat.min_spec (Z.to_nat (b - a)) (List.length s - Z.to_nat a))
    as [[? ->]|[? ->]]; lia.
Qed.

(** The position may be moved up to the next header. *)
Lemma copyTo_split s strpos mid hs :
  0 <= strpos <= mid -> mid <= len s -> first_ge mid hs ->
  flush s strpos hs
  = slice s strpos mid ++ flush s mid hs.
Proof.
  intros Hpos Hmid Hge. destruct hs as [|h hs']; cbn [flush].
  - apply skipn_slice. assumption.
  - cbn in Hge.
    rewrite (slice_split s strpos mid (offset h)) by lia.
    rewrite <- app_assoc. do 3 f_equal.
    rewrite <- slice_split by lia.
    rewrite !len_slice_min by lia. f_equal. lia.
Qed.

Lemma slice_app_mid (pre mid post : list Z) :
  slice (pre ++ mid ++ post) (len pre) (len pre + len mid) = mid.
Proof.
  unfold slice. rewrite skipn_len_app.
  replace (len pre + len mid - len pre) with (len mid) by lia.
  apply firstn_len_app.
Qed.

Lemma slice_empty {A} (s : list A) a : slice s a a = [].
Proof. unfold slice. rewrite Z.sub_diag. reflexivity. Qed.

Lemma first_ge_heads v off hs :
  first_ge (off + len (flat v)) hs -> first_ge off (heads v off ++ hs).
Proof.
  intros H. pose proof (len_nonneg (flat v)).
  assert (Hdef : first_ge off hs) by (destruct hs; cbn in *; [exact I|lia]).
  destruct v as [b|n|s|b|[|x xs]|l]; cbn; auto; lia.
Qed.

Lemma first_ge_heads_list l off hs :
  first_ge (off + len (flat_map flat l)) hs ->
  first_ge off (heads_list heads l off ++ hs).
Proof.
  revert off. induction l as [|x xs IH]; intros off H; cbn in *.
  - rewrite Z.add_0_r in H. exact H.
  - rewrite <- app_assoc. apply first_ge_heads. apply IH.
    rewrite len_app in H. replace (off + len (flat x) + len (flat_map flat xs))
      with (off + (len (flat x) + len (flat_map flat xs))) by lia. exact H.
Qed.

Lemma flushes_atom v :
  heads v = (fun _ => []) -> flat v = rlp v -> flushes v.
Proof.
  intros Hh Hf pre post hs Hb Hge. rewrite Hh. cbn [app].
  pose proof (len_nonneg pre). pose proof (len_nonneg (flat v)).
  rewrite (copyTo_split _ (len pre) (len pre + len (flat v))); auto; try lia.
  - rewrite slice_app_mid, Hf. reflexivity.
  - rewrite !len_app. pose proof (len_nonneg post). lia.
Qed.

Lemma flushes_list l :
  Forall flushes l ->
  forall pre post hs,
    len (flat_map rlp l) < 2 ^ 63 ->
    first_ge (len pre + len (flat_map flat l)) hs ->
    flush (pre ++ flat_map flat l ++ post) (len pre)
      (heads_list heads l (len pre) ++ hs)
    = flat_map rlp l
      ++ flush (pre ++ flat_map flat l ++ post)
           (len pre + len (flat_map flat l)) hs.
Proof.
  induction 1 as [|x xs Hx _ IH]; intros pre post hs Hb Hge.
  - cbn. rewrite Z.add_0_r. reflexivity.
  - cbn [flat_map heads_list] in *. rewrite !len_app in *.
    pose proof (len_nonneg (rlp x)). pose proof (len_nonneg (flat_map rlp xs)).
    rewrite <- !app_assoc.
    rewrite (Hx pre (flat_map flat xs ++ post)); [|lia|].
    2:{ apply first_ge_heads_list.
        replace (len pre + len (flat x) + len (flat_map flat xs))
          with (len pre + (len (flat x) + len (flat_map flat xs))) by lia.
        exact Hge. }
    f_equal.
    specialize (IH (pre ++ flat x) post hs).
    rewrite len_app, <- !app_assoc in IH.
    rewrite IH; [|lia|].
    2:{ replace (len pre + len (flat x) + len (flat_map flat xs))
          with (len pre + (len (flat x) + len (flat_map flat xs))) by lia.
        exact Hge. }
    do 2 f_equal. lia.
Qed.

Lemma flushes_opened l :
  Forall flushes l ->
  forall pre post hs,
    len (puthead 0xC0 0xF7 (len (flat_map rlp l)) ++ flat_map rlp l) < 2 ^ 63 ->
    first_ge (len pre + len (flat_map flat l)) hs ->
    flush (pre ++ flat_map flat l ++ post) (len pre)
      ((mkListhead (len pre) (len (flat_map rlp l))
        :: heads_list heads l (len pre)) ++ hs)
    = (puthead 0xC0 0xF7 (len (flat_map rlp l)) ++ flat_map rlp l)
      ++ flush (pre ++ flat_map flat l ++ post)
           (len pre + len (flat_map flat l)) hs.
Proof.
  intros Hl pre post hs Hb Hge.
  pose proof (bound_payload l _ Hb) as Hp.
  pose proof (len_nonneg (flat_map rlp l)).
  cbn [app flush offset].
  rewrite slice_empty. cbn [app len List.length]. rewrite Z.add_0_r.
  unfold listhead_encode. cbn [size]. rewrite uint64_small by lia.
  rewrite <- app_assoc. f_equal.
  apply flushes_list; auto.
Qed.

Lemma value_flushes v : flushes v.
Proof.
  induction v as [b|n|s|b|l IH|l IH] using value_ind';
    try (apply flushes_atom; reflexivity).
  - destruct l as [|x xs]; [apply flushes_atom; reflexivity|].
    intros pre post hs Hb Hge. apply flushes_opened; assumption.
  - intros pre post hs Hb Hge. apply flushes_opened; assumption.
Qed.

(** The flush of a buffer that holds the value [v] alone. *)
Lemma flush_filled v :
  len (rlp v) < 2 ^ 63 ->
  flush (str (filled v encBuffer_reset)) 0 (lheads (filled v encBuffer_reset))
  = rlp v.
Proof.
  intros Hb. unfold filled, encBuffer_reset.
  cbn [str lheads app].
  pose proof (value_flushes v [] [] [] Hb I) as H.
  change (len (@nil Z)) with 0 in *.
  cbn [app] in H. rewrite !app_nil_r in H. rewrite H.
  cbn [flush]. rewrite Z.add_0_l, to_nat_len, skipn_all.
  apply app_nil_r.
Qed.

Lemma ordered_le hs : forall lo hi, ordered lo hs hi -> lo <= hi.
Proof.
  induction hs as [|h t IH]; intros lo hi H; cbn in H; [exact H|].
  destruct H as [H1 H2]. specialize (IH _ _ H2). lia.
Qed.

Lemma ordered_weaken hs : forall lo lo' hi hi',
  lo' <= lo -> hi <= hi' -> ordered lo hs hi -> ordered lo' hs hi'.
Proof.
  induction hs as [|h t IH]; intros lo lo' hi hi' Hlo Hhi H; cbn in *.
  - lia.
  - destruct H as [H1 H2]. split; [lia|].
    apply (IH (offset h) (offset h) hi hi'); [lia|assumption|assumption].
Qed.

Lemma ordered_app a : forall lo mid b hi,
  ordered lo a mid -> ordered mid b hi -> ordered lo (a ++ b) hi.
Proof.
  induction a as [|h t IH]; intros lo mid b hi Ha Hb; cbn in *.
  - apply (ordered_weaken b mid lo hi hi); [assumption|lia|assumption].
  - destruct Ha as [H1 H2]. split; [assumption|]. apply (IH _ mid); assumption.
Qed.

Lemma hdrlen_nonneg hs : 0 <= hdrlen hs.
Proof.
  unfold hdrlen. apply sumZ_nonneg. apply Forall_forall.
  intros x Hx. apply in_map_iff in Hx. destruct Hx as [h [<- _]].
  apply len_nonneg.
Qed.

Lemma hdrlen_app a b : hdrlen (a ++ b) = hdrlen a + hdrlen b.
Proof.
  unfold hdrlen. induction a as [|h t IH]; [reflexivity|].
  cbn [app map]. rewrite !sumZ_cons, IH. lia.
Qed.

Lemma hdrlen_cons h t : hdrlen (h :: t) = len (listhead_encode h) + hdrlen t.
Proof. reflexivity. Qed.

Lemma len_skipn {A} (l : list A) k :
  0 <= k <= len l -> len (skipn (Z.to_nat k) l) = len l - k.
Proof. intros H. unfold len in *. rewrite length_skipn. lia. Qed.

Lemma len_firstn {A} (l : list A) k :
  0 <= k <= len l -> len (firstn (Z.to_nat k) l) = k.
Proof. intros H. unfold len in *. rewrite length_firstn. lia. Qed.

Lemma slice_ok_ordered (s : list Z) strpos h t :
  0 <= strpos -> ordered strpos (h :: t) (len s) ->
  slice_ok s strpos (offset h) = true
  /\ len (slice s strpos (offset h)) = offset h - strpos.
Proof.
  intros Hs [H1 H2]. pose proof (ordered_le _ _ _ H2).
  split.
  - unfold slice_ok. apply andb_true_intro; split;
      [apply andb_true_intro; split|]; apply Z.leb_le; lia.
  - apply len_slice; lia.
Qed.

(** The length of a flush: the string data and the headers. *)
Lemma len_flush (s : list Z) hs : forall strpos,
  0 <= strpos -> ordered strpos hs (len s) ->
  len (flush s strpos hs) = len s - strpos + hdrlen hs.
Proof.
  induction hs as [|h t IH]; intros strpos Hs Ho.
  - cbn in *. rewrite len_skipn by lia. cbv [hdrlen map sumZ fold_right]. lia.
  - destruct (slice_ok_ordered s strpos h t Hs Ho) as [_ Hl].
    destruct Ho as [H1 H2].
    cbn [flush]. rewrite !len_app, Hl, hdrlen_cons.
    rewrite IH; [lia|lia|].
    replace (strpos + (offset h - strpos)) with (offset h) by lia. exact H2.
Qed.

(** [copy] into the free space after [pre]. *)
Lemma copy_at_app pre z src :
  len src <= len z ->
  copy_at (pre ++ z) (len pre) src
  = ((pre ++ src) ++ skipn (Z.to_nat (len src)) z, len src).
Proof.
  intros H. pose proof (len_nonneg src). pose proof (len_nonneg pre).
  unfold copy_at. rewrite len_app.
  replace (Z.min (len pre + len z - len pre) (len src)) with (len src) by lia.
  f_equal. rewrite firstn_len_app.
  rewrite to_nat_len, firstn_all.
  rewrite skipn_app.
  rewrite (skipn_all2 pre) by (unfold len; lia).
  replace (Z.to_nat (len pre + len src) - List.length pre)%nat
    with (Z.to_nat (len src)) by (unfold len; lia).
  cbn [app]. rewrite <- app_assoc, ?to_nat_len. reflexivity.
Qed.

(** [copyTo] into a destination with exactly the room the flush needs. *)
Lemma copyTo_flush (s : list Z) hs : forall strpos pre z,
  0 <= strpos -> ordered strpos hs (len s) ->
  len z = len (flush s strpos hs) ->
  encBuffer_copyTo_loop s strpos (len pre) hs (pre ++ z)
  = inl (pre ++ flush s strpos hs).
Proof.
  induction hs as [|h t IH]; intros strpos pre z Hs Ho Hz.
  - cbn [encBuffer_copyTo_loop flush] in *.
    rewrite copy_at_app by lia. cbn [fst].
    rewrite <- Hz, to_nat_len, skipn_all, app_nil_r. reflexivity.
  - destruct (slice_ok_ordered s strpos h t Hs Ho) as [Hok Hl].
    destruct Ho as [H1 H2].
    cbn [encBuffer_copyTo_loop flush] in *. rewrite Hok.
    set (piece := slice s strpos (offset h)) in *.
    set (enc := listhead_encode h) in *.
    rewrite !len_app in Hz.
    pose proof (len_nonneg enc). pose proof (len_nonneg piece).
    pose proof (len_nonneg (flush s (strpos + len piece) t)).
    rewrite copy_at_app by lia.
    set (z1 := skipn (Z.to_nat (len piece)) z).
    assert (Hz1 : len z1 = len z - len piece)
      by (unfold z1; apply len_skipn; lia).
    rewrite <- len_app.
    replace (len ((pre ++ piece) ++ z1) - len (pre ++ piece)) with (len z1)
      by (rewrite (len_app (pre ++ piece) z1); lia).
    destruct (Z.leb_spec (len enc) (len z1)); [|lia].
    rewrite copy_at_app by lia. cbn [fst].
    rewrite <- len_app.
    replace (strpos + len piece) with (offset h) in * by lia.
    rewrite IH; [|lia|exact H2|].
    + rewrite <- !app_assoc. reflexivity.
    + rewrite len_skipn by lia. lia.
Qed.

(** [writeTo] appends the flush to what the writer holds. *)
Lemma writeTo_flush (s : list Z) hs : forall strpos w,
  0 <= strpos -> ordered strpos hs (len s) ->
  encBuffer_writeTo_loop s strpos hs w = inl (w ++ flush s strpos hs).
Proof.
  induction hs as [|h t IH]; intros strpos w Hs Ho.
  - cbn in *. destruct (Z.ltb_spec strpos (len s)); [reflexivity|].
    rewrite skipn_all2 by (unfold len in *; lia).
    rewrite app_nil_r. reflexivity.
  - destruct (slice_ok_ordered s strpos h t Hs Ho) as [Hok Hl].
    destruct Ho as [H1 H2].
    cbn [encBuffer_writeTo_loop flush]. rewrite Hok, Hl.
    replace (strpos + (offset h - strpos)) with (offset h) by lia.
    destruct (Z.gtb_spec (offset h - strpos) 0).
    + rewrite IH by (assumption || lia). rewrite <- !app_assoc. reflexivity.
    + assert (offset h = strpos) as Heq by lia. rewrite Heq in *.
      rewrite slice_empty. rewrite IH by (assumption || lia).
      rewrite <- !app_assoc. reflexivity.
Qed.

Lemma op_ind' (P : op -> Prop) :
  (forall b, P (opWrite b)) -> (forall b, P (opWriteBool b)) ->
  (forall i, P (opWriteUint64 i)) -> (forall b, P (opWriteBytes b)) ->
  (forall s, P (opWriteString s)) ->
  (forall body, Forall P body -> P (opList body)) ->
  forall o, P o.
Proof.
  intros H1 H2 H3 H4 H5 H6.
  fix IH 1. intros [b|b|i|b|s|body].
  - apply H1.
  - apply H2.
  - apply H3.
  - apply H4.
  - apply H5.
  - apply H6. induction body as [|x xs IHl]; constructor; [apply IH|exact IHl].
Qed.

Lemma writeBytes_appends b buf :
  exists d, encBuffer_writeBytes b buf = append_str buf d.
Proof.
  unfold encBuffer_writeBytes, encBuffer_encodeStringHeader.
  destruct b as [|b0 [|b1 b']]; try destruct (b0 <=? 127);
    try match goal with |- context [if ?c then _ else _] => destruct c end;
    rewrite ?append_str_app; eexists; reflexivity.
Qed.

Lemma write_appends o :
  is_write o = true -> forall buf, exists d, run_op o buf = append_str buf d.
Proof.
  intros Hw buf. destruct o as [b|b|i|b|s|body]; cbn [run_op].
  - exists b. reflexivity.
  - unfold encBuffer_writeBool. destruct b; eexists; reflexivity.
  - unfold encBuffer_writeUint64.
    destruct (i =? 0); [|destruct (i <? 128)]; eexists; reflexivity.
  - apply writeBytes_appends.
  - apply writeBytes_appends.
  - discriminate.
Qed.

Lemma size_append buf d :
  encBuffer_size (append_str buf d) = encBuffer_size buf + len d.
Proof. unfold encBuffer_size, append_str. cbn. rewrite len_app. lia. Qed.

Lemma intsize_pos i : 0 <= i < 2 ^ 64 -> 1 <= intsize i.
Proof.
  intros H. rewrite intsize_putint by assumption.
  pose proof (putint_len i). lia.
Qed.

Lemma uint64_range x : 0 <= uint64 x < 2 ^ 64.
Proof. unfold uint64. apply Z.mod_pos_bound. lia. Qed.

Lemma listEnd_mono index buf :
  encBuffer_size buf <= encBuffer_size (encBuffer_listEnd index buf).
Proof.
  unfold encBuffer_listEnd.
  destruct (nth_error (lheads buf) (Z.to_nat index)) as [lh|]; [|lia].
  unfold encBuffer_size at 2. cbn [str lhsize].
  match goal with |- context [intsize (uint64 ?x)] =>
    pose proof (intsize_pos (uint64 x) (uint64_range x)) end.
  match goal with |- context [if ?c then _ else _] => destruct c end;
    unfold encBuffer_size at 1; lia.
Qed.

Lemma fold_mono (body : list op) :
  Forall (fun o => forall buf, encBuffer_size buf <= encBuffer_size (run_op o buf)) body ->
  forall buf, encBuffer_size buf <= encBuffer_size (run body buf).
Proof.
  induction 1 as [|o os Ho _ IH]; intros buf; cbn; [lia|].
  specialize (Ho buf). specialize (IH (run_op o buf)). unfold run in IH. lia.
Qed.

Lemma run_op_mono o :
  forall buf, encBuffer_size buf <= encBuffer_size (run_op o buf).
Proof.
  induction o as [b|b|i|b|s|body IH] using op_ind';
    try (intros buf;
         match goal with |- context [run_op ?o buf] =>
           destruct (write_appends o eq_refl buf) as [d ->] end;
         rewrite size_append; pose proof (len_nonneg d); lia).
  intros buf. cbn [run_op]. unfold encBuffer_list.
  etransitivity; [|apply listEnd_mono].
  etransitivity; [|apply (fold_mono body IH)].
  unfold encBuffer_size. cbn. lia.
Qed.

Lemma run_mono ops :
  forall buf, encBuffer_size buf <= encBuffer_size (run ops buf).
Proof.
  apply fold_mono. apply Forall_forall. intros o _. apply run_op_mono.
Qed.

Lemma extends_refl buf : extends buf buf.
Proof.
  exists [], []. destruct buf as [s0 h0 z0]. cbn [str lheads lhsize].
  rewrite !app_nil_r. change (hdrlen []) with 0. rewrite !Z.add_0_r.
  split; [reflexivity|]. cbn. lia.
Qed.

Lemma extends_trans a b c : extends a b -> extends b c -> extends a c.
Proof.
  intros [d1 [h1 [-> Ho1]]] [d2 [h2 [-> Ho2]]].
  cbn [str lheads lhsize] in *.
  exists (d1 ++ d2), (h1 ++ h2). split.
  - rewrite !app_assoc, hdrlen_app. f_equal. lia.
  - rewrite len_app in *.
    apply (ordered_app h1 _ (len (str a) + len d1)); [exact Ho1|].
    replace (len (str a) + (len d1 + len d2))
      with (len (str a) + len d1 + len d2) by lia. exact Ho2.
Qed.

Lemma extends_append buf d : extends buf (append_str buf d).
Proof.
  exists d, []. unfold append_str. rewrite app_nil_r.
  change (hdrlen []) with 0. rewrite Z.add_0_r.
  split; [reflexivity|]. cbn. pose proof (len_nonneg d). lia.
Qed.

Lemma extends_lhsize a b : extends a b -> 0 <= lhsize a -> 0 <= lhsize b.
Proof.
  intros [d [h [-> _]]] H. cbn. pose proof (hdrlen_nonneg h). lia.
Qed.

Lemma fold_extends (body : list op) :
  Forall (fun o => forall buf, 0 <= lhsize buf ->
            encBuffer_size (run_op o buf) < 2 ^ 63 ->
            extends buf (run_op o buf)) body ->
  forall buf, 0 <= lhsize buf -> encBuffer_size (run body buf) < 2 ^ 63 ->
    extends buf (run body buf).
Proof.
  induction 1 as [|o os Ho _ IH]; intros buf Hz Hb; cbn in *.
  - apply extends_refl.
  - pose proof (run_mono os (run_op o buf)) as Hm. unfold run in Hm.
    assert (He : extends buf (run_op o buf)) by (apply Ho; [assumption|lia]).
    apply (extends_trans _ _ _ He).
    apply IH; [|exact Hb]. apply (extends_lhsize _ _ He Hz).
Qed.

Lemma run_op_extends o :
  forall buf, 0 <= lhsize buf -> encBuffer_size (run_op o buf) < 2 ^ 63 ->
    extends buf (run_op o buf).
Proof.
  induction o as [b|b|i|b|s|body IH] using op_ind';
    try (intros buf _ _;
         match goal with |- context [run_op ?o buf] =>
           destruct (write_appends o eq_refl buf) as [d ->] end;
         apply extends_append).
  intros buf Hz Hb. cbn [run_op] in *. unfold encBuffer_list in *.
  set (buf1 := mkEncBuffer (str buf)
                 (lheads buf ++ [mkListhead (len (str buf)) (lhsize buf)])
                 (lhsize buf)) in *.
  change (fold_left (fun b o' => run_op o' b) body buf1) with (run body buf1) in *.
  pose proof (listEnd_mono (len (lheads buf)) (run body buf1)) as Hm.
  destruct (fold_extends body IH buf1 Hz ltac:(lia)) as [d [hd [Hrun Ho]]].
  rewrite Hrun in *. clear Hrun. subst buf1. cbn [str lheads lhsize] in *.
  pose proof (hdrlen_nonneg hd). pose proof (len_nonneg d).
  pose proof (len_nonneg (str buf)).
  assert (Hsz : len (str buf) + len d + lhsize buf + hdrlen hd < 2 ^ 63).
  { revert Hm Hb. unfold encBuffer_size at 1. cbn [str lhsize].
    rewrite len_app. lia. }
  unfold encBuffer_listEnd. cbn [str lheads lhsize].
  rewrite to_nat_len, <- app_assoc. cbn [app].
  rewrite nth_error_middle, set_nth_middle.
  unfold encBuffer_size. cbn [str lheads lhsize offset size]. rewrite len_app.
  set (sz := len (str buf) + len d + (lhsize buf + hdrlen hd)
             - len (str buf) - lhsize buf).
  assert (Hszv : sz = len d + hdrlen hd) by (unfold sz; lia).
  exists d, (mkListhead (len (str buf)) sz :: hd). split.
  - f_equal. rewrite hdrlen_cons. unfold listhead_encode. cbn [size].
    rewrite uint64_small by lia. rewrite len_puthead by lia.
    unfold headsize. destruct (sz <? 56); lia.
  - cbn [ordered offset]. split; [lia|exact Ho].
Qed.

Lemma run_extends ops :
  forall buf, 0 <= lhsize buf -> encBuffer_size (run ops buf) < 2 ^ 63 ->
    extends buf (run ops buf).
Proof.
  apply fold_extends. apply Forall_forall. intros o _. apply run_op_extends.
Qed.

(** A buffer reached from the empty one: its headers are in order, and
    its size is the length of its flush. *)
Lemma run_reset ops :
  encBuffer_size (run ops encBuffer_reset) < 2 ^ 63 ->
  ordered 0 (lheads (run ops encBuffer_reset))
    (len (str (run ops encBuffer_reset)))
  /\ len (flush (str (run ops encBuffer_reset)) 0
            (lheads (run ops encBuffer_reset)))
     = encBuffer_size (run ops encBuffer_reset).
Proof.
  intros Hb.
  destruct (run_extends ops encBuffer_reset ltac:(cbn; lia) Hb)
    as [d [hd [-> Ho]]].
  cbn [encBuffer_reset str lheads lhsize app] in *.
  change (len (@nil Z)) with 0 in Ho. rewrite Z.add_0_l in Ho.
  split; [exact Ho|].
  rewrite len_flush by (assumption || lia).
  unfold encBuffer_size. cbn [str lhsize]. lia.
Qed.

Lemma read_post_continue cap out p tail res :
  len p <= cap - len out ->
  read_post cap (out ++ p) tail res -> read_post cap out (p ++ tail) res.
Proof.
  intros Hp [H1 [H2 H3]]. pose proof (len_nonneg p).
  rewrite len_app in *.
  replace (cap - (len out + len p)) with (cap - len out - len p) in * by lia.
  assert (Hn : (Z.to_nat (cap - len out) - List.length p)%nat
               = Z.to_nat (cap - len out - len p)) by (unfold len; lia).
  refine (conj _ (conj H2 _)).
  - rewrite H1. f_equal.
    + rewrite firstn_app, Hn.
      rewrite (firstn_all2 p) by (unfold len in *; lia).
      rewrite <- app_assoc. reflexivity.
    + rewrite (len_app p tail).
      destruct (Z.leb_spec (len tail) (cap - len out - len p));
        destruct (Z.leb_spec (len p + len tail) (cap - len out));
        try reflexivity; lia.
  - rewrite H3, skipn_app, Hn.
    rewrite (skipn_all2 p) by (unfold len in *; lia). reflexivity.
Qed.

(** One round of the loop of [Read] on a piece [p]. *)
Lemma loop_step buf r p pc lhpos strpos k cap out :
  encReader_next r = inl (Some p, mkEncReader (Some buf) lhpos strpos pc) ->
  1 <= len p -> len out <= cap ->
  0 <= lhpos -> 0 <= strpos ->
  ordered strpos (skipn (Z.to_nat lhpos) (lheads buf)) (len (str buf)) ->
  (len p <= cap - len out ->
   read_post cap (out ++ p)
     (flush (str buf) strpos (skipn (Z.to_nat lhpos) (lheads buf)))
     (encReader_Read_loop k cap (out ++ p)
        (mkEncReader (Some buf) lhpos strpos None))) ->
  read_post cap out
    (p ++ flush (str buf) strpos (skipn (Z.to_nat lhpos) (lheads buf)))
    (encReader_Read_loop (S k) cap out r).
Proof.
  intros Hnext Hp Hout Hl Hs Ho Hcont.
  cbn [encReader_Read_loop]. rewrite Hnext.
  destruct (Z.ltb_spec (Z.min (cap - len out) (len p)) (len p)) as [Hlt|Hge].
  - replace (Z.min (cap - len out) (len p)) with (cap - len out) by lia.
    assert (Hk : (Z.to_nat (cap - len out) < List.length p)%nat)
      by (unfold len in *; lia).
    refine (conj _ (conj _ _)); cbn [fst snd].
    + f_equal.
      * rewrite firstn_app.
        replace (Z.to_nat (cap - len out) - List.length p)%nat with 0%nat by lia.
        rewrite firstn_O, app_nil_r. reflexivity.
      * rewrite len_app.
        match goal with |- context [len ?l] =>
          lazymatch l with flush _ _ _ => pose proof (len_nonneg l) end end.
        destruct (Z.leb_spec
          (len p + len (flush (str buf) strpos
                          (skipn (Z.to_nat lhpos) (lheads buf))))
          (cap - len out)); [lia|reflexivity].
    + unfold er_wf, set_er_piece. cbn [er_buf er_lhpos er_strpos er_piece].
      refine (conj Hl (conj Hs (conj Ho _))).
      intros Heq. injection Heq as Heq.
      apply (f_equal (@List.length Z)) in Heq.
      rewrite length_skipn in Heq. cbn in Heq. lia.
    + unfold er_rest, set_er_piece. cbn [er_buf er_lhpos er_strpos er_piece].
      rewrite skipn_app.
      replace (Z.to_nat (cap - len out) - List.length p)%nat with 0%nat by lia.
      reflexivity.
  - replace (Z.min (cap - len out) (len p)) with (len p) by lia.
    rewrite to_nat_len, firstn_all.
    apply read_post_continue; [lia|].
    unfold set_er_piece. cbn [er_buf er_lhpos er_strpos er_piece].
    apply Hcont. lia.
Qed.

(** Nothing is left: the reader says [io.EOF] and drops the buffer. *)
Lemma loop_eof buf lhpos strpos rounds cap out :
  len (lheads buf) <= lhpos -> len (str buf) <= strpos ->
  (1 <= rounds)%nat -> len out <= cap ->
  read_post cap out []
    (encReader_Read_loop rounds cap out
       (mkEncReader (Some buf) lhpos strpos None)).
Proof.
  intros Hl Hs Hr Hout. destruct rounds as [|k]; [lia|].
  cbn [encReader_Read_loop]. unfold encReader_next.
  cbn [er_buf er_lhpos er_strpos er_piece].
  destruct (Z.ltb_spec lhpos (len (lheads buf))); [lia|].
  destruct (Z.ltb_spec strpos (len (str buf))); [lia|].
  refine (conj _ (conj _ _)); cbn [fst snd].
  - rewrite firstn_nil, app_nil_r. change (len (@nil Z)) with 0.
    destruct (Z.leb_spec 0 (cap - len out)); [reflexivity|lia].
  - exact I.
  - rewrite skipn_nil. reflexivity.
Qed.

Lemma skipn_nil_len {A} (l : list A) n : skipn n l = [] -> (List.length l <= n)%nat.
Proof.
  intros H. apply (f_equal (@List.length A)) in H.
  rewrite length_skipn in H. cbn in H. lia.
Qed.

Lemma skipn_cons_nth {A} (l : list A) n x t :
  skipn n l = x :: t ->
  (n < List.length l)%nat /\ nth_error l n = Some x /\ skipn (S n) l = t.
Proof.
  revert l. induction n as [|n IH]; intros l H.
  - destruct l as [|y l']; [discriminate|]. cbn in H. injection H as -> ->.
    cbn. repeat split. lia.
  - destruct l as [|y l']; [discriminate|]. cbn in H.
    destruct (IH _ H) as [H1 [H2 H3]]. cbn [List.length nth_error].
    repeat split; [lia|assumption|exact H3].
Qed.

Lemma flush_at_head (s : list Z) h t :
  flush s (offset h) (h :: t) = listhead_encode h ++ flush s (offset h) t.
Proof.
  cbn [flush]. rewrite slice_empty. cbn [app len List.length].
  rewrite Z.add_0_r. reflexivity.
Qed.

(** The loop of [Read] from a reader that holds no piece. *)
Lemma loop_heads buf cap : forall hs' lhpos strpos rounds out,
  skipn (Z.to_nat lhpos) (lheads buf) = hs' ->
  0 <= lhpos -> 0 <= strpos ->
  ordered strpos hs' (len (str buf)) ->
  (2 * List.length hs' + 2 <= rounds)%nat -> len out <= cap ->
  read_post cap out (flush (str buf) strpos hs')
    (encReader_Read_loop rounds cap out
       (mkEncReader (Some buf) lhpos strpos None)).
Proof.
  induction hs' as [|h t IH]; intros lhpos strpos rounds out Hsk Hl Hs Ho Hr Hout.
  - apply skipn_nil_len in Hsk as Hlen. cbn [ordered] in Ho.
    assert (Hlh : len (lheads buf) <= lhpos) by (unfold len; lia).
    cbn [flush].
    destruct (Z.ltb_spec strpos (len (str buf))) as [Hlt|Hge].
    + destruct rounds as [|k]; [cbn in Hr; lia|].
      rewrite <- (app_nil_r (skipn (Z.to_nat strpos) (str buf))).
      assert (Hfl : flush (str buf) (len (str buf))
                      (skipn (Z.to_nat lhpos) (lheads buf)) = []).
      { rewrite Hsk. cbn [flush]. rewrite to_nat_len. apply skipn_all. }
      rewrite <- Hfl at 1.
      apply (loop_step buf _ _ None); try lia.
      * unfold encReader_next. cbn [er_buf er_lhpos er_strpos er_piece].
        destruct (Z.ltb_spec lhpos (len (lheads buf))); [lia|].
        destruct (Z.ltb_spec strpos (len (str buf))); [|lia].
        reflexivity.
      * rewrite len_skipn by lia. lia.
      * rewrite Hsk. cbn. lia.
      * intros Hfit. rewrite Hfl.
        apply loop_eof;
          [lia|lia|cbn [List.length] in Hr; lia|rewrite len_app; lia].
    + rewrite skipn_all2 by (unfold len in *; lia).
      apply loop_eof; [lia|lia|cbn [List.length] in Hr; lia|lia].
  - destruct (skipn_cons_nth _ _ _ _ Hsk) as [Hlt [Hnth Hsk']].
    pose proof Ho as [Ho1 Ho2]. pose proof (ordered_le _ _ _ Ho2) as Hoff.
    assert (Hsk1 : skipn (Z.to_nat (lhpos + 1)) (lheads buf) = t).
    { replace (Z.to_nat (lhpos + 1)) with (S (Z.to_nat lhpos)) by lia.
      exact Hsk'. }
    (* the round that gives the header *)
    assert (Hhead : forall rounds out,
      (2 * List.length t + 3 <= rounds)%nat -> len out <= cap ->
      read_post cap out (listhead_encode h ++ flush (str buf) (offset h) t)
        (encReader_Read_loop rounds cap out
           (mkEncReader (Some buf) lhpos (offset h) None))).
    { intros rounds' out' Hr' Hout'.
      destruct rounds' as [|k]; [lia|].
      rewrite <- Hsk1.
      apply (loop_step buf _ _ None); try lia.
      - unfold encReader_next. cbn [er_buf er_lhpos er_strpos er_piece].
        destruct (Z.ltb_spec lhpos (len (lheads buf))); [|unfold len in *; lia].
        rewrite Hnth. rewrite Z.sub_diag. reflexivity.
      - unfold listhead_encode. apply puthead_nonempty.
      - rewrite Hsk1. exact Ho2.
      - intros Hfit. rewrite Hsk1. apply IH; try lia; try assumption.
        rewrite len_app. lia. }
    destruct (Z.gtb_spec (offset h - strpos) 0) as [Hgt|Hle].
    + destruct (slice_ok_ordered (str buf) strpos h t Hs Ho) as [Hok Hlen].
      destruct rounds as [|k]; [cbn in Hr; lia|].
      assert (Hrest : flush (str buf) strpos (h :: t)
                = slice (str buf) strpos (offset h)
                  ++ flush (str buf) (strpos + (offset h - strpos))
                       (skipn (Z.to_nat lhpos) (lheads buf))).
      { rewrite Hsk.
        replace (strpos + (offset h - strpos)) with (offset h) by lia.
        rewrite flush_at_head. cbn [flush]. rewrite Hlen.
        replace (strpos + (offset h - strpos)) with (offset h) by lia.
        reflexivity. }
      rewrite Hrest.
      apply (loop_step buf _ (slice (str buf) strpos (offset h)) None lhpos
               (strpos + (offset h - strpos)) k cap out); try lia.
      * unfold encReader_next. cbn [er_buf er_lhpos er_strpos er_piece].
        destruct (Z.ltb_spec lhpos (len (lheads buf))); [|unfold len in *; lia].
        rewrite Hnth.
        destruct (Z.gtb_spec (offset h - strpos) 0); [|lia].
        rewrite Hok. reflexivity.
      * rewrite Hsk. cbn [ordered].
        replace (strpos + (offset h - strpos)) with (offset h) by lia.
        split; [lia|exact Ho2].
      * intros Hfit. rewrite Hsk.
        replace (strpos + (offset h - strpos)) with (offset h) by lia.
        rewrite flush_at_head. apply Hhead.
        -- cbn [List.length] in Hr. lia.
        -- rewrite len_app. lia.
    + assert (Heq : strpos = offset h) by lia. subst strpos.
      rewrite flush_at_head. apply Hhead; [cbn [List.length] in Hr; lia|lia].
Qed.

(** One call of [Read] with a buffer of [cap] bytes. *)
Lemma Read_spec cap r :
  er_wf r -> 0 <= cap ->
  read_post cap [] (er_rest r) (encReader_Read cap r).
Proof.
  intros Hwf Hcap. unfold encReader_Read, encReader_pieces, er_rest, er_wf in *.
  destruct r as [[buf|] lhpos strpos piece];
    cbn [er_buf er_lhpos er_strpos er_piece] in *.
  - destruct Hwf as [Hl [Hs [Ho Hp]]].
    destruct piece as [p|].
    + apply (loop_step buf _ _ (Some p)); try assumption.
      * reflexivity.
      * destruct p; [congruence|]. rewrite len_cons.
        pose proof (len_nonneg p). lia.
      * intros Hfit. change (len (@nil Z)) with 0 in Hfit.
        apply loop_heads; try assumption; try reflexivity.
        -- rewrite length_skipn. lia.
        -- cbn [app]. lia.
    + cbn [app]. apply loop_heads; try assumption; try reflexivity.
      rewrite length_skipn. lia.
  - cbn [encReader_Read_loop encReader_next er_buf].
    refine (conj _ (conj I _)); cbn [fst snd].
    + change (len (@nil Z)) with 0. rewrite firstn_nil. cbn [app].
      destruct (Z.leb_spec 0 (cap - 0)); [reflexivity|lia].
    + rewrite skipn_nil. reflexivity.
Qed.

(** Reading to the end gives everything the reader had to give. *)
Lemma drain_spec cap : 0 < cap -> forall fuel r,
  er_wf r -> len (er_rest r) < Z.of_nat fuel ->
  drain fuel cap r = inl (er_rest r).
Proof.
  intros Hcap. induction fuel as [|k IH]; intros r Hwf Hlen.
  - pose proof (len_nonneg (er_rest r)). lia.
  - cbn [drain].
    destruct (Read_spec cap r Hwf ltac:(lia)) as [H1 [H2 H3]].
    destruct (encReader_Read cap r) as [[out err] r'].
    cbn [fst snd] in *. change (len (@nil Z)) with 0 in *.
    rewrite Z.sub_0_r in *. cbn [app] in H1.
    destruct (Z.leb_spec (len (er_rest r)) cap) as [Hfit|Hmore].
    + injection H1 as -> ->.
      rewrite firstn_all2 by (unfold len in *; lia). reflexivity.
    + injection H1 as -> ->.
      rewrite IH; [|exact H2|].
      * rewrite H3, firstn_skipn. reflexivity.
      * rewrite H3, len_skipn by lia. lia.
Qed.

(** * The output of the encoder *)

Lemma makeBytes_flush buf :
  ordered 0 (lheads buf) (len (str buf)) ->
  len (flush (str buf) 0 (lheads buf)) = encBuffer_size buf ->
  encBuffer_makeBytes buf = inl (flush (str buf) 0 (lheads buf)).
Proof.
  intros Ho Hlen. unfold encBuffer_makeBytes, encBuffer_copyTo.
  pose proof (copyTo_flush (str buf) (lheads buf) 0 []
                (repeat 0 (Z.to_nat (encBuffer_size buf)))) as H.
  cbn [app] in H. change (len (@nil Z)) with 0 in H. apply H; [lia|exact Ho|].
  unfold len at 1. rewrite repeat_length, Hlen.
  pose proof (len_nonneg (flush (str buf) 0 (lheads buf))). lia.
Qed.

Lemma copyTo_exact buf dst :
  ordered 0 (lheads buf) (len (str buf)) ->
  len dst = len (flush (str buf) 0 (lheads buf)) ->
  encBuffer_copyTo buf dst = inl (flush (str buf) 0 (lheads buf)).
Proof.
  intros Ho Hlen. unfold encBuffer_copyTo.
  pose proof (copyTo_flush (str buf) (lheads buf) 0 [] dst) as H.
  cbn [app] in H. change (len (@nil Z)) with 0 in H. apply H; [lia|exact Ho|].
  exact Hlen.
Qed.

Lemma heads_list_ordered l :
  Forall (fun v => forall off, ordered off (heads v off) (off + len (flat v))) l ->
  forall off, ordered off (heads_list heads l off) (off + len (flat_map flat l)).
Proof.
  induction 1 as [|x xs Hx _ IH]; intros off; cbn [heads_list flat_map].
  - cbn. change (len (@nil Z)) with 0. lia.
  - rewrite len_app.
    apply (ordered_app _ off (off + len (flat x))); [apply Hx|].
    replace (off + (len (flat x) + len (flat_map flat xs)))
      with (off + len (flat x) + len (flat_map flat xs)) by lia.
    apply IH.
Qed.

Lemma heads_ordered v :
  forall off, ordered off (heads v off) (off + len (flat v)).
Proof.
  induction v as [b|n|s|b|l IH|l IH] using value_ind'; intros off;
    try (cbn [heads ordered];
         match goal with |- context [len ?l] => pose proof (len_nonneg l) end;
         lia).
  - destruct l as [|x xs].
    + cbn [heads ordered flat]. rewrite len_cons. change (len (@nil Z)) with 0. lia.
    + cbn [heads flat ordered offset]. split; [lia|].
      apply heads_list_ordered. exact IH.
  - cbn [heads flat ordered offset]. split; [lia|].
    apply heads_list_ordered. exact IH.
Qed.

Lemma filled_ordered v :
  ordered 0 (lheads (filled v encBuffer_reset))
    (len (str (filled v encBuffer_reset))).
Proof.
  unfold filled, encBuffer_reset. cbn [str lheads app].
  change (len (@nil Z)) with 0. apply (heads_ordered v 0).
Qed.

Lemma filled_size v :
  len (rlp v) < 2 ^ 63 ->
  encBuffer_size (filled v encBuffer_reset) = len (rlp v).
Proof.
  intros Hb. unfold filled, encBuffer_reset, encBuffer_size.
  cbn [str lhsize app]. rewrite (len_rlp_flat v Hb). lia.
Qed.

(** The output of a buffer that holds the value [v] alone. *)
Lemma makeBytes_filled v :
  len (rlp v) < 2 ^ 63 ->
  encBuffer_makeBytes (filled v encBuffer_reset) = inl (rlp v).
Proof.
  intros Hb. rewrite makeBytes_flush.
  - rewrite flush_filled by assumption. reflexivity.
  - apply filled_ordered.
  - rewrite flush_filled, filled_size by assumption. reflexivity.
Qed.

Lemma writeTo_filled v w :
  len (rlp v) < 2 ^ 63 ->
  encBuffer_writeTo (filled v encBuffer_reset) w = inl (w ++ rlp v).
Proof.
  intros Hb. unfold encBuffer_writeTo.
  rewrite writeTo_flush; [|lia|apply filled_ordered].
  rewrite flush_filled by assumption. reflexivity.
Qed.

(** C10.  For every state of the encoding buffer reached from the empty
    buffer by writes and by lists that are all closed, whose size is a Go
    [int], the three ways out give the same bytes, [size()] of them:
    [makeBytes] (and [copyTo] into any destination of [size()] bytes),
    [writeTo] (which appends them to the writer), and the reader, in one
    [Read] when the buffer given to it is large enough and by reading to
    the end with a buffer of any size above zero. *)
Theorem flush_paths_agree :
  forall ops : list op,
    encBuffer_size (run ops encBuffer_reset) < 2 ^ 63 ->
    exists out : list Z,
      len out = encBuffer_size (run ops encBuffer_reset)
      /\ encBuffer_makeBytes (run ops encBuffer_reset) = inl out
      /\ (forall dst, len dst = encBuffer_size (run ops encBuffer_reset) ->
            encBuffer_copyTo (run ops encBuffer_reset) dst = inl out)
      /\ (forall w, encBuffer_writeTo (run ops encBuffer_reset) w = inl (w ++ out))
      /\ (forall cap, len out <= cap ->
            fst (encReader_Read cap
                   (mkEncReader (Some (run ops encBuffer_reset)) 0 0 None))
            = (out, Some io_EOF))
      /\ (forall cap fuel, 0 < cap -> len out < Z.of_nat fuel ->
            drain fuel cap
              (mkEncReader (Some (run ops encBuffer_reset)) 0 0 None)
            = inl out).
Proof.
  intros ops Hb.
  destruct (run_reset ops Hb) as [Ho Hlen].
  set (buf := run ops encBuffer_reset) in *.
  exists (flush (str buf) 0 (lheads buf)).
  assert (Hwf : er_wf (mkEncReader (Some buf) 0 0 None)).
  { unfold er_wf. cbn [er_buf er_lhpos er_strpos er_piece skipn Z.to_nat].
    refine (conj _ (conj _ (conj Ho _))); [lia|lia|discriminate]. }
  assert (Hrest : er_rest (mkEncReader (Some buf) 0 0 None)
                  = flush (str buf) 0 (lheads buf)) by reflexivity.
  refine (conj Hlen (conj _ (conj _ (conj _ (conj _ _))))).
  - apply makeBytes_flush; assumption.
  - intros dst Hdst. apply copyTo_exact; [assumption|lia].
  - intros w. unfold encBuffer_writeTo. apply writeTo_flush; [lia|assumption].
  - intros cap Hcap.
    pose proof (len_nonneg (flush (str buf) 0 (lheads buf))).
    destruct (Read_spec cap _ Hwf ltac:(lia)) as [H1 _].
    rewrite H1, Hrest. change (len (@nil Z)) with 0. rewrite Z.sub_0_r.
    cbn [app]. rewrite firstn_all2 by (unfold len in *; lia).
    destruct (Z.leb_spec (len (flush (str buf) 0 (lheads buf))) cap);
      [reflexivity|lia].
  - intros cap fuel Hcap Hfuel.
    rewrite (drain_spec cap Hcap fuel _ Hwf); [rewrite Hrest; reflexivity|].
    rewrite Hrest. exact Hfuel.
Qed.

Lemma flush_paths_agree_witness :
  encBuffer_size (run ops_example encBuffer_reset) < 2 ^ 63
  /\ exists out : list Z,
      len out = encBuffer_size (run ops_example encBuffer_reset)
      /\ encBuffer_makeBytes (run ops_example encBuffer_reset) = inl out
      /\ (forall dst, len dst = encBuffer_size (run ops_example encBuffer_reset) ->
            encBuffer_copyTo (run ops_example encBuffer_reset) dst = inl out)
      /\ (forall w, encBuffer_writeTo (run ops_example encBuffer_reset) w
                    = inl (w ++ out))
      /\ (forall cap, len out <= cap ->
            fst (encReader_Read cap
                   (mkEncReader (Some (run ops_example encBuffer_reset)) 0 0 None))
            = (out, Some io_EOF))
      /\ (forall cap fuel, 0 < cap -> len out < Z.of_nat fuel ->
            drain fuel cap
              (mkEncReader (Some (run ops_example encBuffer_reset)) 0 0 None)
            = inl out).
Proof.
  assert (H : encBuffer_size (run ops_example encBuffer_reset) < 2 ^ 63)
    by (vm_compute; reflexivity).
  exact (conj H (flush_paths_agree ops_example H)).
Defined.

(** The example flushed: on the three paths, and read three bytes at a
    time. *)
Example flush_example :
  encBuffer_makeBytes (run ops_example encBuffer_reset)
  = inl [0x05; 0xC6; 0x83; 1; 2; 3; 0xC0; 0x80]
  /\ encBuffer_writeTo (run ops_example encBuffer_reset) [0xFF]
     = inl [0xFF; 0x05; 0xC6; 0x83; 1; 2; 3; 0xC0; 0x80]
  /\ drain 4 3 (mkEncReader (Some (run ops_example encBuffer_reset)) 0 0 None)
     = inl [0x05; 0xC6; 0x83; 1; 2; 3; 0xC0; 0x80].
Proof. vm_compute. repeat split. Qed.

(** A list that is opened and not closed is not counted in [size()]: the
    destination [makeBytes] makes has no room for its header, and the
    other two paths write the header. *)
Example unclosed_list_differs :
  encBuffer_size (snd (encBuffer_list encBuffer_reset)) = 0
  /\ encBuffer_makeBytes (snd (encBuffer_list encBuffer_reset)) = inr goPanic
  /\ encBuffer_writeTo (snd (encBuffer_list encBuffer_reset)) [] = inl [0xC0]
  /\ drain 2 3 (mkEncReader (Some (snd (encBuffer_list encBuffer_reset))) 0 0 None)
     = inl [0xC0].
Proof. vm_compute. repeat split. Qed.

Lemma rtype_ind' (P : rtype -> Prop) :
  P TBool -> (forall k, P (TUint k)) -> P TString ->
  (forall e, P e -> P (TSlice e)) ->
  (forall name fs, Forall (fun rf => P (sfType rf)) fs -> P (TStruct name fs)) ->
  (forall name k, P (TOther name k)) ->
  forall t, P t.
Proof.
  intros Hb Hu Hs Hl Ht Ho.
  fix IH 1. intros [|k| |e|name fs|name k].
  - apply Hb.
  - apply Hu.
  - apply Hs.
  - apply Hl. apply IH.
  - apply Ht. induction fs as [|rf fs IHfs]; constructor; [apply IH|exact IHfs].
  - apply Ho.
Qed.

Lemma supported_struct name fs :
  supported (TStruct name fs) = true ->
  Forall plain fs /\ Forall (fun rf => supported (sfType rf) = true) fs.
Proof.
  cbn [supported]. rewrite forallb_forall. intros H.
  split; apply Forall_forall; intros rf Hin; specialize (H rf Hin);
    apply andb_prop in H; destruct H as [H1 H2];
    apply andb_prop in H1; destruct H1 as [H0 H1].
  - split; [assumption|]. apply String.eqb_eq. assumption.
  - assumption.
Qed.

(** ** Untagged exported fields pass [ProcessFields] unchanged *)

Lemma parseTag_plain name i t lastPublic :
  parseTag (mkField name i true t EmptyString) lastPublic = (noTags, None).
Proof. reflexivity. Qed.

Lemma gather_plain lastPublic fs : forall i,
  Forall plain fs ->
  gather lastPublic (allStructFields fs i)
  = inl (allStructFields fs i, repeat noTags (List.length fs)).
Proof.
  induction fs as [|rf fs IH]; intros i Hp; [reflexivity|].
  inversion Hp as [|? ? [He Ht] Hp']; subst.
  cbn [allStructFields gather Exported]. rewrite He, Ht. cbn [negb].
  rewrite parseTag_plain. cbn [Ignored noTags].
  rewrite IH by assumption. reflexivity.
Qed.

Lemma verifyOptional_plain fields n name :
  verifyOptional fields (repeat noTags n) false name = None.
Proof.
  revert n. induction fields as [|f fields IH]; intros [|n]; cbn; auto.
Qed.

Lemma ProcessFields_plain fs :
  Forall plain fs ->
  ProcessFields (allStructFields fs 0)
  = inl (allStructFields fs 0, repeat noTags (List.length fs)).
Proof.
  intros Hp. unfold ProcessFields. rewrite gather_plain by assumption.
  rewrite verifyOptional_plain. reflexivity.
Qed.

Lemma resolveFields_plain suf : forall pre gpre gsuf,
  List.length gpre = List.length pre ->
  List.length gsuf = List.length suf ->
  resolveFields (pre ++ suf) (gpre ++ gsuf)
    (allStructFields suf (len pre)) (repeat noTags (List.length suf))
  = plainFields suf gsuf (len pre).
Proof.
  induction suf as [|rf suf IH]; intros pre gpre gsuf Hg Hs; [reflexivity|].
  destruct gsuf as [|g gsuf]; [discriminate|].
  cbn [allStructFields List.length repeat resolveFields Index plainFields].
  rewrite to_nat_len, nth_error_middle.
  rewrite <- Hg, nth_error_middle. cbn [Optional noTags].
  f_equal.
  specialize (IH (pre ++ [rf]) (gpre ++ [g]) gsuf).
  rewrite <- !app_assoc in IH. cbn [app] in IH.
  rewrite len_app in IH. change (len [rf]) with 1 in IH.
  apply IH.
  - rewrite !length_app. cbn. lia.
  - cbn in Hs. lia.
Qed.

Lemma structFields_plain name fs gen :
  Forall plain fs -> List.length gen = List.length fs ->
  structFields name fs gen = inl (plainFields fs gen 0).
Proof.
  intros Hp Hg. unfold structFields. rewrite ProcessFields_plain by assumption.
  f_equal. apply (resolveFields_plain fs [] [] gen); [reflexivity|assumption].
Qed.

Lemma firstOptional_plain fs : forall gen k,
  firstOptionalField (plainFields fs gen k) = len (plainFields fs gen k).
Proof.
  induction fs as [|rf fs IH]; intros [|g gen] k; try reflexivity.
  cbn [plainFields firstOptionalField optional]. rewrite IH, len_cons.
  reflexivity.
Qed.

(** ** Zero values and destinations *)

Lemma zeroValue_has_type t : supported t = true -> has_type t (zeroValue t).
Proof.
  induction t as [|k| |e IH|name fs IH|name k] using rtype_ind'; intros Hs.
  - constructor.
  - constructor. split; [lia|]. apply Z.pow_pos_nonneg; [lia|].
    destruct k; cbn; lia.
  - constructor. constructor.
  - cbn [zeroValue]. destruct (isByte e) eqn:E.
    + constructor; [assumption|constructor].
    + constructor; [assumption|constructor].
  - apply supported_struct in Hs. destruct Hs as [_ Hs].
    cbn [zeroValue]. constructor.
    induction IH as [|rf fs Hrf _ IHfs]; [constructor|].
    inversion Hs; subst. constructor; auto.
  - discriminate.
Qed.

Lemma enc_string_len b : len b <= len (enc_string b).
Proof.
  unfold enc_string.
  destruct b as [|b0 [|b1 b']]; try destruct (b0 <=? 127);
    rewrite ?len_app; try reflexivity;
    match goal with |- context [len (puthead ?a ?b ?c)] =>
      pose proof (puthead_nonempty a b c) end; lia.
Qed.

Lemma wrapped_ok {A} typ (m : M A) s a s' :
  m s = (inl a, s') -> wrapped typ m s = (inl a, s').
Proof. intros H. unfold wrapped. rewrite H. reflexivity. Qed.

Lemma wrapped_EOL {A} typ (m : M A) s s' :
  m s = (inr EOL, s') -> wrapped typ m s = (inr EOL, s').
Proof. intros H. unfold wrapped. rewrite H. reflexivity. Qed.

Lemma advanced_fits n m s s' :
  advanced n s s' -> fits (n + m) s -> fits m s'.
Proof. intros [Hm _]. apply fits_moved. exact Hm. Qed.

(** The element loop of a slice. *)
Lemma decodeSliceElems_ok rounds zero edec e l :
  reads rounds edec e -> has_type e zero ->
  forall n val i acc s rest' stk,
    (List.length l < n)%nat ->
    Forall (has_type e) l -> Forall (has_type e) val ->
    len (flat_map rlp l) < 2 ^ 63 ->
    len (flat_map rlp l) < Z.of_nat rounds ->
    kind s = -1 -> r s = flat_map rlp l ++ rest' ->
    stack s = len (flat_map rlp l) :: stk ->
    (limited s = true -> len (flat_map rlp l) <= remaining s) ->
    exists s',
      decodeSliceElems n zero edec val i acc s = (inl (acc ++ l), s')
      /\ r s' = rest' /\ stack s' = 0 :: stk
      /\ remaining s' = (if limited s then remaining s - len (flat_map rlp l)
                         else remaining s)
      /\ limited s' = limited s /\ kind s' = -1.
Proof.
  intros [Hdec HEOL] Hzero.
  induction l as [|x xs IH]; intros n val i acc s rest' stk Hn Hl Hval Hb Hr
                                    Hk Hrs Hst Hlim.
  - destruct n as [|n]; [cbn in Hn; lia|].
    cbn [decodeSliceElems]. cbn [flat_map len List.length] in Hst.
    rewrite (HEOL _ s stk Hk Hst). rewrite app_nil_r.
    eexists. split; [reflexivity|]. cbn [flat_map app] in *.
    repeat split; auto. change (len (@nil Z)) with 0.
    destruct (limited s); lia.
  - destruct n as [|n]; [cbn in Hn; lia|].
    cbn [flat_map] in *. rewrite len_app in *.
    pose proof (len_nonneg (rlp x)). pose proof (len_nonneg (flat_map rlp xs)).
    inversion Hl as [|? ? Hx Hxs]; subst.
    assert (Hdest : has_type e (nth i val zero)).
    { destruct (nth_in_or_default i val zero) as [Hin| ->]; [|assumption].
      rewrite Forall_forall in Hval. apply Hval. assumption. }
    rewrite <- app_assoc in Hrs.
    destruct (Hdec x (nth i val zero) s (flat_map rlp xs ++ rest'))
      as (s1 & Hd & (Hr1 & Hrem1 & Hst1 & Hlim1) & Hk1); auto; try lia.
    { split; [rewrite Hst; lia|]. intros E. specialize (Hlim E). lia. }
    { unfold top_ok. rewrite Hst. lia. }
    cbn [decodeSliceElems]. rewrite Hd.
    destruct (IH n val (S i) (acc ++ [x]) s1 rest' stk)
      as (s2 & Hd2 & Hr2 & Hst2 & Hrem2 & Hlim2 & Hk2); auto; try lia.
    { cbn in Hn. lia. }
    { rewrite Hr1, Hrs. apply skipn_len_app. }
    { rewrite Hst1, Hst. cbn. f_equal. lia. }
    { rewrite Hlim1, Hrem1. intros E. rewrite E in *. specialize (Hlim eq_refl). lia. }
    rewrite Hd2, <- app_assoc. eexists. split; [reflexivity|].
    repeat split; auto; try congruence.
    rewrite Hrem2, Hlim1, Hrem1. destruct (limited s); lia.
Qed.

(** A list: header, elements, end. *)
Lemma list_framed (body : M (list value)) l s rest' :
  len (puthead 0xC0 0xF7 (len (flat_map rlp l)) ++ flat_map rlp l) < 2 ^ 63 ->
  kind s = -1 ->
  r s = (puthead 0xC0 0xF7 (len (flat_map rlp l)) ++ flat_map rlp l) ++ rest' ->
  fits (len (puthead 0xC0 0xF7 (len (flat_map rlp l)) ++ flat_map rlp l)) s ->
  top_ok s ->
  (forall s1 stk,
      kind s1 = -1 -> r s1 = flat_map rlp l ++ rest' ->
      stack s1 = len (flat_map rlp l) :: stk ->
      (limited s1 = true -> len (flat_map rlp l) <= remaining s1) ->
      exists s2,
        body s1 = (inl l, s2)
        /\ r s2 = rest' /\ stack s2 = 0 :: stk
        /\ remaining s2 = (if limited s1
                           then remaining s1 - len (flat_map rlp l)
                           else remaining s1)
        /\ limited s2 = limited s1) ->
  exists s1 s2 s3,
    Stream_List s = (inl (len (flat_map rlp l)), s1)
    /\ body s1 = (inl l, s2)
    /\ Stream_ListEnd s2 = (inl tt, s3)
    /\ advanced
         (len (puthead 0xC0 0xF7 (len (flat_map rlp l)) ++ flat_map rlp l)) s s3.
Proof.
  intros Hb Hk Hr Hf Htop Hbody.
  pose proof (bound_payload l _ Hb) as Hp.
  pose proof (len_nonneg (flat_map rlp l)) as Hp0.
  set (P := len (flat_map rlp l)) in *.
  rewrite len_app in Hf. fold P in Hf. rewrite <- app_assoc in Hr.
  destruct (Stream_List_ok P (flat_map rlp l ++ rest') s)
    as (s1 & HL & Hr1 & Hrem1 & Hst1 & Hlim1 & Hk1); auto; try lia.
  destruct (Hbody s1 (charge_stack (len (puthead 192 247 P) + P) (stack s)))
    as (s2 & Hd & Hr2 & Hst2 & Hrem2 & Hlim2); auto.
  { rewrite Hlim1, Hrem1. intros E. rewrite E. destruct Hf as [_ Hf].
    specialize (Hf E). lia. }
  destruct (Stream_ListEnd_ok s2 _ Hst2)
    as (s3 & HE & Hr3 & Hrem3 & Hst3 & Hlim3 & Hk3).
  exists s1, s2, s3. repeat split; auto.
  - rewrite Hr3, Hr2, Hr, len_app. fold P.
    replace (len (puthead 192 247 P) + P)
      with (len (puthead 192 247 P ++ flat_map rlp l))
      by (rewrite len_app; reflexivity).
    rewrite app_assoc. symmetry. apply skipn_len_app.
  - rewrite Hrem3, Hrem2, Hlim1, Hrem1, len_app. fold P.
    destruct (limited s); lia.
  - rewrite Hst3, len_app. reflexivity.
  - congruence.
Qed.

Lemma decodeListSlice_reads rounds e edec :
  supported e = true -> isByte e = false ->
  reads rounds edec e ->
  reads rounds
    (decodeListSlice rounds (rtype_String (TSlice e)) (zeroValue e) edec)
    (TSlice e).
Proof.
  intros Hsup Hnb Hre. split.
  - intros v dest s rest' Hv Hdest Hb Hrounds Hk Hr Hf Htop.
    inversion Hv as [| | |? ? Hyes|? l Hno Hl|]; subst; [congruence|].
    cbn [rlp] in *.
    pose proof (bound_payload l _ Hb) as Hp.
    pose proof (bound_payload l _ Hrounds) as Hpr.
    pose proof (payload_count l) as Hcount.
    assert (Hdl : Forall (has_type e) (slice_dest dest)).
    { inversion Hdest; subst; cbn; [constructor|assumption]. }
    destruct (list_framed
                (fun s1 =>
                   if len (flat_map rlp l) =? 0 then (inl [], s1)
                   else decodeSliceElems rounds (zeroValue e) edec
                          (slice_dest dest) 0 [] s1)
                l s rest') as (s1 & s2 & s3 & HL & Hd & HE & Hadv); auto.
    { intros s1 stk Hk1 Hr1 Hst1 Hlim1.
      destruct (Z.eqb_spec (len (flat_map rlp l)) 0) as [E0|E0].
      - assert (l = []) by (destruct l; [reflexivity|]; rewrite len_cons in Hcount;
                            pose proof (len_nonneg l); lia).
        subst l. eexists. split; [reflexivity|]. cbn [flat_map app] in *.
        rewrite E0 in *. repeat split; auto. destruct (limited s1); lia.
      - destruct (decodeSliceElems_ok rounds (zeroValue e) edec e l Hre
                    (zeroValue_has_type e Hsup)
                    rounds (slice_dest dest) 0%nat [] s1 rest' stk)
          as (s2 & Hd & Hr2 & Hst2 & Hrem2 & Hlim2 & Hk2); auto.
        { unfold len in *. lia. }
        eexists. split; [exact Hd|]. repeat split; auto. }
    unfold decodeListSlice, bind.
    rewrite (wrapped_ok _ _ _ _ _ HL). cbv beta in Hd.
    destruct (len (flat_map rlp l) =? 0).
    + inversion Hd; subst. rewrite HE. unfold ret.
      eexists. split; [reflexivity|]. assumption.
    + rewrite Hd, HE. unfold ret. eexists. split; [reflexivity|]. assumption.
  - intros dest s stk Hk Hst. unfold decodeListSlice, bind.
    rewrite (wrapped_EOL _ _ _ _ (Stream_List_EOL s stk Hk Hst)). reflexivity.
Qed.

Section PlainStruct.
Variable rounds : nat.

Local Abbreviation G :=
  (fun rf : StructField rtype => infoWhileGenerating rounds (sfType rf)).

Lemma Field_middle (lpre lsuf : list value) v :
  Field_ (lpre ++ v :: lsuf) (len lpre) = Some v.
Proof.
  unfold Field_. pose proof (len_nonneg lpre).
  destruct (Z.ltb_spec (len lpre) 0); [lia|].
  rewrite to_nat_len. apply nth_error_middle.
Qed.

Lemma first_writerErr_plain name suf : forall k,
  Forall (field_coded rounds) suf ->
  first_writerErr name (plainFields suf (map G suf) k) = None.
Proof.
  induction suf as [|rf suf IH]; intros k Hc; [reflexivity|].
  inversion Hc as [|? ? (dec & wr & Hd & Hw & _) Hc']; subst.
  cbn [map plainFields first_writerErr info]. rewrite Hw. apply IH. assumption.
Qed.

Lemma first_decoderErr_plain name suf : forall k,
  Forall (field_coded rounds) suf ->
  first_decoderErr name (plainFields suf (map G suf) k) = None.
Proof.
  induction suf as [|rf suf IH]; intros k Hc; [reflexivity|].
  inversion Hc as [|? ? (dec & wr & Hd & Hw & _) Hc']; subst.
  cbn [map plainFields first_decoderErr info]. rewrite Hd. apply IH. assumption.
Qed.

Lemma writeFields_plain suf :
  Forall (field_coded rounds) suf ->
  forall lsuf lpre w,
    Forall2 (fun rf v => has_type (sfType rf) v) suf lsuf ->
    len (flat_map rlp lsuf) < 2 ^ 63 ->
    writeFields (plainFields suf (map G suf) (len lpre)) (lpre ++ lsuf) w
    = inl (filled_list lsuf w).
Proof.
  induction 1 as [|rf suf (dec & wr & Hd & Hw & Hwr & _) _ IH];
    intros lsuf lpre w Ht Hb; inversion Ht as [|? v ? lsuf' Hv Ht']; subst.
  - cbn. rewrite filled_list_nil. reflexivity.
  - cbn [map plainFields writeFields info index].
    rewrite Hw, Field_middle.
    cbn [flat_map] in Hb. rewrite len_app in Hb.
    pose proof (len_nonneg (rlp v)). pose proof (len_nonneg (flat_map rlp lsuf')).
    rewrite (Hwr v Hv) by lia.
    specialize (IH lsuf' (lpre ++ [v]) (filled v w) Ht').
    rewrite len_app, <- app_assoc in IH. cbn [app] in IH.
    change (len [v]) with 1 in IH. rewrite IH by lia.
    rewrite filled_list_cons. reflexivity.
Qed.

Lemma decodeFields_plain name suf :
  Forall (field_coded rounds) suf ->
  forall vsuf dsuf vpre s rest' stk,
    Forall2 (fun rf v => has_type (sfType rf) v) suf vsuf ->
    Forall2 (fun rf v => has_type (sfType rf) v) suf dsuf ->
    len (flat_map rlp vsuf) < 2 ^ 63 ->
    len (flat_map rlp vsuf) < Z.of_nat rounds ->
    kind s = -1 -> r s = flat_map rlp vsuf ++ rest' ->
    stack s = len (flat_map rlp vsuf) :: stk ->
    (limited s = true -> len (flat_map rlp vsuf) <= remaining s) ->
    exists s',
      decodeFields name (plainFields suf (map G suf) (len vpre))
        (vpre ++ dsuf) s = (inl (vpre ++ vsuf), s')
      /\ r s' = rest' /\ stack s' = 0 :: stk
      /\ remaining s' = (if limited s
                         then remaining s - len (flat_map rlp vsuf)
                         else remaining s)
      /\ limited s' = limited s.
Proof.
  induction 1 as [|rf suf (dec & wr & Hd & Hw & _ & Hdec & _) _ IH];
    intros vsuf dsuf vpre s rest' stk Hv Hdst Hb Hr Hk Hrs Hst Hlim;
    inversion Hv as [|? v ? vsuf' Hv1 Hv']; subst;
    inversion Hdst as [|? d ? dsuf' Hd1 Hd']; subst.
  - cbn [map plainFields decodeFields]. unfold ret.
    eexists. split; [reflexivity|]. cbn [flat_map app] in *.
    change (len (@nil Z)) with 0 in *.
    repeat split; auto. destruct (limited s); lia.
  - cbn [map plainFields decodeFields info index].
    rewrite Hd, Field_middle.
    cbn [flat_map] in *. rewrite len_app in *.
    pose proof (len_nonneg (rlp v)). pose proof (len_nonneg (flat_map rlp vsuf')).
    rewrite <- app_assoc in Hrs.
    destruct (Hdec v d s (flat_map rlp vsuf' ++ rest'))
      as (s1 & Hd1' & (Hr1 & Hrem1 & Hst1 & Hlim1) & Hk1); auto; try lia.
    { split; [rewrite Hst; lia|]. intros E. specialize (Hlim E). lia. }
    { unfold top_ok. rewrite Hst. lia. }
    rewrite Hd1'. rewrite to_nat_len, set_nth_middle.
    specialize (IH vsuf' dsuf' (vpre ++ [v]) s1 rest' stk Hv' Hd').
    rewrite len_app, <- !app_assoc in IH. cbn [app] in IH.
    change (len [v]) with 1 in IH.
    destruct IH as (s2 & Hd2 & Hr2 & Hst2 & Hrem2 & Hlim2); auto; try lia.
    { rewrite Hr1, Hrs. apply skipn_len_app. }
    { rewrite Hst1, Hst. cbn. f_equal. lia. }
    { rewrite Hlim1, Hrem1. intros E. rewrite E in *.
      specialize (Hlim eq_refl). lia. }
    rewrite Hd2. eexists. split; [reflexivity|].
    repeat split; auto; try congruence.
    rewrite Hrem2, Hlim1, Hrem1. destruct (limited s); lia.
Qed.

End PlainStruct.

Lemma uint_in_64 k n : 0 <= n < 2 ^ Bits k -> 0 <= n < 2 ^ 64.
Proof.
  intros Hn. split; [lia|]. apply Z.lt_le_trans with (2 ^ Bits k); [lia|].
  apply Z.pow_le_mono_r; [lia|]. destruct k; cbn; lia.
Qed.

Lemma coded_uint rounds k : coded rounds (TUint k).
Proof.
  exists (decodeUint k), writeUint. repeat split.
  - intros v Hv _. inversion Hv; subst. apply writeUint_writes. lia.
  - intros v dest s rest' Hv _ Hb _ Hk Hr Hf _.
    inversion Hv as [|? n Hn| | | |]; subst. cbn [rlp] in *.
    destruct (Stream_uint_ok k n rest' s Hn Hk Hr Hf) as (s' & Hu & Hadv).
    unfold decodeUint, bind. rewrite (wrapped_ok _ _ _ _ _ Hu).
    eexists. split; [reflexivity|assumption].
  - intros dest s stk Hk Hst. unfold decodeUint, bind.
    rewrite (wrapped_EOL _ _ _ _ (Stream_uint_EOL _ s stk Hk Hst)). reflexivity.
Qed.

Lemma coded_bool rounds : coded rounds TBool.
Proof.
  exists decodeBool, writeBool. repeat split.
  - intros v Hv _. inversion Hv; subst. apply writeBool_writes.
  - intros v dest s rest' Hv _ Hb _ Hk Hr Hf _.
    inversion Hv as [b| | | | |]; subst.
    assert (Hrlp : rlp (VBool b) = enc_uint (if b then 1 else 0))
      by (destruct b; reflexivity).
    rewrite Hrlp in *.
    destruct (Stream_uint_ok U8 (if b then 1 else 0) rest' s) as (s' & Hu & Hadv);
      auto.
    { destruct b; cbn; lia. }
    unfold decodeBool, bind.
    assert (HB : Stream_Bool s = (inl b, s')).
    { unfold Stream_Bool, bind. change 8 with (Bits U8). rewrite Hu.
      destruct b; reflexivity. }
    rewrite (wrapped_ok _ _ _ _ _ HB).
    eexists. split; [reflexivity|assumption].
  - intros dest s stk Hk Hst. unfold decodeBool, bind.
    assert (HB : Stream_Bool s = (inr EOL, s)).
    { unfold Stream_Bool, bind.
      rewrite (Stream_uint_EOL _ s stk Hk Hst). reflexivity. }
    rewrite (wrapped_EOL _ _ _ _ HB). reflexivity.
Qed.

Lemma bytes_bound b : len (enc_string b) < 2 ^ 63 -> len b < 2 ^ 64.
Proof. pose proof (enc_string_len b). lia. Qed.

Lemma coded_string rounds : coded rounds TString.
Proof.
  exists decodeString, writeString. repeat split.
  - intros v Hv Hb. inversion Hv; subst. apply writeString_writes.
    apply bytes_bound. exact Hb.
  - intros v dest s rest' Hv _ Hb _ Hk Hr Hf _.
    inversion Hv as [| |b Hbs| | |]; subst. cbn [rlp] in *.
    destruct (Stream_Bytes_ok b rest' s Hbs (bytes_bound b Hb) Hk Hr Hf)
      as (s' & Hu & Hadv).
    unfold decodeString, bind. rewrite (wrapped_ok _ _ _ _ _ Hu).
    eexists. split; [reflexivity|assumption].
  - intros dest s stk Hk Hst. unfold decodeString, bind.
    rewrite (wrapped_EOL _ _ _ _ (Stream_Bytes_EOL s stk Hk Hst)). reflexivity.
Qed.

Lemma coded_bytes rounds e tags :
  isByte e = true ->
  exists dec,
    makeListDecoder rounds (TSlice e) e (infoWhileGenerating rounds e noTags) tags
    = inl dec
    /\ (forall v, has_type (TSlice e) v -> len (rlp v) < 2 ^ 63 ->
                  writes writeBytes v)
    /\ reads rounds dec (TSlice e).
Proof.
  intros Hbyte. unfold makeListDecoder. rewrite Hbyte.
  eexists. split; [reflexivity|]. repeat split.
  - intros v Hv Hb. inversion Hv; subst; [|congruence].
    apply writeBytes_writes. apply bytes_bound. exact Hb.
  - intros v dest s rest' Hv _ Hb _ Hk Hr Hf _.
    inversion Hv as [| | |? b _ Hbs|? l Hno|]; subst; [|congruence].
    cbn [rlp] in *.
    destruct (Stream_Bytes_ok b rest' s Hbs (bytes_bound b Hb) Hk Hr Hf)
      as (s' & Hu & Hadv).
    unfold decodeByteSlice, bind. rewrite (wrapped_ok _ _ _ _ _ Hu).
    eexists. split; [reflexivity|assumption].
  - intros dest s stk Hk Hst. unfold decodeByteSlice, bind.
    rewrite (wrapped_EOL _ _ _ _ (Stream_Bytes_EOL s stk Hk Hst)). reflexivity.
Qed.

Lemma slice_writer_writes ewriter e l :
  (forall v, has_type e v -> len (rlp v) < 2 ^ 63 -> writes ewriter v) ->
  Forall (has_type e) l ->
  len (rlp (VSlice l)) < 2 ^ 63 ->
  forall w,
    match l with
    | [] => inl (append_str w [0xC0])
    | _ =>
        let '(listOffset, w1) := encBuffer_list w in
        match writeElems ewriter l w1 with
        | inr err => inr err
        | inl w2 => inl (encBuffer_listEnd listOffset w2)
        end
    end = inl (filled (VSlice l) w).
Proof.
  intros Hew Hl Hb w. destruct l as [|x xs].
  - rewrite filled_atom by reflexivity. reflexivity.
  - set (l := x :: xs) in *. cbn [rlp] in Hb.
    pose proof (bound_payload l _ Hb) as Hp.
    assert (Hws : Forall (writes ewriter) l).
    { apply Forall_forall. intros v Hin. apply Hew.
      - rewrite Forall_forall in Hl. auto.
      - pose proof (payload_elem l v Hin). lia. }
    destruct (encBuffer_list w) as [listOffset w1] eqn:EL.
    rewrite (writeElems_filled ewriter l Hws).
    replace listOffset with (fst (encBuffer_list w)) by (rewrite EL; reflexivity).
    replace w1 with (snd (encBuffer_list w)) by (rewrite EL; reflexivity).
    rewrite list_closed by assumption. reflexivity.
Qed.

Theorem supported_coded t :
  supported t = true -> forall rounds, coded rounds t.
Proof.
  induction t as [|k| |e IH|name fs IH|name k] using rtype_ind';
    intros Hs rounds.
  - apply coded_bool.
  - apply coded_uint.
  - apply coded_string.
  - (* slices *)
    cbn [supported] in Hs. unfold coded. cbn [infoWhileGenerating tdecoder twriter].
    destruct (isByte e) eqn:Hbyte.
    + destruct (coded_bytes rounds e noTags Hbyte) as (dec & Hd & Hw & Hr).
      exists dec, writeBytes. auto.
    + destruct (IH Hs rounds) as (edec & ewr & Hed & Hew & Hewr & Her).
      unfold makeListDecoder, makeSliceWriter. rewrite Hbyte, Hed, Hew.
      cbn [Tail noTags]. eexists. eexists.
      split; [reflexivity|]. split; [reflexivity|]. split.
      * intros v Hv Hb w. inversion Hv; subst; [congruence|].
        apply slice_writer_writes with (e := e); assumption.
      * apply decodeListSlice_reads; assumption.
  - (* structs *)
    pose proof (supported_struct name fs Hs) as [Hplain Hsup].
    assert (Hcoded : Forall (field_coded rounds) fs).
    { clear Hs Hplain. induction IH as [|rf fs Hrf _ IHfs]; [constructor|].
      inversion Hsup; subst. constructor; auto.
      apply Hrf; assumption. }
    unfold coded. cbn [infoWhileGenerating tdecoder twriter].
    rewrite structFields_plain by (auto; apply length_map).
    unfold makeStructDecoder, makeStructWriter.
    rewrite (first_decoderErr_plain rounds name fs 0 Hcoded).
    rewrite (first_writerErr_plain rounds name fs 0 Hcoded).
    rewrite firstOptional_plain, Z.eqb_refl.
    eexists. eexists. split; [reflexivity|]. split; [reflexivity|]. split.
    + intros v Hv Hb w. inversion Hv as [| | | | |? ? l Hl]; subst.
      cbn [rlp] in Hb. pose proof (bound_payload l _ Hb) as Hp.
      destruct (encBuffer_list w) as [lh w1] eqn:EL.
      pose proof (writeFields_plain rounds fs Hcoded l [] w1 Hl Hp) as HW.
      cbn [app] in HW. change (len (@nil value)) with 0 in HW.
      rewrite HW.
      replace lh with (fst (encBuffer_list w)) by (rewrite EL; reflexivity).
      replace w1 with (snd (encBuffer_list w)) by (rewrite EL; reflexivity).
      rewrite list_closed by assumption. reflexivity.
    + split.
      * intros v dest s rest' Hv Hdest Hb Hrounds Hk Hr Hf Htop.
        inversion Hv as [| | | | |? ? l Hl]; subst.
        inversion Hdest as [| | | | |? ? dl Hdl]; subst.
        cbn [rlp] in *.
        pose proof (bound_payload l _ Hb) as Hp.
        pose proof (bound_payload l _ Hrounds) as Hpr.
        destruct (list_framed
                    (decodeFields name
                       (plainFields fs
                          (map (fun rf => infoWhileGenerating rounds (sfType rf))
                             fs) 0) dl)
                    l s rest') as (s1 & s2 & s3 & HL & Hd & HE & Hadv); auto.
        { intros s1 stk Hk1 Hr1 Hst1 Hlim1.
          destruct (decodeFields_plain rounds name fs Hcoded l dl [] s1 rest'
                      stk Hl Hdl Hp Hpr Hk1 Hr1 Hst1 Hlim1)
            as (s2 & Hd & A & B & C & D).
          cbn [app] in Hd. change (len (@nil value)) with 0 in Hd.
          exists s2. repeat split; assumption. }
        unfold bind. rewrite (wrapped_ok _ _ _ _ _ HL).
        cbn [struct_dest]. rewrite Hd. rewrite (wrapped_ok _ _ _ _ _ HE).
        unfold ret. eexists. split; [reflexivity|assumption].
      * intros dest s stk Hk Hst. unfold bind.
        rewrite (wrapped_EOL _ _ _ _ (Stream_List_EOL s stk Hk Hst)).
        reflexivity.
  - discriminate.
Qed.

(** * Round trip *)

Lemma encode_supported t v :
  supported t = true -> has_type t v -> len (rlp v) < 2 ^ 63 ->
  encBuffer_encode t v encBuffer_reset = inl (filled v encBuffer_reset).
Proof.
  intros Hs Hv Hb.
  destruct (supported_coded t Hs 0) as (dec & wr & _ & Hw & Hwr & _).
  unfold encBuffer_encode, cachedWriter, makeWriter. rewrite Hw.
  apply Hwr; assumption.
Qed.

Lemma Stream_Decode_supported t v dest s rest' rounds :
  supported t = true -> has_type t v -> has_type t dest ->
  len (rlp v) < 2 ^ 63 -> len (rlp v) < Z.of_nat rounds ->
  kind s = -1 -> r s = rlp v ++ rest' -> fits (len (rlp v)) s -> top_ok s ->
  exists s', Stream_Decode rounds t dest s = (inl v, s')
             /\ advanced (len (rlp v)) s s'.
Proof.
  intros Hs Hv Hd Hb Hr Hk Hrs Hf Ht.
  destruct (supported_coded t Hs rounds) as (dec & wr & Hdec & _ & _ & Hrd & _).
  destruct (Hrd v dest s rest' Hv Hd Hb Hr Hk Hrs Hf Ht) as (s' & Hres & Hadv).
  exists s'. split; [|assumption].
  unfold Stream_Decode, cachedDecoder, makeDecoder. rewrite Hdec, Hres.
  reflexivity.
Qed.


(** The reader of [EncodeToReader] gives the same encoding, whatever the
    size of the buffers it is read with. *)
Lemma EncodeToReader_supported t v :
  supported t = true -> has_type t v -> len (rlp v) < 2 ^ 63 ->
  exists rd,
    EncodeToReader t v = inl (len (rlp v), rd)
    /\ forall cap fuel, 0 < cap -> len (rlp v) < Z.of_nat fuel ->
         drain fuel cap rd = inl (rlp v).
Proof.
  intros Hs Hv Hb. unfold EncodeToReader.
  rewrite encode_supported by assumption. rewrite filled_size by assumption.
  eexists. split; [reflexivity|].
  intros cap fuel Hcap Hfuel.
  assert (Hrest : er_rest (mkEncReader (Some (filled v encBuffer_reset)) 0 0 None)
                  = rlp v).
  { unfold er_rest. cbn [er_buf er_piece er_strpos er_lhpos app Z.to_nat skipn].
    apply flush_filled. assumption. }
  rewrite drain_spec; [rewrite Hrest; reflexivity|assumption| |].
  - unfold er_wf. cbn [er_buf er_piece er_strpos er_lhpos Z.to_nat skipn].
    refine (conj _ (conj _ (conj (filled_ordered v) _))); [lia|lia|discriminate].
  - rewrite Hrest. assumption.
Qed.

Lemma has_type_example : has_type T_example v_example.
Proof.
  repeat first
    [ apply ht_struct | apply ht_uint | apply ht_bool | apply ht_string
    | apply ht_bytes | apply ht_slice | apply Forall2_cons | apply Forall2_nil
    | apply Forall_cons | apply Forall_nil | reflexivity
    | (unfold is_byte; cbn; lia) | (cbn; lia) ].
Qed.

Lemma has_type_zero_example : has_type T_example (zeroValue T_example).
Proof. apply zeroValue_has_type. reflexivity. Qed.



(** * Nesting accounting of the stream *)

Lemma willRead_success n s s' :
  willRead n s = (inl tt, s') ->
  stack s' = charge_stack n (stack s)
  /\ match stack s with [] => True | top :: _ => n <= top end
  /\ r s' = r s.
Proof.
  destruct s as [r0 rem sz ke st k bv lim].
  unfold willRead, bind, modify, get, listLimit, fail, ret. cbn.
  destruct st as [|top rest]; cbn.
  - destruct lim; cbn; [destruct (n >? rem); cbn|];
      intros H; inversion H; auto.
  - destruct (Z.gtb_spec n top) as [Hgt|Hle]; cbn; [discriminate|].
    destruct lim; cbn; [destruct (n >? rem); cbn|];
      intros H; inversion H; cbn; auto.
Qed.

Lemma bind_inl {A B} (m : M A) (k : A -> M B) s b s' :
  bind m k s = (inl b, s') ->
  exists a s1, m s = (inl a, s1) /\ k a s1 = (inl b, s').
Proof.
  unfold bind. destruct (m s) as [[a|e] s1]; intros H; [|discriminate].
  exists a, s1. auto.
Qed.

Lemma readByte_success s b s' :
  readByte s = (inl b, s') ->
  stack s' = charge_stack 1 (stack s) /\ r s = b :: r s'.
Proof.
  unfold readByte. intros H.
  apply bind_inl in H. destruct H as ([] & s1 & Hw & H).
  apply willRead_success in Hw. destruct Hw as (Hst & _ & Hr).
  unfold bind, get, put, ret, fail in H. cbn in H.
  destruct (r s1) as [|b0 tl] eqn:E; [discriminate|].
  inversion H; subst. cbn. split; [assumption|]. congruence.
Qed.

Lemma readFull_success s n bs s' :
  0 <= n -> readFull n s = (inl bs, s') ->
  stack s' = charge_stack n (stack s) /\ r s = bs ++ r s' /\ len bs = n.
Proof.
  unfold readFull. intros Hn H.
  apply bind_inl in H. destruct H as ([] & s1 & Hw & H).
  apply willRead_success in Hw. destruct Hw as (Hst & _ & Hr).
  unfold bind, get, put, ret, fail in H. cbn in H.
  destruct (Z.leb_spec n (len (r s1))); [|discriminate].
  inversion H; subst. cbn. split; [assumption|]. rewrite <- Hr.
  split; [symmetry; apply firstn_skipn|].
  unfold len in *. rewrite length_firstn. lia.
Qed.

(** C2.  The stream keeps one counter per open list.  (1) When [List]
    succeeds with payload size [S] the counter of the enclosing list, as it
    stands once the header is read, is decremented by [S] (in [uint64]
    arithmetic) and [S] is pushed.  (2) Every read that succeeds
    ([willRead], hence [readByte] and [readFull]) subtracts the number of
    bytes it consumes from the top counter.  (3) A read of more bytes than
    the top counter fails with [ErrElemTooLarge].  (4) [ListEnd] fails with
    [errNotAtEOL] whenever the top counter is not zero, and pops it when it
    is zero. *)
Theorem list_accounting :
  (forall s S s',
      Stream_List s = (inl S, s') ->
      exists s1,
        Stream_Kind s = ((List, S, None), s1)
        /\ stack s' = S :: match stack s1 with
                           | [] => []
                           | parent :: outer => uint64 (parent - S) :: outer
                           end)
  /\ (forall s n s',
         willRead n s = (inl tt, s') ->
         stack s' = charge_stack n (stack s))
  /\ (forall s b s',
         readByte s = (inl b, s') ->
         stack s' = charge_stack 1 (stack s) /\ r s = b :: r s')
  /\ (forall s n bs s',
         0 <= n -> readFull n s = (inl bs, s') ->
         stack s' = charge_stack n (stack s)
         /\ r s = bs ++ r s' /\ len bs = n)
  /\ (forall s n top rest,
         stack s = top :: rest -> top < n ->
         fst (willRead n s) = inr ErrElemTooLarge
         /\ fst (readFull n s) = inr ErrElemTooLarge
         /\ (n = 1 -> fst (readByte s) = inr ErrElemTooLarge))
  /\ (forall s top rest,
         stack s = top :: rest -> 0 < top ->
         Stream_ListEnd s = (inr errNotAtEOL, s))
  /\ (forall s rest,
         stack s = 0 :: rest ->
         exists s', Stream_ListEnd s = (inl tt, s') /\ stack s' = rest).
Proof.
  refine (conj _ (conj _ (conj _ (conj _ (conj _ (conj _ _)))))).
  - intros s S s' H. unfold Stream_List in H.
    apply bind_inl in H. destruct H as ([k sz] & s1 & HK & H).
    unfold KindM in HK.
    destruct (Stream_Kind s) as [[[k0 sz0] [e|]] s0] eqn:EK; [discriminate|].
    inversion HK; subst. exists s1.
    destruct (Z.eqb_spec k List) as [->|]; cbn [negb] in H; [|discriminate].
    unfold bind, get, modify, ret, listLimit in H.
    destruct (stack s1) as [|parent outer] eqn:E; cbn in H; inversion H; subst.
    + split; [reflexivity|]. cbn. rewrite E. reflexivity.
    + split; [reflexivity|]. cbn. unfold set_top. rewrite E. reflexivity.
  - intros s n s' H. apply willRead_success in H. tauto.
  - intros s b s' H. apply readByte_success in H. exact H.
  - intros s n bs s' Hn H. apply readFull_success in H; assumption.
  - intros s n top rest Hst Hn. repeat split.
    + rewrite (willRead_ElemTooLarge n top rest s); auto.
    + unfold readFull, bind.
      rewrite (willRead_ElemTooLarge n top rest s); auto.
    + intros ->. unfold readByte, bind.
      rewrite (willRead_ElemTooLarge 1 top rest s); auto.
  - intros s top rest Hst Htop.
    unfold Stream_ListEnd, bind, get, listLimit. rewrite Hst. cbn.
    destruct (Z.gtb_spec top 0); [reflexivity|lia].
  - intros s rest H.
    destruct (Stream_ListEnd_ok s rest H) as (s' & HE & _ & _ & Hst & _).
    exists s'. auto.
Qed.

Lemma list_accounting_witness :
  stack (snd (Stream_List s_nested)) = [1; 3; 9]
  /\ stack (snd (willRead 2 s_nested)) = [3; 9]
  /\ stack (snd (readByte s_nested)) = [4; 9]
  /\ stack (snd (readFull 3 s_nested)) = [2; 9]
  /\ fst (willRead 6 s_nested) = inr ErrElemTooLarge
  /\ fst (readFull 6 s_nested) = inr ErrElemTooLarge
  /\ Stream_ListEnd s_nested = (inr errNotAtEOL, s_nested)
  /\ stack (snd (Stream_ListEnd (set_stack [0; 9] s_nested))) = [9].
Proof.
  destruct list_accounting as (HL & HW & HB & HF & HT & HE & HP).
  refine (conj _ (conj _ (conj _ (conj _ (conj _ (conj _ (conj _ _))))))).
  - destruct (HL s_nested 1 (snd (Stream_List s_nested)) eq_refl)
      as (s1 & HK & Hst).
    rewrite Hst. inversion HK. reflexivity.
  - rewrite (HW s_nested 2 (snd (willRead 2 s_nested)) eq_refl). reflexivity.
  - destruct (HB s_nested 0xC1 (snd (readByte s_nested)) eq_refl) as [-> _].
    reflexivity.
  - destruct (HF s_nested 3 [0xC1; 0x07; 0x08] (snd (readFull 3 s_nested)))
      as (-> & _); [lia|reflexivity|reflexivity].
  - apply (HT s_nested 6 5 [9]); [reflexivity|lia].
  - apply (HT s_nested 6 5 [9]); [reflexivity|lia].
  - apply (HE s_nested 5 [9]); [reflexivity|lia].
  - destruct (HP (set_stack [0; 9] s_nested) [9] eq_refl) as (s' & HEq & Hst).
    rewrite HEq. exact Hst.
Defined.

(** * Non-canonical input *)

Lemma Reset_fits input knownLen inputLimit n :
  inputLimit = 0 \/ n <= inputLimit -> n <= len input ->
  fits n (Stream_Reset input knownLen inputLimit).
Proof.
  intros Hl Hn. unfold Stream_Reset, fits.
  destruct (Z.gtb_spec inputLimit 0); [|destruct knownLen]; cbn;
    split; auto; intros; try discriminate; lia.
Qed.

Lemma Reset_state input knownLen inputLimit :
  kind (Stream_Reset input knownLen inputLimit) = -1
  /\ r (Stream_Reset input knownLen inputLimit) = input
  /\ stack (Stream_Reset input knownLen inputLimit) = [].
Proof.
  unfold Stream_Reset.
  destruct (inputLimit >? 0); [|destruct knownLen]; cbn; auto.
Qed.

(** The header [0x81] followed by a byte below [0x80]. *)
Lemma Kind_81 NN rest' s :
  kind s = -1 -> r s = 0x81 :: NN :: rest' -> fits 2 s ->
  exists s1,
    Stream_Kind s = ((String, 1, None), s1)
    /\ r s1 = NN :: rest' /\ fits 1 s1.
Proof.
  intros Hk Hr Hf.
  destruct (Kind_puthead 0x80 0xB7 String 1 (NN :: rest') s)
    as (s1 & HK & Hm & _); auto; try lia.
  exists s1. split; [exact HK|]. split.
  - destruct Hm as (A & _). rewrite A, Hr. reflexivity.
  - apply (fits_moved 1 1 s s1 Hm). exact Hf.
Qed.

Lemma single_byte_stream NN rest' s :
  0 <= NN < 0x80 ->
  kind s = -1 -> r s = 0x81 :: NN :: rest' -> fits 2 s ->
  fst (Stream_Bytes s) = inr ErrCanonSize
  /\ fst (Stream_ReadBytes 1 s) = inr ErrCanonSize
  /\ (forall maxbits, 8 <= maxbits -> fst (Stream_uint maxbits s) = inr ErrCanonSize)
  /\ fst (Stream_Bool s) = inr ErrCanonSize.
Proof.
  intros HNN Hk Hr Hf.
  destruct (Kind_81 NN rest' s Hk Hr Hf) as (s1 & HK & Hr1 & Hf1).
  assert (Hlt : (NN <? 128) = true) by (apply Z.ltb_lt; lia).
  assert (Hu : forall maxbits, 8 <= maxbits ->
                 fst (Stream_uint maxbits s) = inr ErrCanonSize).
  { intros maxbits Hm. unfold Stream_uint, bind, KindM. rewrite HK. cbn.
    destruct (Z.gtb_spec 1 (maxbits / 8)) as [Hgt|_].
    - exfalso. assert (1 <= maxbits / 8) by (apply Z.div_le_lower_bound; lia). lia.
    - change (byte 1) with 1. unfold readUint. cbn.
      rewrite (readByte_ok NN rest' s1 Hf1 Hr1). rewrite Hlt. reflexivity. }
  refine (conj _ (conj _ (conj Hu _))).
  - unfold Stream_Bytes, bind, KindM. rewrite HK. cbn.
    rewrite readFull_ok; [|assumption|].
    2:{ rewrite Hr1, len_cons. pose proof (len_nonneg rest'). lia. }
    rewrite Hr1.
    replace (firstn (Z.to_nat 1) (NN :: rest')) with [NN] by reflexivity.
    change (nth 0 [NN] 0) with NN. change (1 =? 1) with true.
    cbn [andb]. rewrite Hlt. reflexivity.
  - unfold Stream_ReadBytes, bind, KindM. rewrite HK. cbn.
    rewrite readFull_ok; [|assumption|].
    2:{ rewrite Hr1, len_cons. pose proof (len_nonneg rest'). lia. }
    rewrite Hr1.
    replace (firstn (Z.to_nat 1) (NN :: rest')) with [NN] by reflexivity.
    change (nth 0 [NN] 0) with NN. change (1 =? 1) with true.
    cbn [andb]. rewrite Hlt. reflexivity.
  - unfold Stream_Bool, bind. specialize (Hu 8 ltac:(lia)).
    destruct (Stream_uint 8 s) as [[v|e] s']; cbn in Hu; [discriminate|].
    inversion Hu. reflexivity.
Qed.

(** C3.  The two-byte input [0x81 NN] with [NN < 0x80] is rejected.  The
    error the code reports for a single byte wrapped in a one-byte string
    header is [ErrCanonSize] ("rlp: non-canonical size information"), on
    the stream ([Bytes], [ReadBytes], [uint] at every width, [Bool]; the
    input limit is off or at least the two bytes), through [DecodeBytes]
    (where [wrapStreamError] turns it into a decode error with that
    message), and on the raw path ([readKind], [Split], [SplitString],
    [SplitUint64]). *)
Theorem single_byte_string_rejected :
  forall (NN : Z) (knownLen : bool) (inputLimit : Z) (dest : value),
    0 <= NN < 0x80 ->
    inputLimit = 0 \/ 2 <= inputLimit ->
    let s := Stream_Reset [0x81; NN] knownLen inputLimit in
    fst (Stream_Bytes s) = inr ErrCanonSize
    /\ fst (Stream_ReadBytes 1 s) = inr ErrCanonSize
    /\ fst (Stream_uint 8 s) = inr ErrCanonSize
    /\ fst (Stream_uint 16 s) = inr ErrCanonSize
    /\ fst (Stream_uint 32 s) = inr ErrCanonSize
    /\ fst (Stream_uint 64 s) = inr ErrCanonSize
    /\ fst (Stream_Bool s) = inr ErrCanonSize
    /\ DecodeBytes [0x81; NN] (TSlice (TUint U8)) dest
       = inr (decodeError "non-canonical size information" "[]uint8" [])
    /\ DecodeBytes [0x81; NN] TString dest
       = inr (decodeError "non-canonical size information" "string" [])
    /\ DecodeBytes [0x81; NN] (TUint U64) dest
       = inr (decodeError "non-canonical size information" "uint64" [])
    /\ readKind [0x81; NN] = (0, 0, 0, Some ErrCanonSize)
    /\ Split [0x81; NN] = (0, [], [0x81; NN], Some ErrCanonSize)
    /\ SplitString [0x81; NN] = ([], [0x81; NN], Some ErrCanonSize)
    /\ SplitUint64 [0x81; NN] = (0, [0x81; NN], Some ErrCanonSize).
Proof.
  intros NN knownLen inputLimit dest HNN Hlim s.
  assert (Hlt : (NN <? 128) = true) by (apply Z.ltb_lt; lia).
  destruct (Reset_state [0x81; NN] knownLen inputLimit) as (Hk & Hr & _).
  assert (Hf : fits 2 s) by (apply Reset_fits; [lia|reflexivity]).
  destruct (single_byte_stream NN [] s HNN Hk Hr Hf) as (HB & HRB & HU & HBo).
  assert (HrK : readKind [0x81; NN] = (0, 0, 0, Some ErrCanonSize)).
  { unfold readKind. cbn. rewrite Hlt. reflexivity. }
  (* DecodeBytes sets the input limit to the two bytes *)
  destruct (Reset_state [0x81; NN] false (len [0x81; NN])) as (Hk2 & Hr2 & _).
  assert (Hf2 : fits 2 (Stream_Reset [0x81; NN] false (len [0x81; NN])))
    by (apply Reset_fits; [right; reflexivity|reflexivity]).
  destruct (single_byte_stream NN []
              (Stream_Reset [0x81; NN] false (len [0x81; NN])) HNN Hk2 Hr2 Hf2)
    as (HB2 & _ & HU2 & _).
  specialize (HU2 64 ltac:(lia)).
  set (s2 := Stream_Reset [0x81; NN] false (len [0x81; NN])) in *.
  refine (conj HB (conj HRB (conj (HU 8 _) (conj (HU 16 _) (conj (HU 32 _)
           (conj (HU 64 _) (conj HBo (conj _ (conj _ (conj _ (conj HrK
           (conj _ (conj _ _))))))))))))); try lia.
  - unfold DecodeBytes, Stream_Decode. cbn [cachedDecoder makeDecoder
      infoWhileGenerating tdecoder makeListDecoder isByte].
    fold s2. unfold decodeByteSlice, bind, wrapped.
    destruct (Stream_Bytes s2) as [[v|e] s']; cbn in HB2; [discriminate|].
    inversion HB2; subst. reflexivity.
  - unfold DecodeBytes, Stream_Decode. cbn [cachedDecoder makeDecoder
      infoWhileGenerating tdecoder].
    fold s2. unfold decodeString, bind, wrapped.
    destruct (Stream_Bytes s2) as [[v|e] s']; cbn in HB2; [discriminate|].
    inversion HB2; subst. reflexivity.
  - unfold DecodeBytes, Stream_Decode. cbn [cachedDecoder makeDecoder
      infoWhileGenerating tdecoder].
    fold s2. unfold decodeUint, bind, wrapped. cbn [Bits].
    destruct (Stream_uint 64 s2) as [[v|e] s']; cbn in HU2; [discriminate|].
    inversion HU2; subst. reflexivity.
  - unfold Split. rewrite HrK. reflexivity.
  - unfold SplitString, Split. rewrite HrK. reflexivity.
  - unfold SplitUint64, SplitString, Split. rewrite HrK. reflexivity.
Qed.

Lemma single_byte_string_rejected_witness :
  0 <= 0x01 < 0x80
  /\ fst (Stream_Bytes (Stream_Reset [0x81; 0x01] true 0)) = inr ErrCanonSize
  /\ fst (Stream_uint 64 (Stream_Reset [0x81; 0x01] true 0)) = inr ErrCanonSize
  /\ DecodeBytes [0x81; 0x01] (TSlice (TUint U8)) (VBytes [])
     = inr (decodeError "non-canonical size information" "[]uint8" [])
  /\ Split [0x81; 0x01] = (0, [], [0x81; 0x01], Some ErrCanonSize).
Proof.
  assert (H1 : 0 <= 0x01 < 0x80) by lia.
  assert (H2 : 0 = 0 \/ 2 <= 0) by (left; reflexivity).
  pose proof (single_byte_string_rejected 0x01 true 0 (VBytes []) H1 H2) as H.
  cbv zeta in H.
  destruct H as (A & _ & _ & _ & _ & B & _ & C & _ & _ & _ & D & _).
  exact (conj H1 (conj A (conj B (conj C D)))).
Defined.

(** [readSize] computes the big-endian value of the length field and
    rejects it when it is below 56 or starts with a zero byte. *)
Lemma readSize_spec lenbytes rest :
  1 <= len lenbytes <= 8 -> is_bytes lenbytes ->
  readSize (lenbytes ++ rest) (len lenbytes)
  = if (be_value lenbytes <? 56) || (nth 0 lenbytes 0 =? 0)
    then (0, Some ErrCanonSize)
    else (be_value lenbytes, None).
Proof.
  intros HL HB. rewrite <- (BigEndian_be_value lenbytes HB).
  unfold readSize. rewrite len_app.
  destruct (Z.ltb_spec (len lenbytes + len rest) (len lenbytes)) as [Hlt|_];
    [pose proof (len_nonneg rest); lia|].
  destruct lenbytes as [|b0 [|b1 [|b2 [|b3 [|b4 [|b5 [|b6 [|b7 [|b8 tl]]]]]]]]];
    unfold len in HL; cbn [List.length] in HL; try lia;
    unfold len; cbn [List.length Z.of_nat Pos.of_succ_nat Pos.succ Z.eqb Pos.eqb
                     app nth];
    match goal with
    | |- (if (?a <? 56) || _ then _ else _) = (if (?b <? 56) || _ then _ else _) =>
        replace b with a; [reflexivity|symmetry; be_norm]
    end.
Qed.

Lemma long_header_raw tag lenbytes rest :
  (0xB8 <= tag <= 0xBF \/ 0xF8 <= tag <= 0xFF) ->
  is_bytes lenbytes ->
  len lenbytes = (if tag <? 0xC0 then tag - 0xB7 else tag - 0xF7) ->
  (be_value lenbytes < 56 \/ nth 0 lenbytes 0 = 0) ->
  readKind (tag :: lenbytes ++ rest) = (0, 0, 0, Some ErrCanonSize).
Proof.
  intros Htag HB HL Hbad.
  assert (HL8 : 1 <= len lenbytes <= 8)
    by (revert HL; destruct (Z.ltb_spec tag 192); intros; lia).
  assert (Hrs : readSize (lenbytes ++ rest) (len lenbytes)
                = (0, Some ErrCanonSize)).
  { rewrite readSize_spec; [|assumption|assumption].
    destruct Hbad as [Hlt| ->].
    - destruct (Z.ltb_spec (be_value lenbytes) 56); [reflexivity|lia].
    - rewrite Z.eqb_refl, orb_true_r. reflexivity. }
  unfold readKind.
  destruct (Z.ltb_spec tag 0x80); [lia|].
  destruct (Z.ltb_spec tag 0xB8); [lia|].
  destruct (Z.ltb_spec tag 0xC0) as [H1|H1].
  - replace (byte (tag - 183)) with (len lenbytes)
      by (rewrite byte_small; lia).
    rewrite Hrs. reflexivity.
  - destruct (Z.ltb_spec tag 0xF8); [lia|].
    replace (byte (tag - 247)) with (len lenbytes)
      by (rewrite byte_small; lia).
    rewrite Hrs. reflexivity.
Qed.

Lemma long_header_stream tag lenbytes rest s :
  (0xB8 <= tag <= 0xBF \/ 0xF8 <= tag <= 0xFF) ->
  is_bytes lenbytes ->
  len lenbytes = (if tag <? 0xC0 then tag - 0xB7 else tag - 0xF7) ->
  (be_value lenbytes < 56 \/ nth 0 lenbytes 0 = 0) ->
  kind s = -1 -> r s = tag :: lenbytes ++ rest ->
  fits (1 + len lenbytes) s ->
  exists k sz s', Stream_Kind s = ((k, sz, Some ErrCanonSize), s').
Proof.
  intros Htag HB HL Hbad Hk Hr Hf.
  assert (HL8 : 1 <= len lenbytes <= 8)
    by (revert HL; destruct (Z.ltb_spec tag 192); intros; lia).
  set (L := len lenbytes) in *.
  assert (Hf1 : fits 1 s) by (apply fits_le with (n := 1 + L); [lia|assumption]).
  set (s0 := set_byteval 0 (consume 1 s)).
  assert (Hm0 : moved 1 s s0) by (repeat split).
  assert (Hr0 : r s0 = lenbytes ++ rest) by (cbn; rewrite Hr; reflexivity).
  assert (HfL : fits L s0) by (apply (fits_moved 1 L s s0 Hm0); exact Hf).
  (* the length field is read and found wanting *)
  assert (Hru : exists s1,
             readUint L s0 = (inr ErrCanonSize, s1)
             \/ exists sz, readUint L s0 = (inl sz, s1) /\ sz < 56).
  { unfold readUint.
    destruct (Z.eqb_spec L 0); [lia|].
    destruct (Z.eqb_spec L 1) as [E1|E1].
    - destruct lenbytes as [|b0 [|b1 tl]];
        unfold L, len in E1; cbn [List.length] in E1; try lia.
      cbn [app] in Hr0. change (fits 1 s0) in HfL.
      rewrite (readByte_ok b0 rest s0 HfL Hr0).
      eexists. right. exists b0. split; [reflexivity|].
      unfold be_value in Hbad. cbn in Hbad. lia.
    - destruct (Z.gtb_spec L 8); [lia|].
      unfold bind. rewrite readFull_ok; [|assumption|].
      2:{ rewrite Hr0, len_app. fold L. pose proof (len_nonneg rest). lia. }
      rewrite Hr0.
      replace (firstn (Z.to_nat L) (lenbytes ++ rest)) with lenbytes
        by (unfold L; now rewrite firstn_len_app).
      rewrite app_nth2 by (rewrite repeat_length; lia).
      rewrite repeat_length, Nat.sub_diag.
      destruct (Z.eqb_spec (nth 0 lenbytes 0) 0) as [E0|E0].
      + eexists. left. reflexivity.
      + eexists. right. eexists. split; [reflexivity|].
        rewrite BigEndian_be_value.
        * rewrite be_value_zeros. destruct Hbad; [assumption|contradiction].
        * apply Forall_app. split; [|assumption].
          apply Forall_forall. intros x Hx. apply repeat_spec in Hx.
          subst. unfold is_byte. lia. }
  destruct Hru as (s1 & Hru).
  assert (Hrk : exists k sz, Stream_readKind s = ((k, sz, Some ErrCanonSize), s1)).
  { unfold Stream_readKind. rewrite (readByte_ok _ _ _ Hf1 Hr). fold s0.
    destruct (Z.ltb_spec tag 0x80); [lia|].
    destruct (Z.ltb_spec tag 0xB8); [lia|].
    destruct (Z.ltb_spec tag 0xC0) as [H1|H1].
    - replace (byte (tag - 183)) with L by (rewrite byte_small; lia).
      destruct Hru as [-> | (sz & -> & Hsz)]; [eauto|].
      destruct (Z.ltb_spec sz 56); [eauto|lia].
    - destruct (Z.ltb_spec tag 0xF8); [lia|].
      replace (byte (tag - 247)) with L by (rewrite byte_small; lia).
      destruct Hru as [-> | (sz & -> & Hsz)]; [eauto|].
      destruct (Z.ltb_spec sz 56); [eauto|lia]. }
  destruct Hrk as (k & sz & Hrk).
  unfold Stream_Kind. rewrite Hk. cbn [Z.geb Z.compare].
  unfold listLimit. destruct Hf as [Hf _].
  destruct (stack s) as [|top st]; cbn [andb].
  - rewrite Hrk. cbn. eauto.
  - destruct (Z.eqb_spec top 0); [lia|]. rewrite Hrk. cbn. eauto.
Qed.

(** C4.  A long-form header (tags 0xB8..0xBF and 0xF8..0xFF followed by
    the length field) whose length value is below 56, or whose length
    field starts with a zero byte, is rejected with [ErrCanonSize]: by
    [readKind] and [Split] on the raw path, and by the stream, whose
    [Kind] caches the error so that [Bytes], [uint], [List] and [Raw]
    return it (the header lies within the enclosing list and the input
    limit).  In particular the input [B8 00] is rejected. *)
Theorem long_header_noncanonical :
  forall (tag : Z) (lenbytes rest : list Z),
    (0xB8 <= tag <= 0xBF \/ 0xF8 <= tag <= 0xFF) ->
    is_bytes lenbytes ->
    len lenbytes = (if tag <? 0xC0 then tag - 0xB7 else tag - 0xF7) ->
    (be_value lenbytes < 56 \/ nth 0 lenbytes 0 = 0) ->
    readKind (tag :: lenbytes ++ rest) = (0, 0, 0, Some ErrCanonSize)
    /\ Split (tag :: lenbytes ++ rest)
       = (0, [], tag :: lenbytes ++ rest, Some ErrCanonSize)
    /\ (forall s,
           kind s = -1 -> r s = tag :: lenbytes ++ rest ->
           fits (1 + len lenbytes) s ->
           snd (fst (Stream_Kind s)) = Some ErrCanonSize
           /\ fst (Stream_Bytes s) = inr ErrCanonSize
           /\ (forall maxbits, fst (Stream_uint maxbits s) = inr ErrCanonSize)
           /\ fst (Stream_List s) = inr ErrCanonSize
           /\ fst (Stream_Raw s) = inr ErrCanonSize)
    /\ (forall dest,
           DecodeBytes [0xB8; 0x00] (TSlice (TUint U8)) dest
           = inr (decodeError "non-canonical size information" "[]uint8" []))
    /\ fst (Stream_Bytes (Stream_Reset [0xB8; 0x00] true 0)) = inr ErrCanonSize
    /\ readKind [0xB8; 0x00] = (0, 0, 0, Some ErrCanonSize).
Proof.
  intros tag lenbytes rest Htag HB HL Hbad.
  pose proof (long_header_raw tag lenbytes rest Htag HB HL Hbad) as Hraw.
  refine (conj Hraw (conj _ (conj _ (conj _ (conj _ _))))).
  - unfold Split. rewrite Hraw. reflexivity.
  - intros s Hk Hr Hf.
    destruct (long_header_stream tag lenbytes rest s Htag HB HL Hbad Hk Hr Hf)
      as (k & sz & s' & HK).
    assert (HKM : KindM s = (inr ErrCanonSize, s'))
      by (unfold KindM; rewrite HK; reflexivity).
    refine (conj _ (conj _ (conj _ (conj _ _)))).
    + rewrite HK. reflexivity.
    + unfold Stream_Bytes, bind. rewrite HKM. reflexivity.
    + intros maxbits. unfold Stream_uint, bind. rewrite HKM. reflexivity.
    + unfold Stream_List, bind. rewrite HKM. reflexivity.
    + unfold Stream_Raw, bind. rewrite HKM. reflexivity.
  - intros dest. reflexivity.
  - reflexivity.
  - reflexivity.
Qed.

Lemma long_header_noncanonical_witness :
  is_bytes [0x00; 0x40]
  /\ (be_value [0x00; 0x40] < 56 \/ nth 0 [0x00; 0x40] 0 = 0)
  /\ readKind [0xB9; 0x00; 0x40; 0x61] = (0, 0, 0, Some ErrCanonSize)
  /\ fst (Stream_List (Stream_Reset [0xF9; 0x00; 0x40; 0x61] true 0))
     = inr ErrCanonSize.
Proof.
  assert (H1 : is_bytes [0x00; 0x40])
    by (repeat constructor; unfold is_byte; lia).
  assert (H2 : be_value [0x00; 0x40] < 56 \/ nth 0 [0x00; 0x40] 0 = 0)
    by (right; reflexivity).
  refine (conj H1 (conj H2 (conj _ _))).
  - apply (long_header_noncanonical 0xB9 [0x00; 0x40] [0x61]);
      [left; lia|exact H1|reflexivity|exact H2].
  - destruct (long_header_noncanonical 0xF9 [0x00; 0x40] [0x61])
      as (_ & _ & Hs & _); [right; lia|exact H1|reflexivity|exact H2|].
    apply (Hs (Stream_Reset [0xF9; 0x00; 0x40; 0x61] true 0));
      [reflexivity|reflexivity|].
    split; [exact I|]. intros _. cbn. lia.
Defined.

(** * Integer boundary values *)

(** C5.  [encBuffer.writeUint64] and [AppendUint64] give the canonical
    bytes at the boundaries: 0 is [80], 127 is [7F], 128 is [81 80], 256 is
    [82 01 00] and 1024 is [82 04 00]; so does [EncodeToBytes] on a
    [uint64]. *)
Theorem uint_boundary_encodings :
  forall (buf : encBuffer) (b : list Z),
    encBuffer_writeUint64 0 buf = append_str buf [0x80]
    /\ encBuffer_writeUint64 127 buf = append_str buf [0x7F]
    /\ encBuffer_writeUint64 128 buf = append_str buf [0x81; 0x80]
    /\ encBuffer_writeUint64 256 buf = append_str buf [0x82; 0x01; 0x00]
    /\ encBuffer_writeUint64 1024 buf = append_str buf [0x82; 0x04; 0x00]
    /\ AppendUint64 b 0 = b ++ [0x80]
    /\ AppendUint64 b 127 = b ++ [0x7F]
    /\ AppendUint64 b 128 = b ++ [0x81; 0x80]
    /\ AppendUint64 b 256 = b ++ [0x82; 0x01; 0x00]
    /\ AppendUint64 b 1024 = b ++ [0x82; 0x04; 0x00]
    /\ EncodeToBytes (TUint U64) (VUint 0) = inl [0x80]
    /\ EncodeToBytes (TUint U64) (VUint 127) = inl [0x7F]
    /\ EncodeToBytes (TUint U64) (VUint 128) = inl [0x81; 0x80]
    /\ EncodeToBytes (TUint U64) (VUint 256) = inl [0x82; 0x01; 0x00]
    /\ EncodeToBytes (TUint U64) (VUint 1024) = inl [0x82; 0x04; 0x00].
Proof.
  intros buf b. repeat split; reflexivity.
Qed.


Lemma lastField_loop_spec fields l fo : forall n last,
  (forall i, 0 <= i < len fields -> field_value fields l i <> None) ->
  0 <= fo -> fo - 1 <= last < len fields -> last - fo + 1 <= Z.of_nat n ->
  let L := lastField_loop n fields l fo last in
  fo - 1 <= L <= last
  /\ (forall i, L < i <= last ->
                exists fv, field_value fields l i = Some fv /\ IsZero fv = true)
  /\ (fo <= L ->
      exists fv, field_value fields l L = Some fv /\ IsZero fv = false).
Proof.
  induction n as [|n IH]; intros last Hdef Hfo Hlast Hn L.
  - assert (last = fo - 1) by lia. subst L last. cbn [lastField_loop].
    split; [lia|]. split; intros; lia.
  - subst L. cbn [lastField_loop].
    destruct (Z.geb_spec last fo) as [Hge|Hlt].
    + pose proof (Hdef last ltac:(lia)) as Hl. unfold field_value in Hl.
      destruct (nth_error fields (Z.to_nat last)) as [f|] eqn:Ef;
        [|contradiction].
      destruct (Field_ l (index f)) as [fv|] eqn:Efv; [|contradiction].
      destruct (IsZero fv) eqn:Ez; cbn [negb].
      * destruct (IH (last - 1)) as (A & B & C); auto; try lia.
        split; [lia|]. split; [|exact C].
        intros i Hi. destruct (Z.eq_dec i last) as [->|Hne].
        -- exists fv. unfold field_value. rewrite Ef. auto.
        -- apply B. lia.
      * split; [lia|]. split.
        -- intros i Hi. lia.
        -- intros _. exists fv. unfold field_value. rewrite Ef. auto.
    + split; [lia|]. split; intros; lia.
Qed.

Lemma firstOptional_range fields : 0 <= firstOptionalField fields <= len fields.
Proof.
  induction fields as [|f fields IH]; cbn [firstOptionalField].
  - change (len (@nil field)) with 0. lia.
  - rewrite len_cons. destruct (optional f); lia.
Qed.



Section OptionalRule.
Variable lastPublic : Z.

Local Abbreviation tags := (tagsOf lastPublic).
Local Abbreviation soft f := (Optional (tags f) || Tail (tags f)).

Lemma gather_kept allFields :
  (forall f, In f allFields -> Exported f = true ->
             snd (parseTag f lastPublic) = None) ->
  gather lastPublic allFields
  = inl (filter (kept lastPublic) allFields,
         map tags (filter (kept lastPublic) allFields)).
Proof.
  induction allFields as [|f fs IH]; intros Hp; [reflexivity|].
  assert (IH' : gather lastPublic fs
                = inl (filter (kept lastPublic) fs,
                       map tags (filter (kept lastPublic) fs)))
    by (apply IH; intros; apply Hp; [right|]; assumption).
  cbn [gather filter]. destruct (Exported f) eqn:Ee; cbn [negb].
  - pose proof (Hp f (or_introl eq_refl) Ee) as Hf.
    destruct (parseTag f lastPublic) as [ts err] eqn:Et. cbn in Hf. subst err.
    assert (Hk : kept lastPublic f = negb (Ignored ts))
      by (unfold kept, tagsOf; rewrite Ee, Et; reflexivity).
    rewrite Hk, IH'. destruct (Ignored ts); cbn [negb map]; [reflexivity|].
    replace (tags f) with ts by (unfold tagsOf; rewrite Et; reflexivity).
    reflexivity.
  - assert (Hk : kept lastPublic f = false)
      by (unfold kept; rewrite Ee; reflexivity).
    rewrite Hk. exact IH'.
Qed.

Lemma verify_required f1 : forall rest name0,
  Forall (fun f => soft f = false) f1 ->
  verifyOptional (f1 ++ rest) (map tags (f1 ++ rest)) false name0
  = verifyOptional rest (map tags rest) false name0.
Proof.
  induction f1 as [|f f1 IH]; intros rest name0 H; [reflexivity|].
  inversion H as [|? ? Hf H']; subst. cbn [app map verifyOptional].
  rewrite Hf. apply IH. assumption.
Qed.

Lemma verify_optional f2 : forall fb f3 name1,
  Forall (fun f => soft f = true) f2 ->
  soft fb = false ->
  verifyOptional (f2 ++ fb :: f3) (map tags (f2 ++ fb :: f3)) true name1
  = Some (tagError (Name fb) EmptyString (optionalMsg name1)).
Proof.
  induction f2 as [|f f2 IH]; intros fb f3 name1 H Hb.
  - cbn [app map verifyOptional]. rewrite Hb. reflexivity.
  - inversion H as [|? ? Hf H']; subst. cbn [app map verifyOptional].
    rewrite Hf. cbn [negb]. apply IH; assumption.
Qed.

Lemma verify_all_optional f2 : forall name1,
  Forall (fun f => soft f = true) f2 ->
  verifyOptional f2 (map tags f2) true name1 = None.
Proof.
  induction f2 as [|f f2 IH]; intros name1 H; [reflexivity|].
  inversion H as [|? ? Hf H']; subst. cbn [map verifyOptional].
  rewrite Hf. cbn [negb]. apply IH. assumption.
Qed.

End OptionalRule.

Lemma struct_build_error name fs st f t e :
  ProcessFields (allStructFields fs 0) = inr (TagError st f t e) ->
  forall rounds tags,
    tdecoder (infoWhileGenerating rounds (TStruct name fs) tags)
    = inr (TagError name f t e)
    /\ twriter (infoWhileGenerating rounds (TStruct name fs) tags)
       = inr (TagError name f t e).
Proof.
  intros H rounds tags. cbn [infoWhileGenerating tdecoder twriter].
  unfold structFields. rewrite H. split; reflexivity.
Qed.




(** * The first value of an input *)

Lemma Reset_bytes b :
  let s := Stream_Reset b false (len b) in
  r s = b /\ kind s = -1 /\ stack s = []
  /\ (limited s = true -> remaining s = len b).
Proof.
  unfold Stream_Reset. destruct (Z.gtb_spec (len b) 0); cbn;
    repeat split; auto; discriminate.
Qed.

(** The decoder reads the encoding of a value at the head of the input
    and leaves what follows it. *)
Lemma Stream_Decode_prefix t v dest extra :
  supported t = true -> has_type t v -> has_type t dest ->
  len (rlp v ++ extra) < 2 ^ 63 ->
  exists s,
    Stream_Decode (S (List.length (rlp v ++ extra))) t dest
      (Stream_Reset (rlp v ++ extra) false (len (rlp v ++ extra)))
    = (inl v, s)
    /\ r s = extra.
Proof.
  intros Hs Hv Hd Hb.
  destruct (Reset_bytes (rlp v ++ extra)) as (Hr & Hk & Hst & Hlim).
  rewrite len_app in Hb. pose proof (len_nonneg extra).
  pose proof (len_nonneg (rlp v)).
  destruct (Stream_Decode_supported t v dest
              (Stream_Reset (rlp v ++ extra) false (len (rlp v ++ extra)))
              extra (S (List.length (rlp v ++ extra))))
    as (s' & Hres & (Hmv & _) & _); auto.
  - lia.
  - rewrite length_app. unfold len. lia.
  - unfold fits. rewrite Hst. split; [exact I|].
    intros Hl. rewrite (Hlim Hl), len_app. lia.
  - unfold top_ok. rewrite Hst. exact I.
  - exists s'. split; [exact Hres|].
    rewrite Hmv, Hr. apply skipn_len_app.
Qed.

(** The raw path on the same input: [Split] cuts the encoding of one
    value off the input. *)
Lemma putint_lead n : 1 <= n < 2 ^ 64 -> nth 0 (putint n) 0 <> 0.
Proof.
  intros Hn. destruct (Z.ltb_spec n 256) as [Hlt|Hge].
  - unfold putint. change (2 ^ 8) with 256.
    destruct (Z.ltb_spec n 256); [|lia].
    cbn [nth]. rewrite byte_small by lia. lia.
  - apply putint_head; lia.
Qed.

Lemma skipn_two_app (a b c : list Z) :
  skipn (Z.to_nat (len a + len b)) (a ++ b ++ c) = c.
Proof.
  rewrite app_assoc, <- len_app. apply skipn_len_app.
Qed.

Lemma readKind_byte b extra :
  0 <= b < 0x80 -> len (b :: extra) < 2 ^ 64 ->
  readKind (b :: extra) = (Byte, 0, 1, None).
Proof.
  intros Hb Hl. unfold readKind.
  destruct (Z.ltb_spec b 0x80); [|lia].
  rewrite Z.sub_0_r, !uint64_small
    by (rewrite ?uint64_small; pose proof (len_nonneg (b :: extra)); lia).
  rewrite len_cons in *. pose proof (len_nonneg extra).
  destruct (Z.gtb_spec 1 (1 + len extra)); [lia|reflexivity].
Qed.

Lemma readKind_puthead small large k n payload extra :
  (small = 0x80 /\ large = 0xB7 /\ k = String
   /\ (n = 1 -> 128 <= nth 0 payload 0))
  \/ (small = 0xC0 /\ large = 0xF7 /\ k = List) ->
  len payload = n ->
  len (puthead small large n ++ payload ++ extra) < 2 ^ 64 ->
  readKind (puthead small large n ++ payload ++ extra)
  = (k, headsize n, n, None).
Proof.
  intros Htag Hn Hl.
  pose proof (len_nonneg payload). pose proof (len_nonneg extra).
  assert (Hn64 : 0 <= n < 2 ^ 64).
  { rewrite !len_app in Hl.
    pose proof (len_nonneg (puthead small large n)). lia. }
  rewrite !len_app, len_puthead in Hl by assumption.
  unfold puthead, headsize in *. destruct (Z.ltb_spec n 56) as [Hs|Hs].
  - (* short form *)
    assert (Hb : byte (small + byte n) = small + n).
    { rewrite (byte_small n) by lia. apply byte_small.
      destruct Htag as [(-> & _)|(-> & _)]; lia. }
    rewrite Hb. cbn [app]. unfold readKind.
    rewrite len_cons, len_app.
    rewrite (uint64_small (1 + (len payload + len extra))) by lia.
    replace (1 + (len payload + len extra) - 1)
      with (len payload + len extra) by lia.
    rewrite (uint64_small (len payload + len extra)) by lia.
    destruct Htag as [(-> & -> & -> & Hc)|(-> & -> & ->)].
    + destruct (Z.ltb_spec (128 + n) 128); [lia|].
      destruct (Z.ltb_spec (128 + n) 184); [|lia].
      replace (128 + n - 128) with n by lia.
      assert (Hcanon : (n =? 1) && (1 + (len payload + len extra) >? 1)
                       && (nth 1 ((128 + n) :: payload ++ extra) 0 <? 128)
                       = false).
      { destruct (Z.eqb_spec n 1) as [E|E]; [|reflexivity].
        cbn [nth]. destruct payload as [|p0 pl]; [cbn in Hn; lia|].
        cbn [app nth]. specialize (Hc E). cbn [nth] in Hc.
        destruct (Z.ltb_spec p0 128); [lia|]. apply andb_false_r. }
      rewrite Hcanon.
      destruct (Z.gtb_spec n (len payload + len extra)); [lia|reflexivity].
    + destruct (Z.ltb_spec (192 + n) 128); [lia|].
      destruct (Z.ltb_spec (192 + n) 184); [lia|].
      destruct (Z.ltb_spec (192 + n) 192); [lia|].
      destruct (Z.ltb_spec (192 + n) 248); [|lia].
      replace (192 + n - 192) with n by lia.
      destruct (Z.gtb_spec n (len payload + len extra)); [lia|reflexivity].
  - (* long form *)
    pose proof (putint_len n) as HL.
    rewrite intsize_putint in Hl by assumption.
    assert (Hb : byte (large + byte (len (putint n))) = large + len (putint n)).
    { rewrite (byte_small (len (putint n))) by lia. apply byte_small.
      destruct Htag as [(_ & -> & _)|(_ & -> & _)]; lia. }
    rewrite Hb. cbn [app].
    assert (Hrs : readSize (putint n ++ payload ++ extra) (len (putint n))
                  = (n, None)).
    { rewrite readSize_spec; [|lia|apply putint_bytes].
      rewrite putint_value by assumption.
      destruct (Z.ltb_spec n 56); [lia|].
      destruct (Z.eqb_spec (nth 0 (putint n) 0) 0) as [E|E];
        [exfalso; revert E; apply putint_lead; lia|reflexivity]. }
    unfold readKind.
    rewrite len_cons, !len_app.
    rewrite (uint64_small (1 + (len (putint n) + (len payload + len extra))))
      by lia.
    rewrite intsize_putint by assumption.
    destruct Htag as [(-> & -> & -> & Hc)|(-> & -> & ->)].
    + destruct (Z.ltb_spec (183 + len (putint n)) 128); [lia|].
      destruct (Z.ltb_spec (183 + len (putint n)) 184); [lia|].
      destruct (Z.ltb_spec (183 + len (putint n)) 192); [|lia].
      replace (183 + len (putint n) - 183) with (len (putint n)) by lia.
      rewrite (byte_small (len (putint n))) by lia. rewrite Hrs.
      replace (1 + (len (putint n) + (len payload + len extra))
               - (len (putint n) + 1))
        with (len payload + len extra) by lia.
      rewrite (uint64_small (len payload + len extra)) by lia.
      destruct (Z.gtb_spec n (len payload + len extra)); [lia|].
      f_equal. f_equal. f_equal. lia.
    + destruct (Z.ltb_spec (247 + len (putint n)) 128); [lia|].
      destruct (Z.ltb_spec (247 + len (putint n)) 184); [lia|].
      destruct (Z.ltb_spec (247 + len (putint n)) 192); [lia|].
      destruct (Z.ltb_spec (247 + len (putint n)) 248); [lia|].
      replace (247 + len (putint n) - 247) with (len (putint n)) by lia.
      rewrite (byte_small (len (putint n))) by lia. rewrite Hrs.
      replace (1 + (len (putint n) + (len payload + len extra))
               - (len (putint n) + 1))
        with (len payload + len extra) by lia.
      rewrite (uint64_small (len payload + len extra)) by lia.
      destruct (Z.gtb_spec n (len payload + len extra)); [lia|].
      f_equal. f_equal. f_equal. lia.
Qed.

Lemma Split_byte b extra :
  0 <= b < 0x80 -> len (b :: extra) < 2 ^ 64 ->
  Split ([b] ++ extra) = (Byte, [b], extra, None).
Proof.
  intros Hb Hl. unfold Split. cbn [app].
  rewrite readKind_byte by assumption. reflexivity.
Qed.

Lemma Split_puthead small large k n payload extra :
  (small = 0x80 /\ large = 0xB7 /\ k = String
   /\ (n = 1 -> 128 <= nth 0 payload 0))
  \/ (small = 0xC0 /\ large = 0xF7 /\ k = List) ->
  len payload = n ->
  len (puthead small large n ++ payload ++ extra) < 2 ^ 64 ->
  Split ((puthead small large n ++ payload) ++ extra)
  = (k, payload, extra, None).
Proof.
  intros Htag Hn Hl. rewrite <- app_assoc. unfold Split.
  rewrite (readKind_puthead small large k n payload extra Htag Hn Hl).
  assert (Hn64 : 0 <= n < 2 ^ 64).
  { rewrite !len_app in Hl. pose proof (len_nonneg extra).
    pose proof (len_nonneg payload).
    pose proof (len_nonneg (puthead small large n)). lia. }
  rewrite <- (len_puthead small large n Hn64), <- Hn.
  rewrite slice_app_mid, skipn_two_app. reflexivity.
Qed.

Lemma Split_string b extra :
  is_bytes b -> len (enc_string b ++ extra) < 2 ^ 64 ->
  exists k, Split (enc_string b ++ extra) = (k, b, extra, None).
Proof.
  intros Hb Hl. unfold enc_string in *.
  destruct b as [|b0 [|b1 b']].
  - exists String. apply (Split_puthead 0x80 0xB7 String 0 [] extra).
    + left. repeat split; lia.
    + reflexivity.
    + rewrite <- app_assoc in Hl. exact Hl.
  - inversion Hb as [|? ? Hb0 _]; subst. unfold is_byte in Hb0.
    destruct (Z.leb_spec b0 127).
    + exists Byte. apply Split_byte; [lia|exact Hl].
    + exists String. apply (Split_puthead 0x80 0xB7 String 1 [b0] extra).
      * left. repeat split. intros _. cbn [nth]. lia.
      * reflexivity.
      * rewrite <- app_assoc in Hl. exact Hl.
  - exists String.
    apply (Split_puthead 0x80 0xB7 String (len (b0 :: b1 :: b')) _ extra).
    + left. repeat split. rewrite !len_cons.
      pose proof (len_nonneg b'). lia.
    + reflexivity.
    + rewrite <- app_assoc in Hl. exact Hl.
Qed.

Lemma Split_rlp t v extra :
  has_type t v -> len (rlp v ++ extra) < 2 ^ 64 ->
  exists k content, Split (rlp v ++ extra) = (k, content, extra, None).
Proof.
  intros Hv Hl. destruct Hv as [b|k n Hn|s Hs|e b He Hb|e l He Hl'|name fs l Hf];
    cbn [rlp] in *.
  - destruct b.
    + exists Byte, [1]. apply Split_byte; [lia|exact Hl].
    + exists String, []. apply (Split_puthead 0x80 0xB7 String 0 [] extra).
      * left. repeat split; lia.
      * reflexivity.
      * exact Hl.
  - assert (Hn64 : 0 <= n < 2 ^ 64).
    { split; [lia|]. apply Z.lt_le_trans with (2 ^ Bits k); [lia|].
      apply Z.pow_le_mono_r; [lia|]. destruct k; cbn; lia. }
    unfold enc_uint in *. destruct (Z.eqb_spec n 0).
    + exists String, []. apply (Split_puthead 0x80 0xB7 String 0 [] extra).
      * left. repeat split; lia.
      * reflexivity.
      * exact Hl.
    + destruct (Z.ltb_spec n 128).
      * exists Byte, [n]. apply Split_byte; [lia|exact Hl].
      * exists String, (putint n).
        apply (Split_puthead 0x80 0xB7 String (len (putint n)) (putint n) extra).
        -- left. repeat split. intros H1.
           apply putint_len1 in H1; [|lia].
           unfold putint. change (2 ^ 8) with 256.
           destruct (Z.ltb_spec n 256); [|lia].
           cbn [nth]. rewrite byte_small by lia. lia.
        -- reflexivity.
        -- rewrite <- app_assoc in Hl. exact Hl.
  - destruct (Split_string s extra Hs Hl) as [k Hk]. exists k, s. exact Hk.
  - destruct (Split_string b extra Hb Hl) as [k Hk]. exists k, b. exact Hk.
  - exists List, (flat_map rlp l).
    apply (Split_puthead 0xC0 0xF7 List _ (flat_map rlp l) extra).
    + right. repeat split.
    + reflexivity.
    + rewrite <- app_assoc in Hl. exact Hl.
  - exists List, (flat_map rlp l).
    apply (Split_puthead 0xC0 0xF7 List _ (flat_map rlp l) extra).
    + right. repeat split.
    + reflexivity.
    + rewrite <- app_assoc in Hl. exact Hl.
Qed.

(** * The two forms of a header *)

(** [putint] uses the least number of bytes: the value does not fit in
    one byte less. *)
Lemma putint_minimal i :
  1 <= i < 2 ^ 64 ->
  256 ^ (len (putint i) - 1) <= i < 256 ^ len (putint i).
Proof.
  intros Hi. unfold putint.
  repeat match goal with
         | |- context [if ?a <? ?b then _ else _] =>
             destruct (Z.ltb_spec a b)
         end;
    cbv [len List.length];
    repeat match goal with
      | |- context [256 ^ ?e] =>
          let v := eval cbv in (256 ^ e) in change (256 ^ e) with v
      | |- context [2 ^ ?k] => let v := eval cbv in (2 ^ k) in change (2 ^ k) with v
      | H : context [2 ^ ?k] |- _ =>
          let v := eval cbv in (2 ^ k) in change (2 ^ k) with v in H
      end;
    lia.
Qed.

Lemma writeBytes_header b buf :
  len b < 2 ^ 64 -> len b <> 1 ->
  encBuffer_writeBytes b buf
  = append_str buf (puthead 0x80 0xB7 (len b) ++ b).
Proof.
  intros Hb H1. pose proof (len_nonneg b).
  unfold encBuffer_writeBytes.
  destruct b as [|b0 [|b1 b']].
  - rewrite string_header, append_str_app by lia. reflexivity.
  - exfalso. apply H1. reflexivity.
  - rewrite string_header, append_str_app by lia. reflexivity.
Qed.

(** C9.  For every content size of 64 bits, the header that [puthead]
    writes has [headsize] bytes.  Below 56 it is the one byte of the small
    tag plus the size.  From 56 on it is the large tag plus the number of
    bytes of the size, followed by the size in big-endian bytes, as few as
    hold it; [headsize] is one more than their number.
    [encodeStringHeader] appends this header with the tags of a string,
    the header of a list is this header with the tags of a list, and
    [writeBytes] puts it before every string but a single byte.  The size
    55 has a header of one byte and the size 56 a header of two. *)
Theorem header_forms :
  forall (smalltag largetag sz off : Z) (b : list Z) (buf : encBuffer),
    0 <= sz < 2 ^ 64 ->
    len (puthead smalltag largetag sz) = headsize sz
    /\ (sz < 56 ->
        headsize sz = 1
        /\ puthead smalltag largetag sz = [byte (smalltag + sz)])
    /\ (56 <= sz ->
        headsize sz = 1 + intsize sz
        /\ puthead smalltag largetag sz
           = byte (largetag + intsize sz) :: putint sz
        /\ len (putint sz) = intsize sz
        /\ be_value (putint sz) = sz
        /\ 256 ^ (intsize sz - 1) <= sz < 256 ^ intsize sz)
    /\ encBuffer_encodeStringHeader sz buf
       = append_str buf (puthead 0x80 0xB7 sz)
    /\ listhead_encode (mkListhead off sz) = puthead 0xC0 0xF7 sz
    /\ (len b = sz -> sz <> 1 ->
        encBuffer_writeBytes b buf
        = append_str buf (puthead 0x80 0xB7 sz ++ b))
    /\ headsize 55 = 1 /\ headsize 56 = 2
    /\ puthead 0x80 0xB7 55 = [0xB7] /\ puthead 0x80 0xB7 56 = [0xB8; 56]
    /\ puthead 0xC0 0xF7 55 = [0xF7] /\ puthead 0xC0 0xF7 56 = [0xF8; 56].
Proof.
  intros smalltag largetag sz off b buf Hs.
  refine (conj _ (conj _ (conj _ (conj _ (conj _ (conj _ _)))))).
  - apply len_puthead. assumption.
  - intros Hlt. unfold headsize, puthead.
    destruct (Z.ltb_spec sz 56); [|lia].
    rewrite (byte_small sz) by lia. split; reflexivity.
  - intros Hge. unfold headsize, puthead.
    destruct (Z.ltb_spec sz 56); [lia|].
    pose proof (putint_len sz) as Hl.
    rewrite (intsize_putint sz Hs).
    rewrite (byte_small (len (putint sz))) by lia.
    refine (conj eq_refl (conj eq_refl (conj eq_refl (conj _ _)))).
    + apply putint_value. assumption.
    + apply putint_minimal. lia.
  - apply string_header. assumption.
  - unfold listhead_encode. cbn [size]. rewrite uint64_small by assumption.
    reflexivity.
  - intros Hb H1. subst sz. apply writeBytes_header; [lia|assumption].
  - vm_compute. repeat split.
Qed.

Lemma header_forms_witness :
  0 <= 56 < 2 ^ 64
  /\ len (puthead 0x80 0xB7 56) = headsize 56
  /\ puthead 0x80 0xB7 56 = byte (0xB7 + intsize 56) :: putint 56
  /\ encBuffer_writeBytes (repeat 0x61 56) encBuffer_reset
     = append_str encBuffer_reset (puthead 0x80 0xB7 56 ++ repeat 0x61 56).
Proof.
  assert (H : 0 <= 56 < 2 ^ 64) by lia.
  pose proof (header_forms 0x80 0xB7 56 0 (repeat 0x61 56) encBuffer_reset H)
    as (H1 & _ & H3 & _ & _ & H6 & _).
  refine (conj H (conj H1 (conj _ _))).
  - apply H3. lia.
  - apply H6; [reflexivity|lia].
Defined.

(** Strings and lists of 55 and of 56 bytes, through the encoder. *)
Example header_boundary :
  EncodeToBytes TString (VString (repeat 0x61 55)) = inl (0xB7 :: repeat 0x61 55)
  /\ EncodeToBytes TString (VString (repeat 0x61 56))
     = inl (0xB8 :: 56 :: repeat 0x61 56)
  /\ EncodeToBytes (TSlice (TUint U64)) (VSlice (repeat (VUint 1) 55))
     = inl (0xF7 :: repeat 1 55)
  /\ EncodeToBytes (TSlice (TUint U64)) (VSlice (repeat (VUint 1) 56))
     = inl (0xF8 :: 56 :: repeat 1 56).
Proof. vm_compute. repeat split. Qed.

Lemma charge64_add a b st :
  charge64 b (charge64 a st) = charge64 (a + b) st.
Proof.
  destruct st as [|top rest]; [reflexivity|]. cbn [charge64]. f_equal.
  unfold uint64. rewrite Zminus_mod_idemp_l. f_equal. lia.
Qed.

Lemma charge64_exact n st :
  Forall (fun c => 0 <= c < 2 ^ 64) st ->
  0 <= n -> match st with [] => True | top :: _ => n <= top end ->
  charge_stack n st = charge64 n st.
Proof.
  intros Hok Hn Htop. destruct st as [|top rest]; [reflexivity|].
  inversion Hok; subst. cbn. rewrite uint64_small by lia. reflexivity.
Qed.

Lemma stack_ok_charge64 n s s' :
  stack_ok s -> stack s' = charge64 n (stack s) -> stack_ok s'.
Proof.
  unfold stack_ok. intros Hok ->. destruct (stack s) as [|top rest]; [constructor|].
  inversion Hok; subst. constructor; [apply uint64_range|assumption].
Qed.

Lemma took_ok enc s s' : took enc s s' -> stack_ok s -> stack_ok s'.
Proof. intros (_ & Hst & _). intros H. exact (stack_ok_charge64 _ _ _ H Hst). Qed.

Lemma took_trans e1 e2 s s1 s2 :
  took e1 s s1 -> took e2 s1 s2 -> took (e1 ++ e2) s s2.
Proof.
  intros (A1 & A2 & A3) (B1 & B2 & B3). repeat split.
  - rewrite A1, B1, app_assoc. reflexivity.
  - rewrite B2, A2, charge64_add, len_app. reflexivity.
  - exact B3.
Qed.

Lemma took_bytes enc s s' :
  took enc s s' -> is_bytes (r s) -> is_bytes enc /\ is_bytes (r s').
Proof.
  intros (Hr & _) Hb. rewrite Hr in Hb. apply Forall_app in Hb. exact Hb.
Qed.

Lemma took_len enc s s' :
  took enc s s' -> len (r s) = len enc + len (r s').
Proof. intros (Hr & _). rewrite Hr, len_app. reflexivity. Qed.

(** ** The reads *)

Lemma willRead_inv n s s' :
  willRead n s = (inl tt, s') ->
  r s' = r s /\ kind s' = -1 /\ byteval s' = byteval s
  /\ stack s' = charge_stack n (stack s)
  /\ match stack s with [] => True | top :: _ => n <= top end.
Proof.
  destruct s as [r0 rem sz ke st k bv lim].
  unfold willRead, bind, modify, get, listLimit, fail, ret. cbn.
  destruct st as [|top rest]; cbn.
  - destruct lim; cbn; [destruct (n >? rem); cbn|];
      intros H; inversion H; cbn; auto.
  - destruct (Z.gtb_spec n top) as [Hgt|Hle]; cbn; [discriminate|].
    destruct lim; cbn; [destruct (n >? rem); cbn|];
      intros H; inversion H; cbn; auto.
Qed.

Lemma readByte_inv s b s' :
  readByte s = (inl b, s') -> stack_ok s ->
  took [b] s s' /\ byteval s' = byteval s.
Proof.
  unfold readByte. intros H Hok.
  apply bind_inl in H. destruct H as ([] & s1 & Hw & H).
  apply willRead_inv in Hw. destruct Hw as (Hr & Hk & Hbv & Hst & Htop).
  unfold bind, get, put, ret, fail in H. cbn in H.
  destruct (r s1) as [|b0 tl] eqn:E; [discriminate|].
  inversion H; subst. cbn. split; [|assumption].
  repeat split; cbn.
  - congruence.
  - rewrite Hst. apply charge64_exact; [exact Hok|lia|exact Htop].
  - assumption.
Qed.

Lemma readFull_inv n s bs s' :
  0 <= n -> readFull n s = (inl bs, s') -> stack_ok s ->
  took bs s s' /\ len bs = n /\ byteval s' = byteval s.
Proof.
  unfold readFull. intros Hn H Hok.
  apply bind_inl in H. destruct H as ([] & s1 & Hw & H).
  apply willRead_inv in Hw. destruct Hw as (Hr & Hk & Hbv & Hst & Htop).
  unfold bind, get, put, ret, fail in H. cbn in H.
  destruct (Z.leb_spec n (len (r s1))); [|discriminate].
  inversion H; subst. cbn.
  assert (Hl : len (firstn (Z.to_nat n) (r s1)) = n) by (apply len_firstn; lia).
  refine (conj _ (conj Hl Hbv)). repeat split; cbn.
  - rewrite <- Hr. symmetry. apply firstn_skipn.
  - rewrite Hst, Hl. apply charge64_exact; [exact Hok|lia|exact Htop].
  - assumption.
Qed.

(** ** Big-endian byte strings *)

Lemma be_value_fold l : forall acc,
  fold_left (fun a b => a * 256 + b) l acc = acc * 256 ^ len l + be_value l.
Proof.
  unfold be_value.
  induction l as [|x l IH]; intros acc.
  - cbn. change (len (@nil Z)) with 0. lia.
  - cbn [fold_left]. rewrite IH, (IH (0 * 256 + x)), len_cons.
    rewrite Z.pow_add_r by (pose proof (len_nonneg l); lia).
    change (256 ^ 1) with 256. lia.
Qed.

Lemma be_value_cons x l : be_value (x :: l) = x * 256 ^ len l + be_value l.
Proof.
  unfold be_value at 1. cbn [fold_left]. rewrite be_value_fold. lia.
Qed.

Lemma be_value_snoc l x : be_value (l ++ [x]) = be_value l * 256 + x.
Proof. unfold be_value. rewrite fold_left_app. reflexivity. Qed.

Lemma be_value_bound l : is_bytes l -> 0 <= be_value l < 256 ^ len l.
Proof.
  induction 1 as [|x l Hx _ IH].
  - cbv. split; congruence.
  - rewrite be_value_cons, len_cons. unfold is_byte in Hx.
    rewrite Z.pow_add_r by (pose proof (len_nonneg l); lia).
    change (256 ^ 1) with 256. nia.
Qed.

Lemma be_value_lead l :
  is_bytes l -> nth 0 l 0 <> 0 -> 256 ^ (len l - 1) <= be_value l.
Proof.
  intros Hb Hn. destruct l as [|x l]; [cbn in Hn; congruence|].
  inversion Hb as [|? ? Hx Hl]; subst. cbn [nth] in Hn. unfold is_byte in Hx.
  rewrite be_value_cons, len_cons.
  replace (1 + len l - 1) with (len l) by lia.
  pose proof (be_value_bound l Hl).
  assert (0 < 256 ^ len l) by (apply Z.pow_pos_nonneg; [lia|apply len_nonneg]).
  nia.
Qed.

Lemma be_value_inj a : forall b,
  is_bytes a -> is_bytes b -> len a = len b ->
  be_value a = be_value b -> a = b.
Proof.
  induction a as [|x a IH] using rev_ind; intros b Ha Hb Hl Hv.
  - destruct b; [reflexivity|]. rewrite len_cons in Hl.
    change (len (@nil Z)) with 0 in Hl. pose proof (len_nonneg b). lia.
  - destruct b as [|y b _] using rev_ind.
    + rewrite len_app, len_cons in Hl. change (len (@nil Z)) with 0 in Hl.
      pose proof (len_nonneg a). lia.
    + apply Forall_app in Ha. destruct Ha as [Ha Hx].
      apply Forall_app in Hb. destruct Hb as [Hb Hy].
      inversion Hx as [|? ? Hx' _]; subst. inversion Hy as [|? ? Hy' _]; subst.
      unfold is_byte in *.
      rewrite !be_value_snoc in Hv. rewrite !len_app in Hl.
      change (len [x]) with 1 in Hl. change (len [y]) with 1 in Hl.
      assert (x = y /\ be_value a = be_value b) as [-> Hv'] by lia.
      f_equal. apply IH; auto. lia.
Qed.

(** The bytes of a length or of an integer without a leading zero are
    the bytes [putint] writes for their value. *)
Lemma putint_be_value bytes :
  is_bytes bytes -> 1 <= len bytes <= 8 -> nth 0 bytes 0 <> 0 ->
  putint (be_value bytes) = bytes
  /\ 1 <= be_value bytes < 2 ^ 64.
Proof.
  intros Hb Hl Hn.
  pose proof (be_value_bound bytes Hb) as Hub.
  pose proof (be_value_lead bytes Hb Hn) as Hlb.
  set (n := be_value bytes) in *.
  assert (Hpow : forall a b, 0 <= a <= b -> 256 ^ a <= 256 ^ b)
    by (intros; apply Z.pow_le_mono_r; lia).
  assert (Hn1 : 1 <= n).
  { assert (0 < 256 ^ (len bytes - 1)) by (apply Z.pow_pos_nonneg; lia). lia. }
  assert (Hn64 : n < 2 ^ 64).
  { apply Z.lt_le_trans with (256 ^ len bytes); [lia|].
    change (2 ^ 64) with (256 ^ 8). apply Hpow. lia. }
  split; [|lia].
  pose proof (putint_minimal n ltac:(lia)) as Hmin.
  pose proof (putint_len n) as Hpl.
  assert (Hlen : len (putint n) = len bytes).
  { destruct (Z.lt_trichotomy (len (putint n)) (len bytes)) as [H|[H|H]];
      [exfalso|exact H|exfalso].
    - pose proof (Hpow (len (putint n)) (len bytes - 1) ltac:(lia)). lia.
    - pose proof (Hpow (len bytes) (len (putint n) - 1) ltac:(lia)). lia. }
  apply be_value_inj; [apply putint_bytes|exact Hb|exact Hlen|].
  apply putint_value. lia.
Qed.

Lemma readUint_inv L s sz s' :
  1 <= L <= 8 -> readUint L s = (inl sz, s') -> stack_ok s -> is_bytes (r s) ->
  exists bytes,
    took bytes s s' /\ len bytes = L /\ sz = be_value bytes
    /\ (2 <= L -> nth 0 bytes 0 <> 0) /\ byteval s' = byteval s.
Proof.
  intros HL H Hok Hb. unfold readUint in H.
  destruct (Z.eqb_spec L 0); [lia|].
  destruct (Z.eqb_spec L 1) as [E1|E1].
  - apply readByte_inv in H; [|assumption]. destruct H as [Ht Hbv].
    exists [sz]. refine (conj Ht (conj _ (conj _ (conj _ Hbv)))).
    + rewrite E1. reflexivity.
    + unfold be_value. cbn. lia.
    + intros. lia.
  - destruct (Z.gtb_spec L 8); [lia|].
    apply bind_inl in H. destruct H as (bytes & s1 & Hf & H).
    apply readFull_inv in Hf; [|lia|assumption].
    destruct Hf as (Ht & Hlen & Hbv).
    pose proof (took_bytes _ _ _ Ht Hb) as [Hbs _].
    rewrite app_nth2 in H by (rewrite repeat_length; lia).
    rewrite repeat_length, Nat.sub_diag in H.
    destruct (Z.eqb_spec (nth 0 bytes 0) 0) as [E0|E0]; [discriminate|].
    unfold ret in H. inversion H; subst. clear H.
    exists bytes. refine (conj Ht (conj eq_refl (conj _ (conj _ Hbv)))).
    + rewrite BigEndian_be_value.
      * rewrite be_value_zeros. reflexivity.
      * apply Forall_app. split; [|assumption].
        apply Forall_forall. intros x Hx. apply repeat_spec in Hx.
        subst. unfold is_byte. lia.
    + intros _. exact E0.
Qed.

Lemma took_set_byteval enc s s' b :
  took enc s s' -> took enc s (set_byteval b s').
Proof. intros H. exact H. Qed.

Lemma took_from_byteval enc s s' b :
  took enc (set_byteval b s) s' -> took enc s s'.
Proof. intros H. exact H. Qed.

(** The long form: the length field is what [putint] writes. *)
Lemma long_header_inv tag large L s0 s2 size b :
  (large = 0xB7 \/ large = 0xF7) -> b = large + L -> 1 <= L <= 8 ->
  readUint L s0 = (inl size, s2) -> 56 <= size ->
  stack_ok s0 -> is_bytes (r s0) ->
  exists bytes,
    took bytes s0 s2 /\ b :: bytes = puthead tag large size
    /\ 0 <= size < 2 ^ 64 /\ byteval s2 = byteval s0.
Proof.
  intros Hlarge Hb HL Hru Hsz Hok Hbs.
  destruct (readUint_inv L s0 size s2 HL Hru Hok Hbs)
    as (bytes & Ht & Hlen & Hv & Hlead & Hbv).
  pose proof (took_bytes _ _ _ Ht Hbs) as [Hbb _].
  assert (Hnz : nth 0 bytes 0 <> 0).
  { destruct (Z.eq_dec L 1) as [E|E]; [|apply Hlead; lia].
    destruct bytes as [|x [|y tl]]; unfold len in Hlen; cbn in Hlen; try lia.
    unfold be_value in Hv. cbn in Hv. cbn. lia. }
  destruct (putint_be_value bytes Hbb ltac:(lia) Hnz) as [Hp Hr].
  rewrite <- Hv in Hp, Hr.
  exists bytes. refine (conj Ht (conj _ (conj _ Hbv))); [|lia].
  unfold puthead. destruct (Z.ltb_spec size 56); [lia|].
  rewrite Hp, Hlen. rewrite (byte_small L) by lia.
  rewrite byte_small by (destruct Hlarge; subst; lia).
  rewrite Hb. reflexivity.
Qed.

Lemma Stream_readKind_inv s k sz s1 :
  Stream_readKind s = ((k, sz, None), s1) -> stack_ok s -> is_bytes (r s) ->
  exists hdr, took hdr s s1 /\ is_header k sz hdr (byteval s1).
Proof.
  intros H Hok Hbs. unfold Stream_readKind in H.
  destruct (readByte s) as [[b|e] s0] eqn:Eb.
  2:{ destruct (stack s0); inversion H. }
  apply readByte_inv in Eb; [|assumption]. destruct Eb as [Ht _].
  pose proof (took_bytes _ _ _ Ht Hbs) as [Hb Hbs0].
  inversion Hb as [|? ? Hb0 _]; subst. unfold is_byte in Hb0.
  pose proof (took_ok _ _ _ Ht Hok) as Hok0.
  destruct (Z.ltb_spec b 0x80).
  { inversion H; subst. exists [b]. split; [exact Ht|].
    left. cbn. repeat split; lia. }
  destruct (Z.ltb_spec b 0xB8).
  { inversion H; subst. exists [b]. split; [exact Ht|].
    right. left. split; [reflexivity|]. split; [|lia].
    unfold puthead. destruct (Z.ltb_spec (b - 128) 56); [|lia].
    rewrite (byte_small (b - 128)) by lia. rewrite byte_small by lia.
    f_equal. lia. }
  destruct (Z.ltb_spec b 0xC0).
  { rewrite (byte_small (b - 183)) in H by lia.
    destruct (readUint (b - 183) (set_byteval 0 s0)) as [[size|e] s2] eqn:Eu;
      [|inversion H].
    destruct (Z.ltb_spec size 56); inversion H; subst.
    destruct (long_header_inv 0x80 0xB7 (b - 183) (set_byteval 0 s0) s1 sz b)
      as (bytes & Ht2 & Hh & Hr & Hbv); auto; try lia.
    exists (b :: bytes). split.
    - apply (took_trans [b] bytes s s0 s1 Ht). exact Ht2.
    - right. left. auto. }
  destruct (Z.ltb_spec b 0xF8).
  { inversion H; subst. exists [b]. split; [exact Ht|].
    right. right. split; [reflexivity|]. split; [|lia].
    unfold puthead. destruct (Z.ltb_spec (b - 192) 56); [|lia].
    rewrite (byte_small (b - 192)) by lia. rewrite byte_small by lia.
    f_equal. lia. }
  rewrite (byte_small (b - 247)) in H by lia.
  destruct (readUint (b - 247) (set_byteval 0 s0)) as [[size|e] s2] eqn:Eu;
    [|inversion H].
  destruct (Z.ltb_spec size 56); inversion H; subst.
  destruct (long_header_inv 0xC0 0xF7 (b - 247) (set_byteval 0 s0) s1 sz b)
    as (bytes & Ht2 & Hh & Hr & Hbv); auto; try lia.
  exists (b :: bytes). split.
  - apply (took_trans [b] bytes s s0 s1 Ht). exact Ht2.
  - right. right. auto.
Qed.

(** [Kind] on a stream with no cached kind: the header is read, and the
    kind is cached. *)
Lemma Stream_Kind_inv s k sz s1 :
  Stream_Kind s = ((k, sz, None), s1) ->
  kind s = -1 -> stack_ok s -> is_bytes (r s) ->
  exists hdr,
    r s = hdr ++ r s1
    /\ stack s1 = charge64 (len hdr) (stack s)
    /\ kind s1 = k
    /\ is_header k sz hdr (byteval s1).
Proof.
  intros H Hk Hok Hbs. unfold Stream_Kind in H. rewrite Hk in H.
  cbn [Z.geb Z.compare] in H.
  destruct (listLimit s) as [inList limit].
  destruct (inList && (limit =? 0)); [inversion H|].
  destruct (Stream_readKind s) as [[[k0 sz0] err0] s0] eqn:Erk.
  destruct err0 as [e|]; [inversion H|].
  destruct (Stream_readKind_inv s k0 sz0 s0 Erk Hok Hbs) as (hdr & Ht & Hh).
  destruct Ht as (Hr & Hst & _).
  destruct (inList && (sz0 >? limit)); [inversion H|].
  match type of H with
  | context [if ?c then _ else _] => destruct c; [inversion H|]
  end.
  inversion H; subst. exists hdr. cbn. auto.
Qed.

Lemma KindM_inv s k sz s1 :
  KindM s = (inl (k, sz), s1) -> Stream_Kind s = ((k, sz, None), s1).
Proof.
  unfold KindM. destruct (Stream_Kind s) as [[[k0 sz0] [e|]] s0];
    intros H; inversion H. reflexivity.
Qed.

(** ** Strings, integers and booleans *)

Lemma took_after_header hdr enc s s1 s' :
  r s = hdr ++ r s1 -> stack s1 = charge64 (len hdr) (stack s) ->
  took enc s1 s' -> took (hdr ++ enc) s s'.
Proof.
  intros Hr Hst (B1 & B2 & B3). repeat split.
  - rewrite Hr, B1, app_assoc. reflexivity.
  - rewrite B2, Hst, charge64_add, len_app. reflexivity.
  - exact B3.
Qed.

Lemma took_header_only hdr s s1 :
  r s = hdr ++ r s1 -> stack s1 = charge64 (len hdr) (stack s) ->
  took hdr s (set_kind (-1) s1).
Proof. intros Hr Hst. repeat split; assumption. Qed.

Lemma header_ok hdr s s1 :
  r s = hdr ++ r s1 -> stack s1 = charge64 (len hdr) (stack s) ->
  stack_ok s -> is_bytes (r s) -> stack_ok s1 /\ is_bytes (r s1).
Proof.
  intros Hr Hst Hok Hbs. split.
  - exact (stack_ok_charge64 _ _ _ Hok Hst).
  - rewrite Hr in Hbs. apply Forall_app in Hbs. tauto.
Qed.

Lemma pow256_bits k : 256 ^ (Bits k / 8) = 2 ^ Bits k.
Proof. destruct k; reflexivity. Qed.

Lemma Stream_uint_inv k s v s' :
  Stream_uint (Bits k) s = (inl v, s') ->
  kind s = -1 -> stack_ok s -> is_bytes (r s) ->
  took (enc_uint v) s s' /\ 0 <= v < 2 ^ Bits k.
Proof.
  intros H Hk Hok Hbs. unfold Stream_uint in H.
  apply bind_inl in H. destruct H as ([k0 size] & s1 & HK & H).
  apply KindM_inv in HK.
  destruct (Stream_Kind_inv s k0 size s1 HK Hk Hok Hbs)
    as (hdr & Hr & Hst & Hk1 & Hh).
  destruct (header_ok hdr s s1 Hr Hst Hok Hbs) as [Hok1 Hbs1].
  destruct Hh as [(-> & -> & -> & Hbv)|[(-> & -> & Hsz)|(-> & -> & Hsz)]].
  - (* a single byte *)
    cbn [Z.eqb Byte] in H. unfold bind, get, modify, ret, fail in H.
    destruct (Z.eqb_spec (byteval s1) 0) as [E|E]; [discriminate|].
    inversion H; subst. split.
    + unfold enc_uint. destruct (Z.eqb_spec (byteval s1) 0); [contradiction|].
      destruct (Z.ltb_spec (byteval s1) 128); [|lia].
      apply took_header_only; assumption.
    + split; [lia|]. apply Z.lt_le_trans with (2 ^ 8); [lia|].
      apply Z.pow_le_mono_r; [lia|]. destruct k; cbn; lia.
  - (* a string *)
    change (String =? Byte) with false in H.
    change (String =? String) with true in H. cbv iota in H.
    assert (HB : 8 <= Bits k <= 64) by (destruct k; cbn; lia).
    assert (HB8 : 1 <= Bits k / 8 <= 8) by (destruct k; cbn; lia).
    destruct (Z.gtb_spec size (Bits k / 8)) as [Hgt|Hle]; [discriminate|].
    rewrite (byte_small size) in H by lia.
    destruct (readUint size s1) as [[u|e] s2] eqn:Eu.
    2:{ destruct e; discriminate. }
    destruct (Z.eq_dec size 0) as [E0|E0].
    + subst size. cbn [Z.gtb Z.compare andb] in H. inversion H; subst.
      unfold readUint in Eu. cbn [Z.eqb] in Eu.
      unfold bind, modify, ret in Eu. inversion Eu; subst.
      split; [|split; [lia|apply Z.pow_pos_nonneg; lia]].
      change (enc_uint 0) with (puthead 0x80 0xB7 0).
      apply took_header_only; assumption.
    + destruct (Z.gtb_spec size 0); [|lia]. cbn [andb] in H.
      destruct (Z.ltb_spec u 128); [discriminate|]. inversion H; subst.
      destruct (readUint_inv size s1 v s' ltac:(lia) Eu Hok1 Hbs1)
        as (bytes & Ht & Hlen & Hv & Hlead & _).
      pose proof (took_bytes _ _ _ Ht Hbs1) as [Hbb _].
      assert (Hnz : nth 0 bytes 0 <> 0).
      { destruct (Z.eq_dec size 1) as [E|E]; [|apply Hlead; lia].
        destruct bytes as [|x [|y tl]]; unfold len in Hlen; cbn in Hlen; try lia.
        unfold be_value in Hv. cbn in Hv. cbn. lia. }
      destruct (putint_be_value bytes Hbb ltac:(lia) Hnz) as [Hp Hrange].
      rewrite <- Hv in Hp, Hrange. split.
      * unfold enc_uint. destruct (Z.eqb_spec v 0); [lia|].
        destruct (Z.ltb_spec v 128); [lia|].
        rewrite Hp, Hlen.
        apply (took_after_header _ _ s s1 s' Hr Hst Ht).
      * pose proof (be_value_bound bytes Hbb) as Hub. rewrite <- Hv in Hub.
        split; [lia|]. rewrite <- pow256_bits.
        apply Z.lt_le_trans with (256 ^ len bytes); [lia|].
        apply Z.pow_le_mono_r; lia.
  - (* a list *)
    discriminate.
Qed.

Lemma Stream_Bytes_inv s b s' :
  Stream_Bytes s = (inl b, s') ->
  kind s = -1 -> stack_ok s -> is_bytes (r s) ->
  took (enc_string b) s s' /\ is_bytes b.
Proof.
  intros H Hk Hok Hbs. unfold Stream_Bytes in H.
  apply bind_inl in H. destruct H as ([k0 size] & s1 & HK & H).
  apply KindM_inv in HK.
  destruct (Stream_Kind_inv s k0 size s1 HK Hk Hok Hbs)
    as (hdr & Hr & Hst & Hk1 & Hh).
  destruct (header_ok hdr s s1 Hr Hst Hok Hbs) as [Hok1 Hbs1].
  destruct Hh as [(-> & -> & -> & Hbv)|[(-> & -> & Hsz)|(-> & -> & Hsz)]].
  - cbn [Z.eqb Byte] in H. unfold bind, get, modify, ret in H.
    inversion H; subst. split.
    + unfold enc_string. destruct (Z.leb_spec (byteval s1) 127); [|lia].
      apply took_header_only; assumption.
    + constructor; [unfold is_byte; lia|constructor].
  - change (String =? Byte) with false in H.
    change (String =? String) with true in H. cbv iota in H.
    apply bind_inl in H. destruct H as (bytes & s2 & Hf & H).
    apply readFull_inv in Hf; [|lia|assumption].
    destruct Hf as (Ht & Hlen & _).
    pose proof (took_bytes _ _ _ Ht Hbs1) as [Hbb _].
    destruct ((size =? 1) && (nth 0 bytes 0 <? 128)) eqn:Ec;
      [discriminate|].
    unfold ret in H. inversion H; subst. split; [|assumption].
    unfold enc_string. destruct b as [|b0 [|b1 tl]].
    + apply (took_after_header _ _ s s1 s' Hr Hst Ht).
    + change (len [b0]) with 1 in *. cbn [Z.eqb Pos.eqb andb nth] in Ec.
      destruct (Z.ltb_spec b0 128); [discriminate|].
      destruct (Z.leb_spec b0 127); [lia|].
      apply (took_after_header _ _ s s1 s' Hr Hst Ht).
    + apply (took_after_header _ _ s s1 s' Hr Hst Ht).
  - discriminate.
Qed.

Lemma Stream_Bool_inv s b s' :
  Stream_Bool s = (inl b, s') ->
  kind s = -1 -> stack_ok s -> is_bytes (r s) ->
  took (rlp (VBool b)) s s'.
Proof.
  intros H Hk Hok Hbs. unfold Stream_Bool in H.
  apply bind_inl in H. destruct H as (num & s1 & Hu & H).
  change 8 with (Bits U8) in Hu.
  apply Stream_uint_inv in Hu; try assumption. destruct Hu as [Ht _].
  destruct (Z.eqb_spec num 0) as [->|].
  - unfold ret in H. inversion H; subst. exact Ht.
  - destruct (Z.eqb_spec num 1) as [->|]; [|discriminate].
    unfold ret in H. inversion H; subst. exact Ht.
Qed.

(** ** Lists *)

Lemma Stream_List_inv s S s' :
  Stream_List s = (inl S, s') ->
  kind s = -1 -> stack_ok s -> is_bytes (r s) ->
  r s = puthead 0xC0 0xF7 S ++ r s'
  /\ stack s' = S :: charge64 (len (puthead 0xC0 0xF7 S) + S) (stack s)
  /\ kind s' = -1 /\ 0 <= S < 2 ^ 64.
Proof.
  intros H Hk Hok Hbs. unfold Stream_List in H.
  apply bind_inl in H. destruct H as ([k0 size] & s1 & HK & H).
  apply KindM_inv in HK.
  destruct (Stream_Kind_inv s k0 size s1 HK Hk Hok Hbs)
    as (hdr & Hr & Hst & Hk1 & Hh).
  destruct Hh as [(-> & -> & -> & Hbv)|[(-> & -> & Hsz)|(-> & -> & Hsz)]];
    try discriminate.
  change (negb (List =? List)) with false in H. cbv iota in H.
  unfold bind, get, modify, ret, listLimit in H.
  destruct (stack s) as [|top rest] eqn:Es; cbn [charge64] in Hst;
    rewrite Hst in H; cbn in H; inversion H; subst; cbn.
  - rewrite Hst. auto.
  - unfold set_top. rewrite Hst. cbn.
    refine (conj Hr (conj _ (conj eq_refl Hsz))).
    f_equal. f_equal. unfold uint64. rewrite Zminus_mod_idemp_l. f_equal. lia.
Qed.

Lemma Stream_ListEnd_inv s s' :
  Stream_ListEnd s = (inl tt, s') -> stack_ok s ->
  exists rest, stack s = 0 :: rest /\ stack s' = rest
               /\ r s' = r s /\ kind s' = -1.
Proof.
  intros H Hok. unfold Stream_ListEnd, bind, get, modify, fail, listLimit in H.
  destruct (stack s) as [|top rest] eqn:Es; cbn in H; [discriminate|].
  destruct (Z.gtb_spec top 0); [discriminate|].
  inversion H; subst. cbn. rewrite Es. cbn.
  unfold stack_ok in Hok. rewrite Es in Hok. inversion Hok; subst.
  exists rest. assert (top = 0) by lia. subst. auto.
Qed.

Lemma bind_inr {A B} (m : M A) (k : A -> M B) s e s' :
  bind m k s = (inr e, s') ->
  m s = (inr e, s')
  \/ exists a s1, m s = (inl a, s1) /\ k a s1 = (inr e, s').
Proof.
  unfold bind. destruct (m s) as [[a|e0] s1]; intros H.
  - right. exists a, s1. auto.
  - left. inversion H. reflexivity.
Qed.

Lemma willRead_not_EOL n s e s' : willRead n s = (inr e, s') -> e <> EOL.
Proof.
  destruct s as [r0 rem sz ke st k bv lim].
  unfold willRead, bind, modify, get, listLimit, fail, ret. cbn.
  destruct st as [|top rest]; cbn.
  - destruct lim; cbn; [destruct (n >? rem); cbn|];
      intros H; inversion H; discriminate.
  - destruct (n >? top); cbn; [intros H; inversion H; discriminate|].
    destruct lim; cbn; [destruct (n >? rem); cbn|];
      intros H; inversion H; discriminate.
Qed.

Lemma readByte_not_EOL s e s' : readByte s = (inr e, s') -> e <> EOL.
Proof.
  unfold readByte. intros H. apply bind_inr in H.
  destruct H as [H|([] & s1 & _ & H)]; [exact (willRead_not_EOL _ _ _ _ H)|].
  unfold bind, get, put, ret, fail in H. cbn in H.
  destruct (r s1); inversion H; discriminate.
Qed.

Lemma readFull_not_EOL n s e s' : readFull n s = (inr e, s') -> e <> EOL.
Proof.
  unfold readFull. intros H. apply bind_inr in H.
  destruct H as [H|([] & s1 & _ & H)]; [exact (willRead_not_EOL _ _ _ _ H)|].
  unfold bind, get, put, ret, fail in H. cbn in H.
  destruct (n <=? len (r s1)); inversion H; discriminate.
Qed.

Lemma readUint_not_EOL L s e s' : readUint L s = (inr e, s') -> e <> EOL.
Proof.
  unfold readUint. intros H.
  destruct (L =? 0); [unfold bind, modify, ret in H; discriminate|].
  destruct (L =? 1); [exact (readByte_not_EOL _ _ _ H)|].
  destruct (L >? 8); [inversion H; discriminate|].
  apply bind_inr in H.
  destruct H as [H|(bs & s1 & _ & H)]; [exact (readFull_not_EOL _ _ _ _ H)|].
  match type of H with
  | context [if ?c then _ else _] => destruct c
  end; inversion H; discriminate.
Qed.

Lemma Stream_readKind_not_EOL s k sz e s' :
  Stream_readKind s = ((k, sz, Some e), s') -> e <> EOL.
Proof.
  unfold Stream_readKind. intros H.
  destruct (readByte s) as [[b|e0] s0] eqn:Eb.
  - assert (Hsized : forall k0 n r0,
              match readUint n (set_byteval 0 s0) with
              | (inl size, s2) =>
                  if size <? 56 then ((k0, size, Some ErrCanonSize), s2)
                  else ((k0, size, None), s2)
              | (inr err, s2) => ((k0, 0, Some err), s2)
              end = r0 -> r0 = ((k, sz, Some e), s') -> e <> EOL).
    { intros k0 n r0 Hm Hr0. subst r0.
      destruct (readUint n (set_byteval 0 s0)) as [[size|err] s2] eqn:Eu.
      - destruct (size <? 56); inversion Hr0; discriminate.
      - inversion Hr0; subst. exact (readUint_not_EOL _ _ _ _ Eu). }
    destruct (b <? 0x80); [inversion H|].
    destruct (b <? 0xB8); [inversion H|].
    destruct (b <? 0xC0); [exact (Hsized _ _ _ eq_refl H)|].
    destruct (b <? 0xF8); [inversion H|].
    exact (Hsized _ _ _ eq_refl H).
  - pose proof (readByte_not_EOL _ _ _ Eb) as Hne.
    destruct (stack s0); inversion H; subst; [|assumption].
    destruct e0; try discriminate; congruence.
Qed.

Lemma KindM_EOL_inv s s' :
  KindM s = (inr EOL, s') -> kind s = -1 ->
  s' = s /\ exists rest, stack s = 0 :: rest.
Proof.
  intros H Hk. unfold KindM, Stream_Kind in H. rewrite Hk in H.
  cbn [Z.geb Z.compare] in H. unfold listLimit in H.
  destruct (stack s) as [|top rest] eqn:Es.
  - cbn [andb] in H.
    destruct (Stream_readKind s) as [[[k0 sz0] [e|]] s0] eqn:Erk.
    + cbn in H. inversion H; subst.
      exfalso. exact (Stream_readKind_not_EOL _ _ _ _ _ Erk eq_refl).
    + cbn in H. destruct (limited s0 && (sz0 >? remaining s0));
        cbn in H; inversion H.
  - cbn [andb] in H. destruct (Z.eqb_spec top 0) as [->|].
    + inversion H; subst. eauto.
    + destruct (Stream_readKind s) as [[[k0 sz0] [e|]] s0] eqn:Erk.
      * cbn in H. inversion H; subst.
        exfalso. exact (Stream_readKind_not_EOL _ _ _ _ _ Erk eq_refl).
      * cbn in H. destruct (sz0 >? top); cbn in H; [inversion H|].
        destruct (limited s0 && (sz0 >? remaining s0));
          cbn in H; inversion H.
Qed.

Lemma wrapped_inl_inv {A} typ (m : M A) s a s' :
  wrapped typ m s = (inl a, s') -> m s = (inl a, s').
Proof.
  unfold wrapped. destruct (m s) as [[x|e] s1]; intros H; inversion H.
  reflexivity.
Qed.

Lemma wrapped_EOL_inv {A} typ (m : M A) s s' :
  wrapped typ m s = (inr EOL, s') -> m s = (inr EOL, s').
Proof.
  unfold wrapped. destruct (m s) as [[x|e] s1]; intros H; [discriminate|].
  destruct e; inversion H; reflexivity.
Qed.

Lemma Stream_uint_EOL_inv m s s' :
  Stream_uint m s = (inr EOL, s') -> kind s = -1 ->
  s' = s /\ exists rest, stack s = 0 :: rest.
Proof.
  intros H Hk. unfold Stream_uint in H. apply bind_inr in H.
  destruct H as [H|([k0 size] & s1 & _ & H)];
    [exact (KindM_EOL_inv _ _ H Hk)|exfalso].
  destruct (k0 =? Byte).
  { unfold bind, get, modify, ret, fail in H.
    destruct (byteval s1 =? 0); inversion H. }
  destruct (k0 =? String); [|inversion H].
  destruct (size >? m / 8); [inversion H|].
  destruct (readUint (byte size) s1) as [[u|e] s2] eqn:Eu.
  - destruct ((size >? 0) && (u <? 128)); inversion H.
  - pose proof (readUint_not_EOL _ _ _ _ Eu) as Hne.
    destruct e; inversion H; congruence.
Qed.

Lemma Stream_Bytes_EOL_inv s s' :
  Stream_Bytes s = (inr EOL, s') -> kind s = -1 ->
  s' = s /\ exists rest, stack s = 0 :: rest.
Proof.
  intros H Hk. unfold Stream_Bytes in H. apply bind_inr in H.
  destruct H as [H|([k0 size] & s1 & _ & H)];
    [exact (KindM_EOL_inv _ _ H Hk)|exfalso].
  destruct (k0 =? Byte).
  { unfold bind, get, modify, ret in H. inversion H. }
  destruct (k0 =? String); [|inversion H].
  apply bind_inr in H. destruct H as [H|(bs & s2 & _ & H)].
  - exact (readFull_not_EOL _ _ _ _ H eq_refl).
  - destruct ((size =? 1) && (nth 0 bs 0 <? 128)); inversion H.
Qed.

Lemma Stream_List_EOL_inv s s' :
  Stream_List s = (inr EOL, s') -> kind s = -1 ->
  s' = s /\ exists rest, stack s = 0 :: rest.
Proof.
  intros H Hk. unfold Stream_List in H. apply bind_inr in H.
  destruct H as [H|([k0 size] & s1 & _ & H)];
    [exact (KindM_EOL_inv _ _ H Hk)|exfalso].
  destruct (negb (k0 =? List)); [inversion H|].
  unfold bind, get, modify, ret, listLimit in H.
  destruct (stack s1); cbn in H; inversion H.
Qed.

Lemma Stream_ListEnd_not_EOL s e s' :
  Stream_ListEnd s = (inr e, s') -> e <> EOL.
Proof.
  unfold Stream_ListEnd, bind, get, modify, fail, listLimit.
  destruct (stack s) as [|top rest]; cbn.
  - intros H; inversion H; discriminate.
  - destruct (top >? 0); cbn; intros H; inversion H; discriminate.
Qed.

Lemma eol_clean_uint k : eol_clean (decodeUint k).
Proof.
  intros dest s s' H Hk. unfold decodeUint in H. apply bind_inr in H.
  destruct H as [H|(a & s1 & _ & H)]; [|inversion H].
  apply wrapped_EOL_inv in H. exact (Stream_uint_EOL_inv _ _ _ H Hk).
Qed.

Lemma eol_clean_bool : eol_clean decodeBool.
Proof.
  intros dest s s' H Hk. unfold decodeBool in H. apply bind_inr in H.
  destruct H as [H|(a & s1 & _ & H)]; [|inversion H].
  apply wrapped_EOL_inv in H. unfold Stream_Bool in H. apply bind_inr in H.
  destruct H as [H|(num & s1 & _ & H)].
  - exact (Stream_uint_EOL_inv _ _ _ H Hk).
  - destruct (num =? 0); [inversion H|].
    destruct (num =? 1); inversion H.
Qed.

Lemma eol_clean_string : eol_clean decodeString.
Proof.
  intros dest s s' H Hk. unfold decodeString in H. apply bind_inr in H.
  destruct H as [H|(a & s1 & _ & H)]; [|inversion H].
  apply wrapped_EOL_inv in H. exact (Stream_Bytes_EOL_inv _ _ H Hk).
Qed.

Lemma eol_clean_bytes typ : eol_clean (decodeByteSlice typ).
Proof.
  intros dest s s' H Hk. unfold decodeByteSlice in H. apply bind_inr in H.
  destruct H as [H|(a & s1 & _ & H)]; [|inversion H].
  apply wrapped_EOL_inv in H. exact (Stream_Bytes_EOL_inv _ _ H Hk).
Qed.

Lemma addErrorContext_not_EOL err ctx :
  err <> EOL -> addErrorContext err ctx <> EOL.
Proof. destruct err; cbn; intros H; try discriminate; congruence. Qed.

Lemma decodeSliceElems_not_EOL zero edec val : forall n i acc s e s',
  decodeSliceElems n zero edec val i acc s = (inr e, s') -> e <> EOL.
Proof.
  induction n as [|n IH]; intros i acc s e s' H; cbn [decodeSliceElems] in H.
  - inversion H. discriminate.
  - destruct (edec (nth i val zero) s) as [[v|e0] s1] eqn:E.
    + exact (IH _ _ _ _ _ H).
    + destruct e0; inversion H; subst; cbn; discriminate.
Qed.

Lemma eol_clean_list rounds typ zero edec :
  eol_clean (decodeListSlice rounds typ zero edec).
Proof.
  intros dest s s' H Hk. unfold decodeListSlice in H. apply bind_inr in H.
  destruct H as [H|(size & s1 & _ & H)].
  - apply wrapped_EOL_inv in H. exact (Stream_List_EOL_inv _ _ H Hk).
  - exfalso. destruct (size =? 0).
    + apply bind_inr in H. destruct H as [H|(a & s2 & _ & H)]; [|inversion H].
      exact (Stream_ListEnd_not_EOL _ _ _ H eq_refl).
    + apply bind_inr in H. destruct H as [H|(l & s2 & _ & H)].
      * exact (decodeSliceElems_not_EOL _ _ _ _ _ _ _ _ _ H eq_refl).
      * apply bind_inr in H. destruct H as [H|(a & s3 & _ & H)]; [|inversion H].
        exact (Stream_ListEnd_not_EOL _ _ _ H eq_refl).
Qed.

Lemma decodeFields_not_EOL typ fields : forall val s e s',
  decodeFields typ fields val s = (inr e, s') -> e <> EOL.
Proof.
  induction fields as [|f fields IH]; intros val s e s' H;
    cbn [decodeFields] in H.
  - inversion H.
  - destruct (tdecoder (info f)) as [dec|err]; [|inversion H; discriminate].
    destruct (Field_ val (index f)) as [fv|]; [|inversion H; discriminate].
    destruct (dec fv s) as [[v|e0] s1] eqn:E.
    + exact (IH _ _ _ _ H).
    + destruct e0; try (inversion H; subst; cbn; discriminate).
      destruct (optional f); inversion H. discriminate.
Qed.

Lemma eol_clean_struct typ fields :
  eol_clean (fun val =>
               wrapped typ Stream_List ;;;
               l <- decodeFields typ fields (struct_dest val) ;;
               wrapped typ Stream_ListEnd ;;;
               ret (VStruct l)).
Proof.
  intros dest s s' H Hk. apply bind_inr in H.
  destruct H as [H|(size & s1 & _ & H)].
  - apply wrapped_EOL_inv in H. exact (Stream_List_EOL_inv _ _ H Hk).
  - exfalso. apply bind_inr in H. destruct H as [H|(l & s2 & _ & H)].
    + exact (decodeFields_not_EOL _ _ _ _ _ _ H eq_refl).
    + apply bind_inr in H. destruct H as [H|(a & s3 & _ & H)]; [|inversion H].
      apply wrapped_EOL_inv in H.
      exact (Stream_ListEnd_not_EOL _ _ _ H eq_refl).
Qed.

Lemma took_nil s : kind s = -1 -> stack_ok s -> took [] s s.
Proof.
  intros Hk Hok. repeat split; [|exact Hk].
  change (len (@nil Z)) with 0. unfold stack_ok in Hok.
  destruct (stack s) as [|top rest]; [reflexivity|].
  inversion Hok; subst. cbn. rewrite Z.sub_0_r, uint64_small by lia.
  reflexivity.
Qed.

Lemma uint64_zero x : - 2 ^ 64 < x < 2 ^ 64 -> uint64 x = 0 -> x = 0.
Proof.
  unfold uint64. intros Hx H.
  apply Z.mod_divide in H; [|lia]. destruct H as [q Hq].
  assert (q = 0) by nia. lia.
Qed.

Lemma sound_uint k : sound_dec (decodeUint k) (TUint k).
Proof.
  intros dest s v s' _ H Hk Hok Hbs _. unfold decodeUint in H.
  apply bind_inl in H. destruct H as (num & s1 & Hu & H).
  apply wrapped_inl_inv in Hu. unfold ret in H. inversion H; subst.
  destruct (Stream_uint_inv k s num s' Hu Hk Hok Hbs) as [Ht Hr].
  split; [constructor; assumption|exact Ht].
Qed.

Lemma sound_bool : sound_dec decodeBool TBool.
Proof.
  intros dest s v s' _ H Hk Hok Hbs _. unfold decodeBool in H.
  apply bind_inl in H. destruct H as (b & s1 & Hu & H).
  apply wrapped_inl_inv in Hu. unfold ret in H. inversion H; subst.
  split; [constructor|]. exact (Stream_Bool_inv s b s' Hu Hk Hok Hbs).
Qed.

Lemma sound_string : sound_dec decodeString TString.
Proof.
  intros dest s v s' _ H Hk Hok Hbs _. unfold decodeString in H.
  apply bind_inl in H. destruct H as (b & s1 & Hu & H).
  apply wrapped_inl_inv in Hu. unfold ret in H. inversion H; subst.
  destruct (Stream_Bytes_inv s b s' Hu Hk Hok Hbs) as [Ht Hb].
  split; [constructor; assumption|exact Ht].
Qed.

Lemma sound_bytes typ e :
  isByte e = true -> sound_dec (decodeByteSlice typ) (TSlice e).
Proof.
  intros He dest s v s' _ H Hk Hok Hbs _. unfold decodeByteSlice in H.
  apply bind_inl in H. destruct H as (b & s1 & Hu & H).
  apply wrapped_inl_inv in Hu. unfold ret in H. inversion H; subst.
  destruct (Stream_Bytes_inv s b s' Hu Hk Hok Hbs) as [Ht Hb].
  split; [constructor; assumption|exact Ht].
Qed.

Lemma nth_has_type e val zero i :
  Forall (has_type e) val -> has_type e zero -> has_type e (nth i val zero).
Proof.
  intros Hv Hz. destruct (Nat.lt_ge_cases i (List.length val)) as [Hlt|Hge].
  - rewrite Forall_forall in Hv. apply Hv. apply nth_In. exact Hlt.
  - rewrite nth_overflow by exact Hge. exact Hz.
Qed.

(** The element loop: the elements it returns and, where it stopped,
    the end of the list. *)
Lemma decodeSliceElems_inv zero edec e val :
  sound_dec edec e -> eol_clean edec -> has_type e zero ->
  Forall (has_type e) val ->
  forall n i acc s l s',
    decodeSliceElems n zero edec val i acc s = (inl l, s') ->
    kind s = -1 -> stack_ok s -> is_bytes (r s) -> len (r s) < 2 ^ 64 ->
    exists vs,
      l = acc ++ vs /\ Forall (has_type e) vs
      /\ took (flat_map rlp vs) s s'
      /\ exists rest, stack s' = 0 :: rest.
Proof.
  intros Hsound Heol Hzero Hval.
  induction n as [|n IH]; intros i acc s l s' H Hk Hok Hbs Hlen;
    cbn [decodeSliceElems] in H; [inversion H|].
  destruct (edec (nth i val zero) s) as [[v|e0] s1] eqn:E.
  - destruct (Hsound _ _ _ _ (nth_has_type e val zero i Hval Hzero) E
                Hk Hok Hbs Hlen) as [Hv Ht].
    pose proof (took_bytes _ _ _ Ht Hbs) as [_ Hbs1].
    pose proof (took_len _ _ _ Ht) as Hl1.
    pose proof (len_nonneg (rlp v)).
    destruct (IH (S i) (acc ++ [v]) s1 l s' H) as (vs & Hl & Hvs & Ht2 & Hend).
    + destruct Ht as (_ & _ & Hk1). exact Hk1.
    + exact (took_ok _ _ _ Ht Hok).
    + exact Hbs1.
    + lia.
    + exists (v :: vs). rewrite <- app_assoc in Hl.
      refine (conj Hl (conj _ (conj _ Hend))).
      * constructor; assumption.
      * cbn [flat_map]. exact (took_trans _ _ _ _ _ Ht Ht2).
  - destruct e0; try discriminate.
    inversion H; subst.
    destruct (Heol _ _ _ E Hk) as [-> [rest Hst]].
    exists []. rewrite app_nil_r.
    refine (conj eq_refl (conj (Forall_nil _) (conj _ _))).
    + apply took_nil; assumption.
    + exists rest. exact Hst.
Qed.

(** The accounting of a list: the payload that was read has the size the
    header announced. *)
Lemma list_closed_size S payload R s1 s2 :
  0 <= S < 2 ^ 64 -> len (r s1) < 2 ^ 64 ->
  stack s1 = S :: R -> took payload s1 s2 ->
  (exists rest, stack s2 = 0 :: rest) ->
  S = len payload /\ stack s2 = 0 :: R.
Proof.
  intros HS Hlen Hst Ht [rest Hend].
  pose proof (took_len _ _ _ Ht) as Hl.
  pose proof (len_nonneg payload). pose proof (len_nonneg (r s2)).
  destruct Ht as (_ & Hst2 & _).
  rewrite Hst in Hst2. cbn [charge64] in Hst2. rewrite Hend in Hst2.
  inversion Hst2 as [[Hz HR]].
  symmetry in Hz. apply uint64_zero in Hz; [|lia].
  split; [lia|]. rewrite Hend, HR. reflexivity.
Qed.

Lemma sound_list rounds typ e zero edec :
  isByte e = false ->
  sound_dec edec e -> eol_clean edec -> has_type e zero ->
  sound_dec (decodeListSlice rounds typ zero edec) (TSlice e).
Proof.
  intros He Hsound Heol Hzero dest s v s' Hd H Hk Hok Hbs Hlen.
  inversion Hd as [| | |? b Hbyte _|? dl _ Hdl|]; subst; [congruence|].
  unfold decodeListSlice in H.
  apply bind_inl in H. destruct H as (size & s1 & HL & H).
  apply wrapped_inl_inv in HL.
  destruct (Stream_List_inv s size s1 HL Hk Hok Hbs) as (Hr & Hst & Hk1 & HS).
  set (hdr := puthead 0xC0 0xF7 size) in *.
  set (R := charge64 (len hdr + size) (stack s)) in *.
  assert (Hbs1 : is_bytes (r s1)).
  { rewrite Hr in Hbs. apply Forall_app in Hbs. tauto. }
  assert (Hlen1 : len (r s1) < 2 ^ 64).
  { rewrite Hr, len_app in Hlen. pose proof (len_nonneg hdr). lia. }
  assert (HokR : Forall (fun c => 0 <= c < 2 ^ 64) R).
  { unfold R, charge64. unfold stack_ok in Hok.
    destruct (stack s) as [|top rest]; [constructor|].
    inversion Hok; subst. constructor; [apply uint64_range|assumption]. }
  assert (Hok1 : stack_ok s1).
  { unfold stack_ok. rewrite Hst. constructor; [lia|exact HokR]. }
  destruct (Z.eqb_spec size 0) as [E0|E0].
  - apply bind_inl in H. destruct H as ([] & s2 & HE & H).
    unfold ret in H. inversion H; subst v s2. clear H.
    destruct (Stream_ListEnd_inv s1 s' HE Hok1) as (rest & Hs1 & Hs2 & Hr2 & Hk2).
    split; [constructor; [assumption|constructor]|].
    cbn [rlp flat_map]. change (len (@nil Z)) with 0. rewrite app_nil_r.
    rewrite Hst in Hs1. inversion Hs1 as [[Hz HR]].
    repeat split.
    + rewrite Hr, Hr2. unfold hdr. rewrite Hz. reflexivity.
    + rewrite Hs2, <- HR. unfold R, hdr. rewrite Hz, Z.add_0_r. reflexivity.
    + exact Hk2.
  - apply bind_inl in H. destruct H as (l & s2 & HD & H).
    apply bind_inl in H. destruct H as ([] & s3 & HE & H).
    unfold ret in H. inversion H; subst v s3. clear H.
    cbn [slice_dest] in HD.
    destruct (decodeSliceElems_inv zero edec e dl Hsound Heol Hzero Hdl
                rounds 0%nat [] s1 l s2 HD Hk1 Hok1 Hbs1 Hlen1)
      as (vs & Hl & Hvs & Ht & Hend).
    cbn [app] in Hl. subst l.
    destruct (list_closed_size size (flat_map rlp vs) R s1 s2 HS Hlen1 Hst Ht Hend)
      as [HSz Hst2].
    destruct (Stream_ListEnd_inv s2 s' HE (took_ok _ _ _ Ht Hok1))
      as (rest & Hs2 & Hs3 & Hr3 & Hk3).
    rewrite Hst2 in Hs2. inversion Hs2 as [HR].
    split; [constructor; assumption|].
    cbn [rlp]. rewrite <- HSz. fold hdr.
    destruct Ht as (Hr2 & _ & _).
    repeat split.
    + rewrite Hr, Hr2, Hr3, app_assoc. reflexivity.
    + rewrite Hs3, <- HR. unfold R. rewrite len_app, HSz. reflexivity.
    + exact Hk3.
Qed.

Lemma decodeFields_plain_inv rounds name suf :
  Forall (field_sound rounds) suf ->
  forall dsuf vpre s l s',
    decodeFields name
      (plainFields suf
         (map (fun rf => infoWhileGenerating rounds (sfType rf)) suf)
         (len vpre))
      (vpre ++ dsuf) s = (inl l, s') ->
    Forall2 (fun rf v => has_type (sfType rf) v) suf dsuf ->
    kind s = -1 -> stack_ok s -> is_bytes (r s) -> len (r s) < 2 ^ 64 ->
    exists vsuf,
      l = vpre ++ vsuf
      /\ Forall2 (fun rf v => has_type (sfType rf) v) suf vsuf
      /\ took (flat_map rlp vsuf) s s'.
Proof.
  induction 1 as [|rf suf (dec & Hd & Hsound) _ IH];
    intros dsuf vpre s l s' H Hdst Hk Hok Hbs Hlen;
    inversion Hdst as [|? d ? dsuf' Hd1 Hd']; subst.
  - cbn [map plainFields decodeFields] in H. unfold ret in H.
    inversion H; subst. exists [].
    refine (conj eq_refl (conj (Forall2_nil _) _)).
    apply took_nil; assumption.
  - cbn [map plainFields decodeFields info index] in H.
    rewrite Hd, Field_middle in H.
    destruct (dec d s) as [[v|e0] s1] eqn:E.
    + destruct (Hsound _ _ _ _ Hd1 E Hk Hok Hbs Hlen) as [Hv Ht].
      pose proof (took_bytes _ _ _ Ht Hbs) as [_ Hbs1].
      pose proof (took_len _ _ _ Ht) as Hl1.
      pose proof (len_nonneg (rlp v)).
      rewrite to_nat_len, set_nth_middle in H.
      specialize (IH dsuf' (vpre ++ [v]) s1 l s').
      rewrite len_app, <- app_assoc in IH. cbn [app] in IH.
      change (len [v]) with 1 in IH.
      destruct (IH H Hd') as (vsuf & Hl & Hvs & Ht2).
      * destruct Ht as (_ & _ & Hk1). exact Hk1.
      * exact (took_ok _ _ _ Ht Hok).
      * exact Hbs1.
      * lia.
      * rewrite <- app_assoc in Hl. cbn [app] in Hl.
        exists (v :: vsuf). refine (conj Hl (conj _ _)).
        -- constructor; assumption.
        -- cbn [flat_map]. exact (took_trans _ _ _ _ _ Ht Ht2).
    + destruct e0; cbn [optional] in H; discriminate.
Qed.

Lemma first_decoderErr_sound rounds name suf : forall k,
  Forall (field_sound rounds) suf ->
  first_decoderErr name
    (plainFields suf
       (map (fun rf => infoWhileGenerating rounds (sfType rf)) suf) k) = None.
Proof.
  induction suf as [|rf suf IH]; intros k Hc; [reflexivity|].
  inversion Hc as [|? ? (dec & Hd & _) Hc']; subst.
  cbn [map plainFields first_decoderErr info]. rewrite Hd. apply IH. assumption.
Qed.

Lemma sound_struct rounds name fs :
  Forall (field_sound rounds) fs ->
  sound_dec
    (fun val =>
       wrapped name Stream_List ;;;
       l <- decodeFields name
              (plainFields fs
                 (map (fun rf => infoWhileGenerating rounds (sfType rf)) fs) 0)
              (struct_dest val) ;;
       wrapped name Stream_ListEnd ;;;
       ret (VStruct l))
    (TStruct name fs).
Proof.
  intros Hfs dest s v s' Hd H Hk Hok Hbs Hlen.
  inversion Hd as [| | | | |? ? dl Hdl]; subst.
  apply bind_inl in H. destruct H as (size & s1 & HL & H).
  apply wrapped_inl_inv in HL.
  destruct (Stream_List_inv s size s1 HL Hk Hok Hbs) as (Hr & Hst & Hk1 & HS).
  set (hdr := puthead 0xC0 0xF7 size) in *.
  set (R := charge64 (len hdr + size) (stack s)) in *.
  assert (Hbs1 : is_bytes (r s1)).
  { rewrite Hr in Hbs. apply Forall_app in Hbs. tauto. }
  assert (Hlen1 : len (r s1) < 2 ^ 64).
  { rewrite Hr, len_app in Hlen. pose proof (len_nonneg hdr). lia. }
  assert (HokR : Forall (fun c => 0 <= c < 2 ^ 64) R).
  { unfold R, charge64. unfold stack_ok in Hok.
    destruct (stack s) as [|top rest]; [constructor|].
    inversion Hok; subst. constructor; [apply uint64_range|assumption]. }
  assert (Hok1 : stack_ok s1).
  { unfold stack_ok. rewrite Hst. constructor; [lia|exact HokR]. }
  apply bind_inl in H. destruct H as (l & s2 & HD & H).
  apply bind_inl in H. destruct H as ([] & s3 & HE & H).
  apply wrapped_inl_inv in HE.
  unfold ret in H. inversion H; subst v s3. clear H.
  cbn [struct_dest] in HD.
  destruct (decodeFields_plain_inv rounds name fs Hfs dl [] s1 l s2 HD Hdl
              Hk1 Hok1 Hbs1 Hlen1) as (vs & Hl & Hvs & Ht).
  cbn [app] in Hl. subst l.
  destruct (Stream_ListEnd_inv s2 s' HE (took_ok _ _ _ Ht Hok1))
    as (rest & Hs2 & Hs3 & Hr3 & Hk3).
  destruct (list_closed_size size (flat_map rlp vs) R s1 s2 HS Hlen1 Hst Ht
              (ex_intro _ rest Hs2)) as [HSz Hst2].
  rewrite Hst2 in Hs2. inversion Hs2 as [HR].
  split; [constructor; assumption|].
  cbn [rlp]. rewrite <- HSz. fold hdr.
  destruct Ht as (Hr2 & _ & _).
  repeat split.
  - rewrite Hr, Hr2, Hr3, app_assoc. reflexivity.
  - rewrite Hs3, <- HR. unfold R. rewrite len_app, HSz. reflexivity.
  - exact Hk3.
Qed.

Theorem supported_sound t :
  supported t = true -> forall rounds, sound rounds t.
Proof.
  induction t as [|k| |e IH|name fs IH|name k] using rtype_ind';
    intros Hs rounds.
  - exists decodeBool. split; [reflexivity|].
    split; [apply sound_bool|apply eol_clean_bool].
  - exists (decodeUint k). split; [reflexivity|].
    split; [apply sound_uint|apply eol_clean_uint].
  - exists decodeString. split; [reflexivity|].
    split; [apply sound_string|apply eol_clean_string].
  - cbn [supported] in Hs. unfold sound.
    cbn [infoWhileGenerating tdecoder]. unfold makeListDecoder.
    destruct (isByte e) eqn:Hbyte.
    + eexists. split; [reflexivity|].
      split; [apply sound_bytes; assumption|apply eol_clean_bytes].
    + destruct (IH Hs rounds) as (edec & Hed & Hsound & Heol).
      rewrite Hed. cbn [Tail noTags].
      eexists. split; [reflexivity|]. split; [|apply eol_clean_list].
      apply sound_list; try assumption.
      apply zeroValue_has_type. assumption.
  - pose proof (supported_struct name fs Hs) as [Hplain Hsup].
    assert (Hfs : Forall (field_sound rounds) fs).
    { clear Hs Hplain. induction IH as [|rf fs Hrf _ IHfs]; [constructor|].
      inversion Hsup; subst. constructor; auto.
      destruct (Hrf ltac:(assumption) rounds) as (dec & Hd & Hsound & _).
      exists dec. auto. }
    unfold sound. cbn [infoWhileGenerating tdecoder].
    rewrite structFields_plain by (auto; apply length_map).
    unfold makeStructDecoder.
    rewrite (first_decoderErr_sound rounds name fs 0 Hfs).
    eexists. split; [reflexivity|]. split.
    + apply sound_struct. assumption.
    + apply eol_clean_struct.
  - discriminate.
Qed.

Lemma len_le_0 {A} (l : list A) : len l <= 0 -> l = [].
Proof.
  destruct l as [|x l]; [reflexivity|]. rewrite len_cons.
  pose proof (len_nonneg l). lia.
Qed.

(** [DecodeBytes] returns a value only on the encoding of that value. *)
Theorem DecodeBytes_canonical t dest b v :
  supported t = true -> has_type t dest ->
  is_bytes b -> len b < 2 ^ 64 ->
  DecodeBytes b t dest = inl v ->
  b = rlp v /\ has_type t v.
Proof.
  intros Hs Hd Hb Hlen H. unfold DecodeBytes in H.
  destruct (Stream_Decode (S (List.length b)) t dest
              (Stream_Reset b false (len b))) as [[v'|e] s'] eqn:E;
    [|discriminate].
  destruct (Z.gtb_spec (len (r s')) 0) as [|Hle]; [discriminate|].
  inversion H; subst v'. apply len_le_0 in Hle.
  destruct (supported_sound t Hs (S (List.length b)))
    as (dec & Hdec & Hsound & _).
  unfold Stream_Decode, cachedDecoder, makeDecoder in E. rewrite Hdec in E.
  destruct (Reset_bytes b) as (Hr & Hk & Hst & _).
  destruct (dec dest (Stream_Reset b false (len b))) as [[v1|e1] s1] eqn:Ed.
  2:{ destruct e1; try discriminate. destruct ctx; discriminate. }
  inversion E; subst v1 s1.
  destruct (Hsound _ _ _ _ Hd Ed Hk) as [Hv (Hr' & _)].
  - unfold stack_ok. rewrite Hst. constructor.
  - rewrite Hr. exact Hb.
  - rewrite Hr. exact Hlen.
  - split; [|exact Hv]. rewrite Hr, Hle, app_nil_r in Hr'. exact Hr'.
Qed.

(** * Exactly one value *)

(** C8.  [DecodeBytes] returns a value exactly when [Stream.Decode]
    returns it and has consumed the whole input slice; when
    [Stream.Decode] returns a value and bytes are left, the result is
    [ErrMoreThanOneValue]; an error of [Stream.Decode] is returned as it
    is.  On the encoding of a value of a supported type followed by
    [extra], the decoder consumes the bytes of the value, which are the
    bytes [Split] cuts off as the first value of the input, and leaves
    [extra]: [DecodeBytes] returns the value when [extra] is empty and
    [ErrMoreThanOneValue] when it is not.  For a supported type and an
    input of bytes, [DecodeBytes] returns [v] exactly when the input is
    the encoding of [v]: one value and nothing else. *)
Theorem decodeBytes_one_value :
  forall (b : list Z) (t : rtype) (dest : value),
    (forall v,
        DecodeBytes b t dest = inl v
        <-> exists s,
              Stream_Decode (S (List.length b)) t dest
                (Stream_Reset b false (len b)) = (inl v, s)
              /\ r s = [])
    /\ (forall v s,
          Stream_Decode (S (List.length b)) t dest
            (Stream_Reset b false (len b)) = (inl v, s) ->
          r s <> [] ->
          DecodeBytes b t dest = inr ErrMoreThanOneValue)
    /\ (forall e s,
          Stream_Decode (S (List.length b)) t dest
            (Stream_Reset b false (len b)) = (inr e, s) ->
          DecodeBytes b t dest = inr e)
    /\ (forall v extra,
          supported t = true -> has_type t v -> has_type t dest ->
          b = rlp v ++ extra -> len b < 2 ^ 63 ->
          exists s,
            Stream_Decode (S (List.length b)) t dest
              (Stream_Reset b false (len b)) = (inl v, s)
            /\ r s = extra
            /\ (exists k content, Split b = (k, content, extra, None))
            /\ DecodeBytes b t dest
               = match extra with
                 | [] => inl v
                 | _ :: _ => inr ErrMoreThanOneValue
                 end)
    /\ (supported t = true -> has_type t dest ->
        is_bytes b -> len b < 2 ^ 63 ->
        forall v,
          DecodeBytes b t dest = inl v <-> b = rlp v /\ has_type t v).
Proof.
  intros b t dest.
  assert (Hrule : forall v s,
    Stream_Decode (S (List.length b)) t dest
      (Stream_Reset b false (len b)) = (inl v, s) ->
    DecodeBytes b t dest
    = match r s with [] => inl v | _ :: _ => inr ErrMoreThanOneValue end).
  { intros v s H. unfold DecodeBytes. rewrite H.
    destruct (r s) as [|x l]; [reflexivity|].
    rewrite len_cons. pose proof (len_nonneg l).
    destruct (Z.gtb_spec (1 + len l) 0); [reflexivity|lia]. }
  refine (conj _ (conj _ (conj _ (conj _ _)))).
  - intros v. split.
    + unfold DecodeBytes.
      destruct (Stream_Decode (S (List.length b)) t dest
                  (Stream_Reset b false (len b))) as [[v'|e] s] eqn:E;
        [|discriminate].
      destruct (r s) as [|x l] eqn:Er.
      * intros H. cbn in H. injection H as ->. exists s. split; [reflexivity|exact Er].
      * rewrite len_cons. pose proof (len_nonneg l).
        destruct (Z.gtb_spec (1 + len l) 0); [discriminate|lia].
    + intros [s [H Hr]]. rewrite (Hrule v s H), Hr. reflexivity.
  - intros v s H Hr. rewrite (Hrule v s H).
    destruct (r s); [congruence|reflexivity].
  - intros e s H. unfold DecodeBytes. rewrite H. reflexivity.
  - intros v extra Hs Hv Hd -> Hb.
    destruct (Stream_Decode_prefix t v dest extra Hs Hv Hd Hb) as [s [H Hr]].
    exists s. refine (conj H (conj Hr (conj _ _))).
    + apply (Split_rlp t v extra Hv). lia.
    + rewrite (Hrule v s H), Hr. reflexivity.
  - intros Hs Hd Hb Hlen v. split.
    + apply DecodeBytes_canonical; try assumption. lia.
    + intros [-> Hv].
      destruct (Stream_Decode_prefix t v dest [] Hs Hv Hd) as [s [H Hr]].
      * rewrite app_nil_r. exact Hlen.
      * rewrite app_nil_r in H. rewrite (Hrule v s H), Hr. reflexivity.
Qed.

Lemma decodeBytes_one_value_witness :
  DecodeBytes [0x05; 0x06] (TUint U64) (VUint 0) = inr ErrMoreThanOneValue
  /\ exists s,
       Stream_Decode 3 (TUint U64) (VUint 0)
         (Stream_Reset [0x05; 0x06] false 2) = (inl (VUint 5), s)
       /\ r s = [0x06]
       /\ (exists k content,
             Split [0x05; 0x06] = (k, content, [0x06], None))
       /\ DecodeBytes [0x05; 0x06] (TUint U64) (VUint 0)
          = inr ErrMoreThanOneValue.
Proof.
  split.
  - apply (proj1 (proj2 (decodeBytes_one_value [0x05; 0x06] (TUint U64) (VUint 0)))
             (VUint 5)
             (snd (Stream_Decode 3 (TUint U64) (VUint 0)
                     (Stream_Reset [0x05; 0x06] false 2)))).
    + vm_compute. reflexivity.
    + vm_compute. discriminate.
  - apply (proj1 (proj2 (proj2 (proj2
             (decodeBytes_one_value [0x05; 0x06] (TUint U64) (VUint 0)))))
             (VUint 5) [0x06]).
    + reflexivity.
    + apply ht_uint. simpl. lia.
    + apply ht_uint. simpl. lia.
    + reflexivity.
    + vm_compute. reflexivity.
Defined.

(** One value, two values, and a value cut short. *)
Example decodeBytes_examples :
  DecodeBytes [0x05] (TUint U64) (VUint 0) = inl (VUint 5)
  /\ DecodeBytes [0x05; 0x06] (TUint U64) (VUint 0) = inr ErrMoreThanOneValue
  /\ DecodeBytes [0xC2; 0x01; 0x02; 0x03] (TSlice (TUint U64)) (VSlice [])
     = inr ErrMoreThanOneValue
  /\ DecodeBytes [0xC2; 0x01; 0x02] (TSlice (TUint U64)) (VSlice [])
     = inl (VSlice [VUint 1; VUint 2])
  /\ DecodeBytes [] (TUint U64) (VUint 0) = inr io_EOF.
Proof. vm_compute. repeat split. Qed.

(** * The stateless helpers of raw.go *)

Lemma firstn_skipn_len {A} (l : list A) n :
  0 <= n <= len l ->
  l = firstn (Z.to_nat n) l ++ skipn (Z.to_nat n) l
  /\ len (firstn (Z.to_nat n) l) = n.
Proof.
  intros Hn. split; [symmetry; apply firstn_skipn|].
  apply len_firstn. exact Hn.
Qed.

Lemma is_bytes_app (a b : list Z) :
  is_bytes (a ++ b) -> is_bytes a /\ is_bytes b.
Proof. unfold is_bytes. apply Forall_app. Qed.

(** What [readSize] accepts is the length field [puthead] writes. *)
Lemma long_size_inv tag large tl slen cs :
  (large = 0xB7 \/ large = 0xF7) ->
  is_bytes tl -> 1 <= slen <= 8 ->
  readSize tl slen = (cs, None) ->
  exists lenbytes tl',
    tl = lenbytes ++ tl' /\ len lenbytes = slen
    /\ byte (large + slen) :: lenbytes = puthead tag large cs
    /\ 56 <= cs < 2 ^ 64.
Proof.
  intros Hlarge Hb Hs Hr.
  assert (Hlen : slen <= len tl).
  { unfold readSize in Hr. destruct (Z.ltb_spec (len tl) slen); [discriminate|lia]. }
  destruct (firstn_skipn_len tl slen ltac:(pose proof (len_nonneg tl); lia))
    as [Htl Hl].
  set (lenbytes := firstn (Z.to_nat slen) tl) in *.
  set (tl' := skipn (Z.to_nat slen) tl) in *.
  rewrite Htl in Hb. apply is_bytes_app in Hb. destruct Hb as [Hb1 Hb2].
  rewrite Htl, <- Hl in Hr. rewrite readSize_spec in Hr by (try lia; assumption).
  destruct (Z.ltb_spec (be_value lenbytes) 56) as [|H56]; [discriminate|].
  destruct (Z.eqb_spec (nth 0 lenbytes 0) 0) as [|Hnz]; [discriminate|].
  cbn [orb] in Hr. inversion Hr; subst cs.
  destruct (putint_be_value lenbytes Hb1 ltac:(lia) Hnz) as [Hp Hrange].
  exists lenbytes, tl'. repeat split; try assumption; try lia.
  unfold puthead. destruct (Z.ltb_spec (be_value lenbytes) 56); [lia|].
  rewrite Hp, Hl. rewrite (byte_small slen) by lia. reflexivity.
Qed.

(** [readKind] accepts a buffer only when it starts with a header in the
    form [puthead] writes and holds the whole payload. *)
Lemma readKind_inv buf k ts cs :
  is_bytes buf -> len buf < 2 ^ 64 ->
  readKind buf = (k, ts, cs, None) ->
  exists hdr payload rest,
    buf = hdr ++ payload ++ rest /\ len hdr = ts /\ len payload = cs
    /\ ((k = Byte /\ hdr = [] /\ exists x, payload = [x] /\ 0 <= x < 0x80)
        \/ (k = String /\ hdr = puthead 0x80 0xB7 cs
            /\ (cs = 1 -> 128 <= nth 0 payload 0))
        \/ (k = List /\ hdr = puthead 0xC0 0xF7 cs)).
Proof.
  intros Hb Hl Hr. destruct buf as [|b tl]; [discriminate|].
  inversion Hb as [|? ? Hb0 Hbt]; subst. unfold is_byte in Hb0.
  pose proof (len_nonneg tl) as Htl. rewrite len_cons in Hl.
  unfold readKind in Hr. rewrite len_cons in Hr.
  rewrite (uint64_small (1 + len tl)) in Hr by lia.
  destruct (Z.ltb_spec b 0x80) as [H80|H80].
  - (* single byte *)
    rewrite Z.sub_0_r, uint64_small in Hr by lia.
    destruct (Z.gtb_spec 1 (1 + len tl)); [discriminate|].
    inversion Hr; subst. exists [], [b], tl.
    repeat split. left. repeat split. exists b. split; [reflexivity|lia].
  - destruct (Z.ltb_spec b 0xB8) as [HB8|HB8].
    + (* short string *)
      destruct ((b - 128 =? 1) && (1 + len tl >? 1) && (nth 1 (b :: tl) 0 <? 128))
        eqn:Hcanon; [discriminate|].
      replace (1 + len tl - 1) with (len tl) in Hr by lia.
      rewrite uint64_small in Hr by lia.
      destruct (Z.gtb_spec (b - 128) (len tl)) as [|Hfit]; [discriminate|].
      inversion Hr; subst.
      destruct (firstn_skipn_len tl (b - 128) ltac:(lia)) as [Hsplit Hlen].
      exists [b], (firstn (Z.to_nat (b - 128)) tl),
        (skipn (Z.to_nat (b - 128)) tl).
      split; [cbn [app]; f_equal; exact Hsplit|].
      split; [reflexivity|]. split; [exact Hlen|].
      right; left. split; [reflexivity|]. split.
      * unfold puthead. destruct (Z.ltb_spec (b - 128) 56); [|lia].
        rewrite (byte_small (b - 128)) by lia.
        replace (128 + (b - 128)) with b by lia.
        rewrite byte_small by lia. reflexivity.
      * intros E. rewrite E in *. cbn [Z.eqb Pos.eqb andb] in Hcanon.
        destruct (Z.gtb_spec (1 + len tl) 1); [|lia].
        cbn [andb nth] in Hcanon.
        destruct tl as [|t0 tl0]; [cbn in Hfit; lia|].
        change (128 <= t0). apply Z.ltb_ge in Hcanon. exact Hcanon.
    + destruct (Z.ltb_spec b 0xC0) as [HC0|HC0].
      * (* long string *)
        rewrite (byte_small (b - 183)) in Hr by lia.
        destruct (readSize tl (b - 183)) as [sz [e|]] eqn:Hrs; [discriminate|].
        destruct (long_size_inv 0x80 0xB7 tl (b - 183) sz
                    ltac:(left; reflexivity) Hbt ltac:(lia) Hrs)
          as (lenbytes & tl' & -> & HL & Hhdr & Hsz).
        rewrite len_app, HL in *. pose proof (len_nonneg tl').
        replace (1 + (b - 183 + len tl') - (b - 183 + 1)) with (len tl')
          in Hr by lia.
        rewrite uint64_small in Hr by lia.
        destruct (Z.gtb_spec sz (len tl')) as [|Hfit]; [discriminate|].
        inversion Hr; subst.
        destruct (firstn_skipn_len tl' cs ltac:(lia)) as [Hsplit Hlen].
        exists (b :: lenbytes), (firstn (Z.to_nat cs) tl'),
          (skipn (Z.to_nat cs) tl').
        split; [cbn [app]; f_equal; f_equal; exact Hsplit|].
        split; [rewrite len_cons; lia|]. split; [exact Hlen|].
        right; left. split; [reflexivity|]. split; [|lia].
        rewrite <- Hhdr. replace (183 + (b - 183)) with b by lia.
        rewrite byte_small by lia. reflexivity.
      * destruct (Z.ltb_spec b 0xF8) as [HF8|HF8].
        -- (* short list *)
           replace (1 + len tl - 1) with (len tl) in Hr by lia.
           rewrite uint64_small in Hr by lia.
           destruct (Z.gtb_spec (b - 192) (len tl)) as [|Hfit]; [discriminate|].
           inversion Hr; subst.
           destruct (firstn_skipn_len tl (b - 192) ltac:(lia)) as [Hsplit Hlen].
           exists [b], (firstn (Z.to_nat (b - 192)) tl),
             (skipn (Z.to_nat (b - 192)) tl).
           split; [cbn [app]; f_equal; exact Hsplit|].
           split; [reflexivity|]. split; [exact Hlen|].
           right; right. split; [reflexivity|].
           unfold puthead. destruct (Z.ltb_spec (b - 192) 56); [|lia].
           rewrite (byte_small (b - 192)) by lia.
           replace (192 + (b - 192)) with b by lia.
           rewrite byte_small by lia. reflexivity.
        -- (* long list *)
           rewrite (byte_small (b - 247)) in Hr by lia.
           destruct (readSize tl (b - 247)) as [sz [e|]] eqn:Hrs; [discriminate|].
           destruct (long_size_inv 0xC0 0xF7 tl (b - 247) sz
                       ltac:(right; reflexivity) Hbt ltac:(lia) Hrs)
             as (lenbytes & tl' & -> & HL & Hhdr & Hsz).
           rewrite len_app, HL in *. pose proof (len_nonneg tl').
           replace (1 + (b - 247 + len tl') - (b - 247 + 1)) with (len tl')
             in Hr by lia.
           rewrite uint64_small in Hr by lia.
           destruct (Z.gtb_spec sz (len tl')) as [|Hfit]; [discriminate|].
           inversion Hr; subst.
           destruct (firstn_skipn_len tl' cs ltac:(lia)) as [Hsplit Hlen].
           exists (b :: lenbytes), (firstn (Z.to_nat cs) tl'),
             (skipn (Z.to_nat cs) tl').
           split; [cbn [app]; f_equal; f_equal; exact Hsplit|].
           split; [rewrite len_cons; lia|]. split; [exact Hlen|].
           right; right. split; [reflexivity|].
           rewrite <- Hhdr. replace (247 + (b - 247)) with b by lia.
           rewrite byte_small by lia. reflexivity.
Qed.

Lemma writeBytes_enc_string b buf :
  len b < 2 ^ 64 ->
  encBuffer_writeBytes b buf = append_str buf (enc_string b).
Proof.
  intros Hl. pose proof (len_nonneg b).
  unfold encBuffer_writeBytes, enc_string.
  destruct b as [|b0 [|b1 b']];
    try (destruct (Z.leb_spec b0 127); [reflexivity|]);
    rewrite string_header, append_str_app by lia; reflexivity.
Qed.

Lemma writeBytes_len b buf :
  len b <= len (str (encBuffer_writeBytes b buf)).
Proof.
  pose proof (len_nonneg (str buf)).
  unfold encBuffer_writeBytes, encBuffer_encodeStringHeader.
  destruct b as [|b0 [|b1 b']];
    repeat match goal with |- context [if ?c then _ else _] => destruct c end;
    cbn [str append_str]; rewrite ?len_app; rewrite ?len_cons;
    repeat match goal with
           | |- context [len ?l] =>
               lazymatch goal with
               | _ : 0 <= len l |- _ => fail
               | _ => pose proof (len_nonneg l)
               end
           end; lia.
Qed.

Lemma enc_string_suffix b : exists hdr, enc_string b = hdr ++ b.
Proof.
  unfold enc_string. destruct b as [|b0 [|b1 b']];
    try (destruct (Z.leb_spec b0 127); [exists []; reflexivity|]);
    eexists; reflexivity.
Qed.

Lemma Split_string_kind b extra :
  is_bytes b -> len (enc_string b ++ extra) < 2 ^ 64 ->
  exists k, k <> List /\ Split (enc_string b ++ extra) = (k, b, extra, None).
Proof.
  intros Hb Hl. unfold enc_string in *.
  destruct b as [|b0 [|b1 b']].
  - exists String. split; [discriminate|].
    apply (Split_puthead 0x80 0xB7 String 0 [] extra).
    + left. repeat split; lia.
    + reflexivity.
    + rewrite <- app_assoc in Hl. exact Hl.
  - inversion Hb as [|? ? Hb0 _]; subst. unfold is_byte in Hb0.
    destruct (Z.leb_spec b0 127).
    + exists Byte. split; [discriminate|]. apply Split_byte; [lia|exact Hl].
    + exists String. split; [discriminate|].
      apply (Split_puthead 0x80 0xB7 String 1 [b0] extra).
      * left. repeat split. intros _. cbn [nth]. lia.
      * reflexivity.
      * rewrite <- app_assoc in Hl. exact Hl.
  - exists String. split; [discriminate|].
    apply (Split_puthead 0x80 0xB7 String (len (b0 :: b1 :: b')) _ extra).
    + left. repeat split. rewrite !len_cons.
      pose proof (len_nonneg b'). lia.
    + reflexivity.
    + rewrite <- app_assoc in Hl. exact Hl.
Qed.

Lemma Split_inv b k content rest :
  is_bytes b -> len b < 2 ^ 64 ->
  Split b = (k, content, rest, None) ->
  (k = List /\ b = puthead 0xC0 0xF7 (len content) ++ content ++ rest)
  \/ (k <> List /\ b = enc_string content ++ rest).
Proof.
  intros Hb Hl Hs. unfold Split in Hs.
  destruct (readKind b) as [[[k' ts] cs] [e|]] eqn:Hr; [discriminate|].
  inversion Hs; subst k'. clear Hs.
  destruct (readKind_inv b k ts cs Hb Hl Hr)
    as (hdr & payload & rest' & -> & Hh & Hp & Hform).
  assert (Hc : slice (hdr ++ payload ++ rest') ts (ts + cs) = payload)
    by (rewrite <- Hh, <- Hp; apply slice_app_mid).
  assert (Hk : skipn (Z.to_nat (ts + cs)) (hdr ++ payload ++ rest') = rest')
    by (rewrite <- Hh, <- Hp; apply skipn_two_app).
  rewrite Hc in *. rewrite Hk in *. subst content rest.
  destruct Hform as [(-> & -> & x & -> & Hx)|[(-> & -> & Hcanon)|(-> & ->)]].
  - right. split; [discriminate|]. unfold enc_string.
    destruct (Z.leb_spec x 127); [reflexivity|lia].
  - right. split; [discriminate|]. rewrite app_assoc. f_equal.
    unfold enc_string. destruct payload as [|p0 [|p1 p']];
      try (rewrite <- Hp; reflexivity).
    specialize (Hcanon (eq_sym Hp)). cbn [nth] in Hcanon.
    destruct (Z.leb_spec p0 127); [lia|]. rewrite <- Hp. reflexivity.
  - left. split; [reflexivity|]. rewrite Hp. reflexivity.
Qed.

Lemma SplitString_spec (b content rest : list Z) :
  is_bytes b -> len b < 2 ^ 64 ->
  (SplitString b = (content, rest, None)
   <-> b = str (encBuffer_writeBytes content encBuffer_reset) ++ rest).
Proof.
  intros Hb Hl. split.
  - intros Hs. unfold SplitString in Hs.
    destruct (Split b) as [[[k c] rs] [e|]] eqn:HS; [discriminate|].
    destruct (Z.eqb_spec k List) as [|Hk]; [discriminate|].
    inversion Hs; subst c rs. clear Hs.
    destruct (Split_inv b k content rest Hb Hl HS) as [(E & _)|(_ & ->)];
      [contradiction|].
    rewrite writeBytes_enc_string; [reflexivity|].
    destruct (enc_string_suffix content) as [hdr E]. rewrite E in Hl.
    rewrite !len_app in Hl. pose proof (len_nonneg hdr).
    pose proof (len_nonneg rest). lia.
  - intros E.
    assert (Hc : len content < 2 ^ 64).
    { pose proof (writeBytes_len content encBuffer_reset). subst b.
      rewrite len_app in Hl. pose proof (len_nonneg rest). lia. }
    rewrite writeBytes_enc_string in E by assumption.
    cbn [str append_str encBuffer_reset app] in E. subst b.
    assert (Hcb : is_bytes content).
    { destruct (enc_string_suffix content) as [hdr Eh]. rewrite Eh in Hb.
      apply is_bytes_app in Hb. destruct Hb as [Hb _].
      apply is_bytes_app in Hb. tauto. }
    destruct (Split_string_kind content rest Hcb Hl) as (k & Hk & HS).
    unfold SplitString. rewrite HS.
    destruct (Z.eqb_spec k List); [contradiction|reflexivity].
Qed.

(** X1. [SplitString] returns [content] and [rest] exactly when the input
    is the string encoding of [content], as [writeBytes] emits it, followed
    by [rest]: non-canonical strings and lists are refused. *)
Theorem SplitString_canonical (b content rest : list Z) :
  is_bytes b -> len b < 2 ^ 64 ->
  (SplitString b = (content, rest, None)
   <-> b = str (encBuffer_writeBytes content encBuffer_reset) ++ rest).
Proof. apply SplitString_spec. Qed.

Lemma SplitString_canonical_witness :
  SplitString [0x82; 0xCA; 0xFE; 0x01] = ([0xCA; 0xFE], [0x01], None).
Proof.
  apply (SplitString_canonical [0x82; 0xCA; 0xFE; 0x01] [0xCA; 0xFE] [0x01]).
  - repeat constructor; unfold is_byte; lia.
  - vm_compute. reflexivity.
  - reflexivity.
Defined.

(** X2. [SplitList] returns [content] and [rest] exactly when the input is
    a list header in the form [puthead] writes for the length of
    [content], followed by [content] and [rest]. *)
Theorem SplitList_canonical (b content rest : list Z) :
  is_bytes b -> len b < 2 ^ 64 ->
  (SplitList b = (content, rest, None)
   <-> b = puthead 0xC0 0xF7 (len content) ++ content ++ rest).
Proof.
  intros Hb Hl. split.
  - intros Hs. unfold SplitList in Hs.
    destruct (Split b) as [[[k c] rs] [e|]] eqn:HS; [discriminate|].
    destruct (Z.eqb_spec k List) as [Hk|]; [|discriminate].
    inversion Hs; subst c rs. clear Hs.
    destruct (Split_inv b k content rest Hb Hl HS) as [(_ & E)|(E & _)];
      [exact E|contradiction].
  - intros ->. unfold SplitList. rewrite app_assoc.
    rewrite (Split_puthead 0xC0 0xF7 List (len content) content rest);
      [reflexivity|right; repeat split|reflexivity|exact Hl].
Qed.

Lemma SplitList_canonical_witness :
  SplitList [0xC2; 0x01; 0x02; 0x03] = ([0x01; 0x02], [0x03], None).
Proof.
  apply (SplitList_canonical [0xC2; 0x01; 0x02; 0x03] [0x01; 0x02] [0x03]).
  - repeat constructor; unfold is_byte; lia.
  - vm_compute. reflexivity.
  - reflexivity.
Defined.

Lemma AppendUint64_enc_uint b i :
  0 <= i < 2 ^ 64 -> AppendUint64 b i = b ++ enc_uint i.
Proof.
  intros Hi. unfold AppendUint64, enc_uint.
  destruct (Z.eqb_spec i 0); [reflexivity|].
  destruct (Z.ltb_spec i 128); [rewrite byte_small by lia; reflexivity|].
  unfold puthead, putint.
  destruct (Z.ltb_spec i (2 ^ 8)); [reflexivity|].
  destruct (Z.ltb_spec i (2 ^ 16)); [reflexivity|].
  destruct (Z.ltb_spec i (2 ^ 24)); [reflexivity|].
  destruct (Z.ltb_spec i (2 ^ 32)); [reflexivity|].
  destruct (Z.ltb_spec i (2 ^ 40)); [reflexivity|].
  destruct (Z.ltb_spec i (2 ^ 48)); [reflexivity|].
  destruct (Z.ltb_spec i (2 ^ 56)); reflexivity.
Qed.

Lemma writeUint64_enc_uint i buf :
  0 <= i < 2 ^ 64 ->
  encBuffer_writeUint64 i buf = append_str buf (enc_uint i).
Proof.
  intros Hi. unfold encBuffer_writeUint64, enc_uint.
  destruct (Z.eqb_spec i 0); [reflexivity|].
  destruct (Z.ltb_spec i 128); [rewrite byte_small by lia; reflexivity|].
  pose proof (putint_len i). unfold puthead.
  destruct (Z.ltb_spec (len (putint i)) 56); [|lia].
  reflexivity.
Qed.

(** X3. [AppendUint64] appends to a byte slice exactly the bytes that
    [encBuffer.writeUint64] appends to the string data of a buffer. *)
Theorem AppendUint64_writeUint64 (b : list Z) (hs : list listhead) (lh i : Z) :
  0 <= i < 2 ^ 64 ->
  encBuffer_writeUint64 i (mkEncBuffer b hs lh)
  = mkEncBuffer (AppendUint64 b i) hs lh.
Proof.
  intros Hi. rewrite writeUint64_enc_uint, AppendUint64_enc_uint by assumption.
  reflexivity.
Qed.

Lemma AppendUint64_writeUint64_witness :
  encBuffer_writeUint64 300 (mkEncBuffer [0xC0] [] 0)
  = mkEncBuffer (AppendUint64 [0xC0] 300) [] 0.
Proof. apply AppendUint64_writeUint64. lia. Defined.

Lemma enc_uint_bytes i : 0 <= i < 2 ^ 64 -> is_bytes (enc_uint i).
Proof.
  intros Hi. unfold enc_uint.
  destruct (Z.eqb_spec i 0); [repeat constructor; unfold is_byte; lia|].
  destruct (Z.ltb_spec i 128); [repeat constructor; unfold is_byte; lia|].
  unfold puthead. pose proof (putint_len i).
  destruct (Z.ltb_spec (len (putint i)) 56); [|lia].
  cbn [app]. constructor; [apply byte_range|apply putint_bytes].
Qed.

Lemma enc_uint_string i :
  128 <= i < 2 ^ 64 -> enc_uint i = enc_string (putint i).
Proof.
  intros Hi. unfold enc_uint, enc_string.
  destruct (Z.eqb_spec i 0); [lia|]. destruct (Z.ltb_spec i 128); [lia|].
  destruct (putint i) as [|p0 [|p1 p']] eqn:E; try reflexivity.
  assert (Hl : len (putint i) = 1) by (rewrite E; reflexivity).
  apply putint_len1 in Hl; [|lia].
  assert (Hp : putint i = [i]).
  { unfold putint. change (2 ^ 8) with 256. destruct (Z.ltb_spec i 256); [|lia].
    rewrite byte_small by lia. reflexivity. }
  rewrite Hp in E. inversion E; subst p0.
  destruct (Z.leb_spec i 127); [lia|reflexivity].
Qed.

(** X4. [SplitUint64] returns [x] and [rest] exactly when the input is
    what [AppendUint64] writes for [x], followed by [rest]: every [uint64]
    written is read back, and integers with leading zero bytes or other
    non-canonical forms are refused. *)
Theorem SplitUint64_AppendUint64 (b rest : list Z) (x : Z) :
  is_bytes b -> len b < 2 ^ 64 ->
  (SplitUint64 b = (x, rest, None)
   <-> 0 <= x < 2 ^ 64 /\ b = AppendUint64 [] x ++ rest).
Proof.
  intros Hb Hl. split.
  - intros Hs. unfold SplitUint64 in Hs.
    destruct (SplitString b) as [[content rs] [e|]] eqn:HS; [discriminate|].
    apply (SplitString_spec b content rs Hb Hl) in HS.
    assert (Hc : len content < 2 ^ 64).
    { pose proof (writeBytes_len content encBuffer_reset). subst b.
      rewrite len_app in Hl. pose proof (len_nonneg rs). lia. }
    rewrite writeBytes_enc_string in HS by assumption.
    cbn [str append_str encBuffer_reset app] in HS.
    assert (Hcb : is_bytes content).
    { destruct (enc_string_suffix content) as [hdr Eh]. rewrite HS, Eh in Hb.
      apply is_bytes_app in Hb. destruct Hb as [Hb _].
      apply is_bytes_app in Hb. tauto. }
    destruct content as [|c0 [|c1 c']].
    + inversion Hs; subst. split; [lia|]. reflexivity.
    + inversion Hcb as [|? ? Hc0 _]; subst. unfold is_byte in Hc0.
      destruct (Z.eqb_spec c0 0); [discriminate|].
      inversion Hs; subst. split; [lia|].
      rewrite AppendUint64_enc_uint by lia. cbn [app]. f_equal.
      unfold enc_uint, enc_string.
      destruct (Z.eqb_spec x 0); [lia|].
      destruct (Z.ltb_spec x 128); destruct (Z.leb_spec x 127); try lia;
        [reflexivity|].
      unfold putint. change (2 ^ 8) with 256.
      destruct (Z.ltb_spec x 256); [|lia]. rewrite byte_small by lia.
      reflexivity.
    + set (content := c0 :: c1 :: c') in *.
      assert (H2 : 2 <= len content)
        by (unfold content; rewrite !len_cons; pose proof (len_nonneg c'); lia).
      destruct (Z.gtb_spec (len content) 8) as [|H8]; [discriminate|].
      rewrite (byte_small (len content)) in Hs by lia.
      rewrite <- (app_nil_r content) in Hs at 1.
      rewrite readSize_spec in Hs by (try lia; assumption).
      destruct (Z.ltb_spec (be_value content) 56); [discriminate|].
      destruct (Z.eqb_spec (nth 0 content 0) 0) as [|Hnz]; [discriminate|].
      cbn [orb] in Hs. injection Hs as <- <-.
      destruct (putint_be_value content Hcb ltac:(lia) Hnz) as [Hp Hrange].
      pose proof (be_value_lead content Hcb Hnz) as Hlead.
      assert (H256 : 256 <= be_value content).
      { apply Z.le_trans with (256 ^ (len content - 1)); [|exact Hlead].
        change 256 with (256 ^ 1) at 1. apply Z.pow_le_mono_r; lia. }
      split; [lia|]. rewrite AppendUint64_enc_uint by lia. cbn [app].
      rewrite enc_uint_string by lia. rewrite Hp. exact HS.
  - intros (Hx & ->). rewrite AppendUint64_enc_uint in * by assumption.
    cbn [app] in *. unfold SplitUint64.
    destruct (Z.ltb_spec x 128) as [Hs|Hs].
    + unfold enc_uint in *. destruct (Z.eqb_spec x 0) as [E0|Hx0].
      * subst x. replace (SplitString ([128] ++ rest)) with ([] : list Z, rest, @None error);
          [reflexivity|].
        symmetry. apply SplitString_spec; [assumption|assumption|reflexivity].
      * destruct (Z.ltb_spec x 128); [|lia].
        replace (SplitString ([x] ++ rest)) with ([x], rest, @None error).
        -- destruct (Z.eqb_spec x 0); [lia|reflexivity].
        -- symmetry. apply SplitString_spec; [assumption|assumption|].
           unfold encBuffer_writeBytes. destruct (Z.leb_spec x 127); [|lia].
           reflexivity.
    + rewrite enc_uint_string in * by lia.
      replace (SplitString (enc_string (putint x) ++ rest))
        with (putint x, rest, @None error).
      * pose proof (putint_len x) as HL.
        destruct (putint x) as [|p0 [|p1 p']] eqn:E.
        -- cbn in HL. lia.
        -- assert (Hl1 : len (putint x) = 1) by (rewrite E; reflexivity).
           apply putint_len1 in Hl1; [|lia].
           assert (Hp : putint x = [x]).
           { unfold putint. change (2 ^ 8) with 256.
             destruct (Z.ltb_spec x 256); [|lia].
             rewrite byte_small by lia. reflexivity. }
           rewrite Hp in E. inversion E; subst p0.
           destruct (Z.eqb_spec x 0); [lia|reflexivity].
        -- rewrite <- E in *.
           destruct (Z.gtb_spec (len (putint x)) 8); [lia|].
           rewrite (byte_small (len (putint x))) by lia.
           rewrite <- (app_nil_r (putint x)) at 1.
           rewrite readSize_spec by (try lia; apply putint_bytes).
           rewrite putint_value by assumption.
           destruct (Z.ltb_spec x 56); [lia|].
           destruct (Z.eqb_spec (nth 0 (putint x) 0) 0) as [E0|];
             [|reflexivity].
           exfalso. revert E0. apply putint_lead. lia.
      * symmetry. apply SplitString_spec; [assumption|assumption|].
        rewrite writeBytes_enc_string; [reflexivity|].
        pose proof (putint_len x). lia.
Qed.

Lemma SplitUint64_AppendUint64_witness :
  SplitUint64 [0x82; 0x04; 0x00; 0xFF] = (1024, [0xFF], None).
Proof.
  apply (SplitUint64_AppendUint64 [0x82; 0x04; 0x00; 0xFF] [0xFF] 1024).
  - repeat constructor; unfold is_byte; lia.
  - vm_compute. reflexivity.
  - split; [lia|reflexivity].
Defined.

(** * Encoded sizes, counting and iterating *)

(** [IntSize] is the number of bytes [AppendUint64] writes for the
    integer. *)
Lemma IntSize_AppendUint64 (x : Z) (b : list Z) :
  0 <= x < 2 ^ 64 ->
  len (AppendUint64 b x) = len b + IntSize x.
Proof.
  intros Hx. rewrite AppendUint64_enc_uint, len_app by assumption. f_equal.
  unfold IntSize, enc_uint.
  destruct (Z.eqb_spec x 0) as [->|]; [reflexivity|].
  destruct (Z.ltb_spec x 128); [reflexivity|].
  pose proof (putint_len x). rewrite len_app, len_puthead_short by lia.
  rewrite intsize_putint by assumption. reflexivity.
Qed.

(** [BytesSize] and [StringSize] are the number of bytes by which
    [writeBytes] and [writeString] grow the buffer. *)
Lemma BytesSize_writeBytes (b : list Z) (buf : encBuffer) :
  len b < 2 ^ 63 ->
  encBuffer_size (encBuffer_writeBytes b buf) = encBuffer_size buf + BytesSize b
  /\ encBuffer_size (encBuffer_writeString b buf)
     = encBuffer_size buf + StringSize b.
Proof.
  intros Hl. pose proof (len_nonneg b) as H0.
  assert (H : encBuffer_size (encBuffer_writeBytes b buf)
              = encBuffer_size buf + BytesSize b).
  { rewrite writeBytes_enc_string, size_append by lia. f_equal.
    unfold enc_string, BytesSize.
    destruct b as [|b0 [|b1 b']].
    - reflexivity.
    - destruct (Z.leb_spec b0 127); reflexivity.
    - set (c := b0 :: b1 :: b') in *.
      rewrite len_app, len_puthead, (uint64_small (len c)) by lia.
      pose proof (headsize_pos (len c) ltac:(lia)).
      rewrite uint64_small by lia. reflexivity. }
  split; [exact H|]. unfold encBuffer_writeString. rewrite H.
  reflexivity.
Qed.

(** X5. [IntSize], [BytesSize] and [StringSize] are the number of bytes
    the encoder writes: [IntSize x] is what [AppendUint64] adds for [x],
    [BytesSize b] and [StringSize b] what [writeBytes] and [writeString]
    add to the size of the buffer for [b]. *)
Theorem sizes_encoded (x : Z) (out b : list Z) (buf : encBuffer) :
  0 <= x < 2 ^ 64 -> len b < 2 ^ 63 ->
  len (AppendUint64 out x) = len out + IntSize x
  /\ encBuffer_size (encBuffer_writeBytes b buf)
     = encBuffer_size buf + BytesSize b
  /\ encBuffer_size (encBuffer_writeString b buf)
     = encBuffer_size buf + StringSize b.
Proof.
  intros Hx Hl. split.
  - apply IntSize_AppendUint64. exact Hx.
  - apply BytesSize_writeBytes. exact Hl.
Qed.

Lemma sizes_encoded_witness :
  len (AppendUint64 [] 1024) = len (@nil Z) + IntSize 1024
  /\ encBuffer_size (encBuffer_writeBytes (repeat 0x61 56) encBuffer_reset)
     = encBuffer_size encBuffer_reset + BytesSize (repeat 0x61 56)
  /\ encBuffer_size (encBuffer_writeString (repeat 0x61 56) encBuffer_reset)
     = encBuffer_size encBuffer_reset + StringSize (repeat 0x61 56).
Proof.
  apply sizes_encoded.
  - lia.
  - vm_compute. reflexivity.
Defined.

(** ** CountValues *)

(** An encoding is a single byte below 0x80, or a header with its payload. *)
Lemma rlp_shape t v :
  has_type t v ->
  (exists x, 0 <= x < 0x80 /\ rlp v = [x])
  \/ (exists small large k n payload,
        ((small = 0x80 /\ large = 0xB7 /\ k = String
          /\ (n = 1 -> 128 <= nth 0 payload 0))
         \/ (small = 0xC0 /\ large = 0xF7 /\ k = List))
        /\ len payload = n
        /\ rlp v = puthead small large n ++ payload).
Proof.
  intros Hv.
  destruct Hv as [b|k n Hn|s Hs|e b He Hb|e l He Hl'|name fs l Hf];
    cbn [rlp] in *.
  - destruct b.
    + left. exists 1. split; [lia|reflexivity].
    + right. exists 0x80, 0xB7, String, 0, [].
      split; [left; repeat split; lia|]. split; reflexivity.
  - assert (Hn64 : 0 <= n < 2 ^ 64) by (apply (uint_in_64 k); assumption).
    unfold enc_uint. destruct (Z.eqb_spec n 0).
    + right. exists 0x80, 0xB7, String, 0, [].
      split; [left; repeat split; lia|]. split; reflexivity.
    + destruct (Z.ltb_spec n 128).
      * left. exists n. split; [lia|reflexivity].
      * right. exists 0x80, 0xB7, String, (len (putint n)), (putint n).
        split; [|split; reflexivity].
        left. repeat split. intros H1.
        apply putint_len1 in H1; [|lia].
        unfold putint. change (2 ^ 8) with 256.
        destruct (Z.ltb_spec n 256); [|lia].
        cbn [nth]. rewrite byte_small by lia. lia.
  - unfold enc_string. destruct s as [|b0 [|b1 b']].
    + right. exists 0x80, 0xB7, String, 0, [].
      split; [left; repeat split; lia|]. split; reflexivity.
    + inversion Hs as [|? ? Hb0 _]; subst. unfold is_byte in Hb0.
      destruct (Z.leb_spec b0 127).
      * left. exists b0. split; [lia|reflexivity].
      * right. exists 0x80, 0xB7, String, 1, [b0].
        split; [|split; reflexivity].
        left. repeat split. intros _. cbn [nth]. lia.
    + right. exists 0x80, 0xB7, String, (len (b0 :: b1 :: b')), (b0 :: b1 :: b').
      split; [|split; reflexivity].
      left. repeat split. rewrite !len_cons. pose proof (len_nonneg b'). lia.
  - unfold enc_string. destruct b as [|b0 [|b1 b']].
    + right. exists 0x80, 0xB7, String, 0, [].
      split; [left; repeat split; lia|]. split; reflexivity.
    + inversion Hb as [|? ? Hb0 _]; subst. unfold is_byte in Hb0.
      destruct (Z.leb_spec b0 127).
      * left. exists b0. split; [lia|reflexivity].
      * right. exists 0x80, 0xB7, String, 1, [b0].
        split; [|split; reflexivity].
        left. repeat split. intros _. cbn [nth]. lia.
    + right. exists 0x80, 0xB7, String, (len (b0 :: b1 :: b')), (b0 :: b1 :: b').
      split; [|split; reflexivity].
      left. repeat split. rewrite !len_cons. pose proof (len_nonneg b'). lia.
  - right. exists 0xC0, 0xF7, List, (len (flat_map rlp l)), (flat_map rlp l).
    split; [right; repeat split|]. split; reflexivity.
  - right. exists 0xC0, 0xF7, List, (len (flat_map rlp l)), (flat_map rlp l).
    split; [right; repeat split|]. split; reflexivity.
Qed.

Lemma readKind_rlp t v extra :
  has_type t v -> len (rlp v ++ extra) < 2 ^ 64 ->
  exists k ts cs,
    readKind (rlp v ++ extra) = (k, ts, cs, None)
    /\ skipn (Z.to_nat (ts + cs)) (rlp v ++ extra) = extra
    /\ slice (rlp v ++ extra) 0 (ts + cs) = rlp v.
Proof.
  intros Hv Hl. pose proof (rlp_shape t v Hv) as Hcases.
  destruct Hcases as [(x & Hx & E)|(small & large & k & n & payload & Htag & Hn & E)];
    rewrite E in *.
  - exists Byte, 0, 1. cbn [app] in *. rewrite readKind_byte by assumption.
    repeat split.
  - rewrite <- app_assoc in *.
    assert (Hn64 : 0 <= n < 2 ^ 64).
    { rewrite !len_app in Hl. pose proof (len_nonneg extra).
      pose proof (len_nonneg payload).
      pose proof (len_nonneg (puthead small large n)). lia. }
    exists k, (headsize n), n.
    rewrite (readKind_puthead small large k n payload extra Htag Hn Hl).
    split; [reflexivity|].
    rewrite <- (len_puthead small large n Hn64), <- Hn. split.
    + apply skipn_two_app.
    + unfold slice. cbn [Z.to_nat skipn]. rewrite Z.sub_0_r.
      rewrite app_assoc, <- len_app. apply firstn_len_app.
Qed.

Lemma CountValues_loop_rlp ts vs : forall n i,
  Forall2 has_type ts vs -> len (flat_map rlp vs) < 2 ^ 64 ->
  (List.length vs < n)%nat ->
  CountValues_loop n (flat_map rlp vs) i = (i + len vs, None).
Proof.
  intros n i H. revert n i.
  induction H as [|t v ts vs Hv Hvs IH]; intros n i Hl Hn.
  - destruct n; [inversion Hn|]. cbn. rewrite Z.add_0_r. reflexivity.
  - destruct n; [inversion Hn|]. cbn [flat_map] in *.
    cbn [CountValues_loop].
    pose proof (rlp_nonempty v). pose proof (len_nonneg (flat_map rlp vs)).
    rewrite len_app in *.
    destruct (Z.gtb_spec (len (rlp v) + len (flat_map rlp vs)) 0); [|lia].
    destruct (readKind_rlp t v (flat_map rlp vs) Hv
                ltac:(rewrite len_app; lia)) as (k & tsz & cs & Hr & Hskip & _).
    rewrite Hr, Hskip. rewrite IH; [|lia|cbn [List.length] in Hn; lia].
    rewrite len_cons. f_equal. lia.
Qed.

(** X6. [CountValues] of the concatenated encodings of a sequence of
    values is the number of values. *)
Theorem CountValues_encodings (ts : list rtype) (vs : list value) :
  Forall2 has_type ts vs -> len (flat_map rlp vs) < 2 ^ 64 ->
  CountValues (flat_map rlp vs) = (len vs, None).
Proof.
  intros H Hl. unfold CountValues.
  rewrite (CountValues_loop_rlp ts vs); [reflexivity|assumption|assumption|].
  pose proof (payload_count vs). unfold len in *. lia.
Qed.

Lemma CountValues_encodings_witness :
  CountValues (flat_map rlp [VUint 1024; VSlice [VUint 1; VUint 2]; VString []])
  = (3, None).
Proof.
  apply (CountValues_encodings [TUint U64; TSlice (TUint U64); TString]).
  - repeat constructor; cbn; lia.
  - vm_compute. reflexivity.
Defined.

Lemma readSize_errors tl slen cs e :
  readSize tl slen = (cs, Some e) ->
  cs = 0 /\ (e = io_ErrUnexpectedEOF \/ e = ErrCanonSize).
Proof.
  unfold readSize. destruct (len tl <? slen).
  - intros H. inversion H. split; [reflexivity|left; reflexivity].
  - match goal with |- context [if ?c then _ else _] => destruct c end;
      intros H; inversion H. split; [reflexivity|right; reflexivity].
Qed.

(** The results [readKind] returns with an error are zero. *)
Lemma readKind_errors buf k ts cs e :
  readKind buf = (k, ts, cs, Some e) ->
  k = 0 /\ ts = 0 /\ cs = 0
  /\ (e = io_ErrUnexpectedEOF \/ e = ErrCanonSize \/ e = ErrValueTooLarge).
Proof.
  unfold readKind. destruct buf as [|b tl].
  - intros H. inversion H. repeat split. left. reflexivity.
  - repeat match goal with
           | |- context [if ?c then _ else _] => destruct c
           | |- context [readSize ?a ?b] =>
               let E := fresh "E" in
               destruct (readSize a b) as [? [?|]] eqn:E;
               [apply readSize_errors in E; destruct E as [_ E]|]
           end;
      intros H; inversion H; subst; repeat split; tauto.
Qed.

Lemma Split_item k ts cs hdr payload :
  len (hdr ++ payload) < 2 ^ 64 ->
  len hdr = ts -> len payload = cs ->
  ((k = Byte /\ hdr = [] /\ exists x, payload = [x] /\ 0 <= x < 0x80)
   \/ (k = String /\ hdr = puthead 0x80 0xB7 cs
       /\ (cs = 1 -> 128 <= nth 0 payload 0))
   \/ (k = List /\ hdr = puthead 0xC0 0xF7 cs)) ->
  Split (hdr ++ payload) = (k, payload, [], None) /\ 1 <= len (hdr ++ payload).
Proof.
  intros Hl Hh Hp [(-> & -> & x & -> & Hx)|[(-> & -> & Hc)|(-> & ->)]].
  - split; [|cbn; lia]. apply (Split_byte x []); [lia|exact Hl].
  - split; [|apply len_puthead_app].
    rewrite <- (app_nil_r (_ ++ payload)).
    apply (Split_puthead 0x80 0xB7 String cs payload []).
    + left. repeat split. exact Hc.
    + exact Hp.
    + rewrite app_nil_r. exact Hl.
  - split; [|apply len_puthead_app].
    rewrite <- (app_nil_r (_ ++ payload)).
    apply (Split_puthead 0xC0 0xF7 List cs payload []).
    + right. repeat split.
    + exact Hp.
    + rewrite app_nil_r. exact Hl.
Qed.

Lemma CountValues_loop_inv : forall n b i m,
  is_bytes b -> len b < 2 ^ 64 -> (List.length b < n)%nat ->
  CountValues_loop n b i = (m, None) ->
  exists items,
    b = List.concat items /\ m = i + len items
    /\ Forall (fun it => exists k content, Split it = (k, content, [], None))
         items.
Proof.
  induction n as [|n IH]; intros b i m Hb Hl Hn Hc; [inversion Hn|].
  cbn [CountValues_loop] in Hc.
  destruct (Z.gtb_spec (len b) 0) as [Hpos|Hz].
  - destruct (readKind b) as [[[k ts] cs] [e|]] eqn:Hr; [discriminate|].
    destruct (readKind_inv b k ts cs Hb Hl Hr)
      as (hdr & payload & rest & -> & Hh & Hp & Hform).
    assert (Hk : skipn (Z.to_nat (ts + cs)) (hdr ++ payload ++ rest) = rest)
      by (rewrite <- Hh, <- Hp; apply skipn_two_app).
    rewrite Hk in Hc. rewrite app_assoc in *.
    apply is_bytes_app in Hb. destruct Hb as [Hb1 Hb2].
    rewrite len_app in Hl. pose proof (len_nonneg rest).
    pose proof (len_nonneg (hdr ++ payload)).
    destruct (Split_item k ts cs hdr payload ltac:(lia) Hh Hp Hform)
      as [HS Hne].
    destruct (IH rest (i + 1) m Hb2 ltac:(lia)) as (items & E & Hm & Hall).
    + rewrite length_app in Hn. unfold len in Hne. lia.
    + exact Hc.
    + exists ((hdr ++ payload) :: items). cbn [List.concat]. rewrite <- E.
      split; [reflexivity|]. split; [rewrite len_cons; lia|].
      constructor; [|exact Hall]. exists k, payload. exact HS.
  - inversion Hc; subst. exists []. pose proof (len_nonneg b).
    rewrite (len_le_0 b) by lia.
    split; [reflexivity|]. split; [cbn; lia|constructor].
Qed.

Lemma CountValues_loop_budget : forall n b i,
  is_bytes b -> len b < 2 ^ 64 -> (List.length b < n)%nat ->
  snd (CountValues_loop n b i) <> Some loopBudget.
Proof.
  induction n as [|n IH]; intros b i Hb Hl Hn; [inversion Hn|].
  cbn [CountValues_loop].
  destruct (Z.gtb_spec (len b) 0) as [Hpos|Hz]; [|discriminate].
  destruct (readKind b) as [[[k ts] cs] [e|]] eqn:Hr.
  - apply readKind_errors in Hr. cbn [snd].
    destruct Hr as (_ & _ & _ & [->|[->| ->]]); discriminate.
  - destruct (readKind_inv b k ts cs Hb Hl Hr)
      as (hdr & payload & rest & -> & Hh & Hp & Hform).
    assert (Hk : skipn (Z.to_nat (ts + cs)) (hdr ++ payload ++ rest) = rest)
      by (rewrite <- Hh, <- Hp; apply skipn_two_app).
    rewrite Hk. rewrite app_assoc in *.
    apply is_bytes_app in Hb. destruct Hb as [Hb1 Hb2].
    rewrite len_app in Hl. pose proof (len_nonneg rest).
    pose proof (len_nonneg (hdr ++ payload)).
    destruct (Split_item k ts cs hdr payload ltac:(lia) Hh Hp Hform)
      as [_ Hne].
    apply IH; [exact Hb2|lia|].
    rewrite length_app in Hn. unfold len in Hne. lia.
Qed.

(** X7. When [CountValues] returns [n], the input is the concatenation of
    [n] items, each one a complete value for [Split] with nothing left
    over; and the loop never runs out of rounds: the result is a count or
    an error of [readKind]. *)
Theorem CountValues_items (b : list Z) (n : Z) :
  is_bytes b -> len b < 2 ^ 64 ->
  (CountValues b = (n, None) ->
   exists items,
     b = List.concat items /\ len items = n
     /\ Forall (fun it => exists k content, Split it = (k, content, [], None))
          items)
  /\ snd (CountValues b) <> Some loopBudget.
Proof.
  intros Hb Hl. split.
  - intros Hc. unfold CountValues in Hc.
    destruct (CountValues_loop_inv (S (List.length b)) b 0 n Hb Hl
                ltac:(lia) Hc)
      as (items & E & Hm & Hall).
    exists items. repeat split; [exact E|lia|exact Hall].
  - apply CountValues_loop_budget; [assumption|assumption|lia].
Qed.

Lemma CountValues_items_witness :
  (exists items,
     [0x05; 0xC1; 0x80; 0x81; 0xFF] = List.concat items /\ len items = 3
     /\ Forall (fun it => exists k content, Split it = (k, content, [], None))
          items)
  /\ snd (CountValues [0x05; 0xC1; 0x80; 0x81; 0xFF]) <> Some loopBudget.
Proof.
  assert (Hb : is_bytes [0x05; 0xC1; 0x80; 0x81; 0xFF])
    by (repeat constructor; unfold is_byte; lia).
  assert (Hl : len [0x05; 0xC1; 0x80; 0x81; 0xFF] < 2 ^ 64)
    by (vm_compute; reflexivity).
  destruct (CountValues_items [0x05; 0xC1; 0x80; 0x81; 0xFF] 3 Hb Hl)
    as [Hitems Hbudget].
  split; [apply Hitems; vm_compute; reflexivity|exact Hbudget].
Defined.

Lemma advance_S k it :
  listIterator_advance (S k) it
  = snd (listIterator_Next (listIterator_advance k it)).
Proof. reflexivity. Qed.

Lemma Next_rlp t v rest it :
  has_type t v -> len (rlp v ++ rest) < 2 ^ 64 ->
  it_data it = rlp v ++ rest ->
  listIterator_Next it = (true, mkListIterator rest (rlp v) None).
Proof.
  intros Hv Hl E. unfold listIterator_Next. rewrite E.
  pose proof (rlp_nonempty v). pose proof (len_nonneg rest).
  rewrite len_app.
  destruct (Z.eqb_spec (len (rlp v) + len rest) 0); [lia|].
  destruct (readKind_rlp t v rest Hv Hl) as (k & ts & cs & Hr & Hskip & Hslice).
  rewrite Hr, Hskip, Hslice. reflexivity.
Qed.

Lemma nth_error_typed ts vs : forall k v,
  Forall2 has_type ts vs -> nth_error vs k = Some v ->
  (exists t, has_type t v) /\ skipn k vs = v :: skipn (S k) vs.
Proof.
  intros k v H. revert k. induction H as [|t x ts vs Hx Hvs IH]; intros k Hk.
  - destruct k; discriminate.
  - destruct k as [|k].
    + inversion Hk; subst. split; [exists t; exact Hx|reflexivity].
    + cbn [nth_error] in Hk. destruct (IH k Hk) as [Ht Hs].
      split; [exact Ht|exact Hs].
Qed.

Lemma len_skipn_flat vs k :
  len (flat_map rlp (skipn k vs)) <= len (flat_map rlp vs).
Proof.
  rewrite <- (firstn_skipn k vs) at 2. rewrite flat_map_app, len_app.
  pose proof (len_nonneg (flat_map rlp (firstn k vs))). lia.
Qed.

Lemma advance_data ts vs it0 :
  Forall2 has_type ts vs -> len (flat_map rlp vs) < 2 ^ 64 ->
  it_data it0 = flat_map rlp vs ->
  forall k, (k <= List.length vs)%nat ->
    it_data (listIterator_advance k it0) = flat_map rlp (skipn k vs).
Proof.
  intros H Hl E. induction k as [|k IH]; intros Hk.
  - exact E.
  - rewrite advance_S.
    destruct (nth_error vs k) as [v|] eqn:Hn;
      [|apply nth_error_None in Hn; lia].
    destruct (nth_error_typed ts vs k v H Hn) as [[t Ht] Hs].
    specialize (IH ltac:(lia)). rewrite Hs in IH. cbn [flat_map] in IH.
    rewrite (Next_rlp t v (flat_map rlp (skipn (S k) vs)) _ Ht); [reflexivity| |exact IH].
    pose proof (len_skipn_flat vs k) as Hle. rewrite Hs in Hle.
    cbn [flat_map] in Hle. lia.
Qed.

(** X8. An iterator made from the encoding of a list walks its elements
    in order: each call of [Next] reports a value, [Value] is then the
    encoding of the next element and [Err] is nil; after the last element
    [Next] reports the end. *)
Theorem listIterator_walks (ts : list rtype) (vs : list value) :
  Forall2 has_type ts vs -> len (rlp (VSlice vs)) < 2 ^ 64 ->
  exists it0,
    NewListIterator (rlp (VSlice vs)) = inl it0
    /\ (forall k v, nth_error vs k = Some v ->
          fst (listIterator_Next (listIterator_advance k it0)) = true
          /\ listIterator_Value (listIterator_advance (S k) it0) = rlp v
          /\ listIterator_Err (listIterator_advance (S k) it0) = None)
    /\ fst (listIterator_Next (listIterator_advance (List.length vs) it0))
       = false.
Proof.
  intros H Hl. cbn [rlp] in Hl.
  set (payload := flat_map rlp vs) in *.
  pose proof (len_nonneg payload) as Hp0.
  pose proof (puthead_nonempty 0xC0 0xF7 (len payload)) as Hh.
  assert (Hp : len payload < 2 ^ 64) by (rewrite len_app in Hl; lia).
  exists (mkListIterator payload [] None). split.
  - unfold NewListIterator. cbn [rlp]. fold payload.
    rewrite <- (app_nil_r payload) at 2.
    rewrite (readKind_puthead 0xC0 0xF7 List (len payload) payload []);
      [|right; repeat split|reflexivity|rewrite app_nil_r; exact Hl].
    cbn [Z.eqb List negb Pos.eqb].
    rewrite <- (len_puthead 0xC0 0xF7 (len payload)) by lia.
    pose proof (slice_app_mid (puthead 0xC0 0xF7 (len payload)) payload [])
      as Hs.
    rewrite app_nil_r in Hs. rewrite Hs. reflexivity.
  - assert (Hd : forall k, (k <= List.length vs)%nat ->
              it_data (listIterator_advance k (mkListIterator payload [] None))
              = flat_map rlp (skipn k vs))
      by (apply (advance_data ts); [exact H|exact Hp|reflexivity]).
    split.
    + intros k v Hn.
      assert (Hk : (k < List.length vs)%nat)
        by (apply nth_error_Some; rewrite Hn; discriminate).
      destruct (nth_error_typed ts vs k v H Hn) as [[t Ht] Hs].
      pose proof (Hd k ltac:(lia)) as Hdk. rewrite Hs in Hdk.
      cbn [flat_map] in Hdk.
      assert (HN : listIterator_Next
                     (listIterator_advance k (mkListIterator payload [] None))
                   = (true, mkListIterator (flat_map rlp (skipn (S k) vs))
                              (rlp v) None)).
      { apply (Next_rlp t); [exact Ht| |exact Hdk].
        pose proof (len_skipn_flat vs k) as Hle. rewrite Hs in Hle.
        cbn [flat_map] in Hle. fold payload in Hle. lia. }
      rewrite advance_S, HN. repeat split.
    + unfold listIterator_Next. rewrite (Hd (List.length vs)) by lia.
      rewrite skipn_all. reflexivity.
Qed.

Lemma listIterator_walks_witness :
  exists it0,
    NewListIterator (rlp (VSlice [VUint 1024; VString [0x61]])) = inl it0
    /\ (forall k v, nth_error [VUint 1024; VString [0x61]] k = Some v ->
          fst (listIterator_Next (listIterator_advance k it0)) = true
          /\ listIterator_Value (listIterator_advance (S k) it0) = rlp v
          /\ listIterator_Err (listIterator_advance (S k) it0) = None)
    /\ fst (listIterator_Next (listIterator_advance 2 it0)) = false.
Proof.
  apply (listIterator_walks [TUint U64; TString]).
  - repeat constructor; cbn; unfold is_byte; lia.
  - vm_compute. reflexivity.
Defined.

(** X9. On data whose next header [readKind] rejects, [Next] reports a
    value without moving on: every further call returns true with an empty
    [Value], the same error in [Err] and the data as it was, so a loop
    that only tests [Next] does not end. *)
Theorem listIterator_stuck (it : listIterator) (k t c : Z) (e : error) :
  it_data it <> [] ->
  readKind (it_data it) = (k, t, c, Some e) ->
  forall n,
    fst (listIterator_Next (listIterator_advance n it)) = true
    /\ it_data (listIterator_advance n it) = it_data it
    /\ ((0 < n)%nat ->
        listIterator_Value (listIterator_advance n it) = []
        /\ listIterator_Err (listIterator_advance n it) = Some e).
Proof.
  intros Hne Hr.
  assert (Hstep : forall it', it_data it' = it_data it ->
            listIterator_Next it'
            = (true, mkListIterator (it_data it) [] (Some e))).
  { intros it' E. unfold listIterator_Next. rewrite E, Hr.
    destruct (readKind_errors _ _ _ _ _ Hr) as (_ & -> & -> & _).
    destruct (Z.eqb_spec (len (it_data it)) 0) as [Hz|_].
    - exfalso. apply Hne. apply len_le_0. lia.
    - reflexivity. }
  assert (Hd : forall n, it_data (listIterator_advance n it) = it_data it).
  { induction n as [|n IH]; [reflexivity|].
    rewrite advance_S, (Hstep _ IH). reflexivity. }
  intros n. split; [rewrite (Hstep _ (Hd n)); reflexivity|].
  split; [apply Hd|]. intros Hn. destruct n as [|n]; [lia|].
  rewrite advance_S, (Hstep _ (Hd n)). split; reflexivity.
Qed.

Lemma listIterator_stuck_witness :
  fst (listIterator_Next
         (listIterator_advance 2 (mkListIterator [0x81; 0x01] [] None)))
  = true
  /\ it_data (listIterator_advance 2 (mkListIterator [0x81; 0x01] [] None))
     = [0x81; 0x01]
  /\ ((0 < 2)%nat ->
      listIterator_Value
        (listIterator_advance 2 (mkListIterator [0x81; 0x01] [] None)) = []
      /\ listIterator_Err
           (listIterator_advance 2 (mkListIterator [0x81; 0x01] [] None))
         = Some ErrCanonSize).
Proof.
  apply (listIterator_stuck (mkListIterator [0x81; 0x01] [] None) 0 0 0).
  - discriminate.
  - reflexivity.
Defined.

(** * The accessors of the stream *)

(** ** Raw *)

Lemma Stream_Raw_inv s b s' :
  Stream_Raw s = (inl b, s') ->
  kind s = -1 -> stack_ok s -> is_bytes (r s) ->
  took b s s'.
Proof.
  intros H Hk Hok Hbs. unfold Stream_Raw in H.
  apply bind_inl in H. destruct H as ([k0 size] & s1 & HK & H).
  apply KindM_inv in HK.
  destruct (Stream_Kind_inv s k0 size s1 HK Hk Hok Hbs)
    as (hdr & Hr & Hst & Hk1 & Hh).
  destruct (header_ok hdr s s1 Hr Hst Hok Hbs) as [Hok1 Hbs1].
  destruct Hh as [(-> & -> & -> & Hbv)|[(-> & -> & Hsz)|(-> & -> & Hsz)]].
  - cbn [Z.eqb Byte] in H. unfold bind, get, modify, ret in H.
    inversion H; subst. apply took_header_only; assumption.
  - change (String =? Byte) with false in H. cbv iota in H.
    apply bind_inl in H. destruct H as (bytes & s2 & Hf & H).
    apply readFull_inv in Hf; [|lia|assumption].
    destruct Hf as (Ht & Hlen & _).
    change (String =? String) with true in H. cbv iota in H.
    unfold ret in H. inversion H; subst.
    apply (took_after_header _ _ s s1 s' Hr Hst Ht).
  - change (List =? Byte) with false in H. cbv iota in H.
    apply bind_inl in H. destruct H as (bytes & s2 & Hf & H).
    apply readFull_inv in Hf; [|lia|assumption].
    destruct Hf as (Ht & Hlen & _).
    change (List =? String) with false in H. cbv iota in H.
    unfold ret in H. inversion H; subst.
    apply (took_after_header _ _ s s1 s' Hr Hst Ht).
Qed.

(** X10. What [Stream.Raw] returns is, byte for byte, the input it took:
    the header it writes anew in front of the content is the header it
    read, and the counter of the enclosing list is charged with the length
    of the result. *)
Theorem Raw_returns_input (s s' : Stream) (b : list Z) :
  Stream_Raw s = (inl b, s') ->
  kind s = -1 -> stack_ok s -> is_bytes (r s) ->
  r s = b ++ r s'
  /\ stack s' = charge64 (len b) (stack s)
  /\ kind s' = -1.
Proof. intros H Hk Hok Hbs. exact (Stream_Raw_inv s b s' H Hk Hok Hbs). Qed.

Lemma Raw_returns_input_witness :
  r s_raw = [0xC2; 0x01; 0x02] ++ r (snd (Stream_Raw s_raw))
  /\ stack (snd (Stream_Raw s_raw))
     = charge64 (len [0xC2; 0x01; 0x02]) (stack s_raw)
  /\ kind (snd (Stream_Raw s_raw)) = -1.
Proof.
  apply (Raw_returns_input s_raw (snd (Stream_Raw s_raw)) [0xC2; 0x01; 0x02]).
  - reflexivity.
  - reflexivity.
  - constructor.
  - repeat constructor; unfold is_byte; lia.
Defined.

(** X11. On input that starts with the encoding of a value, [Stream.Raw]
    returns that encoding and leaves the stream after it. *)
Theorem Raw_encoding (t : rtype) (v : value) (rest : list Z) (s : Stream) :
  has_type t v -> len (rlp v) < 2 ^ 64 ->
  kind s = -1 -> r s = rlp v ++ rest -> fits (len (rlp v)) s ->
  exists s', Stream_Raw s = (inl (rlp v), s') /\ r s' = rest /\ kind s' = -1.
Proof.
  intros Hv Hl Hk Hr Hf.
  destruct (rlp_shape t v Hv)
    as [(x & Hx & E)|(small & large & k & n & payload & Htag & Hn & E)];
    rewrite E in *.
  - destruct (Kind_byte x rest s) as (s1 & HK & Hm & Hk1 & Hbv); auto.
    unfold Stream_Raw, bind, KindM. rewrite HK. cbn.
    unfold get. rewrite Hbv. eexists. split; [reflexivity|].
    destruct Hm as (A & _). cbn. rewrite A, Hr. split; reflexivity.
  - subst n. rewrite len_app in *. pose proof (len_nonneg payload).
    pose proof (puthead_nonempty small large (len payload)).
    rewrite <- app_assoc in Hr.
    assert (Htag' : (small = 0x80 /\ large = 0xB7 /\ k = String)
                    \/ (small = 0xC0 /\ large = 0xF7 /\ k = List))
      by (destruct Htag as [(? & ? & ? & _)|(? & ? & ?)]; auto).
    destruct (Kind_puthead small large k (len payload) (payload ++ rest) s
                Htag' ltac:(lia) Hk Hr Hf)
      as (s1 & HK & Hm & Hk1 & Hsz).
    unfold Stream_Raw, bind, KindM. rewrite HK.
    assert (Hr1 : r s1 = payload ++ rest).
    { destruct Hm as (A & _). rewrite A, Hr. apply skipn_len_app. }
    assert (Hkb : (k =? Byte) = false)
      by (destruct Htag' as [(_ & _ & ->)|(_ & _ & ->)]; reflexivity).
    cbn. rewrite Hkb. rewrite readFull_ok.
    2:{ apply (fits_moved _ _ _ _ Hm). exact Hf. }
    2:{ rewrite Hr1, len_app. pose proof (len_nonneg rest). lia. }
    rewrite Hr1, firstn_len_app.
    eexists. split.
    + destruct Htag' as [(-> & -> & ->)|(-> & -> & ->)]; reflexivity.
    + cbn. rewrite Hr1, skipn_len_app. split; reflexivity.
Qed.

Lemma Raw_encoding_witness :
  exists s',
    Stream_Raw (Stream_Reset (rlp (VSlice [VUint 1; VUint 2]) ++ [0x03]) true 0)
    = (inl (rlp (VSlice [VUint 1; VUint 2])), s')
    /\ r s' = [0x03] /\ kind s' = -1.
Proof.
  apply (Raw_encoding (TSlice (TUint U64))).
  - repeat constructor; cbn; lia.
  - vm_compute. reflexivity.
  - reflexivity.
  - reflexivity.
  - split; [exact I|]. intros _. vm_compute. discriminate.
Defined.

(** ** ReadBytes *)

(** X12. [Stream.ReadBytes] into a buffer of [blen] bytes, on input that
    starts with the encoding of the string [b]: the content is returned
    when [blen] is the length of [b], else the call fails with the
    wrong-size error that names both lengths. *)
Theorem ReadBytes_size (b rest : list Z) (blen : Z) (s : Stream) :
  is_bytes b -> len b < 2 ^ 64 ->
  kind s = -1 -> r s = enc_string b ++ rest ->
  fits (len (enc_string b)) s ->
  fst (Stream_ReadBytes blen s)
  = if blen =? len b then inl b else inr (errWrongSize (len b) blen).
Proof.
  intros Hb Hlen Hk Hr Hf.
  assert (Hgen :
    r s = (puthead 0x80 0xB7 (len b) ++ b) ++ rest ->
    fits (len (puthead 0x80 0xB7 (len b) ++ b)) s ->
    (forall b0, b = [b0] -> 0x7F < b0) ->
    fst (Stream_ReadBytes blen s)
    = if blen =? len b then inl b else inr (errWrongSize (len b) blen)).
  { clear Hr Hf. intros Hr Hf Hcanon.
    rewrite len_app in Hf. rewrite <- app_assoc in Hr.
    pose proof (len_nonneg b).
    destruct (Kind_puthead 0x80 0xB7 String (len b) (b ++ rest) s
                ltac:(left; repeat split) ltac:(lia) Hk Hr Hf)
      as (s1 & HK & Hm & Hk1 & Hsz).
    unfold Stream_ReadBytes, bind, KindM. rewrite HK. cbn.
    destruct (Z.eqb_spec blen (len b)) as [->|]; [|reflexivity].
    cbn [negb].
    assert (Hr1 : r s1 = b ++ rest).
    { destruct Hm as (A & _). rewrite A, Hr. apply skipn_len_app. }
    rewrite readFull_ok.
    2:{ apply (fits_moved _ _ _ _ Hm Hf). }
    2:{ rewrite Hr1, len_app. pose proof (len_nonneg rest). lia. }
    rewrite Hr1, firstn_len_app.
    assert (Hc : (len b =? 1) && (nth 0 b 0 <? 128) = false).
    { destruct (Z.eqb_spec (len b) 1) as [E|]; [|reflexivity].
      destruct b as [|b0 [|b1 b']]; try discriminate E.
      - specialize (Hcanon b0 eq_refl). cbn.
        destruct (Z.ltb_spec b0 128); [lia|reflexivity].
      - exfalso. unfold len in E. cbn in E. lia. }
    rewrite Hc. reflexivity. }
  unfold enc_string in *.
  destruct b as [|b0 [|b1 b']].
  - apply Hgen; auto. intros; discriminate.
  - destruct (Z.leb_spec b0 0x7F) as [Hle|Hgt].
    + inversion Hb as [|? ? Hb0 _]; subst. unfold is_byte in Hb0.
      destruct (Kind_byte b0 rest s ltac:(lia) Hk Hr Hf)
        as (s1 & HK & Hm & Hk1 & Hbv).
      unfold Stream_ReadBytes, bind, KindM. rewrite HK. cbn.
      change (len [b0]) with 1.
      destruct (Z.eqb_spec blen 1); [|reflexivity].
      cbn. unfold get. rewrite Hbv. reflexivity.
    + apply Hgen; auto. intros b2 E. inversion E; subst. lia.
  - apply Hgen; auto. intros; discriminate.
Qed.

Lemma ReadBytes_size_witness :
  fst (Stream_ReadBytes 3 (Stream_Reset (enc_string [0xCA; 0xFE] ++ []) true 0))
  = if 3 =? len [0xCA; 0xFE] then inl [0xCA; 0xFE]
    else inr (errWrongSize (len [0xCA; 0xFE]) 3).
Proof.
  apply (ReadBytes_size [0xCA; 0xFE] [] 3).
  - repeat constructor; unfold is_byte; lia.
  - vm_compute. reflexivity.
  - reflexivity.
  - reflexivity.
  - split; [exact I|]. intros _. vm_compute. discriminate.
Defined.

(** ** Integers too large for the destination *)



(** ** The end of a list *)

Lemma Stream_Raw_EOL_inv s s' :
  Stream_Raw s = (inr EOL, s') -> kind s = -1 ->
  s' = s /\ exists rest, stack s = 0 :: rest.
Proof.
  intros H Hk. unfold Stream_Raw in H. apply bind_inr in H.
  destruct H as [H|([k0 size] & s1 & _ & H)];
    [exact (KindM_EOL_inv _ _ H Hk)|exfalso].
  destruct (k0 =? Byte).
  { unfold bind, get, modify, ret in H. inversion H. }
  apply bind_inr in H. destruct H as [H|(bs & s2 & _ & H)].
  - exact (readFull_not_EOL _ _ _ _ H eq_refl).
  - destruct (k0 =? String); inversion H.
Qed.

Lemma Stream_Bool_EOL_inv s s' :
  Stream_Bool s = (inr EOL, s') -> kind s = -1 ->
  s' = s /\ exists rest, stack s = 0 :: rest.
Proof.
  intros H Hk. unfold Stream_Bool in H. apply bind_inr in H.
  destruct H as [H|(num & s1 & _ & H)];
    [exact (Stream_uint_EOL_inv _ _ _ H Hk)|exfalso].
  destruct (num =? 0); [inversion H|].
  destruct (num =? 1); inversion H.
Qed.

(** X14. [EOL] marks the end of the innermost list and nothing else: with
    no header cached, [Bytes], [uint], [Bool], [List] and [Raw] return
    [EOL] exactly when the counter of the innermost open list is zero, and
    then leave the stream as it was; [ListEnd] never returns [EOL]. *)
Theorem EOL_only_at_list_end (s s' : Stream) (maxbits : Z) :
  kind s = -1 ->
  (Stream_Bytes s = (inr EOL, s')
   <-> s' = s /\ exists rest, stack s = 0 :: rest)
  /\ (Stream_uint maxbits s = (inr EOL, s')
      <-> s' = s /\ exists rest, stack s = 0 :: rest)
  /\ (Stream_Bool s = (inr EOL, s')
      <-> s' = s /\ exists rest, stack s = 0 :: rest)
  /\ (Stream_List s = (inr EOL, s')
      <-> s' = s /\ exists rest, stack s = 0 :: rest)
  /\ (Stream_Raw s = (inr EOL, s')
      <-> s' = s /\ exists rest, stack s = 0 :: rest)
  /\ Stream_ListEnd s <> (inr EOL, s').
Proof.
  intros Hk.
  assert (HK : forall rest, stack s = 0 :: rest -> KindM s = (inr EOL, s))
    by (intros rest Hs; apply (KindM_EOL s rest Hk Hs)).
  split; [split; [intros H; apply (Stream_Bytes_EOL_inv s s' H Hk)|]|].
  { intros (-> & rest & Hs). apply (Stream_Bytes_EOL s rest Hk Hs). }
  split; [split; [intros H; apply (Stream_uint_EOL_inv maxbits s s' H Hk)|]|].
  { intros (-> & rest & Hs). apply (Stream_uint_EOL maxbits s rest Hk Hs). }
  split; [split; [intros H; apply (Stream_Bool_EOL_inv s s' H Hk)|]|].
  { intros (-> & rest & Hs). unfold Stream_Bool, bind.
    rewrite (Stream_uint_EOL 8 s rest Hk Hs). reflexivity. }
  split; [split; [intros H; apply (Stream_List_EOL_inv s s' H Hk)|]|].
  { intros (-> & rest & Hs). apply (Stream_List_EOL s rest Hk Hs). }
  split; [split; [intros H; apply (Stream_Raw_EOL_inv s s' H Hk)|]|].
  { intros (-> & rest & Hs). unfold Stream_Raw, bind.
    rewrite (HK rest Hs). reflexivity. }
  intros H. exact (Stream_ListEnd_not_EOL _ _ _ H eq_refl).
Qed.

Lemma EOL_only_at_list_end_witness :
  Stream_Bytes s_eol = (inr EOL, s_eol)
  /\ Stream_Raw s_eol = (inr EOL, s_eol).
Proof.
  destruct (EOL_only_at_list_end s_eol s_eol 64 eq_refl)
    as (HB & _ & _ & _ & HR & _).
  split.
  - apply HB. split; [reflexivity|]. exists [1]. reflexivity.
  - apply HR. split; [reflexivity|]. exists [1]. reflexivity.
Defined.

Lemma fields_coded rounds name fs :
  supported (TStruct name fs) = true -> Forall (field_coded rounds) fs.
Proof.
  intros Hs. destruct (supported_struct name fs Hs) as [_ Hsup]. clear Hs.
  induction Hsup as [|rf fs Hrf _ IH]; [constructor|].
  constructor; [|exact IH].
  exact (supported_coded (sfType rf) Hrf rounds).
Qed.

Lemma cachedDecoder_struct rounds name fs :
  supported (TStruct name fs) = true ->
  cachedDecoder rounds (TStruct name fs)
  = inl (plainStructDecoder rounds name fs).
Proof.
  intros Hs. pose proof (supported_struct name fs Hs) as [Hplain _].
  pose proof (fields_coded rounds name fs Hs) as Hcoded.
  unfold cachedDecoder, makeDecoder.
  cbn [infoWhileGenerating tdecoder].
  rewrite structFields_plain by (auto; apply length_map).
  unfold makeStructDecoder.
  rewrite (first_decoderErr_plain rounds name fs 0 Hcoded).
  reflexivity.
Qed.

(** Decoding the fields when the list holds [X] more bytes than they
    take. *)
Lemma decodeFields_plain_room rounds name suf :
  Forall (field_coded rounds) suf ->
  forall vsuf dsuf vpre s rest' stk X,
    Forall2 (fun rf v => has_type (sfType rf) v) suf vsuf ->
    Forall2 (fun rf v => has_type (sfType rf) v) suf dsuf ->
    len (flat_map rlp vsuf) < 2 ^ 63 ->
    len (flat_map rlp vsuf) < Z.of_nat rounds ->
    0 <= X -> len (flat_map rlp vsuf) + X < 2 ^ 64 ->
    kind s = -1 -> r s = flat_map rlp vsuf ++ rest' ->
    stack s = (len (flat_map rlp vsuf) + X) :: stk ->
    (limited s = true -> len (flat_map rlp vsuf) <= remaining s) ->
    exists s',
      decodeFields name
        (plainFields suf
           (map (fun rf => infoWhileGenerating rounds (sfType rf)) suf)
           (len vpre))
        (vpre ++ dsuf) s = (inl (vpre ++ vsuf), s')
      /\ r s' = rest' /\ stack s' = X :: stk /\ kind s' = -1.
Proof.
  induction 1 as [|rf suf (dec & wr & Hd & Hw & _ & Hdec & _) _ IH];
    intros vsuf dsuf vpre s rest' stk X Hv Hdst Hb Hr HX HX64 Hk Hrs Hst Hlim;
    inversion Hv as [|? v ? vsuf' Hv1 Hv']; subst;
    inversion Hdst as [|? d ? dsuf' Hd1 Hd']; subst.
  - cbn [map plainFields decodeFields]. unfold ret.
    eexists. split; [reflexivity|]. cbn [flat_map app] in *.
    change (len (@nil Z)) with 0 in *.
    repeat split; auto; try (rewrite Hst; f_equal; lia).
  - cbn [map plainFields decodeFields info index].
    rewrite Hd, Field_middle.
    cbn [flat_map] in *. rewrite len_app in *.
    pose proof (len_nonneg (rlp v)). pose proof (len_nonneg (flat_map rlp vsuf')).
    rewrite <- app_assoc in Hrs.
    destruct (Hdec v d s (flat_map rlp vsuf' ++ rest'))
      as (s1 & Hd1' & (Hr1 & Hrem1 & Hst1 & Hlim1) & Hk1); auto; try lia.
    { split; [rewrite Hst; lia|]. intros E. specialize (Hlim E). lia. }
    { unfold top_ok. rewrite Hst. lia. }
    rewrite Hd1'. rewrite to_nat_len, set_nth_middle.
    specialize (IH vsuf' dsuf' (vpre ++ [v]) s1 rest' stk X Hv' Hd').
    rewrite len_app, <- !app_assoc in IH. cbn [app] in IH.
    change (len [v]) with 1 in IH.
    destruct IH as (s2 & Hd2 & Hr2 & Hst2 & Hk2); auto; try lia.
    { rewrite Hr1, Hrs. apply skipn_len_app. }
    { rewrite Hst1, Hst. cbn. f_equal. lia. }
    { rewrite Hlim1, Hrem1. intros E. rewrite E in *.
      specialize (Hlim eq_refl). lia. }
    rewrite Hd2. eexists. split; [reflexivity|].
    repeat split; auto.
Qed.

(** Decoding the fields when the list ends before the last of them. *)
Lemma decodeFields_plain_short rounds name suf :
  Forall (field_coded rounds) suf ->
  forall vsuf dsuf vpre s rest' stk,
    (List.length vsuf < List.length suf)%nat ->
    Forall2 (fun rf v => has_type (sfType rf) v)
      (firstn (List.length vsuf) suf) vsuf ->
    Forall2 (fun rf v => has_type (sfType rf) v) suf dsuf ->
    len (flat_map rlp vsuf) < 2 ^ 63 ->
    len (flat_map rlp vsuf) < Z.of_nat rounds ->
    kind s = -1 -> r s = flat_map rlp vsuf ++ rest' ->
    stack s = len (flat_map rlp vsuf) :: stk ->
    (limited s = true -> len (flat_map rlp vsuf) <= remaining s) ->
    exists s',
      decodeFields name
        (plainFields suf
           (map (fun rf => infoWhileGenerating rounds (sfType rf)) suf)
           (len vpre))
        (vpre ++ dsuf) s
      = (inr (decodeError "too few elements" name []), s').
Proof.
  induction 1 as [|rf suf (dec & wr & Hd & Hw & _ & Hdec & Heol) _ IH];
    intros vsuf dsuf vpre s rest' stk Hlen Hv Hdst Hb Hr Hk Hrs Hst Hlim;
    [cbn in Hlen; lia|].
  inversion Hdst as [|? d ? dsuf' Hd1 Hd']; subst.
  cbn [map plainFields decodeFields info index optional].
  rewrite Hd, Field_middle.
  destruct vsuf as [|v vsuf'].
  - cbn [flat_map] in Hst. change (len (@nil Z)) with 0 in Hst.
    rewrite (Heol d s stk Hk Hst). eexists. reflexivity.
  - cbn [List.length firstn] in Hv, Hlen.
    inversion Hv as [|? ? ? ? Hv1 Hv']; subst.
    cbn [flat_map] in *. rewrite len_app in *.
    pose proof (len_nonneg (rlp v)). pose proof (len_nonneg (flat_map rlp vsuf')).
    rewrite <- app_assoc in Hrs.
    destruct (Hdec v d s (flat_map rlp vsuf' ++ rest'))
      as (s1 & Hd1' & (Hr1 & Hrem1 & Hst1 & Hlim1) & Hk1); auto; try lia.
    { split; [rewrite Hst; lia|]. intros E. specialize (Hlim E). lia. }
    { unfold top_ok. rewrite Hst. lia. }
    rewrite Hd1'. rewrite to_nat_len, set_nth_middle.
    specialize (IH vsuf' dsuf' (vpre ++ [v]) s1 rest' stk ltac:(lia) Hv' Hd').
    rewrite len_app, <- !app_assoc in IH. cbn [app] in IH.
    change (len [v]) with 1 in IH.
    apply IH; auto; try lia.
    { rewrite Hr1, Hrs. apply skipn_len_app. }
    { rewrite Hst1, Hst. cbn. f_equal. lia. }
    { rewrite Hlim1, Hrem1. intros E. rewrite E in *.
      specialize (Hlim eq_refl). lia. }
Qed.

(** The stream [DecodeBytes] reads from. *)
Lemma Reset_DecodeBytes b :
  1 <= len b ->
  let s := Stream_Reset b false (len b) in
  kind s = -1 /\ r s = b /\ stack s = [] /\ fits (len b) s /\ top_ok s
  /\ limited s = true /\ remaining s = len b.
Proof.
  intros Hl. unfold Stream_Reset, fits, top_ok.
  destruct (Z.gtb_spec (len b) 0); [|lia]. cbn.
  repeat split; auto; lia.
Qed.

(** X15. Decoding into a struct a list that holds, after the values of
    all its fields, one more value fails with the error "input list has
    too many elements". *)
Theorem struct_too_many_elements (name : string) (fs : list (StructField rtype))
  (l : list value) (tx : rtype) (x dest : value) :
  supported (TStruct name fs) = true ->
  Forall2 (fun rf v => has_type (sfType rf) v) fs l ->
  has_type tx x ->
  has_type (TStruct name fs) dest ->
  len (rlp (VStruct (l ++ [x]))) < 2 ^ 63 ->
  DecodeBytes (rlp (VStruct (l ++ [x]))) (TStruct name fs) dest
  = inr (decodeError "input list has too many elements" name []).
Proof.
  intros Hs Hl Hx Hdest Hb.
  inversion Hdest as [| | | | |? ? dl Hdl]; subst.
  cbn [rlp] in *. rewrite flat_map_app in *. cbn [flat_map] in *.
  rewrite app_nil_r in *.
  set (payload := flat_map rlp l ++ rlp x) in *.
  set (b := puthead 0xC0 0xF7 (len payload) ++ payload) in *.
  pose proof (len_nonneg payload) as Hp0.
  pose proof (puthead_nonempty 0xC0 0xF7 (len payload)) as Hh.
  assert (Hlb : len b = len (puthead 0xC0 0xF7 (len payload)) + len payload)
    by (unfold b; apply len_app).
  pose proof (rlp_nonempty x) as Hx1.
  pose proof (len_nonneg (flat_map rlp l)) as Hl0.
  assert (Hpl : len payload = len (flat_map rlp l) + len (rlp x))
    by (unfold payload; apply len_app).
  destruct (Reset_DecodeBytes b ltac:(lia))
    as (Hk & Hr & Hst & Hf & Htop & Hlim & Hrem).
  set (s0 := Stream_Reset b false (len b)) in *.
  destruct (Stream_List_ok (len payload) (payload ++ []) s0)
    as (s1 & HL & Hr1 & Hrem1 & Hst1 & Hlim1 & Hk1); auto; try lia.
  { rewrite Hr, app_nil_r. reflexivity. }
  { rewrite <- Hlb. exact Hf. }
  destruct (decodeFields_plain_room (S (List.length b)) name fs
              (fields_coded _ name fs Hs) l dl [] s1 (rlp x ++ []) [] (len (rlp x)))
    as (s2 & Hd & Hr2 & Hst2 & Hk2); auto; try lia.
  { unfold len in *. lia. }
  { rewrite Hr1. unfold payload. rewrite <- app_assoc. reflexivity. }
  { rewrite Hst1, Hst. cbn. f_equal. lia. }
  { intros _. rewrite Hrem1, Hlim, Hrem. lia. }
  cbn [app] in Hd. change (len (@nil value)) with 0 in Hd.
  unfold DecodeBytes, Stream_Decode.
  rewrite cachedDecoder_struct by assumption.
  unfold plainStructDecoder, bind. fold s0.
  rewrite (wrapped_ok _ _ _ _ _ HL). cbn [struct_dest]. rewrite Hd.
  unfold wrapped, Stream_ListEnd, bind, get, listLimit. rewrite Hst2.
  cbn [negb]. destruct (Z.gtb_spec (len (rlp x)) 0); [|lia].
  reflexivity.
Qed.

Lemma struct_too_many_elements_witness :
  DecodeBytes (rlp (VStruct ([VUint 1; VString [0x61]] ++ [VUint 3]))) T_pair
    (zeroValue T_pair)
  = inr (decodeError "input list has too many elements" "pair" []).
Proof.
  apply (struct_too_many_elements "pair" _ _ (TUint U64)).
  - reflexivity.
  - repeat constructor; cbn; unfold is_byte; lia.
  - constructor. cbn. lia.
  - apply zeroValue_has_type. reflexivity.
  - vm_compute. reflexivity.
Defined.

(** X16. Decoding into a struct a list that ends before the last field,
    none of the fields being optional, fails with the error "too few
    elements". *)
Theorem struct_too_few_elements (name : string) (fs : list (StructField rtype))
  (l : list value) (dest : value) :
  supported (TStruct name fs) = true ->
  (List.length l < List.length fs)%nat ->
  Forall2 (fun rf v => has_type (sfType rf) v) (firstn (List.length l) fs) l ->
  has_type (TStruct name fs) dest ->
  len (rlp (VStruct l)) < 2 ^ 63 ->
  DecodeBytes (rlp (VStruct l)) (TStruct name fs) dest
  = inr (decodeError "too few elements" name []).
Proof.
  intros Hs Hshort Hl Hdest Hb.
  inversion Hdest as [| | | | |? ? dl Hdl]; subst.
  cbn [rlp] in *.
  set (payload := flat_map rlp l) in *.
  set (b := puthead 0xC0 0xF7 (len payload) ++ payload) in *.
  pose proof (len_nonneg payload) as Hp0.
  pose proof (puthead_nonempty 0xC0 0xF7 (len payload)) as Hh.
  assert (Hlb : len b = len (puthead 0xC0 0xF7 (len payload)) + len payload)
    by (unfold b; apply len_app).
  destruct (Reset_DecodeBytes b ltac:(lia))
    as (Hk & Hr & Hst & Hf & Htop & Hlim & Hrem).
  set (s0 := Stream_Reset b false (len b)) in *.
  destruct (Stream_List_ok (len payload) (payload ++ []) s0)
    as (s1 & HL & Hr1 & Hrem1 & Hst1 & Hlim1 & Hk1); auto; try lia.
  { rewrite Hr, app_nil_r. reflexivity. }
  { rewrite <- Hlb. exact Hf. }
  destruct (decodeFields_plain_short (S (List.length b)) name fs
              (fields_coded _ name fs Hs) l dl [] s1 [] [])
    as (s2 & Hd); auto; fold payload.
  { lia. }
  { unfold len in *. lia. }
  { rewrite Hst1, Hst. reflexivity. }
  { intros _. rewrite Hrem1, Hlim, Hrem. lia. }
  cbn [app] in Hd. change (len (@nil value)) with 0 in Hd.
  unfold DecodeBytes, Stream_Decode.
  rewrite cachedDecoder_struct by assumption.
  unfold plainStructDecoder, bind. fold s0.
  rewrite (wrapped_ok _ _ _ _ _ HL). cbn [struct_dest]. rewrite Hd.
  reflexivity.
Qed.

Lemma struct_too_few_elements_witness :
  DecodeBytes (rlp (VStruct [VUint 1])) T_pair (zeroValue T_pair)
  = inr (decodeError "too few elements" "pair" []).
Proof.
  apply struct_too_few_elements.
  - reflexivity.
  - cbn. lia.
  - repeat constructor; cbn; lia.
  - apply zeroValue_has_type. reflexivity.
  - vm_compute. reflexivity.
Defined.

Lemma KindM_of_Kind s k sz s1 :
  Stream_Kind s = ((k, sz, None), s1) -> KindM s = (inl (k, sz), s1).
Proof. intros H. unfold KindM. rewrite H. reflexivity. Qed.

Lemma uint_ok_kind m s n s' :
  Stream_uint m s = (inl n, s') ->
  exists k sz s1, KindM s = (inl (k, sz), s1) /\ (k =? List) = false.
Proof.
  intros H. unfold Stream_uint in H. apply bind_inl in H.
  destruct H as ([k sz] & s1 & HK & H). exists k, sz, s1.
  split; [exact HK|].
  destruct (Z.eqb_spec k Byte) as [->|]; [reflexivity|].
  destruct (Z.eqb_spec k String) as [->|]; [reflexivity|discriminate].
Qed.

Lemma Bytes_ok_kind s b s' :
  Stream_Bytes s = (inl b, s') ->
  exists k sz s1, KindM s = (inl (k, sz), s1) /\ (k =? List) = false.
Proof.
  intros H. unfold Stream_Bytes in H. apply bind_inl in H.
  destruct H as ([k sz] & s1 & HK & H). exists k, sz, s1.
  split; [exact HK|].
  destruct (Z.eqb_spec k Byte) as [->|]; [reflexivity|].
  destruct (Z.eqb_spec k String) as [->|]; [reflexivity|discriminate].
Qed.

Lemma string_kind t v rest s :
  has_type t v -> is_list_type t = false -> len (rlp v) < 2 ^ 63 ->
  kind s = -1 -> r s = rlp v ++ rest -> fits (len (rlp v)) s ->
  exists k sz s1, KindM s = (inl (k, sz), s1) /\ (k =? List) = false.
Proof.
  intros Hv Ht Hb Hk Hr Hf.
  destruct Hv as [b|k n Hn|b Hbs|e b He Hbs|e l He Hl'|name fs l Hfs];
    cbn [rlp is_list_type] in *; try discriminate.
  - assert (Hrlp : (if b then [1] else [128]) = enc_uint (if b then 1 else 0))
      by (destruct b; reflexivity).
    rewrite Hrlp in *.
    destruct (Stream_uint_ok U8 (if b then 1 else 0) rest s) as (s' & Hu & _);
      auto.
    { destruct b; cbn; lia. }
    exact (uint_ok_kind _ _ _ _ Hu).
  - destruct (Stream_uint_ok k n rest s Hn Hk Hr Hf) as (s' & Hu & _).
    exact (uint_ok_kind _ _ _ _ Hu).
  - destruct (Stream_Bytes_ok b rest s Hbs (bytes_bound b Hb) Hk Hr Hf)
      as (s' & Hu & _).
    exact (Bytes_ok_kind _ _ _ Hu).
  - destruct (Stream_Bytes_ok b rest s Hbs (bytes_bound b Hb) Hk Hr Hf)
      as (s' & Hu & _).
    exact (Bytes_ok_kind _ _ _ Hu).
  - rewrite He in Ht. discriminate.
Qed.

Lemma list_kind t v rest s :
  has_type t v -> is_list_type t = true -> len (rlp v) < 2 ^ 63 ->
  kind s = -1 -> r s = rlp v ++ rest -> fits (len (rlp v)) s ->
  exists sz s1, KindM s = (inl (List, sz), s1).
Proof.
  intros Hv Ht Hb Hk Hr Hf.
  assert (Hgen : forall l,
    rlp v = puthead 0xC0 0xF7 (len (flat_map rlp l)) ++ flat_map rlp l ->
    exists sz s1, KindM s = (inl (List, sz), s1)).
  { intros l E. rewrite E in *. rewrite len_app in *.
    pose proof (len_nonneg (flat_map rlp l)).
    pose proof (puthead_nonempty 0xC0 0xF7 (len (flat_map rlp l))).
    rewrite <- app_assoc in Hr.
    destruct (Kind_puthead 0xC0 0xF7 List (len (flat_map rlp l))
                (flat_map rlp l ++ rest) s
                ltac:(right; repeat split) ltac:(lia) Hk Hr Hf)
      as (s1 & HK & _).
    exists (len (flat_map rlp l)), s1. apply KindM_of_Kind. exact HK. }
  destruct Hv as [b|k n Hn|b Hbs|e b He Hbs|e l He Hl'|name fs l Hfs];
    cbn [is_list_type] in *; try discriminate.
  - rewrite He in Ht. discriminate.
  - apply (Hgen l). reflexivity.
  - apply (Hgen l). reflexivity.
Qed.

Lemma expects_list t rounds dest s k sz s1 :
  supported t = true -> is_list_type t = true ->
  KindM s = (inl (k, sz), s1) -> (k =? List) = false ->
  Stream_Decode rounds t dest s
  = (inr (decodeError "expected input list" (rtype_String t) []), s1).
Proof.
  intros Hs Ht HK Hk.
  assert (HL : forall typ,
            wrapped typ Stream_List s
            = (inr (decodeError "expected input list" typ []), s1)).
  { intros typ. unfold wrapped, Stream_List, bind. rewrite HK. cbn.
    rewrite Hk. reflexivity. }
  destruct t as [|k0| |e|name fs|name k0]; cbn [is_list_type] in Ht;
    try discriminate.
  - destruct (isByte e) eqn:Hbyte; [discriminate|].
    cbn [supported] in Hs.
    destruct (supported_coded e Hs rounds) as (edec & ewr & Hed & _).
    unfold Stream_Decode, cachedDecoder, makeDecoder.
    cbn [infoWhileGenerating tdecoder]. unfold makeListDecoder.
    rewrite Hbyte, Hed. cbn [Tail noTags].
    unfold decodeListSlice, bind. rewrite HL. reflexivity.
  - unfold Stream_Decode. rewrite cachedDecoder_struct by assumption.
    unfold plainStructDecoder, bind. rewrite HL. reflexivity.
Qed.

Lemma expects_string t rounds dest s sz s1 :
  supported t = true -> is_list_type t = false ->
  KindM s = (inl (List, sz), s1) ->
  Stream_Decode rounds t dest s
  = (inr (decodeError "expected input string or byte" (rtype_String t) []), s1).
Proof.
  intros Hs Ht HK.
  assert (HU : forall m, Stream_uint m s = (inr ErrExpectedString, s1)).
  { intros m. unfold Stream_uint, bind. rewrite HK. reflexivity. }
  assert (HB : Stream_Bytes s = (inr ErrExpectedString, s1)).
  { unfold Stream_Bytes, bind. rewrite HK. reflexivity. }
  destruct t as [|k0| |e|name fs|name k0]; cbn [is_list_type] in Ht;
    try discriminate.
  - unfold Stream_Decode, cachedDecoder, makeDecoder.
    cbn [infoWhileGenerating tdecoder].
    unfold decodeBool, bind, wrapped, Stream_Bool, bind. rewrite HU.
    reflexivity.
  - unfold Stream_Decode, cachedDecoder, makeDecoder.
    cbn [infoWhileGenerating tdecoder].
    unfold decodeUint, bind, wrapped. rewrite HU. reflexivity.
  - unfold Stream_Decode, cachedDecoder, makeDecoder.
    cbn [infoWhileGenerating tdecoder].
    unfold decodeString, bind, wrapped. rewrite HB. reflexivity.
  - destruct (isByte e) eqn:Hbyte; [|discriminate].
    unfold Stream_Decode, cachedDecoder, makeDecoder.
    cbn [infoWhileGenerating tdecoder]. unfold makeListDecoder.
    rewrite Hbyte. unfold decodeByteSlice, bind, wrapped. rewrite HB.
    reflexivity.
Qed.

(** X17. The encoding of a value of a type that is encoded as a string
    (integers, booleans, strings, byte slices) does not decode into a type
    that is encoded as a list (other slices, structs), nor the other way
    round: [DecodeBytes] fails with "expected input list", or "expected
    input string or byte", for the destination type. *)
Theorem kind_mismatch_rejected (t t' : rtype) (v dest : value) :
  supported t = true -> has_type t' v ->
  len (rlp v) < 2 ^ 63 ->
  is_list_type t <> is_list_type t' ->
  DecodeBytes (rlp v) t dest
  = inr (decodeError
           (if is_list_type t then "expected input list"
            else "expected input string or byte")
           (rtype_String t) []).
Proof.
  intros Hs Hv Hb Hne.
  pose proof (rlp_nonempty v) as H1.
  destruct (Reset_DecodeBytes (rlp v) H1)
    as (Hk & Hr & Hst & Hf & Htop & Hlim & Hrem).
  set (s0 := Stream_Reset (rlp v) false (len (rlp v))) in *.
  rewrite <- (app_nil_r (rlp v)) in Hr.
  unfold DecodeBytes. fold s0.
  destruct (is_list_type t) eqn:Ht.
  - assert (Ht' : is_list_type t' = false)
      by (destruct (is_list_type t'); congruence).
    destruct (string_kind t' v [] s0 Hv Ht' Hb Hk Hr Hf)
      as (k & sz & s1 & HK & Hkl).
    rewrite (expects_list t _ dest s0 k sz s1 Hs Ht HK Hkl). reflexivity.
  - assert (Ht' : is_list_type t' = true)
      by (destruct (is_list_type t'); congruence).
    destruct (list_kind t' v [] s0 Hv Ht' Hb Hk Hr Hf) as (sz & s1 & HK).
    rewrite (expects_string t _ dest s0 sz s1 Hs Ht HK). reflexivity.
Qed.

Lemma kind_mismatch_rejected_witness :
  DecodeBytes (rlp (VUint 1024)) (TSlice (TUint U64)) (VSlice [])
  = inr (decodeError "expected input list" "[]uint64" []).
Proof.
  apply (kind_mismatch_rejected (TSlice (TUint U64)) (TUint U64)).
  - reflexivity.
  - constructor. cbn. lia.
  - vm_compute. reflexivity.
  - discriminate.
Defined.

(** * Several values on one stream *)

(** At the top level the end of the input is [io.EOF]. *)
Lemma KindM_exhausted s :
  kind s = -1 -> stack s = [] -> r s = [] ->
  exists s', KindM s = (inr io_EOF, s').
Proof.
  destruct s as [r0 rem sz ke st k bv lim]. cbn. intros -> -> ->.
  unfold KindM, Stream_Kind, Stream_readKind, readByte, willRead, bind,
    modify, get, listLimit, fail, ret; cbn.
  destruct lim; cbn; [destruct (1 >? rem); cbn|]; eexists; reflexivity.
Qed.

Lemma Stream_Decode_exhausted t rounds dest s :
  supported t = true ->
  kind s = -1 -> stack s = [] -> r s = [] ->
  exists s', Stream_Decode rounds t dest s = (inr io_EOF, s').
Proof.
  intros Hs Hk Hst Hr.
  destruct (KindM_exhausted s Hk Hst Hr) as (s' & HK). exists s'.
  assert (HU : forall m, Stream_uint m s = (inr io_EOF, s'))
    by (intros m; unfold Stream_uint, bind; rewrite HK; reflexivity).
  assert (HB : Stream_Bytes s = (inr io_EOF, s'))
    by (unfold Stream_Bytes, bind; rewrite HK; reflexivity).
  assert (HL : forall typ, wrapped typ Stream_List s = (inr io_EOF, s'))
    by (intros typ; unfold wrapped, Stream_List, bind; rewrite HK; reflexivity).
  destruct t as [|k0| |e|name fs|name k0]; try discriminate.
  - unfold Stream_Decode, cachedDecoder, makeDecoder.
    cbn [infoWhileGenerating tdecoder].
    unfold decodeBool, bind, wrapped, Stream_Bool, bind. rewrite HU.
    reflexivity.
  - unfold Stream_Decode, cachedDecoder, makeDecoder.
    cbn [infoWhileGenerating tdecoder].
    unfold decodeUint, bind, wrapped. rewrite HU. reflexivity.
  - unfold Stream_Decode, cachedDecoder, makeDecoder.
    cbn [infoWhileGenerating tdecoder].
    unfold decodeString, bind, wrapped. rewrite HB. reflexivity.
  - cbn [supported] in Hs.
    unfold Stream_Decode, cachedDecoder, makeDecoder.
    cbn [infoWhileGenerating tdecoder]. unfold makeListDecoder.
    destruct (isByte e) eqn:Hbyte.
    + unfold decodeByteSlice, bind, wrapped. rewrite HB. reflexivity.
    + destruct (supported_coded e Hs rounds) as (edec & ewr & Hed & _).
      rewrite Hed. cbn [Tail noTags].
      unfold decodeListSlice, bind. rewrite HL. reflexivity.
  - unfold Stream_Decode. rewrite cachedDecoder_struct by assumption.
    unfold plainStructDecoder, bind. rewrite HL. reflexivity.
Qed.

(** X18. Two values written one after the other are read back one after
    the other from one stream, with or without an input limit that covers
    them; the next [Decode] then returns [io.EOF]. *)
Theorem Decode_sequence (t1 t2 t3 : rtype) (v1 v2 d1 d2 d3 : value)
  (knownLen : bool) (inputLimit : Z) :
  supported t1 = true -> supported t2 = true -> supported t3 = true ->
  has_type t1 v1 -> has_type t1 d1 -> has_type t2 v2 -> has_type t2 d2 ->
  len (rlp v1 ++ rlp v2) < 2 ^ 63 ->
  inputLimit = 0 \/ len (rlp v1 ++ rlp v2) <= inputLimit ->
  exists s1 s2 s3,
    Stream_Decode (S (List.length (rlp v1 ++ rlp v2))) t1 d1
      (NewStream (rlp v1 ++ rlp v2) knownLen inputLimit) = (inl v1, s1)
    /\ Stream_Decode (S (List.length (rlp v1 ++ rlp v2))) t2 d2 s1
       = (inl v2, s2)
    /\ Stream_Decode (S (List.length (rlp v1 ++ rlp v2))) t3 d3 s2
       = (inr io_EOF, s3).
Proof.
  intros Hs1 Hs2 Hs3 Hv1 Hd1 Hv2 Hd2 Hb Hlim.
  set (input := rlp v1 ++ rlp v2) in *.
  set (rounds := S (List.length input)).
  assert (Hlen : len input = len (rlp v1) + len (rlp v2))
    by (unfold input; apply len_app).
  pose proof (rlp_nonempty v1) as H1. pose proof (rlp_nonempty v2) as H2.
  assert (Hrounds : len input < Z.of_nat rounds)
    by (unfold rounds, len; lia).
  set (s0 := NewStream input knownLen inputLimit).
  destruct (Reset_state input knownLen inputLimit) as (Hk0 & Hr0 & Hst0).
  change (Stream_Reset input knownLen inputLimit) with s0 in Hk0, Hr0, Hst0.
  assert (Hf0 : fits (len (rlp v1) + len (rlp v2)) s0).
  { rewrite <- Hlen. apply Reset_fits; [exact Hlim|lia]. }
  destruct (Stream_Decode_supported t1 v1 d1 s0 (rlp v2) rounds)
    as (s1 & HD1 & Hm1 & Hk1); auto; try lia.
  { apply (fits_le (len (rlp v1) + len (rlp v2))); [lia|exact Hf0]. }
  { unfold top_ok. rewrite Hst0. exact I. }
  assert (Hr1 : r s1 = rlp v2 ++ []).
  { destruct Hm1 as (A & _). rewrite A, Hr0, app_nil_r.
    apply skipn_len_app. }
  assert (Hst1 : stack s1 = []).
  { destruct Hm1 as (_ & _ & C & _). rewrite C, Hst0. reflexivity. }
  destruct (Stream_Decode_supported t2 v2 d2 s1 [] rounds)
    as (s2 & HD2 & Hm2 & Hk2); auto; try lia.
  { apply (fits_moved _ _ _ _ Hm1 Hf0). }
  { unfold top_ok. rewrite Hst1. exact I. }
  assert (Hr2 : r s2 = []).
  { destruct Hm2 as (A & _). rewrite A, Hr1, app_nil_r.
    rewrite to_nat_len. apply skipn_all. }
  assert (Hst2 : stack s2 = []).
  { destruct Hm2 as (_ & _ & C & _). rewrite C, Hst1. reflexivity. }
  destruct (Stream_Decode_exhausted t3 rounds d3 s2 Hs3 Hk2 Hst2 Hr2)
    as (s3 & HD3).
  exists s1, s2, s3. repeat split; assumption.
Qed.

Lemma Decode_sequence_witness :
  exists s1 s2 s3,
    Stream_Decode (S (List.length (rlp (VUint 1024) ++ rlp (VString [0x61]))))
      (TUint U64) (VUint 0)
      (NewStream (rlp (VUint 1024) ++ rlp (VString [0x61])) false 0)
    = (inl (VUint 1024), s1)
    /\ Stream_Decode (S (List.length (rlp (VUint 1024) ++ rlp (VString [0x61]))))
         TString (VString []) s1
       = (inl (VString [0x61]), s2)
    /\ Stream_Decode (S (List.length (rlp (VUint 1024) ++ rlp (VString [0x61]))))
         TBool (VBool false) s2
       = (inr io_EOF, s3).
Proof.
  apply (Decode_sequence (TUint U64) TString TBool).
  - reflexivity.
  - reflexivity.
  - reflexivity.
  - constructor. cbn. lia.
  - constructor. cbn. lia.
  - repeat constructor; unfold is_byte; lia.
  - repeat constructor.
  - vm_compute. reflexivity.
  - left. reflexivity.
Defined.

(** * Encodings do not overlap *)

Lemma EncodeToBytes_supported t v :
  supported t = true -> has_type t v -> len (rlp v) < 2 ^ 63 ->
  EncodeToBytes t v = inl (rlp v).
Proof.
  intros Hs Hv Hb. unfold EncodeToBytes.
  rewrite encode_supported by assumption. apply makeBytes_filled. assumption.
Qed.

Lemma rlp_prefix_free t v1 v2 extra :
  supported t = true -> has_type t v1 -> has_type t v2 ->
  len (rlp v2) < 2 ^ 63 ->
  rlp v2 = rlp v1 ++ extra -> v1 = v2 /\ extra = [].
Proof.
  intros Hs Hv1 Hv2 Hb E.
  pose proof (zeroValue_has_type t Hs) as Hz.
  destruct (Stream_Decode_prefix t v1 (zeroValue t) extra Hs Hv1 Hz
              ltac:(rewrite <- E; exact Hb)) as (s & HD1 & Hr1).
  destruct (Stream_Decode_prefix t v2 (zeroValue t) [] Hs Hv2 Hz
              ltac:(rewrite app_nil_r; exact Hb)) as (s' & HD2 & Hr2).
  rewrite app_nil_r, E in HD2. rewrite HD1 in HD2.
  injection HD2 as Ev Es. split; [exact Ev|].
  rewrite <- Hr1, Es. exact Hr2.
Qed.

(** X19. The encodings of the values of a supported type are prefix free:
    when the bytes [EncodeToBytes] returns for one value start with the
    bytes it returns for another, the two values are the same.  So
    different values have different encodings, and no encoding goes on
    as another one. *)
Theorem encoding_prefix_free (t : rtype) (v1 v2 : value) (b1 b2 extra : list Z) :
  supported t = true -> has_type t v1 -> has_type t v2 ->
  len (rlp v1) < 2 ^ 63 -> len (rlp v2) < 2 ^ 63 ->
  EncodeToBytes t v1 = inl b1 -> EncodeToBytes t v2 = inl b2 ->
  b2 = b1 ++ extra ->
  v1 = v2 /\ extra = [].
Proof.
  intros Hs Hv1 Hv2 Hb1 Hb2 E1 E2 E.
  rewrite EncodeToBytes_supported in E1, E2 by assumption.
  injection E1 as <-. injection E2 as <-.
  exact (rlp_prefix_free t v1 v2 extra Hs Hv1 Hv2 Hb2 E).
Qed.

Lemma encoding_prefix_free_witness :
  VUint 1024 = VUint 1024 /\ @nil Z = [].
Proof.
  apply (encoding_prefix_free (TUint U64) (VUint 1024) (VUint 1024)
           [0x82; 0x04; 0x00] [0x82; 0x04; 0x00] []).
  - reflexivity.
  - constructor. cbn. lia.
  - constructor. cbn. lia.
  - vm_compute. reflexivity.
  - vm_compute. reflexivity.
  - reflexivity.
  - reflexivity.
  - reflexivity.
Defined.

(** X20. [DecodeBytes] returns no value for an encoding that is cut
    short: on a proper prefix of the encoding of a value of a supported
    type it fails. *)
Theorem truncated_input_rejected (t : rtype) (v dest : value)
  (b extra : list Z) :
  supported t = true -> has_type t v -> has_type t dest ->
  is_bytes b -> len (rlp v) < 2 ^ 63 ->
  rlp v = b ++ extra -> extra <> [] ->
  exists e, DecodeBytes b t dest = inr e.
Proof.
  intros Hs Hv Hd Hbs Hb E Hne.
  destruct (DecodeBytes b t dest) as [v'|e] eqn:HD; [exfalso|eexists; reflexivity].
  assert (Hlb : len b < 2 ^ 64).
  { rewrite E, len_app in Hb. pose proof (len_nonneg extra). lia. }
  destruct (DecodeBytes_canonical t dest b v' Hs Hd Hbs Hlb HD) as [-> Hv'].
  destruct (rlp_prefix_free t v' v extra Hs Hv' Hv Hb E) as [_ Hx].
  contradiction.
Qed.

Lemma truncated_input_rejected_witness :
  exists e, DecodeBytes [0x82; 0x04] (TUint U64) (VUint 0) = inr e.
Proof.
  apply (truncated_input_rejected (TUint U64) (VUint 1024) (VUint 0)
           [0x82; 0x04] [0x00]).
  - reflexivity.
  - constructor. cbn. lia.
  - constructor. cbn. lia.
  - repeat constructor; unfold is_byte; lia.
  - vm_compute. reflexivity.
  - reflexivity.
  - discriminate.
Defined.

Lemma fold_filled_list (body : list op) :
  Forall (fun o => forall buf, run_op o buf = filled (op_value o) buf) body ->
  forall buf, run body buf = filled_list (map op_value body) buf.
Proof.
  unfold run. induction 1 as [|o body Ho _ IH]; intros buf.
  - cbn. rewrite filled_list_nil. reflexivity.
  - cbn [fold_left map]. rewrite Ho, IH, filled_list_cons. reflexivity.
Qed.

Lemma len_flat_map_In {A} (f : A -> list Z) l x :
  In x l -> len (f x) <= len (flat_map f l).
Proof.
  induction l as [|y l IH]; intros Hin; [contradiction|].
  cbn [flat_map]. rewrite len_app.
  pose proof (len_nonneg (f y)). pose proof (len_nonneg (flat_map f l)).
  destruct Hin as [->|Hin]; [lia|]. specialize (IH Hin). lia.
Qed.

Lemma run_op_filled o :
  op_typed o = true -> len (rlp (op_value o)) < 2 ^ 63 ->
  forall buf, run_op o buf = filled (op_value o) buf.
Proof.
  induction o as [b|b|i|b|s|body IH] using op_ind'; intros Ht Hb buf;
    cbn [op_typed op_value run_op] in *.
  - discriminate.
  - rewrite filled_atom by reflexivity. destruct b; reflexivity.
  - apply andb_true_iff in Ht. destruct Ht as [H0 H1].
    apply Z.leb_le in H0. apply Z.ltb_lt in H1.
    rewrite filled_atom by reflexivity.
    apply writeUint64_enc_uint. lia.
  - rewrite filled_atom by reflexivity.
    apply writeBytes_enc_string. apply bytes_bound. exact Hb.
  - rewrite filled_atom by reflexivity. unfold encBuffer_writeString.
    apply writeBytes_enc_string. apply bytes_bound. exact Hb.
  - cbn [rlp] in Hb. rewrite flat_map_concat_map, map_map in Hb.
    rewrite <- flat_map_concat_map in Hb.
    assert (Hp : len (flat_map rlp (map op_value body)) < 2 ^ 63).
    { rewrite flat_map_concat_map, map_map, <- flat_map_concat_map.
      rewrite len_app in Hb.
      match type of Hb with
      | len ?h + _ < _ => pose proof (len_nonneg h)
      end. lia. }
    assert (Hall : Forall (fun o => forall buf,
                             run_op o buf = filled (op_value o) buf) body).
    { rewrite Forall_forall in IH. apply Forall_forall. intros o Hin.
      apply IH; [exact Hin| |].
      - rewrite forallb_forall in Ht. apply Ht. exact Hin.
      - pose proof (len_flat_map_In (fun o => rlp (op_value o)) body o Hin)
          as Hle.
        cbv beta in Hle.
        rewrite flat_map_concat_map, map_map, <- flat_map_concat_map in Hp.
        lia. }
    destruct (encBuffer_list buf) as [index buf1] eqn:EL.
    pose proof (fold_filled_list body Hall buf1) as HF. unfold run in HF.
    rewrite HF.
    replace index with (fst (encBuffer_list buf)) by (rewrite EL; reflexivity).
    replace buf1 with (snd (encBuffer_list buf)) by (rewrite EL; reflexivity).
    rewrite list_closed by assumption. reflexivity.
Qed.

Lemma run_filled ops :
  forallb op_typed ops = true ->
  len (flat_map (fun o => rlp (op_value o)) ops) < 2 ^ 63 ->
  forall buf, run ops buf = filled_list (map op_value ops) buf.
Proof.
  intros Ht Hb. apply fold_filled_list. apply Forall_forall. intros o Hin.
  apply run_op_filled.
  - rewrite forallb_forall in Ht. apply Ht. exact Hin.
  - pose proof (len_flat_map_In (fun o => rlp (op_value o)) ops o Hin) as Hle.
    cbv beta in Hle. lia.
Qed.

Lemma flush_filled_list l :
  len (flat_map rlp l) < 2 ^ 63 ->
  flush (str (filled_list l encBuffer_reset)) 0
    (lheads (filled_list l encBuffer_reset))
  = flat_map rlp l.
Proof.
  intros Hb. unfold filled_list, encBuffer_reset. cbn [str lheads app].
  change (len (@nil Z)) with 0.
  pose proof (flushes_list l) as HF.
  assert (Hall : Forall flushes l)
    by (apply Forall_forall; intros v _; apply value_flushes).
  specialize (HF Hall [] [] [] Hb I).
  cbn [app] in HF. change (len (@nil Z)) with 0 in HF.
  rewrite !app_nil_r in HF. rewrite HF.
  cbn [flush]. rewrite Z.add_0_l.
  pose proof (len_nonneg (flat_map flat l)).
  rewrite to_nat_len, skipn_all. apply app_nil_r.
Qed.

Lemma makeBytes_filled_list l :
  len (flat_map rlp l) < 2 ^ 63 ->
  encBuffer_makeBytes (filled_list l encBuffer_reset) = inl (flat_map rlp l)
  /\ encBuffer_size (filled_list l encBuffer_reset) = len (flat_map rlp l).
Proof.
  intros Hb.
  assert (Hsz : encBuffer_size (filled_list l encBuffer_reset)
                = len (flat_map rlp l)).
  { unfold filled_list, encBuffer_reset, encBuffer_size. cbn [str lhsize app].
    rewrite (sum_len_flat l Hb). lia. }
  split; [|exact Hsz].
  rewrite makeBytes_flush.
  - rewrite flush_filled_list by assumption. reflexivity.
  - unfold filled_list, encBuffer_reset. cbn [str lheads app].
    change (len (@nil Z)) with 0.
    apply (heads_list_ordered l).
    apply Forall_forall. intros v _. apply heads_ordered.
  - rewrite flush_filled_list, Hsz by assumption. reflexivity.
Qed.

(** X21. The bytes of a buffer after a sequence of [writeBool],
    [writeUint64], [writeBytes], [writeString] and nested pairs of [list]
    and [listEnd] are the encodings of the values written, in order, where
    each pair of [list] and [listEnd] has become one list: its header,
    computed when the list is closed, states the length of everything
    written in between. *)
Theorem buffer_writes_nested_lists (ops : list op) :
  forallb op_typed ops = true ->
  len (flat_map (fun o => rlp (op_value o)) ops) < 2 ^ 63 ->
  encBuffer_makeBytes (run ops encBuffer_reset)
  = inl (flat_map (fun o => rlp (op_value o)) ops)
  /\ encBuffer_size (run ops encBuffer_reset)
     = len (flat_map (fun o => rlp (op_value o)) ops).
Proof.
  intros Ht Hb. rewrite run_filled by assumption.
  assert (E : flat_map (fun o => rlp (op_value o)) ops
              = flat_map rlp (map op_value ops))
    by (rewrite !flat_map_concat_map, map_map; reflexivity).
  rewrite E in *. apply makeBytes_filled_list. exact Hb.
Qed.

Lemma buffer_writes_nested_lists_witness :
  encBuffer_makeBytes (run ops_nested encBuffer_reset)
  = inl (flat_map (fun o => rlp (op_value o)) ops_nested)
  /\ encBuffer_size (run ops_nested encBuffer_reset)
     = len (flat_map (fun o => rlp (op_value o)) ops_nested).
Proof.
  apply buffer_writes_nested_lists.
  - reflexivity.
  - vm_compute. reflexivity.
Defined.

(** X22. Closing a list grows the buffer by [ListSize] of what its body
    alone would take: the size of the content and of the header for it. *)
Theorem ListSize_encoded (body : list op) (buf : encBuffer) :
  forallb op_typed body = true ->
  len (rlp (op_value (opList body))) < 2 ^ 63 ->
  encBuffer_size (run_op (opList body) buf)
  = encBuffer_size buf + ListSize (encBuffer_size (run body encBuffer_reset)).
Proof.
  intros Ht Hb.
  rewrite (run_op_filled (opList body) Ht Hb buf).
  cbn [op_value rlp] in Hb.
  set (l := map op_value body) in *.
  pose proof (bound_payload l _ Hb) as Hp.
  assert (E : flat_map (fun o => rlp (op_value o)) body = flat_map rlp l)
    by (unfold l; rewrite !flat_map_concat_map, map_map; reflexivity).
  rewrite run_filled by (try assumption; rewrite E; assumption).
  fold l. destruct (makeBytes_filled_list l Hp) as [_ ->].
  pose proof (len_nonneg (flat_map rlp l)) as H0.
  unfold filled, encBuffer_size. cbn [str lhsize op_value flat hsz]. fold l.
  rewrite len_app. pose proof (sum_len_flat l Hp) as EP.
  unfold ListSize.
  pose proof (headsize_pos (len (flat_map rlp l)) ltac:(lia)) as Hh.
  rewrite (uint64_small (headsize _)) by lia.
  rewrite uint64_small by lia. lia.
Qed.

Lemma ListSize_encoded_witness :
  encBuffer_size
    (run_op (opList [opWriteBytes (repeat 0x61 60)]) encBuffer_reset)
  = encBuffer_size encBuffer_reset
    + ListSize (encBuffer_size
                  (run [opWriteBytes (repeat 0x61 60)] encBuffer_reset)).
Proof.
  apply ListSize_encoded.
  - reflexivity.
  - vm_compute. reflexivity.
Defined.

(** * The reader *)

(** X23. [EncodeToReader] returns the length of the encoding and a reader
    that yields the encoding: one [Read] into a buffer that holds it all
    returns it with [io.EOF], and reading to the end with a buffer of any
    size returns it piece by piece. *)
Theorem EncodeToReader_reads_encoding (t : rtype) (v : value) :
  supported t = true -> has_type t v -> len (rlp v) < 2 ^ 63 ->
  exists rd,
    EncodeToReader t v = inl (len (rlp v), rd)
    /\ (forall cap, len (rlp v) <= cap ->
          fst (encReader_Read cap rd) = (rlp v, Some io_EOF))
    /\ (forall cap fuel, 0 < cap -> len (rlp v) < Z.of_nat fuel ->
          drain fuel cap rd = inl (rlp v)).
Proof.
  intros Hs Hv Hb. unfold EncodeToReader.
  rewrite encode_supported by assumption. rewrite filled_size by assumption.
  eexists. split; [reflexivity|].
  set (rd := mkEncReader (Some (filled v encBuffer_reset)) 0 0 None).
  assert (Hrest : er_rest rd = rlp v).
  { unfold er_rest, rd. cbn [er_buf er_piece er_strpos er_lhpos app Z.to_nat skipn].
    apply flush_filled. assumption. }
  assert (Hwf : er_wf rd).
  { unfold er_wf, rd. cbn [er_buf er_piece er_strpos er_lhpos Z.to_nat skipn].
    refine (conj _ (conj _ (conj (filled_ordered v) _))); [lia|lia|discriminate]. }
  pose proof (len_nonneg (rlp v)) as H0.
  split.
  - intros cap Hcap.
    destruct (Read_spec cap rd Hwf ltac:(lia)) as (Hres & _).
    rewrite Hres, Hrest. cbn [app]. change (len (@nil Z)) with 0.
    rewrite Z.sub_0_r. rewrite firstn_all2 by (unfold len in *; lia).
    destruct (Z.leb_spec (len (rlp v)) cap); [reflexivity|lia].
  - intros cap fuel Hcap Hfuel.
    rewrite drain_spec; [rewrite Hrest; reflexivity|assumption|exact Hwf|].
    rewrite Hrest. assumption.
Qed.

Lemma EncodeToReader_reads_encoding_witness :
  exists rd,
    EncodeToReader T_example v_example = inl (len (rlp v_example), rd)
    /\ (forall cap, len (rlp v_example) <= cap ->
          fst (encReader_Read cap rd) = (rlp v_example, Some io_EOF))
    /\ (forall cap fuel, 0 < cap -> len (rlp v_example) < Z.of_nat fuel ->
          drain fuel cap rd = inl (rlp v_example)).
Proof.
  apply EncodeToReader_reads_encoding.
  - reflexivity.
  - exact has_type_example.
  - vm_compute. reflexivity.
Defined.

Lemma reflectKind_eqb_eq a b : reflectKind_eqb a b = true -> a = b.
Proof. destruct a, b; cbn; intros H; try discriminate; reflexivity. Qed.

Lemma parseTag_loop_tail field lastPublic tokens : forall ts ts',
  parseTag_loop field lastPublic tokens ts = (ts', None) ->
  tail_ok field lastPublic ts -> tail_ok field lastPublic ts'.
Proof.
  induction tokens as [|t0 rest IH]; intros ts ts' H Hok.
  - cbn in H. inversion H; subst. exact Hok.
  - cbn [parseTag_loop] in H.
    destruct (String.eqb (TrimSpace t0) EmptyString); [exact (IH _ _ H Hok)|].
    destruct (String.eqb (TrimSpace t0) "-").
    { apply (IH _ _ H). exact Hok. }
    destruct (String.eqb (TrimSpace t0) "nil" || String.eqb (TrimSpace t0) "nilString"
              || String.eqb (TrimSpace t0) "nilList").
    { destruct (negb (reflectKind_eqb (Type_Kind (FType field)) KPtr));
        [discriminate|].
      apply (IH _ _ H). exact Hok. }
    destruct (String.eqb (TrimSpace t0) "optional").
    { cbn [Tail Optional] in H. destruct (Tail ts) eqn:Et; [discriminate|].
      apply (IH _ _ H). unfold tail_ok. cbn [Tail]. discriminate. }
    destruct (String.eqb (TrimSpace t0) "tail"); [|discriminate].
    destruct (Z.eqb_spec (Index field) lastPublic) as [Ei|]; [|discriminate].
    cbn [negb Optional] in H.
    destruct (Optional ts) eqn:Eo; [discriminate|].
    destruct (reflectKind_eqb (Type_Kind (FType field)) KSlice) eqn:Ek;
      [|discriminate].
    cbn [negb] in H. apply (IH _ _ H). unfold tail_ok. cbn [Tail Optional].
    intros _. split; [exact Ei|].
    split; [apply reflectKind_eqb_eq; exact Ek|reflexivity].
Qed.

Lemma parseTag_tail field lastPublic :
  snd (parseTag field lastPublic) = None ->
  tail_ok field lastPublic (tagsOf lastPublic field).
Proof.
  unfold tagsOf, parseTag. intros H.
  destruct (parseTag_loop field lastPublic (Split_comma (Tag field) EmptyString)
              noTags) as [ts' o] eqn:E.
  cbn [snd fst] in *. subst o.
  apply (parseTag_loop_tail _ _ _ _ _ E). unfold tail_ok. cbn. discriminate.
Qed.

Lemma gather_inv lastPublic allFields : forall fields tags,
  gather lastPublic allFields = inl (fields, tags) ->
  fields = filter (kept lastPublic) allFields
  /\ tags = map (tagsOf lastPublic) fields
  /\ Forall (fun f => Exported f = true
                      /\ snd (parseTag f lastPublic) = None
                      /\ Ignored (tagsOf lastPublic f) = false) fields.
Proof.
  induction allFields as [|f rest IH]; intros fields tags H.
  - cbn in H. inversion H; subst. repeat split. constructor.
  - cbn [gather] in H. cbn [filter]. unfold kept at 1. unfold tagsOf at 1.
    destruct (Exported f) eqn:Ee; cbn [negb andb] in *.
    + destruct (parseTag f lastPublic) as [ts [e|]] eqn:Ep; [discriminate|].
      cbn [fst]. destruct (Ignored ts) eqn:Ei; cbn [negb].
      * exact (IH _ _ H).
      * destruct (gather lastPublic rest) as [[fs tgs]|e] eqn:Eg;
          [|discriminate].
        inversion H; subst. destruct (IH _ _ eq_refl) as (A & B & C).
        split; [f_equal; exact A|]. split.
        -- cbn [map]. unfold tagsOf at 1. rewrite Ep. cbn [fst].
           f_equal. exact B.
        -- constructor; [|exact C]. unfold tagsOf. rewrite Ep.
           repeat split; assumption.
    + exact (IH _ _ H).
Qed.

Lemma verifyOptional_after fields : forall tags name,
  List.length fields = List.length tags ->
  verifyOptional fields tags true name = None ->
  Forall (fun ts => soft_tag ts = true) tags.
Proof.
  induction fields as [|f fields IH]; intros tags name Hl H;
    destruct tags as [|ts tags]; try discriminate; [constructor|].
  cbn [verifyOptional] in H. cbn in Hl.
  destruct (Optional ts || Tail ts) eqn:E; [|discriminate].
  constructor; [exact E|]. apply (IH tags _ ltac:(lia) H).
Qed.

Lemma verifyOptional_split fields : forall tags name,
  List.length fields = List.length tags ->
  verifyOptional fields tags false name = None ->
  exists n,
    Forall (fun ts => soft_tag ts = false) (firstn n tags)
    /\ Forall (fun ts => soft_tag ts = true) (skipn n tags).
Proof.
  induction fields as [|f fields IH]; intros tags name Hl H;
    destruct tags as [|ts tags]; try discriminate.
  - exists O. split; constructor.
  - cbn [verifyOptional] in H. cbn in Hl.
    destruct (Optional ts || Tail ts) eqn:E.
    + exists O. split; [constructor|]. cbn [skipn].
      constructor; [exact E|].
      apply (verifyOptional_after fields tags _ ltac:(lia) H).
    + cbn [negb] in H. destruct (IH tags name ltac:(lia) H) as (n & A & B).
      exists (S n). cbn [firstn skipn]. split; [|exact B].
      constructor; [exact E|exact A].
Qed.



(** * Byte arrays *)

Lemma slice_all {A} (l : list A) : slice l 0 (len l) = l.
Proof.
  unfold slice. cbn [Z.to_nat skipn]. rewrite Z.sub_0_r, to_nat_len.
  apply firstn_all.
Qed.

(** The writer of a byte array writes what [writeBytes] writes for
    a byte slice with the same bytes, whichever of its three forms the
    length of the array selects. *)
Lemma byteArray_writer (val : list Z) (w : encBuffer) :
  is_bytes val -> len val < 2 ^ 63 ->
  makeByteArrayWriter (len val) val w = inl (encBuffer_writeBytes val w).
Proof.
  intros Hb Hl. rewrite writeBytes_enc_string by lia.
  unfold makeByteArrayWriter, enc_string.
  destruct val as [|b0 [|b1 val']].
  - reflexivity.
  - inversion Hb as [|? ? Hb0 _]; subst. unfold is_byte in Hb0.
    change (len [b0]) with 1. cbn [Z.eqb Pos.eqb].
    unfold writeLengthOneByteArray. cbn [nth]. rewrite byte_small by lia.
    destruct (Z.leb_spec b0 127); reflexivity.
  - set (val := b0 :: b1 :: val') in *.
    assert (H2 : 2 <= len val)
      by (unfold val; rewrite !len_cons; pose proof (len_nonneg val'); lia).
    destruct (Z.eqb_spec (len val) 0); [lia|].
    destruct (Z.eqb_spec (len val) 1); [lia|].
    rewrite slice_all, string_header, append_str_app by lia. reflexivity.
Qed.

Lemma byteArray_writer_example :
  makeByteArrayWriter (len [0xCA; 0xFE; 0x01]) [0xCA; 0xFE; 0x01] encBuffer_reset
  = inl (encBuffer_writeBytes [0xCA; 0xFE; 0x01] encBuffer_reset).
Proof.
  apply byteArray_writer.
  - repeat constructor; unfold is_byte; lia.
  - vm_compute. reflexivity.
Defined.

(** Decoding the encoding of the string [b] into a byte array of
    [vlen] bytes returns [b] when [vlen] is its length; it fails with
    "input string too long" when the array is shorter and with "input
    string too short" when the array is longer. *)
Lemma decodeByteArray_length (typ : string) (b rest : list Z) (vlen : Z)
  (s : Stream) :
  is_bytes b -> len b < 2 ^ 64 -> 0 <= vlen ->
  kind s = -1 -> r s = enc_string b ++ rest ->
  fits (len (enc_string b)) s ->
  fst (decodeByteArray typ vlen s)
  = if vlen <? len b then inr (decodeError "input string too long" typ [])
    else if vlen >? len b
         then inr (decodeError "input string too short" typ [])
         else inl b.
Proof.
  intros Hb Hlen Hv Hk Hr Hf.
  assert (Hgen :
    r s = (puthead 0x80 0xB7 (len b) ++ b) ++ rest ->
    fits (len (puthead 0x80 0xB7 (len b) ++ b)) s ->
    (forall b0, b = [b0] -> 0x7F < b0) ->
    fst (decodeByteArray typ vlen s)
    = if vlen <? len b then inr (decodeError "input string too long" typ [])
      else if vlen >? len b
           then inr (decodeError "input string too short" typ [])
           else inl b).
  { clear Hr Hf. intros Hr Hf Hcanon.
    rewrite len_app in Hf. rewrite <- app_assoc in Hr.
    pose proof (len_nonneg b).
    destruct (Kind_puthead 0x80 0xB7 String (len b) (b ++ rest) s
                ltac:(left; repeat split) ltac:(lia) Hk Hr Hf)
      as (s1 & HK & Hm & Hk1 & Hsz).
    unfold decodeByteArray, bind, KindM. rewrite HK. cbn.
    destruct (Z.ltb_spec vlen (len b)); [reflexivity|].
    destruct (Z.gtb_spec vlen (len b)); [reflexivity|].
    assert (vlen = len b) by lia. subst vlen.
    assert (Hr1 : r s1 = b ++ rest).
    { destruct Hm as (A & _). rewrite A, Hr. apply skipn_len_app. }
    rewrite readFull_ok.
    2:{ apply (fits_moved _ _ _ _ Hm Hf). }
    2:{ rewrite Hr1, len_app. pose proof (len_nonneg rest). lia. }
    rewrite Hr1, firstn_len_app.
    assert (Hc : (len b =? 1) && (nth 0 b 0 <? 128) = false).
    { destruct (Z.eqb_spec (len b) 1) as [E|]; [|reflexivity].
      destruct b as [|b0 [|b1 b']]; try discriminate E.
      - specialize (Hcanon b0 eq_refl). cbn.
        destruct (Z.ltb_spec b0 128); [lia|reflexivity].
      - exfalso. unfold len in E. cbn in E. lia. }
    rewrite Hc. reflexivity. }
  unfold enc_string in *.
  destruct b as [|b0 [|b1 b']].
  - apply Hgen; auto. intros; discriminate.
  - destruct (Z.leb_spec b0 0x7F) as [Hle|Hgt].
    + inversion Hb as [|? ? Hb0 _]; subst. unfold is_byte in Hb0.
      destruct (Kind_byte b0 rest s ltac:(lia) Hk Hr Hf)
        as (s1 & HK & Hm & Hk1 & Hbv).
      unfold decodeByteArray, bind, KindM. rewrite HK. cbn.
      change (len [b0]) with 1.
      destruct (Z.eqb_spec vlen 0) as [->|]; [reflexivity|].
      destruct (Z.ltb_spec vlen 1); [lia|].
      destruct (Z.gtb_spec vlen 1); [reflexivity|].
      cbn. unfold get. rewrite Hbv. reflexivity.
    + apply Hgen; auto. intros b2 E. inversion E; subst. lia.
  - apply Hgen; auto. intros; discriminate.
Qed.

(** X25. What the writer of a byte array writes for the array [val] is
    decoded by [decodeByteArray] into an array of [vlen] bytes as [val]
    when [vlen] is the length of [val]; a shorter array fails with "input
    string too long" and a longer one with "input string too short". *)
Theorem byteArray_roundtrip (typ : string) (val rest : list Z) (vlen : Z) :
  is_bytes val -> len val < 2 ^ 63 -> 0 <= vlen ->
  exists w,
    makeByteArrayWriter (len val) val encBuffer_reset = inl w
    /\ forall s, kind s = -1 -> r s = str w ++ rest ->
       fits (len (str w)) s ->
       fst (decodeByteArray typ vlen s)
       = if vlen <? len val
         then inr (decodeError "input string too long" typ [])
         else if vlen >? len val
              then inr (decodeError "input string too short" typ [])
              else inl val.
Proof.
  intros Hb Hl Hv. exists (encBuffer_writeBytes val encBuffer_reset).
  split; [apply byteArray_writer; assumption|].
  intros s Hk Hr Hf.
  rewrite writeBytes_enc_string in Hr, Hf by lia.
  cbn [str append_str encBuffer_reset app] in Hr, Hf.
  apply (decodeByteArray_length typ val rest vlen s); auto. lia.
Qed.

Lemma byteArray_roundtrip_witness :
  exists w,
    makeByteArrayWriter (len [0xCA; 0xFE]) [0xCA; 0xFE] encBuffer_reset = inl w
    /\ forall s, kind s = -1 -> r s = str w ++ [0x01] ->
       fits (len (str w)) s ->
       fst (decodeByteArray "[4]uint8" 4 s)
       = if 4 <? len [0xCA; 0xFE]
         then inr (decodeError "input string too long" "[4]uint8" [])
         else if 4 >? len [0xCA; 0xFE]
              then inr (decodeError "input string too short" "[4]uint8" [])
              else inl [0xCA; 0xFE].
Proof.
  apply (byteArray_roundtrip "[4]uint8" [0xCA; 0xFE] [0x01] 4).
  - repeat constructor; unfold is_byte; lia.
  - vm_compute. reflexivity.
  - lia.
Defined.

Lemma length_le_bytes n : forall x, List.length (le_bytes n x) = n.
Proof. induction n as [|n IH]; intros x; cbn; [reflexivity|]. rewrite IH. reflexivity. Qed.

Lemma le_bytes_app a : forall b x,
  le_bytes (a + b) x = le_bytes a x ++ le_bytes b (Z.shiftr x (8 * Z.of_nat a)).
Proof.
  induction a as [|a IH]; intros b x.
  - cbn [Nat.add le_bytes app Z.of_nat Z.mul]. rewrite Z.shiftr_0_r. reflexivity.
  - cbn [Nat.add le_bytes app]. f_equal. rewrite IH.
    rewrite Z.shiftr_shiftr by lia. do 3 f_equal. lia.
Qed.

Lemma byte_mod_pow x k : 8 <= k -> byte (x mod 2 ^ k) = byte x.
Proof.
  intros Hk. unfold byte. change 256 with (2 ^ 8). apply Z.mod_mod_divide.
  exists (2 ^ (k - 8)). rewrite <- Z.pow_add_r by lia. f_equal. lia.
Qed.

Lemma shiftr_mod_pow x k : 8 <= k ->
  Z.shiftr (x mod 2 ^ k) 8 = Z.shiftr x 8 mod 2 ^ (k - 8).
Proof.
  intros Hk. rewrite !Z.shiftr_div_pow2 by lia.
  replace (2 ^ k) with (2 ^ 8 * 2 ^ (k - 8))
    by (rewrite <- Z.pow_add_r by lia; f_equal; lia).
  rewrite Z.rem_mul_r by (try apply Z.pow_nonzero; try apply Z.pow_pos_nonneg; lia).
  rewrite Z.mul_comm, Z.div_add by (apply Z.pow_nonzero; lia).
  rewrite Z.div_small by (apply Z.mod_pos_bound; apply Z.pow_pos_nonneg; lia).
  reflexivity.
Qed.

Lemma le_bytes_mod n : forall x k,
  8 * Z.of_nat n <= k -> le_bytes n (x mod 2 ^ k) = le_bytes n x.
Proof.
  induction n as [|n IH]; intros x k Hk; [reflexivity|].
  cbn [le_bytes]. rewrite byte_mod_pow by lia. f_equal.
  rewrite shiftr_mod_pow by lia. apply IH. lia.
Qed.

Lemma le_bytes_bytes n : forall x, is_bytes (le_bytes n x).
Proof.
  induction n as [|n IH]; intros x; cbn; constructor;
    [apply byte_range|apply IH].
Qed.

(** The value of the bytes. *)
Lemma be_value_rev_le n : forall x,
  0 <= x -> be_value (rev (le_bytes n x)) = x mod 256 ^ Z.of_nat n.
Proof.
  induction n as [|n IH]; intros x Hx.
  - cbn. rewrite Z.mod_1_r. reflexivity.
  - cbn [le_bytes rev]. rewrite be_value_snoc, IH by (apply Z.shiftr_nonneg; exact Hx).
    rewrite Z.shiftr_div_pow2 by lia. change (2 ^ 8) with 256.
    unfold byte. rewrite Nat2Z.inj_succ, Z.pow_succ_r by lia.
    rewrite Z.rem_mul_r by (try apply Z.pow_nonzero; try apply Z.pow_pos_nonneg; lia).
    lia.
Qed.

Lemma set_nth_length {A} (l : list A) : forall n x,
  List.length (set_nth n x l) = List.length l.
Proof.
  induction l as [|h t IH]; intros n x; [destruct n; reflexivity|].
  destruct n; cbn; [reflexivity|]. rewrite IH. reflexivity.
Qed.

Lemma set_nth_split {A} (l : list A) : forall n x,
  (n < List.length l)%nat ->
  set_nth n x l = firstn n l ++ x :: skipn (S n) l.
Proof.
  induction l as [|h t IH]; intros n x Hn; [cbn in Hn; lia|].
  destruct n; cbn [set_nth firstn skipn app]; [reflexivity|].
  f_equal. apply IH. cbn in Hn. lia.
Qed.

(** The loop over the bytes of a word. *)
Lemma writeBigInt_word_spec rounds : forall d index buf,
  (index <= List.length buf)%nat ->
  let m := Nat.min rounds index in
  writeBigInt_word rounds d (Z.of_nat index) buf
  = (Z.of_nat (index - m),
     firstn (index - m) buf ++ rev (le_bytes m d) ++ skipn index buf).
Proof.
  induction rounds as [|rounds IH]; intros d index buf Hi m.
  - subst m. cbn [Nat.min writeBigInt_word le_bytes rev app].
    rewrite Nat.sub_0_r, firstn_skipn. reflexivity.
  - cbn [writeBigInt_word]. destruct index as [|index].
    + subst m. cbn. reflexivity.
    + destruct (Z.gtb_spec (Z.of_nat (S index)) 0); [|lia].
      replace (Z.of_nat (S index) - 1) with (Z.of_nat index) by lia.
      rewrite Nat2Z.id.
      assert (Hlt : (index < List.length buf)%nat) by lia.
      rewrite IH by (rewrite set_nth_length; lia).
      subst m. cbn [Nat.min Nat.sub le_bytes rev].
      set (m' := Nat.min rounds index).
      assert (Hm : (m' <= index)%nat) by (unfold m'; lia).
      f_equal. rewrite set_nth_split by exact Hlt.
      rewrite firstn_app, firstn_firstn.
      replace (Nat.min (index - m') index) with (index - m')%nat by lia.
      rewrite length_firstn.
      replace (index - m' - Nat.min index (List.length buf))%nat with O by lia.
      cbn [firstn]. rewrite app_nil_r.
      rewrite skipn_app, length_firstn.
      replace (index - Nat.min index (List.length buf))%nat with O by lia.
      rewrite skipn_firstn_comm, Nat.sub_diag. cbn [firstn skipn app].
      rewrite <- !app_assoc. reflexivity.
Qed.

(** The loop over the words. *)
Lemma writeBigInt_words_spec words : forall x index buf,
  (index <= List.length buf)%nat ->
  let m := Nat.min (8 * words) index in
  writeBigInt_words (big_Bits_loop words x) (Z.of_nat index) buf
  = firstn (index - m) buf ++ rev (le_bytes m x) ++ skipn index buf.
Proof.
  induction words as [|words IH]; intros x index buf Hi m.
  - subst m. cbn [Nat.mul Nat.min big_Bits_loop writeBigInt_words le_bytes rev app].
    rewrite Nat.sub_0_r, firstn_skipn. reflexivity.
  - cbn [big_Bits_loop writeBigInt_words].
    change (Z.to_nat wordBytes) with 8%nat.
    rewrite writeBigInt_word_spec by exact Hi.
    set (m1 := Nat.min 8 index).
    assert (Hm1 : (m1 <= index)%nat) by (unfold m1; lia).
    set (buf1 := firstn (index - m1) buf
                 ++ rev (le_bytes m1 (x mod 2 ^ 64)) ++ skipn index buf).
    assert (Hl1 : List.length buf1 = List.length buf).
    { unfold buf1. rewrite !length_app, length_rev, length_le_bytes,
        length_firstn, length_skipn. lia. }
    rewrite IH by (rewrite Hl1; lia).
    set (m2 := Nat.min (8 * words) (index - m1)).
    assert (Hm2 : (m2 <= index - m1)%nat) by (unfold m2; lia).
    assert (Hm : m = (m1 + m2)%nat) by (unfold m, m1, m2; lia).
    rewrite Hm, le_bytes_app, rev_app_distr.
    assert (E1 : le_bytes m1 (x mod 2 ^ 64) = le_bytes m1 x)
      by (apply le_bytes_mod; unfold m1; lia).
    assert (E2 : le_bytes m2 (Z.shiftr x (8 * Z.of_nat m1))
                 = le_bytes m2 (Z.shiftr x 64)).
    { destruct (Nat.le_gt_cases 8 index) as [H8|H8].
      - replace m1 with 8%nat by (unfold m1; lia). reflexivity.
      - replace m2 with O by (unfold m2, m1; lia). reflexivity. }
    rewrite E2. unfold buf1. rewrite E1.
    rewrite firstn_app, firstn_firstn, length_firstn.
    replace (Nat.min (index - m1 - m2) (index - m1)) with (index - m1 - m2)%nat
      by lia.
    replace (index - m1 - m2 - Nat.min (index - m1) (List.length buf))%nat
      with O by lia.
    cbn [firstn]. rewrite app_nil_r.
    rewrite skipn_app, length_firstn.
    replace (index - m1 - Nat.min (index - m1) (List.length buf))%nat
      with O by lia.
    cbn [skipn].
    rewrite skipn_all2 by (rewrite length_firstn; lia).
    cbn [app].
    replace (index - (m1 + m2))%nat with (index - m1 - m2)%nat by lia.
    rewrite <- !app_assoc. reflexivity.
Qed.

Lemma big_BitLen_spec i :
  0 < i -> 1 <= big_BitLen i /\ 2 ^ (big_BitLen i - 1) <= i < 2 ^ big_BitLen i.
Proof.
  intros Hi. unfold big_BitLen. destruct (Z.eqb_spec i 0); [lia|].
  pose proof (Z.log2_spec i Hi) as H. pose proof (Z.log2_nonneg i).
  replace (Z.log2 i + 1 - 1) with (Z.log2 i) by lia.
  replace (Z.log2 i + 1) with (Z.succ (Z.log2 i)) by lia. lia.
Qed.

Lemma big_BitLen_nonneg i : 0 <= big_BitLen i.
Proof.
  unfold big_BitLen. destruct (i =? 0); [lia|].
  pose proof (Z.log2_nonneg i). lia.
Qed.

Lemma len_be_bytes n x : len (be_bytes n x) = Z.of_nat n.
Proof. unfold len, be_bytes. rewrite length_rev, length_le_bytes. reflexivity. Qed.

Lemma min_bytes_spec i :
  0 <= i ->
  is_bytes (min_bytes i)
  /\ len (min_bytes i) = (big_BitLen i + 7) / 8
  /\ be_value (min_bytes i) = i
  /\ (i <> 0 -> nth 0 (min_bytes i) 0 <> 0).
Proof.
  intros Hi. pose proof (big_BitLen_nonneg i) as Hb.
  set (L := (big_BitLen i + 7) / 8).
  assert (HL : 0 <= L) by (apply Z.div_pos; lia).
  assert (Hbytes : is_bytes (min_bytes i)).
  { unfold min_bytes, be_bytes, is_bytes. apply Forall_rev. apply le_bytes_bytes. }
  assert (Hlen : len (min_bytes i) = L).
  { unfold min_bytes. rewrite len_be_bytes. fold L. lia. }
  assert (H8 : big_BitLen i <= 8 * L < big_BitLen i + 8).
  { unfold L. pose proof (Z.div_mod (big_BitLen i + 7) 8 ltac:(lia)).
    pose proof (Z.mod_pos_bound (big_BitLen i + 7) 8 ltac:(lia)). lia. }
  assert (Hval : be_value (min_bytes i) = i).
  { unfold min_bytes, be_bytes. rewrite be_value_rev_le by exact Hi.
    fold L. rewrite Z2Nat.id by exact HL.
    apply Z.mod_small. split; [exact Hi|].
    destruct (Z.eqb_spec i 0) as [->|Hnz].
    - apply Z.pow_pos_nonneg; lia.
    - destruct (big_BitLen_spec i ltac:(lia)) as (_ & _ & Hup).
      apply Z.lt_le_trans with (2 ^ big_BitLen i); [exact Hup|].
      replace 256 with (2 ^ 8) by reflexivity.
      rewrite <- Z.pow_mul_r by lia. apply Z.pow_le_mono_r; lia. }
  repeat split; try assumption.
  intros Hnz Hz.
  destruct (big_BitLen_spec i ltac:(lia)) as (H1 & Hlo & _).
  destruct (min_bytes i) as [|x l] eqn:E.
  - cbn in Hlen. lia.
  - cbn [nth] in Hz. subst x. rewrite be_value_cons in Hval.
    pose proof (Forall_inv_tail Hbytes) as Hl.
    pose proof (be_value_bound l Hl) as Hbd.
    rewrite len_cons in Hlen.
    assert (256 ^ len l <= 2 ^ (big_BitLen i - 1)).
    { replace 256 with (2 ^ 8) by reflexivity.
      rewrite <- Z.pow_mul_r by (try apply len_nonneg; lia).
      apply Z.pow_le_mono_r; lia. }
    lia.
Qed.

Lemma min_bytes_putint i :
  0 < i < 2 ^ 64 -> min_bytes i = putint i.
Proof.
  intros Hi.
  destruct (min_bytes_spec i ltac:(lia)) as (Hb & Hl & Hv & Hn).
  destruct (big_BitLen_spec i ltac:(lia)) as (H1 & Hlo & Hup).
  assert (Hbl : big_BitLen i <= 64).
  { destruct (Z.le_gt_cases (big_BitLen i) 64) as [|Hgt]; [assumption|].
    assert (2 ^ 64 <= 2 ^ (big_BitLen i - 1)) by (apply Z.pow_le_mono_r; lia).
    lia. }
  assert (HL : 1 <= len (min_bytes i) <= 8).
  { rewrite Hl. split.
    - apply Z.div_le_lower_bound; lia.
    - assert ((big_BitLen i + 7) / 8 < 9)
        by (apply Z.div_lt_upper_bound; lia).
      lia. }
  destruct (putint_be_value (min_bytes i) Hb HL (Hn ltac:(lia))) as [Hp _].
  rewrite Hv in Hp. symmetry. exact Hp.
Qed.

Lemma land_minus8 b : 0 <= b -> Z.shiftr (Z.land b (-8)) 3 = b / 8.
Proof.
  intros Hb. change (-8) with (Z.lnot (Z.ones 3)).
  rewrite <- Z.ldiff_land, Z.ldiff_ones_r by lia.
  rewrite Z.shiftr_shiftl_l by lia. cbn [Z.sub Z.opp Z.add Z.pos_sub].
  rewrite Z.shiftl_0_r. apply Z.shiftr_div_pow2. lia.
Qed.

Lemma writeBigInt_large_bytes i :
  0 <= i -> 64 < big_BitLen i ->
  writeBigInt_words (big_Bits i) ((big_BitLen i + 7) / 8)
    (repeat 0 (Z.to_nat ((big_BitLen i + 7) / 8)))
  = min_bytes i.
Proof.
  intros Hi Hb. set (L := (big_BitLen i + 7) / 8).
  assert (HL : 0 <= L) by (apply Z.div_pos; lia).
  unfold big_Bits. set (words := Z.to_nat ((big_BitLen i + 63) / 64)).
  rewrite <- (Z2Nat.id L HL) at 1.
  rewrite writeBigInt_words_spec by (rewrite repeat_length; lia).
  assert (Hm : Nat.min (8 * words) (Z.to_nat L) = Z.to_nat L).
  { apply Nat.min_r. unfold words, L.
    assert (Hw : (big_BitLen i + 7) / 8 <= 8 * ((big_BitLen i + 63) / 64)).
    { pose proof (Z.div_mod (big_BitLen i + 7) 8 ltac:(lia)).
      pose proof (Z.mod_pos_bound (big_BitLen i + 7) 8 ltac:(lia)).
      pose proof (Z.div_mod (big_BitLen i + 63) 64 ltac:(lia)).
      pose proof (Z.mod_pos_bound (big_BitLen i + 63) 64 ltac:(lia)). lia. }
    assert (0 <= (big_BitLen i + 63) / 64) by (apply Z.div_pos; lia).
    lia. }
  rewrite Hm, Nat.sub_diag. cbn [firstn app].
  rewrite skipn_all2 by (rewrite repeat_length; lia).
  rewrite app_nil_r. reflexivity.
Qed.

Lemma writeBigInt_spec i buf :
  0 <= i -> big_BitLen i < 2 ^ 62 ->
  encBuffer_writeBigInt i buf = encBuffer_writeBytes (min_bytes i) buf.
Proof.
  intros Hi Hbound.
  destruct (min_bytes_spec i Hi) as (Hb & Hl & Hv & Hn).
  pose proof (big_BitLen_nonneg i) as Hb0.
  assert (HL : len (min_bytes i) < 2 ^ 64).
  { rewrite Hl. apply Z.div_lt_upper_bound; lia. }
  unfold encBuffer_writeBigInt.
  destruct (Z.leb_spec (big_BitLen i) 64) as [H64|H64].
  - assert (Hi64 : i < 2 ^ 64).
    { destruct (Z.eqb_spec i 0) as [->|]; [lia|].
      destruct (big_BitLen_spec i ltac:(lia)) as (_ & _ & Hup).
      apply Z.lt_le_trans with (2 ^ big_BitLen i); [exact Hup|].
      apply Z.pow_le_mono_r; lia. }
    unfold big_Uint64. rewrite Z.mod_small by lia.
    rewrite writeUint64_enc_uint, writeBytes_enc_string by lia. f_equal.
    destruct (Z.eqb_spec i 0) as [->|Hnz]; [reflexivity|].
    rewrite min_bytes_putint by lia.
    destruct (Z.ltb_spec i 128) as [Hs|Hs].
    + unfold enc_uint, enc_string. destruct (Z.eqb_spec i 0); [lia|].
      destruct (Z.ltb_spec i 128); [|lia].
      unfold putint. change (2 ^ 8) with 256.
      destruct (Z.ltb_spec i 256); [|lia]. rewrite byte_small by lia.
      destruct (Z.leb_spec i 127); [reflexivity|lia].
    + apply enc_uint_string. lia.
  - rewrite land_minus8 by lia.
    rewrite writeBigInt_large_bytes by lia.
    rewrite <- Hl. pose proof (len_nonneg (min_bytes i)).
    rewrite writeBytes_header, string_header, append_str_app;
      [reflexivity|lia|exact HL|].
    rewrite Hl. intros E.
    assert ((big_BitLen i + 7) / 8 >= 9); [|lia].
    apply Z.le_ge. apply Z.div_le_lower_bound; lia.
Qed.

(** X26. [writeBigInt] writes a non-negative integer as [writeBytes]
    writes the string of its bytes, most significant first and without
    leading zero bytes: none for zero, and as many as the bit length
    takes. *)
Theorem writeBigInt_minimal_bytes (i : Z) (buf : encBuffer) :
  0 <= i -> big_BitLen i < 2 ^ 62 ->
  exists bytes,
    encBuffer_writeBigInt i buf = encBuffer_writeBytes bytes buf
    /\ is_bytes bytes
    /\ len bytes = (big_BitLen i + 7) / 8
    /\ be_value bytes = i
    /\ (i <> 0 -> nth 0 bytes 0 <> 0).
Proof.
  intros Hi Hb. exists (min_bytes i).
  split; [apply writeBigInt_spec; assumption|].
  apply min_bytes_spec. exact Hi.
Qed.

Lemma writeBigInt_minimal_bytes_witness :
  exists bytes,
    encBuffer_writeBigInt (2 ^ 64) encBuffer_reset
    = encBuffer_writeBytes bytes encBuffer_reset
    /\ is_bytes bytes
    /\ len bytes = (big_BitLen (2 ^ 64) + 7) / 8
    /\ be_value bytes = 2 ^ 64
    /\ (2 ^ 64 <> 0 -> nth 0 bytes 0 <> 0).
Proof.
  apply writeBigInt_minimal_bytes.
  - vm_compute. discriminate.
  - vm_compute. reflexivity.
Defined.

(** ** Reading big integers *)

Lemma big_SetBytes_value bytes :
  is_bytes bytes -> big_SetBytes bytes = be_value bytes.
Proof. exact (BigEndian_be_value bytes). Qed.

(** The string of the bytes of an integer, as the stream classifies it. *)
Lemma Kind_enc_string bytes rest s :
  is_bytes bytes -> len bytes < 2 ^ 64 ->
  kind s = -1 -> r s = enc_string bytes ++ rest ->
  fits (len (enc_string bytes)) s ->
  (exists x s1,
      bytes = [x] /\ 0 <= x < 0x80
      /\ KindM s = (inl (Byte, 0), s1)
      /\ byteval s1 = x /\ r s1 = rest /\ kind s1 = Byte)
  \/ (exists s1,
        (forall x, bytes = [x] -> 0x80 <= x)
        /\ KindM s = (inl (String, len bytes), s1)
        /\ r s1 = bytes ++ rest /\ fits (len bytes) s1).
Proof.
  intros Hb Hlen Hk Hr Hf.
  assert (Hgen :
    r s = (puthead 0x80 0xB7 (len bytes) ++ bytes) ++ rest ->
    fits (len (puthead 0x80 0xB7 (len bytes) ++ bytes)) s ->
    exists s1,
      KindM s = (inl (String, len bytes), s1)
      /\ r s1 = bytes ++ rest /\ fits (len bytes) s1).
  { clear Hr Hf. intros Hr Hf.
    rewrite len_app in Hf. rewrite <- app_assoc in Hr.
    pose proof (len_nonneg bytes).
    destruct (Kind_puthead 0x80 0xB7 String (len bytes) (bytes ++ rest) s
                ltac:(left; repeat split) ltac:(lia) Hk Hr Hf)
      as (s1 & HK & Hm & Hk1 & Hsz).
    exists s1. split; [apply KindM_of_Kind; exact HK|]. split.
    - destruct Hm as (A & _). rewrite A, Hr. apply skipn_len_app.
    - apply (fits_moved _ _ _ _ Hm Hf). }
  unfold enc_string in *.
  destruct bytes as [|b0 [|b1 b']].
  - right. destruct (Hgen Hr Hf) as (s1 & A & B & C). exists s1.
    split; [intros; discriminate|auto].
  - destruct (Z.leb_spec b0 0x7F) as [Hle|Hgt].
    + left. inversion Hb as [|? ? Hb0 _]; subst. unfold is_byte in Hb0.
      destruct (Kind_byte b0 rest s ltac:(lia) Hk Hr Hf)
        as (s1 & HK & Hm & Hk1 & Hbv).
      exists b0, s1. split; [reflexivity|]. split; [lia|].
      split; [apply KindM_of_Kind; exact HK|]. split; [exact Hbv|].
      split; [|exact Hk1]. destruct Hm as (A & _). rewrite A, Hr. reflexivity.
    + right. destruct (Hgen Hr Hf) as (s1 & A & B & C). exists s1.
      split; [|auto]. intros x E. inversion E; subst. lia.
  - right. destruct (Hgen Hr Hf) as (s1 & A & B & C). exists s1.
    split; [intros; discriminate|auto].
Qed.

Lemma decodeBigInt_ok bytes rest s :
  is_bytes bytes -> len bytes < 2 ^ 64 ->
  (bytes <> [] -> nth 0 bytes 0 <> 0) ->
  kind s = -1 -> r s = enc_string bytes ++ rest ->
  fits (len (enc_string bytes)) s ->
  exists s',
    Stream_decodeBigInt s = (inl (be_value bytes), s')
    /\ r s' = rest /\ kind s' = -1.
Proof.
  intros Hb Hlen Hnz Hk Hr Hf.
  rewrite <- (big_SetBytes_value bytes Hb).
  destruct (Kind_enc_string bytes rest s Hb Hlen Hk Hr Hf)
    as [(x & s1 & -> & Hx & HK & Hbv & Hr1 & Hk1)
       |(s1 & Hcanon & HK & Hr1 & Hf1)].
  - unfold Stream_decodeBigInt, bind. rewrite HK. cbn.
    unfold get. rewrite Hbv.
    specialize (Hnz ltac:(discriminate)). cbn [nth] in Hnz.
    destruct (Z.eqb_spec x 0); [contradiction|].
    eexists. split; [reflexivity|]. split; [exact Hr1|reflexivity].
  - unfold Stream_decodeBigInt, bind. rewrite HK.
    change (String =? List) with false. change (String =? Byte) with false.
    cbv iota. pose proof (len_nonneg bytes) as H0.
    destruct (Z.eqb_spec (len bytes) 0) as [Ez|Ez].
    + assert (bytes = []) by (apply len_le_0; lia). subst bytes. cbn.
      eexists. split; [reflexivity|]. split; [|reflexivity].
      cbn. rewrite Hr1. reflexivity.
    + assert (Hne : bytes <> []) by (intros ->; apply Ez; reflexivity).
      specialize (Hnz Hne).
      assert (Hrf : readFull (len bytes) s1 = (inl bytes, consume (len bytes) s1)).
      { rewrite readFull_ok; [|exact Hf1|].
        - rewrite Hr1, firstn_len_app. reflexivity.
        - rewrite Hr1, len_app. pose proof (len_nonneg rest). lia. }
      assert (Hc : (len bytes =? 1) && (nth 0 bytes 0 <? 128) = false).
      { destruct (Z.eqb_spec (len bytes) 1) as [E|]; [|reflexivity].
        destruct bytes as [|b0 [|b1 b']]; try discriminate E.
        - specialize (Hcanon b0 eq_refl). cbn.
          destruct (Z.ltb_spec b0 128); [lia|reflexivity].
        - exfalso. unfold len in E. cbn in E. lia. }
      assert (Hlz : (len bytes >? 0) && (nth 0 bytes 0 =? 0) = false).
      { destruct (Z.eqb_spec (nth 0 bytes 0) 0); [contradiction|].
        apply andb_false_r. }
      assert (Hrest : r (consume (len bytes) s1) = rest).
      { cbn. rewrite Hr1. apply skipn_len_app. }
      destruct (len bytes <=? 32); rewrite Hrf; cbv beta iota;
        rewrite ?Hc; unfold ret; rewrite Hlz;
        eexists; (split; [reflexivity|]); (split; [exact Hrest|reflexivity]).
Qed.

(** X27. A non-negative integer written by [writeBigInt] is read back by
    [Stream.BigInt], which leaves the stream after its encoding. *)
Theorem BigInt_roundtrip (i : Z) (rest : list Z) (s : Stream) :
  0 <= i -> big_BitLen i < 2 ^ 62 ->
  kind s = -1 ->
  r s = str (encBuffer_writeBigInt i encBuffer_reset) ++ rest ->
  fits (len (str (encBuffer_writeBigInt i encBuffer_reset))) s ->
  exists s', Stream_BigInt s = (inl i, s') /\ r s' = rest /\ kind s' = -1.
Proof.
  intros Hi Hbound Hk Hr Hf.
  destruct (min_bytes_spec i Hi) as (Hb & Hl & Hv & Hn).
  pose proof (big_BitLen_nonneg i) as Hb0.
  assert (HL : len (min_bytes i) < 2 ^ 64).
  { rewrite Hl. apply Z.div_lt_upper_bound; lia. }
  rewrite writeBigInt_spec, writeBytes_enc_string in * by assumption.
  cbn [str append_str encBuffer_reset app] in *.
  destruct (decodeBigInt_ok (min_bytes i) rest s Hb HL) as (s' & HD & Hr' & Hk');
    try assumption.
  { intros Hne. apply Hn. intros ->. apply Hne.
    apply len_le_0. rewrite Hl. cbn. lia. }
  rewrite Hv in HD. exists s'. repeat split; assumption.
Qed.

Lemma BigInt_roundtrip_witness :
  exists s',
    Stream_BigInt
      (Stream_Reset (str (encBuffer_writeBigInt (2 ^ 64) encBuffer_reset) ++ [0x01])
         true 0)
    = (inl (2 ^ 64), s')
    /\ r s' = [0x01] /\ kind s' = -1.
Proof.
  apply (BigInt_roundtrip (2 ^ 64) [0x01]).
  - vm_compute. discriminate.
  - vm_compute. reflexivity.
  - reflexivity.
  - reflexivity.
  - split; [exact I|]. intros _. vm_compute. discriminate.
Defined.

(** Bytes without a leading zero are determined by their value. *)
Lemma be_value_unique b1 b2 :
  is_bytes b1 -> is_bytes b2 ->
  (b1 <> [] -> nth 0 b1 0 <> 0) -> (b2 <> [] -> nth 0 b2 0 <> 0) ->
  be_value b1 = be_value b2 -> b1 = b2.
Proof.
  intros H1 H2 N1 N2 E.
  assert (Hrange : forall b, is_bytes b -> (b <> [] -> nth 0 b 0 <> 0) ->
            (b = [] /\ be_value b = 0)
            \/ (1 <= len b /\ 256 ^ (len b - 1) <= be_value b < 256 ^ len b)).
  { intros b Hb Hn. destruct b as [|x l]; [left; split; reflexivity|right].
    specialize (Hn ltac:(discriminate)).
    pose proof (be_value_bound _ Hb). pose proof (be_value_lead _ Hb Hn).
    rewrite len_cons in *. pose proof (len_nonneg l). lia. }
  assert (Hpow : forall a b, 0 <= a <= b -> 256 ^ a <= 256 ^ b)
    by (intros; apply Z.pow_le_mono_r; lia).
  assert (Hpos : forall a, 0 <= a -> 0 < 256 ^ a)
    by (intros; apply Z.pow_pos_nonneg; lia).
  destruct (Hrange b1 H1 N1) as [(-> & V1)|(L1 & R1)];
    destruct (Hrange b2 H2 N2) as [(-> & V2)|(L2 & R2)].
  - reflexivity.
  - pose proof (Hpos (len b2 - 1) ltac:(lia)). lia.
  - pose proof (Hpos (len b1 - 1) ltac:(lia)). lia.
  - apply be_value_inj; try assumption.
    destruct (Z.lt_trichotomy (len b1) (len b2)) as [H|[H|H]];
      [exfalso|exact H|exfalso].
    + pose proof (Hpow (len b1) (len b2 - 1) ltac:(lia)). lia.
    + pose proof (Hpow (len b2) (len b1 - 1) ltac:(lia)). lia.
Qed.

Lemma decodeBigInt_inv s i s' :
  Stream_decodeBigInt s = (inl i, s') ->
  kind s = -1 -> stack_ok s -> is_bytes (r s) ->
  exists bytes,
    took (enc_string bytes) s s' /\ is_bytes bytes /\ i = be_value bytes
    /\ (bytes <> [] -> nth 0 bytes 0 <> 0).
Proof.
  intros H Hk Hok Hbs. unfold Stream_decodeBigInt in H.
  apply bind_inl in H. destruct H as ([k0 size] & s1 & HK & H).
  apply KindM_inv in HK.
  destruct (Stream_Kind_inv s k0 size s1 HK Hk Hok Hbs)
    as (hdr & Hr & Hst & Hk1 & Hh).
  destruct (header_ok hdr s s1 Hr Hst Hok Hbs) as [Hok1 Hbs1].
  apply bind_inl in H. destruct H as (buffer & s2 & HB & H).
  destruct ((len buffer >? 0) && (nth 0 buffer 0 =? 0)) eqn:Hlz;
    [discriminate|].
  unfold ret in H. injection H as <- <-.
  assert (Hnz : buffer <> [] -> nth 0 buffer 0 <> 0).
  { intros Hne Hz. rewrite Hz, Z.eqb_refl, andb_true_r in Hlz.
    destruct buffer; [contradiction|]. rewrite len_cons in Hlz.
    pose proof (len_nonneg buffer).
    destruct (Z.gtb_spec (1 + len buffer) 0); [discriminate|lia]. }
  exists buffer.
  destruct Hh as [(-> & -> & -> & Hbv)|[(-> & -> & Hsz)|(-> & -> & Hsz)]].
  - cbn [Z.eqb Byte List] in HB. unfold bind, get, modify, ret in HB.
    injection HB as <- <-.
    assert (Hbb : is_bytes [byteval s1])
      by (constructor; [unfold is_byte; lia|constructor]).
    split; [|split; [exact Hbb|split; [|exact Hnz]]].
    + unfold enc_string. destruct (Z.leb_spec (byteval s1) 127); [|lia].
      apply took_header_only; assumption.
    + apply big_SetBytes_value. exact Hbb.
  - change (String =? List) with false in HB.
    change (String =? Byte) with false in HB. cbv iota in HB.
    destruct (Z.eqb_spec size 0) as [->|Hs0].
    + unfold bind, modify, ret in HB. injection HB as <- <-.
      split; [|split; [constructor|split; [reflexivity|exact Hnz]]].
      unfold enc_string. rewrite app_nil_r.
      apply took_header_only; assumption.
    + assert (Hgen : forall bytes s2',
                readFull size s1 = (inl bytes, s2') ->
                (size = 1 -> 128 <= nth 0 bytes 0) ->
                took (enc_string bytes) s s2' /\ is_bytes bytes).
      { intros bytes s2' Hf Hc1.
        apply readFull_inv in Hf; [|lia|assumption].
        destruct Hf as (Ht & Hlen & _).
        pose proof (took_bytes _ _ _ Ht Hbs1) as [Hbb _].
        split; [|exact Hbb]. subst size.
        unfold enc_string. destruct bytes as [|b0 [|b1 tl]].
        - apply (took_after_header _ _ s s1 s2' Hr Hst Ht).
        - specialize (Hc1 eq_refl). cbn [nth] in Hc1.
          destruct (Z.leb_spec b0 127); [lia|].
          apply (took_after_header _ _ s s1 s2' Hr Hst Ht).
        - apply (took_after_header _ _ s s1 s2' Hr Hst Ht). }
      destruct (Z.leb_spec size 32).
      * apply bind_inl in HB. destruct HB as (bytes & s3 & Hf & HB).
        destruct ((size =? 1) && (nth 0 bytes 0 <? 128)) eqn:Ec;
          [discriminate|].
        unfold ret in HB. injection HB as <- <-.
        destruct (Hgen bytes s3 Hf) as [Ht Hbb].
        { intros ->. cbn [Z.eqb Pos.eqb andb] in Ec.
          apply Z.ltb_ge in Ec. exact Ec. }
        split; [exact Ht|]. split; [exact Hbb|].
        split; [|exact Hnz]. apply big_SetBytes_value. exact Hbb.
      * destruct (Hgen buffer s2 HB) as [Ht Hbb].
        { intros ->. lia. }
        split; [exact Ht|]. split; [exact Hbb|].
        split; [|exact Hnz]. apply big_SetBytes_value. exact Hbb.
  - discriminate.
Qed.

(** X28. [Stream.BigInt] returns an integer only for input that starts
    with what [writeBigInt] writes for it: integers with leading zero
    bytes and single bytes under a string header are refused. *)
Theorem BigInt_canonical (s s' : Stream) (i : Z) :
  Stream_BigInt s = (inl i, s') ->
  kind s = -1 -> stack_ok s -> is_bytes (r s) -> len (r s) < 2 ^ 58 ->
  0 <= i
  /\ r s = str (encBuffer_writeBigInt i encBuffer_reset) ++ r s'.
Proof.
  intros H Hk Hok Hbs Hlen.
  destruct (decodeBigInt_inv s i s' H Hk Hok Hbs)
    as (bytes & Ht & Hbb & Hv & Hnz).
  pose proof (be_value_bound bytes Hbb) as Hbd.
  assert (Hi : 0 <= i) by lia. split; [exact Hi|].
  destruct (min_bytes_spec i Hi) as (Hb & Hl & Hmv & Hn).
  assert (E : bytes = min_bytes i).
  { apply be_value_unique; try assumption.
    - intros Hne. apply Hn. intros ->. apply Hne.
      apply len_le_0. rewrite Hl. cbn. lia.
    - rewrite Hmv. symmetry. exact Hv. }
  destruct Ht as (Hr & _).
  assert (Hlb : len bytes <= len (r s)).
  { rewrite Hr, len_app. pose proof (enc_string_len bytes).
    pose proof (len_nonneg (r s')). lia. }
  pose proof (big_BitLen_nonneg i) as Hb0.
  assert (Hbit : big_BitLen i < 2 ^ 62).
  { rewrite E, Hl in Hlb.
    pose proof (Z.div_mod (big_BitLen i + 7) 8 ltac:(lia)).
    pose proof (Z.mod_pos_bound (big_BitLen i + 7) 8 ltac:(lia)). lia. }
  assert (HL : len (min_bytes i) < 2 ^ 64) by (rewrite <- E; lia).
  rewrite writeBigInt_spec, writeBytes_enc_string by assumption.
  cbn [str append_str encBuffer_reset app]. rewrite <- E. exact Hr.
Qed.

Lemma BigInt_canonical_witness :
  0 <= 2 ^ 64
  /\ r (Stream_Reset [0x89; 1; 0; 0; 0; 0; 0; 0; 0; 0; 0x05] true 0)
     = str (encBuffer_writeBigInt (2 ^ 64) encBuffer_reset)
       ++ r (snd (Stream_BigInt
                    (Stream_Reset [0x89; 1; 0; 0; 0; 0; 0; 0; 0; 0; 0x05]
                       true 0))).
Proof.
  apply (BigInt_canonical
           (Stream_Reset [0x89; 1; 0; 0; 0; 0; 0; 0; 0; 0; 0x05] true 0)
           (snd (Stream_BigInt
                   (Stream_Reset [0x89; 1; 0; 0; 0; 0; 0; 0; 0; 0; 0x05]
                      true 0)))).
  - vm_compute. reflexivity.
  - reflexivity.
  - constructor.
  - repeat constructor; unfold is_byte; lia.
  - vm_compute. reflexivity.
Defined.

Lemma PutUint64_be v : BigEndian_PutUint64 v = be_bytes 8 v.
Proof.
  unfold BigEndian_PutUint64, be_bytes. cbn [le_bytes rev app].
  rewrite !Z.shiftr_shiftr by lia. reflexivity.
Qed.

Lemma uint256_words z :
  uint256_ok z ->
  let v := uint256_value z in
  0 <= v < 2 ^ 256
  /\ v mod 2 ^ 64 = z0 z
  /\ Z.shiftr v 64 mod 2 ^ 64 = z1 z
  /\ Z.shiftr v 128 mod 2 ^ 64 = z2 z
  /\ Z.shiftr v 192 mod 2 ^ 64 = z3 z.
Proof.
  intros (H0 & H1 & H2 & H3) v. unfold v, uint256_value.
  rewrite !Z.shiftr_div_pow2 by lia.
  change (2 ^ 128) with (2 ^ 64 * 2 ^ 64).
  change (2 ^ 192) with (2 ^ 64 * (2 ^ 64 * 2 ^ 64)).
  change (2 ^ 256) with (2 ^ 64 * (2 ^ 64 * (2 ^ 64 * 2 ^ 64))).
  set (B := 2 ^ 64) in *. assert (HB : 0 < B) by (unfold B; lia).
  set (a := z0 z) in *. set (b := z1 z) in *.
  set (c := z2 z) in *. set (d := z3 z) in *.
  assert (E1 : a + B * b + B * B * c + B * (B * B) * d
               = a + B * (b + B * (c + B * d))) by ring.
  rewrite E1.
  assert (Hdiv : forall x q, 0 <= x < B -> (x + B * q) / B = q).
  { intros x q Hx. rewrite Z.mul_comm, Z.div_add by lia.
    rewrite Z.div_small by lia. lia. }
  assert (Hq1 : (a + B * (b + B * (c + B * d))) / B = b + B * (c + B * d))
    by (apply Hdiv; lia).
  assert (Hq2 : (a + B * (b + B * (c + B * d))) / (B * B) = c + B * d).
  { rewrite <- Z.div_div by lia. rewrite Hq1. apply Hdiv. lia. }
  assert (Hq3 : (a + B * (b + B * (c + B * d))) / (B * (B * B)) = d).
  { rewrite <- Z.div_div by nia. rewrite Hq1.
    rewrite <- Z.div_div by lia. rewrite (Hdiv b) by lia.
    apply Hdiv. lia. }
  rewrite Hq1, Hq2, Hq3.
  repeat split.
  - nia.
  - nia.
  - rewrite Z.mul_comm, Z.mod_add by lia. apply Z.mod_small. lia.
  - rewrite Z.mul_comm, Z.mod_add by lia. apply Z.mod_small. lia.
  - rewrite Z.mul_comm, Z.mod_add by lia. apply Z.mod_small. lia.
  - apply Z.mod_small. lia.
Qed.

Lemma be_bytes_app a b x :
  be_bytes (a + b) x
  = be_bytes b (Z.shiftr x (8 * Z.of_nat a)) ++ be_bytes a x.
Proof. unfold be_bytes. rewrite le_bytes_app, rev_app_distr. reflexivity. Qed.

Lemma be_bytes_mod n x k :
  8 * Z.of_nat n <= k -> be_bytes n (x mod 2 ^ k) = be_bytes n x.
Proof. intros H. unfold be_bytes. rewrite le_bytes_mod by exact H. reflexivity. Qed.

Lemma uint256_be_bytes z :
  uint256_ok z ->
  BigEndian_PutUint64 (z3 z) ++ BigEndian_PutUint64 (z2 z)
  ++ BigEndian_PutUint64 (z1 z) ++ BigEndian_PutUint64 (z0 z)
  = be_bytes 32 (uint256_value z).
Proof.
  intros Hz. destruct (uint256_words z Hz) as (_ & E0 & E1 & E2 & E3).
  set (v := uint256_value z) in *.
  rewrite (PutUint64_be (z3 z)), (PutUint64_be (z2 z)),
    (PutUint64_be (z1 z)), (PutUint64_be (z0 z)).
  rewrite <- E0, <- E1, <- E2, <- E3.
  rewrite !be_bytes_mod by lia.
  change 32%nat with (8 + (8 + (8 + 8)))%nat.
  rewrite (be_bytes_app 8 (8 + (8 + 8)) v).
  rewrite (be_bytes_app 8 (8 + 8) (Z.shiftr v (8 * Z.of_nat 8))).
  rewrite (be_bytes_app 8 8 (Z.shiftr (Z.shiftr v (8 * Z.of_nat 8)) (8 * Z.of_nat 8))).
  rewrite !Z.shiftr_shiftr by lia.
  change (8 * Z.of_nat 8) with 64.
  change (64 + (64 + 64)) with 192. change (64 + 64) with 128.
  rewrite <- !app_assoc. reflexivity.
Qed.

Lemma skipn_be_bytes n m x :
  skipn m (be_bytes (n + m) x) = be_bytes n x.
Proof.
  rewrite be_bytes_app.
  rewrite skipn_app, skipn_all2
    by (unfold be_bytes; rewrite length_rev, length_le_bytes; lia).
  cbn [app]. unfold be_bytes at 1. rewrite length_rev, length_le_bytes.
  rewrite Nat.sub_diag. reflexivity.
Qed.

Lemma writeUint256_spec z buf :
  uint256_ok z ->
  encBuffer_writeUint256 z buf = encBuffer_writeBigInt (uint256_value z) buf.
Proof.
  intros Hz. destruct (uint256_words z Hz) as (Hv & E0 & _).
  set (v := uint256_value z) in *.
  pose proof (big_BitLen_nonneg v) as Hb0.
  assert (Hbit : big_BitLen v <= 256).
  { destruct (Z.eqb_spec v 0) as [->|Hnz]; [cbn; lia|].
    destruct (big_BitLen_spec v ltac:(lia)) as (_ & Hlo & _).
    destruct (Z.le_gt_cases (big_BitLen v) 256) as [|Hgt]; [assumption|].
    assert (2 ^ 256 <= 2 ^ (big_BitLen v - 1)) by (apply Z.pow_le_mono_r; lia).
    lia. }
  unfold encBuffer_writeUint256, encBuffer_writeBigInt, uint256_BitLen,
    uint256_Uint64. fold v.
  destruct (Z.leb_spec (big_BitLen v) 64) as [H64|H64].
  - unfold big_Uint64. rewrite E0. reflexivity.
  - rewrite land_minus8 by lia. rewrite writeBigInt_large_bytes by lia.
    set (n := (big_BitLen v + 7) / 8).
    assert (Hn : 9 <= n <= 32).
    { unfold n. split.
      - apply Z.div_le_lower_bound; lia.
      - assert ((big_BitLen v + 7) / 8 < 33)
          by (apply Z.div_lt_upper_bound; lia).
        lia. }
    rewrite (byte_small n) by lia.
    rewrite uint256_be_bytes by exact Hz. fold v.
    set (k := Z.to_nat (32 - n)).
    assert (Hk : (k + Z.to_nat n = 32)%nat) by (unfold k; lia).
    rewrite set_nth_split
      by (cbn [app List.length]; unfold be_bytes;
          rewrite length_rev, length_le_bytes; lia).
    rewrite skipn_app, length_firstn.
    rewrite skipn_all2 by (rewrite length_firstn; lia).
    replace (k - Nat.min k (List.length ([0%Z] ++ be_bytes 32 v)))%nat with O.
    2:{ cbn [app List.length]. unfold be_bytes.
        rewrite length_rev, length_le_bytes. lia. }
    cbn [app skipn].
    replace (skipn k (be_bytes 32 v)) with (min_bytes v).
    2:{ unfold min_bytes. fold n.
        replace 32%nat with (Z.to_nat n + k)%nat by lia.
        symmetry. apply skipn_be_bytes. }
    unfold encBuffer_encodeStringHeader.
    destruct (Z.ltb_spec n 56); [|lia].
    rewrite append_str_app. rewrite (byte_small n) by lia. reflexivity.
Qed.

(** X29. [writeUint256] writes a 256-bit integer as [writeBigInt] writes
    the integer of the same value. *)
Theorem writeUint256_writeBigInt (z : uint256) (buf : encBuffer) :
  uint256_ok z ->
  encBuffer_writeUint256 z buf = encBuffer_writeBigInt (uint256_value z) buf.
Proof. apply writeUint256_spec. Qed.

Lemma writeUint256_writeBigInt_witness :
  encBuffer_writeUint256 z_example encBuffer_reset
  = encBuffer_writeBigInt (uint256_value z_example) encBuffer_reset.
Proof.
  apply writeUint256_writeBigInt.
  unfold uint256_ok, z_example. cbn. lia.
Defined.

Lemma ReadUint256_ok bytes rest s :
  is_bytes bytes -> len bytes <= 32 ->
  (bytes <> [] -> nth 0 bytes 0 <> 0) ->
  kind s = -1 -> r s = enc_string bytes ++ rest ->
  fits (len (enc_string bytes)) s ->
  exists s',
    Stream_ReadUint256 s = (inl (uint256_SetBytes bytes), s')
    /\ r s' = rest /\ kind s' = -1.
Proof.
  intros Hb Hlen Hnz Hk Hr Hf.
  destruct (Kind_enc_string bytes rest s Hb ltac:(lia) Hk Hr Hf)
    as [(x & s1 & -> & Hx & HK & Hbv & Hr1 & Hk1)
       |(s1 & Hcanon & HK & Hr1 & Hf1)].
  - unfold Stream_ReadUint256, bind. rewrite HK. cbn.
    unfold get. rewrite Hbv.
    specialize (Hnz ltac:(discriminate)). cbn [nth] in Hnz.
    destruct (Z.eqb_spec x 0); [contradiction|].
    eexists. split; [reflexivity|]. split; [exact Hr1|reflexivity].
  - unfold Stream_ReadUint256, bind. rewrite HK.
    change (String =? List) with false. change (String =? Byte) with false.
    cbv iota. pose proof (len_nonneg bytes) as H0.
    destruct (Z.eqb_spec (len bytes) 0) as [Ez|Ez].
    + assert (bytes = []) by (apply len_le_0; lia). subst bytes. cbn.
      eexists. split; [reflexivity|]. split; [|reflexivity].
      cbn. rewrite Hr1. reflexivity.
    + assert (Hne : bytes <> []) by (intros ->; apply Ez; reflexivity).
      specialize (Hnz Hne).
      assert (Hrf : readFull (len bytes) s1 = (inl bytes, consume (len bytes) s1)).
      { rewrite readFull_ok; [|exact Hf1|].
        - rewrite Hr1, firstn_len_app. reflexivity.
        - rewrite Hr1, len_app. pose proof (len_nonneg rest). lia. }
      assert (Hc : (len bytes =? 1) && (nth 0 bytes 0 <? 128) = false).
      { destruct (Z.eqb_spec (len bytes) 1) as [E|]; [|reflexivity].
        destruct bytes as [|b0 [|b1 b']]; try discriminate E.
        - specialize (Hcanon b0 eq_refl). cbn.
          destruct (Z.ltb_spec b0 128); [lia|reflexivity].
        - exfalso. unfold len in E. cbn in E. lia. }
      assert (Hlz : (len bytes >? 0) && (nth 0 bytes 0 =? 0) = false).
      { destruct (Z.eqb_spec (nth 0 bytes 0) 0); [contradiction|].
        apply andb_false_r. }
      assert (Hrest : r (consume (len bytes) s1) = rest).
      { cbn. rewrite Hr1. apply skipn_len_app. }
      destruct (Z.leb_spec (len bytes) 32); [|lia].
      rewrite Hrf. cbv beta iota. rewrite Hc. unfold ret. rewrite Hlz.
      eexists. split; [reflexivity|]. split; [exact Hrest|reflexivity].
Qed.

(** X30. A 256-bit integer written by [writeUint256] is read back by
    [ReadUint256], word for word; and [ReadUint256] refuses a string of
    more than 32 bytes as too large for a uint256. *)
Theorem Uint256_roundtrip (z : uint256) (bytes rest : list Z) (s s2 : Stream) :
  uint256_ok z ->
  (kind s = -1 ->
   r s = str (encBuffer_writeUint256 z encBuffer_reset) ++ rest ->
   fits (len (str (encBuffer_writeUint256 z encBuffer_reset))) s ->
   exists s', Stream_ReadUint256 s = (inl z, s') /\ r s' = rest)
  /\ (is_bytes bytes -> 32 < len bytes < 2 ^ 64 ->
      kind s2 = -1 -> r s2 = enc_string bytes ++ rest ->
      fits (len (enc_string bytes)) s2 ->
      fst (Stream_ReadUint256 s2) = inr errUint256Large).
Proof.
  intros Hz. split.
  - intros Hk Hr Hf.
    destruct (uint256_words z Hz) as (Hv & E0 & E1 & E2 & E3).
    set (v := uint256_value z) in *.
    destruct (min_bytes_spec v ltac:(lia)) as (Hb & Hl & Hmv & Hn).
    pose proof (big_BitLen_nonneg v) as Hb0.
    assert (Hbit : big_BitLen v <= 256).
    { destruct (Z.eqb_spec v 0) as [E|Hnz]; [rewrite E; cbn; lia|].
      destruct (big_BitLen_spec v ltac:(lia)) as (_ & Hlo & _).
      destruct (Z.le_gt_cases (big_BitLen v) 256) as [|Hgt]; [assumption|].
      assert (2 ^ 256 <= 2 ^ (big_BitLen v - 1))
        by (apply Z.pow_le_mono_r; lia).
      lia. }
    assert (HL : len (min_bytes v) <= 32).
    { rewrite Hl.
      assert ((big_BitLen v + 7) / 8 < 33)
        by (apply Z.div_lt_upper_bound; lia).
      lia. }
    rewrite writeUint256_spec in * by exact Hz. fold v in Hr, Hf.
    rewrite writeBigInt_spec, writeBytes_enc_string in * by lia.
    cbn [str append_str encBuffer_reset app] in *.
    destruct (ReadUint256_ok (min_bytes v) rest s Hb HL)
      as (s' & HD & Hr' & _); try assumption.
    { intros Hne. apply Hn. intros E. apply Hne.
      apply len_le_0. rewrite Hl, E. cbn. lia. }
    exists s'. split; [|exact Hr']. rewrite HD. do 2 f_equal.
    unfold uint256_SetBytes. rewrite big_SetBytes_value, Hmv by exact Hb.
    rewrite E0, E1, E2, E3. destruct z; reflexivity.
  - intros Hb Hlen Hk Hr Hf.
    destruct (Kind_enc_string bytes rest s2 Hb ltac:(lia) Hk Hr Hf)
      as [(x & s1 & -> & Hx & HK & Hbv & Hr1 & Hk1)
         |(s1 & Hcanon & HK & Hr1 & Hf1)].
    + cbn in Hlen. lia.
    + unfold Stream_ReadUint256, bind. rewrite HK.
      change (String =? List) with false. change (String =? Byte) with false.
      cbv iota.
      destruct (Z.eqb_spec (len bytes) 0); [lia|].
      destruct (Z.leb_spec (len bytes) 32); [lia|]. reflexivity.
Qed.

Lemma Uint256_roundtrip_witness :
  (exists s',
     Stream_ReadUint256
       (Stream_Reset (str (encBuffer_writeUint256 z_example encBuffer_reset)
                        ++ [0x01]) true 0)
     = (inl z_example, s')
     /\ r s' = [0x01])
  /\ fst (Stream_ReadUint256
            (Stream_Reset (enc_string (repeat 0x61 33) ++ [0x01]) true 0))
     = inr errUint256Large.
Proof.
  assert (Hz : uint256_ok z_example)
    by (unfold uint256_ok, z_example; cbn; lia).
  destruct (Uint256_roundtrip z_example (repeat 0x61 33) [0x01]
              (Stream_Reset
                 (str (encBuffer_writeUint256 z_example encBuffer_reset)
                  ++ [0x01]) true 0)
              (Stream_Reset (enc_string (repeat 0x61 33) ++ [0x01]) true 0)
              Hz) as [Hread Hlarge].
  split.
  - apply Hread.
    + reflexivity.
    + reflexivity.
    + split; [exact I|]. intros _. vm_compute. discriminate.
  - apply Hlarge.
    + repeat constructor; unfold is_byte; lia.
    + vm_compute. split; reflexivity.
    + reflexivity.
    + reflexivity.
    + split; [exact I|]. intros _. vm_compute. discriminate.
Defined.
